(** * Sequential model of the lock-free ordered list and skip list

    The C++ sources [List.h], [Skiplist.h] and [Epochs.h] are embedded as
    state-passing functions over an explicit heap.  A pointer is an optional
    heap address ([None] is [nullptr]), a markable reference is the pair
    (successor pointer, deletion mark), every [while (true)] loop is a
    fixpoint on a loop budget, and dereferencing [nullptr] is an explicit
    [Fault].  Each operation runs without interference from other threads;
    states in which another thread is stopped half way through an operation
    are ordinary heaps on which the operations can be run. *)

From Stdlib Require Import ZArith Lia.
From stdpp Require Import base tactics option list sets sorting.

Set Warnings "-clear-no-such-hyp".

Set Default Proof Using "Type".

(** ** A state and error monad for the operations *)

Inductive res (A : Type) : Type :=
| Ok (a : A)
| Fault
| OutOfFuel.
Arguments Ok {A} a.
Arguments Fault {A}.
Arguments OutOfFuel {A}.

Definition M (S A : Type) : Type := S -> res (A * S).

Definition ret {S A : Type} (a : A) : M S A := fun s => Ok (a, s).

Definition bind {S A B : Type} (m : M S A) (k : A -> M S B) : M S B :=
  fun s =>
    match m s with
    | Ok (a, s') => k a s'
    | Fault => Fault
    | OutOfFuel => OutOfFuel
    end.

Definition fault {S A : Type} : M S A := fun _ => Fault.
Definition timeout {S A : Type} : M S A := fun _ => OutOfFuel.
Definition gets {S A : Type} (f : S -> A) : M S A := fun s => Ok (f s, s).
Definition modify {S : Type} (f : S -> S) : M S unit := fun s => Ok (tt, f s).

Declare Scope monad_scope.
Delimit Scope monad_scope with monad.
Notation "'let*' x := m 'in' k" := (bind m (fun x => k))
  (at level 10, x pattern, m at level 100, k at level 200) : monad_scope.
Notation "m ;; k" := (bind m (fun _ => k))
  (at level 100, right associativity) : monad_scope.
Open Scope monad_scope.

(** Pointers and the 64-bit key type. *)

Abbreviation addr := nat.
Abbreviation ptr := (option nat).

Definition UINT64_MAX : Z := 2 ^ 64 - 1.
Definition thread_id : nat := 0.

(** ** Epochs.h

    Every method of [EpochManager] is an empty stub.  The model keeps the
    sequence of calls made on it, so that bracketing and retirement can be
    stated; no operation ever reads that sequence.  Recorded are the calls
    that bracket an operation and those that retire a node; the cells in
    which the sources keep a (pointer, mark) pair, replaced and retired by
    every [set] and [compareAndSet], are held by value. *)

Inductive epoch_call : Type :=
| EnterEpoch (tid : nat)
| LeaveEpoch (tid : nat)
| RetireNode (a : ptr) (epoch : Z).

Definition currentEpoch : Z := 0.

(** Protection depth of the calling thread: entries minus exits. *)
Fixpoint depth (calls : list epoch_call) : Z :=
  match calls with
  | [] => 0
  | EnterEpoch _ :: cs => depth cs + 1
  | LeaveEpoch _ :: cs => depth cs - 1
  | RetireNode _ _ :: cs => depth cs
  end.

Definition retired (calls : list epoch_call) : list ptr :=
  omap (fun c => match c with RetireNode a _ => Some a | _ => None end) calls.

(** ** List.h *)

Module LockFreeList.

Record LMarkableReference : Type := MkRef { val_ : ptr; marked_ : bool }.

Record LNode (T : Type) : Type := MkNode {
  next : LMarkableReference;
  key : Z;
  data : T
}.
Arguments MkNode {T} next key data.
Arguments next {T} _.
Arguments key {T} _.
Arguments data {T} _.

(** The memory: the nodes allocated so far (an address is the allocation
    index; nothing is ever freed, the reclaimer being a stub) and the calls
    made on the epoch manager, most recent first. *)
Record mem (T : Type) : Type := MkMem {
  heap : list (LNode T);
  calls : list epoch_call
}.
Arguments MkMem {T} heap calls.
Arguments heap {T} _.
Arguments calls {T} _.

(** The two fields of [class List]. *)
Record List : Type := MkList { head : ptr; tail : ptr }.

Section Ops.
Context {T : Type}.
Local Abbreviation St := (mem T).

Definition enterEpoch (tid : nat) : M St unit :=
  modify (fun m => MkMem (heap m) (EnterEpoch tid :: calls m)).
Definition leaveEpoch (tid : nat) : M St unit :=
  modify (fun m => MkMem (heap m) (LeaveEpoch tid :: calls m)).
Definition retireLNodeBase (p : ptr) (e : Z) : M St unit :=
  modify (fun m => MkMem (heap m) (RetireNode p e :: calls m)).

(** [*p] *)
Definition load (p : ptr) : M St (LNode T) :=
  fun m =>
    match p with
    | None => Fault
    | Some a => match heap m !! a with Some n => Ok (n, m) | None => Fault end
    end.

Definition store_next (p : ptr) (r : LMarkableReference) : M St unit :=
  let* n := load p in
  match p with
  | None => fault
  | Some a => modify (fun m => MkMem (<[a := MkNode r (key n) (data n)]> (heap m)) (calls m))
  end.

(** [p->next.get(mark)] *)
Definition get_next (p : ptr) : M St (ptr * bool) :=
  let* n := load p in ret (val_ (next n), marked_ (next n)).

Definition getReference (p : ptr) : M St ptr :=
  let* n := load p in ret (val_ (next n)).

Definition getMark (p : ptr) : M St bool :=
  let* n := load p in ret (marked_ (next n)).

(** [p->next.set(val, mark)] *)
Definition set_next (p : ptr) (val : ptr) (mark : bool) : M St unit :=
  store_next p (MkRef val mark).

Definition ptr_eqb (p q : ptr) : bool := bool_decide (p = q).

(** [p->next.attemptMark(expectedPtr, newMark)] *)
Definition attemptMark (p : ptr) (expectedPtr : ptr) (newMark : bool) : M St bool :=
  let* n := load p in
  if negb (ptr_eqb (val_ (next n)) expectedPtr) then ret false
  else if eqb (marked_ (next n)) newMark then ret true
  else store_next p (MkRef (val_ (next n)) newMark) ;; ret true.

(** [p->next.compareAndSet(expectedPtr, newPtr, expectedMark, newMark)] *)
Definition compareAndSet (p : ptr) (expectedPtr newPtr : ptr)
    (expectedMark newMark : bool) : M St bool :=
  let* n := load p in
  if negb (ptr_eqb (val_ (next n)) expectedPtr)
     || negb (eqb (marked_ (next n)) expectedMark)
  then ret false
  else store_next p (MkRef newPtr newMark) ;; ret true.

(** [new LNode<T>(k, d)]: the [next] member is default constructed. *)
Definition new_LNode (k : Z) (d : T) : M St ptr :=
  fun m => Ok (Some (length (heap m)),
               MkMem (heap m ++ [MkNode (MkRef None false) k d]) (calls m)).

(** *** Window::find

    [snip_loop] is the inner [while (marked)], [walk] the enclosing
    [while (true)] and [find] the outermost loop entered at [RETRY].  A
    failed snip makes [walk] give up with [None], which is the [goto]. *)

Inductive snipped : Type :=
| Retry
| Clean (curr succ : ptr).

Fixpoint snip_loop (fuel : nat) (pred curr succ : ptr) (marked : bool)
    : M St snipped :=
  if marked then
    match fuel with
    | 0 => timeout
    | S fuel' =>
        let* snip := compareAndSet pred curr succ false false in
        if negb snip then ret Retry
        else
          let curr := succ in
          let* (succ, marked) := get_next curr in
          snip_loop fuel' pred curr succ marked
    end
  else ret (Clean curr succ).

Fixpoint walk (n fuel : nat) (key0 : Z) (pred curr : ptr) : M St (option (ptr * ptr)) :=
  match fuel with
  | 0 => timeout
  | S fuel' =>
      let* (succ, marked) := get_next curr in
      let* r := snip_loop n pred curr succ marked in
      match r with
      | Retry => ret None
      | Clean curr succ =>
          let* c := load curr in
          if (key c >=? key0)%Z then ret (Some (pred, curr))
          else walk n fuel' key0 curr succ
      end
  end.

Fixpoint find_loop (n fuel : nat) (hd : ptr) (key0 : Z) : M St (ptr * ptr) :=
  match fuel with
  | 0 => timeout
  | S fuel' =>
      let pred := hd in
      let* curr := getReference pred in
      let* r := walk n n key0 pred curr in
      match r with
      | Some w => ret w
      | None => find_loop n fuel' hd key0
      end
  end.

Definition find (n : nat) (hd : ptr) (key0 : Z) : M St (ptr * ptr) :=
  find_loop n n hd key0.

(** *** List::List *)
Definition new_List (default : T) : M St List :=
  let* hd := new_LNode 0 default in
  let* tl := new_LNode UINT64_MAX default in
  set_next hd tl false ;;
  ret (MkList hd tl).

(** *** List::add *)
Fixpoint add_loop (n fuel : nat) (l : List) (key0 : Z) (item : T) : M St bool :=
  match fuel with
  | 0 => timeout
  | S fuel' =>
      let* (pred, curr) := find n (head l) key0 in
      let* c := load curr in
      if (key c =? key0)%Z then ret false
      else
        let* node := new_LNode key0 item in
        set_next node curr false ;;
        let* ok := compareAndSet pred curr node false false in
        if ok then leaveEpoch thread_id ;; ret true
        else add_loop n fuel' l key0 item
  end.

Definition add (n : nat) (l : List) (key0 : Z) (item : T) : M St bool :=
  enterEpoch thread_id ;;
  add_loop n n l key0 item.

(** *** List::remove

    [remove_mark] is the loop up to the successful [attemptMark] (or the
    [return false]); [remove_unlink] is what the remover does after it. *)
Fixpoint remove_mark (n fuel : nat) (l : List) (key0 : Z)
    : M St (option (ptr * ptr * ptr)) :=
  match fuel with
  | 0 => timeout
  | S fuel' =>
      let* (pred, curr) := find n (head l) key0 in
      let* c := load curr in
      if negb (key c =? key0)%Z then
        leaveEpoch thread_id ;; ret None
      else
        let* succ := getReference curr in
        let* snip := attemptMark curr succ true in
        if negb snip then remove_mark n fuel' l key0
        else ret (Some (pred, curr, succ))
  end.

Definition remove_unlink (pred curr succ : ptr) : M St bool :=
  compareAndSet pred curr succ false false ;;
  retireLNodeBase curr currentEpoch ;;
  leaveEpoch thread_id ;;
  ret true.

Definition remove (n : nat) (l : List) (key0 : Z) : M St bool :=
  enterEpoch thread_id ;;
  let* r := remove_mark n n l key0 in
  match r with
  | None => ret false
  | Some (pred, curr, succ) => remove_unlink pred curr succ
  end.

(** *** List::contains *)
Fixpoint contains_loop (fuel : nat) (key0 : Z) (curr : ptr) : M St bool :=
  match fuel with
  | 0 => timeout
  | S fuel' =>
      match curr with
      | None => ret false
      | Some _ =>
          let* succ := getReference curr in
          let* marked := getMark curr in
          let* c := load curr in
          if (key c >=? key0)%Z then ret ((key c =? key0)%Z && negb marked)
          else contains_loop fuel' key0 succ
      end
  end.

Definition contains (n : nat) (l : List) (key0 : Z) : M St bool :=
  contains_loop n key0 (head l).

(** *** List::get

    The result [T*] is modelled by the payload it points to; [None] is
    [nullptr]. *)
Fixpoint get_loop (fuel : nat) (key0 : Z) (curr : ptr) (marked : bool)
    : M St (ptr * bool) :=
  match fuel with
  | 0 => timeout
  | S fuel' =>
      let* c := load curr in
      if (key c <? key0)%Z then
        let* (curr', marked') := get_next curr in
        get_loop fuel' key0 curr' marked'
      else ret (curr, marked)
  end.

Definition get (n : nat) (l : List) (key0 : Z) : M St (option T) :=
  let* (curr, marked) := get_loop n key0 (head l) false in
  let* c := load curr in
  if (key c =? key0)%Z && negb marked then ret (Some (data c))
  else ret None.

End Ops.

End LockFreeList.

(** ** Skiplist.h *)

Module LockFreeSkipList.

Record SNMarkableReference : Type := MkRef { val_ : ptr; marked_ : bool }.

Definition MAX_LEVEL : nat := 16.

(** [next] is the array of [MAX_LEVEL + 1] markable pointers; [data] is the
    [void*] payload pointer, modelled by the payload it points to ([None] is
    [nullptr]). *)
Record SNodeBase (T : Type) : Type := MkNode {
  next : list SNMarkableReference;
  key : Z;
  data : option T;
  topLevel : nat
}.
Arguments MkNode {T} next key data topLevel.
Arguments next {T} _.
Arguments key {T} _.
Arguments data {T} _.
Arguments topLevel {T} _.

Record mem (T : Type) : Type := MkMem {
  heap : list (SNodeBase T);
  calls : list epoch_call
}.
Arguments MkMem {T} heap calls.
Arguments heap {T} _.
Arguments calls {T} _.

(** The two fields of [class SkipList]. *)
Record SkipList : Type := MkSkipList { head : ptr; tail : ptr }.

(** Conversion of an integer argument to the [int] parameter of
    [SkipList::add] (two's complement wrap-around on 32 bits), and of an
    [int] to [uint64_t]. *)
Definition to_int (z : Z) : Z := ((z + 2 ^ 31) mod 2 ^ 32 - 2 ^ 31)%Z.
Definition to_uint64 (z : Z) : Z := (z mod 2 ^ 64)%Z.

(** [randomLevel]: [flips] are the outcomes of the successive tests
    [std::rand() / double(RAND_MAX) < p]. *)
Fixpoint randomLevel (maxIndex : nat) (flips : list bool) : nat :=
  match maxIndex, flips with
  | S m, true :: fs => S (randomLevel m fs)
  | _, _ => 0
  end.

Section Ops.
Context {T : Type}.
Local Abbreviation St := (mem T).

Definition enterEpoch (tid : nat) : M St unit :=
  modify (fun m => MkMem (heap m) (EnterEpoch tid :: calls m)).
Definition leaveEpoch (tid : nat) : M St unit :=
  modify (fun m => MkMem (heap m) (LeaveEpoch tid :: calls m)).
Definition retireSNodeBase (p : ptr) (e : Z) : M St unit :=
  modify (fun m => MkMem (heap m) (RetireNode p e :: calls m)).

(** [*p] *)
Definition load (p : ptr) : M St (SNodeBase T) :=
  fun m =>
    match p with
    | None => Fault
    | Some a => match heap m !! a with Some n => Ok (n, m) | None => Fault end
    end.

(** [a[i]] on an array held as a list; out of bounds is a fault. *)
Definition index {A : Type} (a : list A) (i : nat) : M St A :=
  match a !! i with Some x => ret x | None => fault end.

(** [p->next[level]] read as a whole. *)
Definition load_next (p : ptr) (level : nat) : M St SNMarkableReference :=
  let* n := load p in index (next n) level.

Definition store_next (p : ptr) (level : nat) (r : SNMarkableReference) : M St unit :=
  let* n := load p in
  let* _ := index (next n) level in
  match p with
  | None => fault
  | Some a =>
      modify (fun m =>
        MkMem (<[a := MkNode (<[level := r]> (next n)) (key n) (data n) (topLevel n)]> (heap m))
              (calls m))
  end.

(** [p->next[level].get(mark)] *)
Definition get_next (p : ptr) (level : nat) : M St (ptr * bool) :=
  let* r := load_next p level in ret (val_ r, marked_ r).

Definition getReference (p : ptr) (level : nat) : M St ptr :=
  let* r := load_next p level in ret (val_ r).

(** [p->next[level].set(val, mark)] *)
Definition set_next (p : ptr) (level : nat) (val : ptr) (mark : bool) : M St unit :=
  store_next p level (MkRef val mark).

Definition ptr_eqb (p q : ptr) : bool := bool_decide (p = q).

(** [p->next[level].attemptMark(expectedPtr, newMark)] *)
Definition attemptMark (p : ptr) (level : nat) (expectedPtr : ptr) (newMark : bool)
    : M St bool :=
  let* r := load_next p level in
  if negb (ptr_eqb (val_ r) expectedPtr) then ret false
  else if eqb (marked_ r) newMark then ret true
  else store_next p level (MkRef (val_ r) newMark) ;; ret true.

(** [p->next[level].compareAndSet(expectedPtr, newPtr, expectedMark, newMark)] *)
Definition compareAndSet (p : ptr) (level : nat) (expectedPtr newPtr : ptr)
    (expectedMark newMark : bool) : M St bool :=
  let* r := load_next p level in
  if negb (ptr_eqb (val_ r) expectedPtr) || negb (eqb (marked_ r) expectedMark)
  then ret false
  else store_next p level (MkRef newPtr newMark) ;; ret true.

(** [new SNode<T>(key, value, height)]: every [next[i]] is set to
    [(nullptr, false)]. *)
Definition new_SNode (k : Z) (value : option T) (height : nat) : M St ptr :=
  fun m =>
    Ok (Some (length (heap m)),
        MkMem (heap m ++ [MkNode (replicate (S MAX_LEVEL) (MkRef None false)) k value height])
              (calls m)).

(** *** SkipList::SkipList *)
Fixpoint link_head (cnt i : nat) (hd tl : ptr) : M St unit :=
  match cnt with
  | 0 => ret tt
  | S cnt' => set_next hd i tl false ;; link_head cnt' (S i) hd tl
  end.

Definition new_SkipList : M St SkipList :=
  let* hd := new_SNode 0 None MAX_LEVEL in
  let* tl := new_SNode UINT64_MAX None MAX_LEVEL in
  link_head (S MAX_LEVEL) 0 hd tl ;;
  ret (MkSkipList hd tl).

(** *** SkipList::find

    [snip_loop] is the inner [while (marked)], [walk] the [while (true)]
    around it, [find_levels] the [for] over the levels and [find_loop] the
    loop entered at [RETRY].  [preds] and [succs] are the caller's arrays. *)

Inductive snipped : Type :=
| Retry
| Clean (curr succ : ptr).

(** [succ = (level <= curr->topLevel) ? curr->next[level].get(marked) : tail] *)
Definition succ_of (sl : SkipList) (level : nat) (curr : ptr) (marked : bool)
    : M St (ptr * bool) :=
  let* c := load curr in
  if level <=? topLevel c then get_next curr level
  else ret (tail sl, marked).

Fixpoint snip_loop (fuel : nat) (sl : SkipList) (level : nat)
    (pred curr succ : ptr) (marked : bool) : M St snipped :=
  if marked then
    match fuel with
    | 0 => timeout
    | S fuel' =>
        let* ok := compareAndSet pred level curr succ false false in
        if negb ok then ret Retry
        else
          let* curr := getReference pred level in
          match curr with
          | None => ret (Clean curr succ)
          | Some _ =>
              let* (succ, marked) := succ_of sl level curr marked in
              snip_loop fuel' sl level pred curr succ marked
          end
    end
  else ret (Clean curr succ).

Fixpoint walk (n fuel : nat) (sl : SkipList) (key0 : Z) (level : nat)
    (pred curr : ptr) : M St (option (ptr * ptr)) :=
  match fuel with
  | 0 => timeout
  | S fuel' =>
      let* (succ, marked) := succ_of sl level curr false in
      let* r := snip_loop n sl level pred curr succ marked in
      match r with
      | Retry => ret None
      | Clean curr succ =>
          let* c := load curr in
          if (key c <? key0)%Z then walk n fuel' sl key0 level curr succ
          else ret (Some (pred, curr))
      end
  end.

Inductive pass : Type :=
| Restart (preds succs : list ptr)
| Done (curr : ptr) (preds succs : list ptr).

(** Levels [level], [level - 1], ..., [0]. *)
Fixpoint find_levels (n : nat) (sl : SkipList) (key0 : Z) (level : nat)
    (preds succs : list ptr) : M St pass :=
  let pred := head sl in
  let* curr := getReference pred level in
  let* r := walk n n sl key0 level pred curr in
  match r with
  | None => ret (Restart preds succs)
  | Some (pred, curr) =>
      let preds := <[level := pred]> preds in
      let succs := <[level := curr]> succs in
      match level with
      | 0 => ret (Done curr preds succs)
      | S level' => find_levels n sl key0 level' preds succs
      end
  end.

Fixpoint find_loop (n fuel : nat) (sl : SkipList) (key0 : Z)
    (preds succs : list ptr) : M St (bool * list ptr * list ptr) :=
  match fuel with
  | 0 => timeout
  | S fuel' =>
      let* r := find_levels n sl key0 MAX_LEVEL preds succs in
      match r with
      | Restart preds succs => find_loop n fuel' sl key0 preds succs
      | Done curr preds succs =>
          let* c := load curr in
          ret ((key c =? key0)%Z, preds, succs)
      end
  end.

Definition find (n : nat) (sl : SkipList) (key0 : Z) (preds succs : list ptr)
    : M St (bool * list ptr * list ptr) :=
  find_loop n n sl key0 preds succs.

(** *** SkipList::add *)

(** Step 1: [for (level = bottomLevel; level <= topLevel; ++level)]. *)
Fixpoint init_links (cnt level : nat) (newNode : ptr) (succs : list ptr) : M St unit :=
  match cnt with
  | 0 => ret tt
  | S cnt' =>
      let* s := index succs level in
      set_next newNode level s false ;;
      init_links cnt' (S level) newNode succs
  end.

(** Step 3, one level: the [while (true)] that retries the CAS. *)
Fixpoint link_level (n fuel : nat) (sl : SkipList) (key0 : Z) (level : nat)
    (newNode : ptr) (preds succs : list ptr) : M St (list ptr * list ptr) :=
  match fuel with
  | 0 => timeout
  | S fuel' =>
      let* pred := index preds level in
      let* succ := index succs level in
      let* ok := compareAndSet pred level succ newNode false false in
      if ok then ret (preds, succs)
      else
        let* (_, preds, succs) := find n sl key0 preds succs in
        link_level n fuel' sl key0 level newNode preds succs
  end.

(** Step 3: [for (level = bottomLevel + 1; level <= topLevel; ++level)]. *)
Fixpoint link_levels (n cnt : nat) (sl : SkipList) (key0 : Z) (level : nat)
    (newNode : ptr) (preds succs : list ptr) : M St unit :=
  match cnt with
  | 0 => ret tt
  | S cnt' =>
      let* (preds, succs) := link_level n n sl key0 level newNode preds succs in
      link_levels n cnt' sl key0 (S level) newNode preds succs
  end.

Fixpoint add_loop (n fuel : nat) (sl : SkipList) (key0 : Z) (x : T) (topLevel0 : nat)
    (newNode : ptr) (preds succs : list ptr) : M St bool :=
  match fuel with
  | 0 => timeout
  | S fuel' =>
      let* (found, preds, succs) := find n sl (to_uint64 key0) preds succs in
      if found : bool then
        leaveEpoch thread_id ;; ret false
      else
        let* newNode :=
          match newNode with
          | None => new_SNode (to_uint64 key0) (Some x) topLevel0
          | Some _ => ret newNode
          end in
        init_links (S topLevel0) 0 newNode succs ;;
        let* pred := index preds 0 in
        let* succ := index succs 0 in
        let* ok := compareAndSet pred 0 succ newNode false false in
        if negb ok then add_loop n fuel' sl key0 x topLevel0 newNode preds succs
        else
          link_levels n topLevel0 sl (to_uint64 key0) 1 newNode preds succs ;;
          leaveEpoch thread_id ;;
          ret true
  end.

(** [bool add(int key, T x)]: [key] is the integer the caller passes, which
    is first converted to the [int] parameter; [flips] drives
    [randomLevel]. *)
Definition add (n : nat) (sl : SkipList) (key : Z) (x : T) (flips : list bool)
    : M St bool :=
  let key0 := to_int key in
  enterEpoch thread_id ;;
  let topLevel0 := randomLevel MAX_LEVEL flips in
  add_loop n n sl key0 x topLevel0 None
    (replicate (S MAX_LEVEL) None) (replicate (S MAX_LEVEL) None).

(** *** SkipList::remove *)

(** The [do ... while] of step 1 at one level. *)
Fixpoint mark_level (fuel : nat) (node : ptr) (level : nat) : M St unit :=
  match fuel with
  | 0 => timeout
  | S fuel' =>
      let* (succ, marked) := get_next node level in
      if marked : bool then ret tt
      else
        let* ok := attemptMark node level succ true in
        if negb ok then mark_level fuel' node level else ret tt
  end.

(** Step 1: [for (level = nodeToRemove->topLevel; level > bottomLevel; --level)]. *)
Fixpoint mark_upper (n : nat) (node : ptr) (level : nat) : M St unit :=
  match level with
  | 0 => ret tt
  | S level' => mark_level n node level ;; mark_upper n node level'
  end.

(** Step 2; [false] is the [return false] taken when the mark is already set. *)
Fixpoint mark_bottom (fuel : nat) (node : ptr) : M St bool :=
  match fuel with
  | 0 => timeout
  | S fuel' =>
      let* (succ, marked) := get_next node 0 in
      if marked : bool then ret false
      else
        let* ok := compareAndSet node 0 succ succ false true in
        if negb ok then mark_bottom fuel' node else ret true
  end.

(** Step 3; [false] is the [goto RETRY_REMOVE]. *)
Fixpoint unlink_levels (cnt level : nat) (node : ptr) (preds : list ptr) : M St bool :=
  match cnt with
  | 0 => ret true
  | S cnt' =>
      let* pred := index preds level in
      let* (succ, _) := get_next node level in
      let* ok := compareAndSet pred level node succ false false in
      if negb ok then ret false
      else unlink_levels cnt' (S level) node preds
  end.

Fixpoint remove_loop (n fuel : nat) (sl : SkipList) (key0 : Z)
    (preds succs : list ptr) : M St bool :=
  match fuel with
  | 0 => timeout
  | S fuel' =>
      let* (found, preds, succs) := find n sl key0 preds succs in
      if negb found then
        leaveEpoch thread_id ;; ret false
      else
        let* nodeToRemove := index succs 0 in
        let* r := load nodeToRemove in
        mark_upper n nodeToRemove (topLevel r) ;;
        let* mine := mark_bottom n nodeToRemove in
        if negb mine then ret false
        else
          let* unlinked := unlink_levels (S (topLevel r)) 0 nodeToRemove preds in
          if negb unlinked then remove_loop n fuel' sl key0 preds succs
          else
            retireSNodeBase nodeToRemove currentEpoch ;;
            leaveEpoch thread_id ;;
            ret true
  end.

Definition remove (n : nat) (sl : SkipList) (key0 : Z) : M St bool :=
  enterEpoch thread_id ;;
  remove_loop n n sl key0 (replicate (S MAX_LEVEL) None) (replicate (S MAX_LEVEL) None).

(** *** SkipList::contains *)

(** The inner [while (marked)]. *)
Fixpoint skip_marked (fuel : nat) (level : nat) (curr succ : ptr) (marked : bool)
    : M St (ptr * ptr) :=
  if marked then
    match fuel with
    | 0 => timeout
    | S fuel' =>
        let* curr := getReference curr level in
        match curr with
        | None => ret (curr, succ)
        | Some _ =>
            let* (succ, marked) := get_next curr level in
            skip_marked fuel' level curr succ marked
        end
    end
  else ret (curr, succ).

(** The [while (true)] of one level; the result is [(pred, curr)]. *)
Fixpoint contains_walk (n fuel : nat) (key0 : Z) (level : nat) (pred curr : ptr)
    : M St (ptr * ptr) :=
  match fuel with
  | 0 => timeout
  | S fuel' =>
      match curr with
      | None => ret (pred, curr)
      | Some _ =>
          let* (succ, marked) := get_next curr level in
          let* (curr, succ) := skip_marked n level curr succ marked in
          match curr with
          | None => ret (pred, curr)
          | Some _ =>
              let* c := load curr in
              if (key c <? key0)%Z then contains_walk n fuel' key0 level curr succ
              else ret (pred, curr)
          end
      end
  end.

(** Levels [level], ..., [0]; the result is the last [curr]. *)
Fixpoint contains_levels (n : nat) (key0 : Z) (level : nat) (pred : ptr) : M St ptr :=
  let* curr := getReference pred level in
  let* (pred, curr) := contains_walk n n key0 level pred curr in
  match level with
  | 0 => ret curr
  | S level' => contains_levels n key0 level' pred
  end.

Definition contains (n : nat) (sl : SkipList) (key0 : Z) : M St bool :=
  let* curr := contains_levels n key0 (MAX_LEVEL - 1) (head sl) in
  let* c := load curr in
  ret (key c =? key0)%Z.

(** *** SkipList::get *)

Definition null_or_tail (sl : SkipList) (curr : ptr) : bool :=
  match curr with
  | None => true
  | Some _ => ptr_eqb curr (tail sl)
  end.

Fixpoint get_skip (fuel : nat) (sl : SkipList) (level : nat) (curr succ : ptr)
    (marked : bool) : M St (ptr * ptr) :=
  if marked then
    match fuel with
    | 0 => timeout
    | S fuel' =>
        let curr := succ in
        if null_or_tail sl curr then ret (curr, succ)
        else
          let* (succ, marked) := get_next curr level in
          get_skip fuel' sl level curr succ marked
    end
  else ret (curr, succ).

Fixpoint get_walk (n fuel : nat) (sl : SkipList) (key0 : Z) (level : nat)
    (pred curr : ptr) : M St (ptr * ptr) :=
  match fuel with
  | 0 => timeout
  | S fuel' =>
      if null_or_tail sl curr then ret (pred, curr)
      else
        let* (succ, marked) := get_next curr level in
        let* (curr, succ) := get_skip n sl level curr succ marked in
        if null_or_tail sl curr then ret (pred, curr)
        else
          let* c := load curr in
          if (key c <? key0)%Z then get_walk n fuel' sl key0 level curr succ
          else ret (pred, curr)
  end.

Fixpoint get_levels (n : nat) (sl : SkipList) (key0 : Z) (level : nat) (pred : ptr)
    : M St ptr :=
  let* curr := getReference pred level in
  let* (pred, curr) := get_walk n n sl key0 level pred curr in
  match level with
  | 0 => ret curr
  | S level' => get_levels n sl key0 level' pred
  end.

Definition get (n : nat) (sl : SkipList) (key0 : Z) : M St (option T) :=
  let* curr := get_levels n sl key0 (MAX_LEVEL - 1) (head sl) in
  match curr with
  | None => ret None
  | Some _ =>
      let* (_, nodeMarked) := get_next curr 0 in
      let* c := load curr in
      if (key c =? key0)%Z && negb nodeMarked then ret (data c)
      else ret None
  end.

(** *** SkipList::popMin *)
Fixpoint popMin_loop (fuel : nat) (sl : SkipList) : M St (option T) :=
  match fuel with
  | 0 => timeout
  | S fuel' =>
      let* curr := getReference (head sl) 0 in
      if null_or_tail sl curr then ret None
      else
        let* (succ, marked) := get_next curr 0 in
        if marked : bool then
          compareAndSet (head sl) 0 curr succ false false ;;
          popMin_loop fuel' sl
        else
          let* ok := compareAndSet curr 0 succ succ false true in
          if ok then
            compareAndSet (head sl) 0 curr succ false false ;;
            let* c := load curr in
            let val := data c in
            retireSNodeBase curr currentEpoch ;;
            ret val
          else popMin_loop fuel' sl
  end.

Definition popMin (n : nat) (sl : SkipList) : M St (option T) :=
  popMin_loop n sl.

End Ops.

End LockFreeSkipList.


(** * Vocabulary of the specifications

    The predicates, ghost data and concrete states that the statements
    below are written with. *)

(** ** Chains of nodes

    [nx a] is the markable reference held in the [next] of the node at
    address [a] (at the level considered).  [path a xs] says that [a] and
    the nodes of [xs] are linked in this order by unmarked references;
    [end_of a xs] is the last node of such a chain. *)

Section Chain.
Variable nx : addr -> option (ptr * bool).

Fixpoint path (a : addr) (xs : list addr) : Prop :=
  match xs with
  | [] => True
  | x :: xs' => nx a = Some (Some x, false) /\ path x xs'
  end.

End Chain.

Fixpoint end_of (a : addr) (xs : list addr) : addr :=
  match xs with
  | [] => a
  | x :: xs' => end_of x xs'
  end.

(** Strict order of the keys held at two addresses. *)
Definition klt (ky : addr -> Z) (a b : addr) : Prop := (ky a < ky b)%Z.

(** Computations that never change the state. *)
Definition readonly {S A : Type} (c : M S A) : Prop :=
  forall s a s', c s = Ok (a, s') -> s' = s.

(** ** The ordered list *)

Section ListVocabulary.
Import LockFreeList.
Context {T : Type}.
Implicit Types (m : mem T) (l : List) (h : list (LNode T)).

(** The reference held by the node at [a], its key, and the heap in which
    that reference has been replaced. *)
Definition nxL h (a : addr) : option (ptr * bool) :=
  (fun n => (val_ (next n), marked_ (next n))) <$> h !! a.

Definition kyL h (a : addr) : Z := from_option key 0%Z (h !! a).

Definition updL h (a : addr) (p : ptr) (b : bool) : list (LNode T) :=
  match h !! a with
  | Some n => <[a := MkNode (MkRef p b) (key n) (data n)]> h
  | None => h
  end.

(** [Lrep l m hd tl cs]: in memory [m] the list [l] is the chain
    [hd -> cs -> tl] of unmarked nodes with strictly increasing keys, from
    the head sentinel (key 0) to the tail sentinel (key [UINT64_MAX]). *)
Record Lrep l m (hd tl : addr) (cs : list addr) : Prop := MkLrep {
  Lrep_head : head l = Some hd;
  Lrep_tail : tail l = Some tl;
  Lrep_path : path (nxL (heap m)) hd (cs ++ [tl]);
  Lrep_sorted : StronglySorted (klt (kyL (heap m))) (hd :: cs ++ [tl]);
  Lrep_hd_key : kyL (heap m) hd = 0%Z;
  Lrep_tl_key : kyL (heap m) tl = UINT64_MAX;
  Lrep_tl_ref : exists p, nxL (heap m) tl = Some (p, false)
}.

(** The level-0 structural invariant of the list. *)
Definition Linv l m : Prop := exists hd tl cs, Lrep l m hd tl cs.

(** The keys held by the live nodes. *)
Definition Lkeys m (cs : list addr) : list Z := kyL (heap m) <$> cs.

(** The heap after a successful [add]: the new node is allocated, pointed
    to [c], and linked after [p]. *)
Definition heap_added h (p c : addr) (k : Z) (v : T) : list (LNode T) :=
  updL (updL (h ++ [MkNode (MkRef None false) k v]) (length h) (Some c) false)
       p (Some (length h)) false.

(** The heap after a successful [remove]: [c] is marked, then unlinked from
    its predecessor [p]. *)
Definition heap_removed h (p c y : addr) : list (LNode T) :=
  updL (updL h c (Some y) true) p (Some y) false.

(** [Lshape] is the chain from head to tail in which inner nodes may carry
    a deletion mark: the states a reader can meet while removers are half
    way through.  [unmark nx] forgets the marks of the references, and
    [markL h a] is the mark of the node at [a]. *)
Definition unmark (nx : addr -> option (ptr * bool)) (a : addr) : option (ptr * bool) :=
  (fun r => (r.1, false)) <$> nx a.

Definition markL h (a : addr) : bool :=
  from_option (fun n => marked_ (next n)) false (h !! a).

Record Lshape l m (hd tl : addr) (cs : list addr) : Prop := MkLshape {
  Lshape_head : head l = Some hd;
  Lshape_tail : tail l = Some tl;
  Lshape_path : path (unmark (nxL (heap m))) hd (cs ++ [tl]);
  Lshape_sorted : StronglySorted (klt (kyL (heap m))) (hd :: cs ++ [tl]);
  Lshape_hd_key : kyL (heap m) hd = 0%Z;
  Lshape_tl_key : kyL (heap m) tl = UINT64_MAX;
  Lshape_hd_live : markL (heap m) hd = false;
  Lshape_tl_node : is_Some (heap m !! tl)
}.

(** The mark that [List::get] has in hand when it stops at the end of the
    chain [c -> ys]: that of the node before the last one. *)
Fixpoint pred_mark h (c : addr) (ys : list addr) (mk : bool) : bool :=
  match ys with
  | [] => mk
  | y :: ys' => pred_mark h y ys' (markL h c)
  end.

End ListVocabulary.

(** ** The skip list *)

(** The nodes of [cs] whose keys are below [k], up to the first one that is
    not, and the nodes from that one on. *)
Fixpoint below (ky : addr -> Z) (k : Z) (cs : list addr) : list addr :=
  match cs with
  | [] => []
  | c :: cs' => if (ky c <? k)%Z then c :: below ky k cs' else []
  end.

Fixpoint from (ky : addr -> Z) (k : Z) (cs : list addr) : list addr :=
  match cs with
  | [] => []
  | c :: cs' => if (ky c <? k)%Z then from ky k cs' else cs
  end.

(** The first node of [cs], or [tl] when there is none. *)
Definition first_or (tl : addr) (cs : list addr) : addr :=
  match cs with
  | [] => tl
  | c :: _ => c
  end.

Section SkipListVocabulary.
Import LockFreeSkipList.
Context {T : Type}.
Implicit Types (m : mem T) (sl : SkipList) (h : list (SNodeBase T)).

(** The reference held at level [lv] by the node at [a], the key and the
    height of that node, and the heap in which one reference is replaced. *)
Definition nxS h (lv : nat) (a : addr) : option (ptr * bool) :=
  match h !! a with
  | Some n => (fun r => (val_ r, marked_ r)) <$> next n !! lv
  | None => None
  end.

Definition kyS h (a : addr) : Z := from_option key 0%Z (h !! a).
Definition topS h (a : addr) : nat := from_option topLevel 0 (h !! a).
Definition dataS h (a : addr) : option T := h !! a ≫= data.

Definition updS h (a : addr) (lv : nat) (p : ptr) (b : bool) : list (SNodeBase T) :=
  match h !! a with
  | Some n =>
      <[a := MkNode (<[lv := MkRef p b]> (next n)) (key n) (data n) (topLevel n)]> h
  | None => h
  end.

(** [frame m m']: the two memories hold the same nodes up to the
    references in their [next] arrays, and the same epoch calls. *)
Record frame m m' : Prop := MkFrame {
  frame_calls : calls m' = calls m;
  frame_length : length (heap m') = length (heap m);
  frame_key : forall x, kyS (heap m') x = kyS (heap m) x;
  frame_top : forall x, topS (heap m') x = topS (heap m) x;
  frame_data : forall x, dataS (heap m') x = dataS (heap m) x
}.

(** [node_lt ky a b]: the node at [b] comes after the node at [a], by key
    and, among equal keys, by age (the older node comes later). *)
Definition node_lt (ky : addr -> Z) (a b : addr) : Prop :=
  (ky a < ky b)%Z \/ (ky a = ky b /\ b < a).

(** The node at [b] holds a non-null reference at every level up to [lv]. *)
Definition linked h (lv : nat) (b : addr) : Prop :=
  forall j, j <= lv -> exists c mk, nxS h j b = Some (Some c, mk).

(** Every non-null reference of the heap, marked or not, leads at its level
    [lv] to a node of height at least [lv] that comes later; that node is
    tail, or has a successor at each level up to [lv]. *)
Definition SLclosed h (tl : addr) : Prop :=
  forall lv a b mk, lv <= MAX_LEVEL -> nxS h lv a = Some (Some b, mk) ->
    lv <= topS h b /\ node_lt (kyS h) a b /\ (b = tl \/ linked h lv b).

(** [SLrep sl m hd tl ch]: for every level [lv], [hd -> ch lv -> tl] is a
    chain of distinct nodes of height at least [lv], linked by unmarked
    references.  The bottom chain [ch 0] holds the live nodes, in strictly
    increasing key order between the sentinels.  A live node is linked at
    every level up to its height, and no node placed before it at such a
    level has a key as large as its own.  The upper chains may also hold
    nodes that [popMin] removed from the bottom level.  All references of
    the heap, those of removed nodes too, lead forward ([SLclosed]). *)
Record SLrep sl m (hd tl : addr) (ch : nat -> list addr) : Prop := MkSLrep {
  SL_head : head sl = Some hd;
  SL_tail : tail sl = Some tl;
  SL_path : forall lv, lv <= MAX_LEVEL -> path (nxS (heap m) lv) hd (ch lv ++ [tl]);
  SL_NoDup : forall lv, lv <= MAX_LEVEL -> NoDup (hd :: ch lv ++ [tl]);
  SL_sorted : StronglySorted (klt (kyS (heap m))) (hd :: ch 0 ++ [tl]);
  SL_hd_key : kyS (heap m) hd = 0%Z;
  SL_tl_key : kyS (heap m) tl = UINT64_MAX;
  SL_tl_top : topS (heap m) tl = MAX_LEVEL;
  SL_tl_ref : forall lv, lv <= MAX_LEVEL ->
    exists p, nxS (heap m) lv tl = Some (p, false);
  SL_top : forall lv a, lv <= MAX_LEVEL -> a ∈ ch lv ->
    lv <= topS (heap m) a <= MAX_LEVEL;
  SL_tower : forall a lv, a ∈ ch 0 -> lv <= topS (heap m) a ->
    exists pre post,
      ch lv = pre ++ a :: post /\
      Forall (fun x => (kyS (heap m) x < kyS (heap m) a)%Z) pre;
  SL_data : forall a, a ∈ ch 0 -> is_Some (dataS (heap m) a);
  SL_closed : SLclosed (heap m) tl
}.

(** The skip list is well formed. *)
Definition SLinv sl m : Prop := exists hd tl ch, SLrep sl m hd tl ch.

(** The keys held by the live nodes. *)
Definition SLkeys m (ch : nat -> list addr) : list Z := kyS (heap m) <$> ch 0.

(** Where [find] stops at one level: the node before which the key would go
    and its predecessor. *)
Definition pred_at h (hd : addr) (ch : nat -> list addr) (k : Z) (lv : nat) : addr :=
  end_of hd (below (kyS h) k (ch lv)).

Definition succ_at h (tl : addr) (ch : nat -> list addr) (k : Z) (lv : nat) : addr :=
  first_or tl (from (kyS h) k (ch lv)).

(** The arrays [preds] and [succs] hold these nodes for the levels up to [lv]. *)
Definition windows h (hd tl : addr) (ch : nat -> list addr) (k : Z) (lv : nat)
    (preds succs : list ptr) : Prop :=
  forall j, j <= lv ->
    preds !! j = Some (Some (pred_at h hd ch k j)) /\
    succs !! j = Some (Some (succ_at h tl ch k j)).

(** The chains after the first live node has been removed from the bottom
    level only. *)
Definition ch_pop (ch : nat -> list addr) (lv : nat) : list addr :=
  match lv with
  | 0 => List.tl (ch 0)
  | S _ => ch lv
  end.

(** The fresh node. *)
Definition fresh_node (k : Z) (x : T) (top : nat) : SNodeBase T :=
  MkNode (replicate (S MAX_LEVEL) (MkRef None false)) k (Some x) top.

(** The chains after a node [N] of height [top] holding key [k] has been
    linked at the levels up to [top]. *)
Definition ch_add h (ch : nat -> list addr) (k : Z) (N : addr) (top : nat)
    (lv : nat) : list addr :=
  if lv <=? top
  then below (kyS h) k (ch lv) ++ N :: from (kyS h) k (ch lv)
  else ch lv.

(** A reference with its mark replaced. *)
Definition with_mark (b : bool) (r : ptr * bool) : ptr * bool := (r.1, b).

(** The chains after the node [r] has been unlinked at every level. *)
Definition ch_del (ch : nat -> list addr) (r : addr) (lv : nat) : list addr :=
  filter (fun x => x <> r) (ch lv).

#[global] Instance node_lt_dec (ky : addr -> Z) (a b : addr) : Decision (node_lt ky a b).
Proof. unfold node_lt. apply _. Defined.

(** The number of nodes of the heap that come after the node at [a]. *)
Definition rank h (a : addr) : nat :=
  length (filter (node_lt (kyS h) a) (seq 0 (length h))).

(** A node a walk can stand on at level [lv]. *)
Definition walkable h (tl : addr) (lv : nat) (c : addr) : Prop :=
  c = tl \/ linked h lv c.

End SkipListVocabulary.

(** ** Runs of operations *)

Section Drain.
Import LockFreeSkipList.
Context {T : Type}.
Implicit Types (m : mem T) (sl : SkipList).

(** main.cpp, the loop [while ((val = pq.popMin()) != nullptr)]: the
    payloads it prints, in order. *)
Fixpoint drain (n fuel : nat) (sl : SkipList) : M (mem T) (list T) :=
  match fuel with
  | 0 => timeout
  | S fuel' =>
      let* val := popMin n sl in
      match val with
      | None => ret []
      | Some v => let* vs := drain n fuel' sl in ret (v :: vs)
      end
  end.

End Drain.

Section OperationVocabulary.
Context {T : Type}.

(** The operations of the two containers, and what they return. *)
Inductive list_op : Type :=
| LAdd (k : Z) (v : T)
| LRemove (k : Z)
| LContains (k : Z)
| LGet (k : Z).

Inductive skip_op : Type :=
| SAdd (k : Z) (v : T) (flips : list bool)
| SRemove (k : Z)
| SContains (k : Z)
| SGet (k : Z)
| SPopMin.

Inductive answer : Type :=
| Flag (b : bool)
| Payload (v : option T).

Definition run_list_op (n : nat) (l : LockFreeList.List) (op : list_op)
    : M (LockFreeList.mem T) answer :=
  match op with
  | LAdd k v => let* b := LockFreeList.add n l k v in ret (Flag b)
  | LRemove k => let* b := LockFreeList.remove n l k in ret (Flag b)
  | LContains k => let* b := LockFreeList.contains n l k in ret (Flag b)
  | LGet k => let* v := LockFreeList.get n l k in ret (Payload v)
  end.

Definition run_skip_op (n : nat) (sl : LockFreeSkipList.SkipList) (op : skip_op)
    : M (LockFreeSkipList.mem T) answer :=
  match op with
  | SAdd k v flips => let* b := LockFreeSkipList.add n sl k v flips in ret (Flag b)
  | SRemove k => let* b := LockFreeSkipList.remove n sl k in ret (Flag b)
  | SContains k => let* b := LockFreeSkipList.contains n sl k in ret (Flag b)
  | SGet k => let* v := LockFreeSkipList.get n sl k in ret (Payload v)
  | SPopMin => let* v := LockFreeSkipList.popMin n sl in ret (Payload v)
  end.

(** A key of the user domain, and a value of the key type [uint64_t]. *)
Definition user_key (k : Z) : Prop := (0 < k < UINT64_MAX)%Z.
Definition uint64_key (k : Z) : Prop := (0 <= k <= UINT64_MAX)%Z.

(** The key an insertion or a removal works with is a user key; for
    [SkipList::add] this is the key after it went through the [int]
    parameter.  A search takes any key. *)
Definition list_op_dom (op : list_op) : Prop :=
  match op with
  | LAdd k _ | LRemove k => user_key k
  | LContains k | LGet k => uint64_key k
  end.

Definition skip_op_dom (op : skip_op) : Prop :=
  match op with
  | SAdd k _ _ => user_key (LockFreeSkipList.to_uint64 (LockFreeSkipList.to_int k))
  | SRemove k => user_key k
  | SContains k | SGet k => uint64_key k
  | SPopMin => True
  end.

Definition list_op_writes (op : list_op) : bool :=
  match op with
  | LAdd _ _ | LRemove _ => true
  | LContains _ | LGet _ => false
  end.

Definition skip_op_writes (op : skip_op) : bool :=
  match op with
  | SAdd _ _ _ | SRemove _ | SPopMin => true
  | SContains _ | SGet _ => false
  end.

(** The level-0 structural invariant of the skip list: the bottom chain
    from head reaches tail through unmarked nodes of strictly increasing
    keys. *)
Definition SLlevel0 (sl : LockFreeSkipList.SkipList) (m : LockFreeSkipList.mem T) : Prop :=
  exists hd tl cs,
    LockFreeSkipList.head sl = Some hd /\ LockFreeSkipList.tail sl = Some tl /\
    path (nxS (LockFreeSkipList.heap m) 0) hd (cs ++ [tl]) /\
    StronglySorted (klt (kyS (LockFreeSkipList.heap m))) (hd :: cs ++ [tl]).

(** The states a single thread reaches from the constructor by operations
    on keys of their domains are well formed. *)
Inductive list_reachable (l : LockFreeList.List) : LockFreeList.mem T -> Prop :=
| LR_new (d : T) (cl : list epoch_call) m :
    LockFreeList.new_List d (LockFreeList.MkMem [] cl) = Ok (l, m) ->
    list_reachable l m
| LR_step m (op : list_op) (n : nat) (a : answer) m' :
    list_reachable l m -> list_op_dom op -> length (LockFreeList.heap m) <= n ->
    run_list_op n l op m = Ok (a, m') ->
    list_reachable l m'.

Inductive skip_reachable (sl : LockFreeSkipList.SkipList)
    : LockFreeSkipList.mem T -> Prop :=
| SR_new (cl : list epoch_call) m :
    LockFreeSkipList.new_SkipList (LockFreeSkipList.MkMem [] cl) = Ok (sl, m) ->
    skip_reachable sl m
| SR_step m (op : skip_op) (n : nat) (a : answer) m' :
    skip_reachable sl m -> skip_op_dom op -> length (LockFreeSkipList.heap m) <= n ->
    run_skip_op n sl op m = Ok (a, m') ->
    skip_reachable sl m'.

End OperationVocabulary.

(** ** Concrete states *)

(** The two containers as their constructors leave them, with payloads in
    [nat]. *)
Definition fresh_list : LockFreeList.List * LockFreeList.mem nat :=
  Eval vm_compute in
    match LockFreeList.new_List 0 (LockFreeList.MkMem [] []) with
    | Ok r => r
    | _ => (LockFreeList.MkList None None, LockFreeList.MkMem [] [])
    end.

Definition fresh_skiplist : LockFreeSkipList.SkipList * LockFreeSkipList.mem nat :=
  Eval vm_compute in
    match LockFreeSkipList.new_SkipList (LockFreeSkipList.MkMem [] []) with
    | Ok r => r
    | _ => (LockFreeSkipList.MkSkipList None None, LockFreeSkipList.MkMem [] [])
    end.

(** The result of a run from a given state. *)
Definition run {S A : Type} (m : M S A) (s : S) : option A :=
  match m s with
  | Ok (a, _) => Some a
  | _ => None
  end.

Section ListStates.
Import LockFreeList.
Context {T : Type}.

(** [add(5, v)] on a new list, then a remover of key 5 that is stopped right
    after its [attemptMark] succeeded, before it unlinks the node. *)
Definition list_with_marked_5 (d v : T) : M (mem T) List :=
  let* l := new_List d in
  add 4 l 5 v ;;
  enterEpoch thread_id ;;
  remove_mark 4 4 l 5 ;;
  ret l.

(** [add(5, a)] on a new list. *)
Definition list_with_5 (d a : T) : M (mem T) List :=
  let* l := new_List d in
  add 4 l 5 a ;;
  ret l.

End ListStates.

Section SkipListStates.
Import LockFreeSkipList.
Context {T : Type}.

(** The memory before anything is allocated. *)
Definition empty_mem : mem T := MkMem [] [].

(** A new skip list holding key 1 in a node of height 1. *)
Definition skiplist_with_tall_1 (v : T) : M (mem T) SkipList :=
  let* sl := new_SkipList in
  add 4 sl 1 v [true] ;;
  ret sl.

(** A skip list from which [popMin] took key 1, held by a node of height 1,
    and which still holds key 5: [add(1, v1)], [add(5, v5)], [popMin()]. *)
Definition skiplist_after_popMin (v1 v5 : T) : M (mem T) SkipList :=
  let* sl := new_SkipList in
  add 8 sl 1 v1 [true] ;;
  add 8 sl 5 v5 [] ;;
  popMin 8 sl ;;
  ret sl.

(** The single-threaded smoke sequence; [f1], [f3], [f2] drive the heights
    of the three nodes. *)
Definition smoke (v1 v3 v2 : T) (f1 f3 f2 : list bool)
    : M (mem T) (bool * bool * bool * bool * option T * option T * option T) :=
  let* sl := new_SkipList in
  add 8 sl 1 v1 f1 ;;
  add 8 sl 3 v3 f3 ;;
  add 8 sl 2 v2 f2 ;;
  let* c2 := contains 8 sl 2 in
  let* c4 := contains 8 sl 4 in
  let* r3 := remove 8 sl 3 in
  let* r3' := remove 8 sl 3 in
  let* p1 := popMin 8 sl in
  let* p2 := popMin 8 sl in
  let* p3 := popMin 8 sl in
  ret (c2, c4, r3, r3', p1, p2, p3).

End SkipListStates.

(** ** The contents of a container, seen from outside

    A container holds a finite map from keys to payloads, kept as an
    association list in increasing key order.  [kv_insert] keeps the first
    payload of a key, as both [add] do. *)

Section KeyValue.
Context {T : Type}.

Fixpoint kv_insert (k : Z) (v : T) (kvs : list (Z * T)) : list (Z * T) :=
  match kvs with
  | [] => [(k, v)]
  | (k', v') :: rest =>
      if (k <? k')%Z then (k, v) :: kvs
      else if (k =? k')%Z then kvs
      else (k', v') :: kv_insert k v rest
  end.

Definition kv_remove (k : Z) (kvs : list (Z * T)) : list (Z * T) :=
  filter (fun p => p.1 <> k) kvs.

Fixpoint kv_lookup (k : Z) (kvs : list (Z * T)) : option T :=
  match kvs with
  | [] => None
  | (k', v') :: rest => if (k =? k')%Z then Some v' else kv_lookup k rest
  end.

Definition kv_sorted (kvs : list (Z * T)) : Prop :=
  StronglySorted Z.lt (kvs.*1).

End KeyValue.

Section ListContents.
Import LockFreeList.
Context {T : Type}.
Implicit Types (m : mem T) (l : List) (h : list (LNode T)).

(** The key and payload of the node at [a]. *)
Definition kdL h (a : addr) : option (Z * T) :=
  (fun n => (key n, data n)) <$> h !! a.

(** What the list holds: the keys and payloads of the nodes of the chain
    [cs], in chain order. *)
Definition Lcontents m (cs : list addr) : list (Z * T) := omap (kdL (heap m)) cs.

End ListContents.

Section SkipContents.
Import LockFreeSkipList.
Context {T : Type}.
Implicit Types (m : mem T) (sl : SkipList) (h : list (SNodeBase T)).

(** The key and payload of the node at [a]; a sentinel has no payload. *)
Definition kdS h (a : addr) : option (Z * T) :=
  n ← h !! a; v ← data n; Some (key n, v).

(** The keys and payloads of the nodes of [cs], in order; what the skip
    list holds is what the nodes of its bottom chain hold. *)
Definition SLpairs m (cs : list addr) : list (Z * T) := omap (kdS (heap m)) cs.

Definition SLcontents m (ch : nat -> list addr) : list (Z * T) := SLpairs m (ch 0).

(** No node that left the bottom level is still linked higher up. *)
Definition SLtidy (ch : nat -> list addr) : Prop :=
  forall lv a, lv <= MAX_LEVEL -> a ∈ ch lv -> a ∈ ch 0.

(** [stableS L m m']: nothing was freed, and each node at an address below
    [L] kept its key, its payload, its height, and every reference of its
    [next] array that carried a mark. *)
Definition stableS (L : nat) m m' : Prop :=
  length (heap m) <= length (heap m') /\
  forall a n, a < L -> heap m !! a = Some n ->
    exists n', heap m' !! a = Some n' /\
      key n' = key n /\ data n' = data n /\ topLevel n' = topLevel n /\
      length (next n') = length (next n) /\
      forall lv r, next n !! lv = Some r -> marked_ r = true -> next n' !! lv = Some r.

(** A computation that, started with at least [L] nodes, leaves a stable
    memory whenever it returns. *)
Definition keepsS {A : Type} (L : nat) (c : M (mem T) A) : Prop :=
  forall m a m', L <= length (heap m) -> c m = Ok (a, m') -> stableS L m m'.

(** A computation that allocates at most [d] nodes. *)
Definition growsS {A : Type} (d : nat) (c : M (mem T) A) : Prop :=
  forall m a m', c m = Ok (a, m') -> length (heap m') <= length (heap m) + d.

End SkipContents.

Section ListStability.
Import LockFreeList.
Context {T : Type}.
Implicit Types (m : mem T) (l : List) (h : list (LNode T)).

(** [stableL L m m']: nothing was freed, and each node at an address below
    [L] kept its key and its payload, and its reference if that carried a
    mark. *)
Definition stableL (L : nat) m m' : Prop :=
  length (heap m) <= length (heap m') /\
  forall a n, a < L -> heap m !! a = Some n ->
    exists n', heap m' !! a = Some n' /\
      key n' = key n /\ data n' = data n /\
      (marked_ (next n) = true -> next n' = next n).

Definition keepsL {A : Type} (L : nat) (c : M (mem T) A) : Prop :=
  forall m a m', L <= length (heap m) -> c m = Ok (a, m') -> stableL L m m'.

(** The heap after [remove(UINT64_MAX)]: tail is marked, and the node
    before it points nowhere. *)
Definition heap_without_tail h (p tl : addr) : list (LNode T) :=
  updL (updL h tl None true) p None false.

End ListStability.

(** ** The containers as maps

    What an operation answers on, and leaves of, the association list a
    container stands for. *)

Section AbstractOperations.
Context {T : Type}.

Definition kv_list_op (op : @list_op T) (kvs : list (Z * T)) : @answer T * list (Z * T) :=
  match op with
  | LAdd k v => (Flag (negb (bool_decide (k ∈ kvs.*1))), kv_insert k v kvs)
  | LRemove k => (Flag (bool_decide (k ∈ kvs.*1)), kv_remove k kvs)
  | LContains k => (Flag (bool_decide (k ∈ kvs.*1)), kvs)
  | LGet k => (Payload (kv_lookup k kvs), kvs)
  end.

Definition kv_skip_op (op : @skip_op T) (kvs : list (Z * T)) : @answer T * list (Z * T) :=
  match op with
  | SAdd k v _ => (Flag (negb (bool_decide (k ∈ kvs.*1))), kv_insert k v kvs)
  | SRemove k => (Flag (bool_decide (k ∈ kvs.*1)), kv_remove k kvs)
  | SContains k => (Flag (bool_decide (k ∈ kvs.*1)), kvs)
  | SGet k => (Payload (kv_lookup k kvs), kvs)
  | SPopMin => (Payload (snd <$> List.head kvs), List.tl kvs)
  end.

Fixpoint kv_list_ops (ops : list (@list_op T)) (kvs : list (Z * T))
    : list (@answer T) * list (Z * T) :=
  match ops with
  | [] => ([], kvs)
  | op :: ops' =>
      let r := kv_list_op op kvs in
      let rs := kv_list_ops ops' r.2 in
      (r.1 :: rs.1, rs.2)
  end.

Fixpoint kv_skip_ops (ops : list (@skip_op T)) (kvs : list (Z * T))
    : list (@answer T) * list (Z * T) :=
  match ops with
  | [] => ([], kvs)
  | op :: ops' =>
      let r := kv_skip_op op kvs in
      let rs := kv_skip_ops ops' r.2 in
      (r.1 :: rs.1, rs.2)
  end.

(** A caller's sequence of operations, one after the other. *)
Fixpoint run_list_ops (n : nat) (l : LockFreeList.List) (ops : list (@list_op T))
    : M (LockFreeList.mem T) (list (@answer T)) :=
  match ops with
  | [] => ret []
  | op :: ops' =>
      let* a := run_list_op n l op in
      let* rest := run_list_ops n l ops' in
      ret (a :: rest)
  end.

Fixpoint run_skip_ops (n : nat) (sl : LockFreeSkipList.SkipList) (ops : list (@skip_op T))
    : M (LockFreeSkipList.mem T) (list (@answer T)) :=
  match ops with
  | [] => ret []
  | op :: ops' =>
      let* a := run_skip_op n sl op in
      let* rest := run_skip_ops n sl ops' in
      ret (a :: rest)
  end.

(** Operations of the list on user keys. *)
Definition list_op_user (op : @list_op T) : Prop :=
  match op with
  | LAdd k _ | LRemove k | LContains k | LGet k => user_key k
  end.

(** For the skip list: an insertion of a key above 0 that fits the [int]
    parameter of [SkipList::add], the other operations on user keys. *)
Definition skip_op_small (op : @skip_op T) : Prop :=
  match op with
  | SAdd k _ _ => (0 < k < 2 ^ 31)%Z
  | SRemove k | SContains k | SGet k => user_key k
  | SPopMin => True
  end.

Definition skip_op_reads (op : @skip_op T) : bool :=
  match op with
  | SContains _ | SGet _ => true
  | _ => false
  end.

Definition skip_op_pops (op : @skip_op T) : bool :=
  match op with
  | SPopMin => true
  | _ => false
  end.

End AbstractOperations.

Section SkipListExtras.
Import LockFreeSkipList.
Context {T : Type}.

(** *** SkipList::advancePred

    The loop test [curr && curr->next[level].get(marked) && marked] reads
    the successor of [curr] and its mark, and goes on when both the
    successor is not null and the mark is set. *)
Fixpoint advancePred_loop (fuel : nat) (level : nat) (pred curr : ptr)
    : M (mem T) ptr :=
  match fuel with
  | 0 => timeout
  | S fuel' =>
      match curr with
      | None => ret pred
      | Some _ =>
          let* (succ, marked) := get_next curr level in
          match succ with
          | None => ret pred
          | Some _ =>
              if marked : bool then
                let pred := curr in
                let* curr := getReference curr level in
                advancePred_loop fuel' level pred curr
              else ret pred
          end
      end
  end.

Definition advancePred (n : nat) (pred : ptr) (level : nat) : M (mem T) ptr :=
  let* curr := getReference pred level in
  advancePred_loop n level pred curr.

End SkipListExtras.

(** ** main.cpp

    The loops of [worker2] and [worker], run by one thread.  The payloads
    are [int]; [rnd i] holds the outcomes of the random tests of the call
    that inserts key [i].  [registerThread] and [unregisterThread] are
    empty in Epochs.h, and the progress messages are left out. *)

Section Main.
Import LockFreeSkipList.

Definition OPS_PER_THREAD : Z := 2000.

(** [for (int i = start; i < end; ++i) pq.add(i, i * 10);] *)
Fixpoint worker2_loop (n cnt : nat) (pq : SkipList) (i : Z) (rnd : Z -> list bool)
    : M (mem Z) unit :=
  match cnt with
  | 0 => ret tt
  | S cnt' =>
      add n pq i (i * 10)%Z (rnd i) ;;
      worker2_loop n cnt' pq (i + 1)%Z rnd
  end.

Definition worker2 (n : nat) (pq : SkipList) (start end_ : Z) (rnd : Z -> list bool)
    : M (mem Z) unit :=
  worker2_loop n (Z.to_nat (end_ - start)) pq start rnd.

(** The four failure counters. *)
Record failures : Type := MkFailures {
  addFailures : nat;
  getFailures : nat;
  containsFailures : nat;
  removeFailures : nat
}.

(** The body of the loop of [worker], for key [i]. *)
Definition worker_step (n : nat) (lst : SkipList) (i : Z) (flips : list bool)
    (f : failures) : M (mem Z) failures :=
  let* added := add n lst i i flips in
  let f := if added : bool then f
           else MkFailures (S (addFailures f)) (getFailures f)
                           (containsFailures f) (removeFailures f) in
  let* v := get n lst i in
  let f := match v with
           | Some x => if (x =? i)%Z then f
                       else MkFailures (addFailures f) (S (getFailures f))
                                       (containsFailures f) (removeFailures f)
           | None => MkFailures (addFailures f) (S (getFailures f))
                                (containsFailures f) (removeFailures f)
           end in
  let* c := contains n lst i in
  let f := if c : bool then f
           else MkFailures (addFailures f) (getFailures f)
                           (S (containsFailures f)) (removeFailures f) in
  let* r := remove n lst i in
  let f := if r : bool then f
           else MkFailures (addFailures f) (getFailures f)
                           (containsFailures f) (S (removeFailures f)) in
  ret f.

Fixpoint worker_loop (n cnt : nat) (lst : SkipList) (i : Z) (rnd : Z -> list bool)
    (f : failures) : M (mem Z) failures :=
  match cnt with
  | 0 => ret f
  | S cnt' =>
      let* f := worker_step n lst i (rnd i) f in
      worker_loop n cnt' lst (i + 1)%Z rnd f
  end.

(** [for (int i = t * OPS_PER_THREAD; i < (t + 1) * OPS_PER_THREAD; ++i)] *)
Definition worker (n : nat) (lst : SkipList) (t : Z) (rnd : Z -> list bool)
    (f : failures) : M (mem Z) failures :=
  worker_loop n (Z.to_nat ((t + 1) * OPS_PER_THREAD - t * OPS_PER_THREAD)%Z) lst
    (t * OPS_PER_THREAD)%Z rnd f.

End Main.

(** The priority queue [pq] of main.cpp as its constructor leaves it. *)
Definition fresh_pq : LockFreeSkipList.SkipList * LockFreeSkipList.mem Z :=
  Eval vm_compute in
    match LockFreeSkipList.new_SkipList (LockFreeSkipList.MkMem [] []) with
    | Ok r => r
    | _ => (LockFreeSkipList.MkSkipList None None, LockFreeSkipList.MkMem [] [])
    end.

(** The list that holds key 5 with payload 7 and nothing else. *)
Definition list_holding_5 : LockFreeList.List * LockFreeList.mem nat :=
  Eval vm_compute in
    match list_with_5 0 7 (LockFreeList.MkMem [] []) with
    | Ok r => r
    | _ => (LockFreeList.MkList None None, LockFreeList.MkMem [] [])
    end.

(** The list after [add(5, 7)] and [add(9, 8)] on a new list. *)
Definition list_holding_5_9 : LockFreeList.List * LockFreeList.mem nat :=
  Eval vm_compute in
    match (let* l := LockFreeList.new_List 0 in
           LockFreeList.add 8 l 5 7 ;; LockFreeList.add 8 l 9 8 ;; ret l)
            (LockFreeList.MkMem [] []) with
    | Ok r => r
    | _ => (LockFreeList.MkList None None, LockFreeList.MkMem [] [])
    end.

(** The skip list after [add(5, 7)] with a node of height 1 and [add(9, 8)]
    with a node of height 0 on a new skip list, and its chains. *)
Definition skiplist_holding_5_9 : LockFreeSkipList.SkipList * LockFreeSkipList.mem nat :=
  Eval vm_compute in
    match (let* sl := LockFreeSkipList.new_SkipList in
           LockFreeSkipList.add 8 sl 5 7 [true] ;; LockFreeSkipList.add 8 sl 9 8 [] ;;
           ret sl) (LockFreeSkipList.MkMem [] []) with
    | Ok r => r
    | _ => (LockFreeSkipList.MkSkipList None None, LockFreeSkipList.MkMem [] [])
    end.

Definition chains_5_9 (lv : nat) : list addr :=
  match lv with
  | 0 => [2; 3]
  | 1 => [2]
  | _ => []
  end.

(** * Facts about chains *)

Lemma end_of_app (a : addr) (xs ys : list addr) :
  end_of a (xs ++ ys) = end_of (end_of a xs) ys.
Proof. revert a; induction xs as [|x xs IH]; intros a; simpl; auto. Qed.

Lemma end_of_elem (a : addr) (xs : list addr) : end_of a xs ∈ a :: xs.
Proof.
  revert a; induction xs as [|x xs IH]; intros a; simpl.
  - set_solver.
  - specialize (IH x). set_solver.
Qed.

Lemma end_of_snoc (a : addr) (xs : list addr) (y : addr) :
  end_of a (xs ++ [y]) = y.
Proof. rewrite end_of_app. reflexivity. Qed.

Section ChainFacts.
Context {nx : addr -> option (ptr * bool)}.

Lemma path_app (a : addr) (xs ys : list addr) :
  path nx a (xs ++ ys) <-> path nx a xs /\ path nx (end_of a xs) ys.
Proof.
  revert a; induction xs as [|x xs IH]; intros a; simpl.
  - tauto.
  - rewrite IH. tauto.
Qed.

End ChainFacts.

Section ChainUpdates.
Context {nx nx' : addr -> option (ptr * bool)}.

(** A chain only depends on the references held by its nodes other than
    the last one. *)
Lemma path_ext (a : addr) (xs : list addr) :
  NoDup (a :: xs) ->
  (forall x, x ∈ a :: xs -> x <> end_of a xs -> nx' x = nx x) ->
  path nx a xs -> path nx' a xs.
Proof.
  revert a; induction xs as [|x xs IH]; intros a Hnd Hag Hp; simpl in *; auto.
  destruct Hp as [Ha Hp]. apply NoDup_cons in Hnd as [Hnotin Hnd].
  split.
  - rewrite Hag; auto; [set_solver|].
    intros ->. apply Hnotin. apply end_of_elem.
  - apply IH; auto. intros y Hy Hne. apply Hag; auto. set_solver.
Qed.

Lemma path_ext_all (a : addr) (xs : list addr) :
  (forall x, x ∈ a :: xs -> nx' x = nx x) ->
  path nx a xs -> path nx' a xs.
Proof.
  revert a; induction xs as [|x xs IH]; intros a Hag Hp; simpl in *; auto.
  destruct Hp as [Ha Hp]. split.
  - rewrite Hag; auto. set_solver.
  - apply IH; auto. intros y Hy. apply Hag. set_solver.
Qed.

(** Linking a new node between the last node of [pre] and [c]. *)
Lemma path_insert (hd : addr)
    (pre : list addr) (c : addr) (post : list addr) (new : addr) :
  NoDup (hd :: pre ++ c :: post) ->
  new ∉ hd :: pre ++ c :: post ->
  nx' (end_of hd pre) = Some (Some new, false) ->
  nx' new = Some (Some c, false) ->
  (forall x, x <> end_of hd pre -> x <> new -> nx' x = nx x) ->
  path nx hd (pre ++ c :: post) ->
  path nx' hd (pre ++ new :: c :: post).
Proof.
  intros Hnd Hnew Hp Hn Hag Hpath.
  apply path_app in Hpath as [Hpre Hpost].
  apply path_app. split.
  - apply path_ext; auto.
    + rewrite app_comm_cons in Hnd. apply NoDup_app in Hnd. tauto.
    + intros x Hx Hne. apply Hag; auto. intros ->. apply Hnew.
      rewrite app_comm_cons. set_solver.
  - simpl. split; [exact Hp|]. split; [exact Hn|].
    simpl in Hpost. destruct Hpost as [_ Hpost].
    apply path_ext_all; auto.
    intros x Hx. apply Hag.
    + intros ->. rewrite app_comm_cons in Hnd. apply NoDup_app in Hnd as (_ & Hd & _).
      apply (Hd (end_of hd pre)); [apply end_of_elem | exact Hx].
    + intros ->. apply Hnew. rewrite app_comm_cons. set_solver.
Qed.

(** Unlinking the node [r] that follows the last node of [pre]. *)
Lemma path_delete (hd : addr)
    (pre : list addr) (r c : addr) (post : list addr) :
  NoDup (hd :: pre ++ r :: c :: post) ->
  nx' (end_of hd pre) = Some (Some c, false) ->
  (forall x, x <> end_of hd pre -> x <> r -> nx' x = nx x) ->
  path nx hd (pre ++ r :: c :: post) ->
  path nx' hd (pre ++ c :: post).
Proof.
  intros Hnd Hp Hag Hpath.
  apply path_app in Hpath as [Hpre Hpost].
  rewrite app_comm_cons in Hnd. apply NoDup_app in Hnd as (Hnd1 & Hd & Hnd2).
  apply path_app. split.
  - apply path_ext; auto.
    intros x Hx Hne. apply Hag; auto. intros ->. apply (Hd r Hx). set_solver.
  - simpl. split; [exact Hp|].
    simpl in Hpost. destruct Hpost as (_ & _ & Hpost).
    apply NoDup_cons in Hnd2 as [Hr Hnd2].
    apply path_ext_all; auto.
    intros x Hx. apply Hag.
    + intros ->. apply (Hd (end_of hd pre)); [apply end_of_elem | set_solver].
    + intros ->. apply Hr. exact Hx.
Qed.

End ChainUpdates.

Section ChainSources.
Context {nx : addr -> option (ptr * bool)}.

(** Every node of a chain but the last holds an unmarked reference. *)
Lemma path_source (a : addr) (xs : list addr) (x : addr) :
  path nx a xs -> x ∈ a :: xs -> x <> end_of a xs ->
  exists y, nx x = Some (Some y, false).
Proof.
  revert a; induction xs as [|y xs IH]; intros a Hp Hx Hne; simpl in *.
  - set_solver.
  - destruct Hp as [Ha Hp]. apply elem_of_cons in Hx as [->|Hx]; eauto.
Qed.

End ChainSources.

(** Strictly increasing keys rule out repeated nodes. *)
Lemma sorted_NoDup (ky : addr -> Z) (xs : list addr) :
  StronglySorted (klt ky) xs -> NoDup xs.
Proof.
  induction 1 as [|a l Hs IH Hall]; constructor; auto.
  intros Hin. rewrite Forall_forall in Hall. specialize (Hall a Hin).
  unfold klt in Hall. lia.
Qed.

(** * The ordered list: representation and sequential behaviour *)

Lemma bind_Ok {S A B : Type} (c : M S A) (k : A -> M S B) (s s' : S) (a : A) :
  c s = Ok (a, s') -> bind c k s = k a s'.
Proof. unfold bind. intros ->. reflexivity. Qed.

Lemma bind_ret {S A B : Type} (a : A) (k : A -> M S B) (s : S) :
  bind (ret a) k s = k a s.
Proof. reflexivity. Qed.

(** One step of a run: the first computation of a [bind] is replaced by its
    known result. *)
Ltac mstep H := rewrite (bind_Ok _ _ _ _ _ H); cbv beta iota.
Ltac mret := rewrite bind_ret; cbv beta iota.

Lemma readonly_ret {S A : Type} (a : A) : readonly (ret (S := S) a).
Proof. intros s a' s' [= _ <-]. reflexivity. Qed.

Lemma readonly_timeout {S A : Type} : readonly (timeout (S := S) (A := A)).
Proof. intros s a s' [=]. Qed.

Lemma readonly_fault {S A : Type} : readonly (fault (S := S) (A := A)).
Proof. intros s a s' [=]. Qed.

Lemma readonly_bind {S A B : Type} (c : M S A) (k : A -> M S B) :
  readonly c -> (forall a, readonly (k a)) -> readonly (bind c k).
Proof.
  intros Hc Hk s b s'. unfold bind.
  destruct (c s) as [[a s1]| |] eqn:E; try discriminate.
  intros Hb. apply Hc in E. subst s1. eapply Hk; eauto.
Qed.

(** Distinct addresses below [N] are at most [N]. *)
Lemma NoDup_bounded_length (xs : list addr) (N : nat) :
  NoDup xs -> Forall (fun x => x < N) xs -> length xs <= N.
Proof.
  intros Hnd Hall.
  transitivity (length (seq 0 N)); [|rewrite length_seq; lia].
  apply submseteq_length, NoDup_submseteq; auto.
  intros x Hx. rewrite Forall_forall in Hall. apply Hall in Hx.
  apply elem_of_seq. lia.
Qed.

(** Sorted chains: change of key function and insertion of a node. *)
Lemma sorted_ext (ky ky' : addr -> Z) (xs : list addr) :
  (forall x, x ∈ xs -> ky' x = ky x) ->
  StronglySorted (klt ky) xs -> StronglySorted (klt ky') xs.
Proof.
  intros Hag Hs. induction Hs as [|a l Hs IH Hall]; constructor.
  - apply IH. intros x Hx. apply Hag. set_solver.
  - rewrite Forall_forall in *. intros x Hx. unfold klt.
    rewrite !Hag by set_solver. apply Hall, Hx.
Qed.

Lemma sorted_insert (ky : addr -> Z) (pre : list addr) (new c : addr) (post : list addr) :
  StronglySorted (klt ky) (pre ++ c :: post) ->
  Forall (fun a => (ky a < ky new)%Z) pre ->
  (ky new < ky c)%Z ->
  StronglySorted (klt ky) (pre ++ new :: c :: post).
Proof.
  intros Hs Hpre Hc.
  apply StronglySorted_app in Hs as (Hcross & Hs1 & Hs2).
  apply StronglySorted_app. split; [|split; auto].
  - intros x1 x2 Hx1 Hx2. apply elem_of_cons in Hx2 as [->|Hx2].
    + rewrite Forall_forall in Hpre. apply Hpre, Hx1.
    + apply Hcross; auto.
  - constructor; auto.
    pose proof Hs2 as Hs2'. apply StronglySorted_cons in Hs2' as [Hall _].
    constructor; [exact Hc|].
    rewrite Forall_forall in *. intros x Hx. specialize (Hall x Hx).
    unfold klt in *. lia.
Qed.

Lemma sorted_delete (ky : addr -> Z) (pre : list addr) (r : addr) (post : list addr) :
  StronglySorted (klt ky) (pre ++ r :: post) ->
  StronglySorted (klt ky) (pre ++ post).
Proof.
  intros Hs.
  apply StronglySorted_app in Hs as (Hcross & Hs1 & Hs2).
  apply StronglySorted_cons in Hs2 as [_ Hs2].
  apply StronglySorted_app. split; [|split; auto].
  intros x1 x2 Hx1 Hx2. apply Hcross; auto. set_solver.
Qed.

(** A chain that ends with [tl] and is split before an inner node. *)
Lemma snoc_split (cs : list addr) (tl : addr) (pre : list addr) (c : addr) (post : list addr) :
  cs ++ [tl] = pre ++ c :: post ->
  (post = [] /\ c = tl /\ cs = pre) \/
  (exists post', post = post' ++ [tl] /\ cs = pre ++ c :: post').
Proof.
  intros Heq. destruct (decide (post = [])) as [->|Hne].
  - left. apply app_inj_tail in Heq as [-> ->]. auto.
  - right. destruct (exists_last Hne) as (post' & t & ->).
    rewrite app_comm_cons, app_assoc in Heq.
    apply app_inj_tail in Heq as [-> ->]. eauto.
Qed.

Section ListSpec.
Import LockFreeList.
Context {T : Type}.
Implicit Types (m : mem T) (l : List) (h : list (LNode T)).

Lemma nxL_Some h a p b :
  nxL h a = Some (p, b) <->
  exists n, h !! a = Some n /\ val_ (next n) = p /\ marked_ (next n) = b.
Proof.
  unfold nxL. destruct (h !! a) as [n|]; simpl; split.
  - intros [= <- <-]; eauto.
  - intros (n' & [= <-] & <- & <-); reflexivity.
  - discriminate.
  - intros (n' & [=] & _).
Qed.

Lemma nxL_lt h a r : nxL h a = Some r -> a < length h.
Proof.
  unfold nxL. destruct (h !! a) as [n|] eqn:E; [|discriminate].
  intros _. eapply lookup_lt_Some; eauto.
Qed.

Lemma nxL_updL_eq h a p b : a < length h -> nxL (updL h a p b) a = Some (p, b).
Proof.
  intros Hlt. unfold updL, nxL.
  destruct (lookup_lt_is_Some_2 h a Hlt) as [n Hn]. rewrite Hn.
  rewrite list_lookup_insert_eq by auto. reflexivity.
Qed.

Lemma nxL_updL_ne h a x p b : x <> a -> nxL (updL h a p b) x = nxL h x.
Proof.
  intros Hne. unfold updL, nxL. destruct (h !! a); auto.
  rewrite list_lookup_insert_ne by auto. reflexivity.
Qed.

Lemma kyL_updL h a x p b : kyL (updL h a p b) x = kyL h x.
Proof.
  unfold updL, kyL. destruct (h !! a) as [n|] eqn:E; auto.
  destruct (decide (a = x)) as [->|Hne].
  - rewrite list_lookup_insert_eq by (eapply lookup_lt_Some; eauto).
    rewrite E. reflexivity.
  - rewrite list_lookup_insert_ne by auto. reflexivity.
Qed.

Lemma length_updL h a p b : length (updL h a p b) = length h.
Proof. unfold updL. destruct (h !! a); auto. apply length_insert. Qed.

(** ** The primitives on a valid address *)

Lemma load_run m a n : heap m !! a = Some n -> load (Some a) m = Ok (n, m).
Proof. unfold load. intros ->. reflexivity. Qed.

Lemma get_next_run m a p b :
  nxL (heap m) a = Some (p, b) -> get_next (Some a) m = Ok ((p, b), m).
Proof.
  intros (n & Hn & <- & <-)%nxL_Some. unfold get_next.
  rewrite (bind_Ok _ _ _ _ _ (load_run _ _ _ Hn)). reflexivity.
Qed.

Lemma getReference_run m a p b :
  nxL (heap m) a = Some (p, b) -> getReference (Some a) m = Ok (p, m).
Proof.
  intros (n & Hn & <- & <-)%nxL_Some. unfold getReference.
  rewrite (bind_Ok _ _ _ _ _ (load_run _ _ _ Hn)). reflexivity.
Qed.

Lemma getMark_run m a p b :
  nxL (heap m) a = Some (p, b) -> getMark (Some a) m = Ok (b, m).
Proof.
  intros (n & Hn & <- & <-)%nxL_Some. unfold getMark.
  rewrite (bind_Ok _ _ _ _ _ (load_run _ _ _ Hn)). reflexivity.
Qed.

Lemma store_next_run m a r p b :
  nxL (heap m) a = Some r ->
  store_next (Some a) (MkRef p b) m = Ok (tt, MkMem (updL (heap m) a p b) (calls m)).
Proof.
  destruct r as [p0 b0]. intros (n & Hn & _)%nxL_Some. unfold store_next.
  rewrite (bind_Ok _ _ _ _ _ (load_run _ _ _ Hn)).
  unfold modify, updL. rewrite Hn. reflexivity.
Qed.

Lemma compareAndSet_run m a e em p b :
  nxL (heap m) a = Some (e, em) ->
  compareAndSet (Some a) e p em b m
  = Ok (true, MkMem (updL (heap m) a p b) (calls m)).
Proof.
  intros H. pose proof H as (n & Hn & <- & <-)%nxL_Some. unfold compareAndSet.
  rewrite (bind_Ok _ _ _ _ _ (load_run _ _ _ Hn)).
  unfold ptr_eqb. rewrite bool_decide_eq_true_2 by reflexivity.
  rewrite eqb_reflx. simpl.
  rewrite (bind_Ok _ _ _ _ _ (store_next_run _ _ _ _ _ H)). reflexivity.
Qed.

Lemma attemptMark_run m a e :
  nxL (heap m) a = Some (e, false) ->
  attemptMark (Some a) e true m
  = Ok (true, MkMem (updL (heap m) a e true) (calls m)).
Proof.
  intros H. pose proof H as (n & Hn & <- & Hmk)%nxL_Some. unfold attemptMark.
  rewrite (bind_Ok _ _ _ _ _ (load_run _ _ _ Hn)).
  unfold ptr_eqb. rewrite bool_decide_eq_true_2 by reflexivity.
  rewrite Hmk. simpl.
  rewrite (bind_Ok _ _ _ _ _ (store_next_run _ _ _ _ _ H)). reflexivity.
Qed.

Lemma snip_loop_clean (n : nat) (pred curr succ : ptr) :
  snip_loop (T := T) n pred curr succ false = ret (Clean curr succ).
Proof. destruct n; reflexivity. Qed.

Lemma kyL_load h a n : h !! a = Some n -> kyL h a = key n.
Proof. unfold kyL. intros ->. reflexivity. Qed.

(** ** Window::find on a chain without marked nodes *)

Lemma list_walk_run m (key0 : Z) (n : nat) :
  forall ys p c fuel,
    path (nxL (heap m)) c ys ->
    (exists q, nxL (heap m) (end_of c ys) = Some (q, false)) ->
    (key0 <= kyL (heap m) (end_of c ys))%Z ->
    length ys < fuel ->
    exists pre c' post,
      c :: ys = pre ++ c' :: post /\
      Forall (fun a => (kyL (heap m) a < key0)%Z) pre /\
      (key0 <= kyL (heap m) c')%Z /\
      walk n fuel key0 (Some p) (Some c) m
      = Ok (Some (Some (end_of p pre), Some c'), m).
Proof.
  induction ys as [|y ys IH]; intros p c fuel Hp Hend Hk Hf;
    (destruct fuel as [|fuel]; [simpl in Hf; lia|]); simpl walk.
  - simpl in Hend, Hk. destruct Hend as [q Hq].
    pose proof Hq as (nc & Hnc & _)%nxL_Some.
    rewrite (bind_Ok _ _ _ _ _ (get_next_run _ _ _ _ Hq)).
    rewrite snip_loop_clean. mret.
    rewrite (bind_Ok _ _ _ _ _ (load_run _ _ _ Hnc)).
    rewrite (kyL_load _ _ _ Hnc) in Hk.
    rewrite Z.geb_leb. rewrite (proj2 (Z.leb_le _ _) Hk).
    exists [], c, []. repeat split; auto.
    rewrite (kyL_load _ _ _ Hnc). exact Hk.
  - simpl in Hp, Hend, Hk, Hf. destruct Hp as [Hc Hp].
    pose proof Hc as (nc & Hnc & _)%nxL_Some.
    rewrite (bind_Ok _ _ _ _ _ (get_next_run _ _ _ _ Hc)).
    rewrite snip_loop_clean. mret.
    rewrite (bind_Ok _ _ _ _ _ (load_run _ _ _ Hnc)).
    rewrite Z.geb_leb.
    destruct (Z.leb_spec key0 (key nc)) as [Hle|Hlt].
    + exists [], c, (y :: ys). repeat split; auto.
      rewrite (kyL_load _ _ _ Hnc). exact Hle.
    + destruct (IH c y fuel Hp Hend Hk ltac:(lia)) as (pre & c' & post & Heq & Hall & Hc' & Hrun).
      exists (c :: pre), c', post. repeat split; auto.
      * simpl. rewrite Heq. reflexivity.
      * constructor; auto. rewrite (kyL_load _ _ _ Hnc). exact Hlt.
Qed.

(** Facts that follow from the representation. *)
Lemma Lrep_NoDup l m hd tl cs : Lrep l m hd tl cs -> NoDup (hd :: cs ++ [tl]).
Proof. intros H. eapply sorted_NoDup, Lrep_sorted; eauto. Qed.

Lemma Lrep_valid l m hd tl cs x :
  Lrep l m hd tl cs -> x ∈ hd :: cs ++ [tl] -> exists r, nxL (heap m) x = Some r.
Proof.
  intros H Hx. destruct (decide (x = tl)) as [->|Hne].
  - destruct (Lrep_tl_ref _ _ _ _ _ H) as [p Hp]. eauto.
  - destruct (path_source (nx := nxL (heap m)) hd (cs ++ [tl]) x) as [y Hy];
      eauto using Lrep_path.
    rewrite end_of_snoc. exact Hne.
Qed.

Lemma Lrep_length l m hd tl cs :
  Lrep l m hd tl cs -> length cs + 2 <= length (heap m).
Proof.
  intros H.
  assert (length (hd :: cs ++ [tl]) <= length (heap m)) as Hlen.
  { apply NoDup_bounded_length; [eapply Lrep_NoDup; eauto|].
    apply Forall_forall. intros x Hx.
    destruct (Lrep_valid _ _ _ _ _ x H Hx) as [r Hr]. eapply nxL_lt; eauto. }
  simpl in Hlen. rewrite length_app in Hlen. simpl in Hlen. lia.
Qed.

Lemma list_find_run l m hd tl cs (key0 : Z) (n : nat) :
  Lrep l m hd tl cs ->
  (key0 <= UINT64_MAX)%Z ->
  length (heap m) <= n ->
  exists pre c post,
    cs ++ [tl] = pre ++ c :: post /\
    Forall (fun a => (kyL (heap m) a < key0)%Z) pre /\
    (key0 <= kyL (heap m) c)%Z /\
    find n (head l) key0 m = Ok ((Some (end_of hd pre), Some c), m).
Proof.
  intros H Hk Hn. pose proof (Lrep_length _ _ _ _ _ H) as Hlen.
  pose proof (Lrep_path _ _ _ _ _ H) as Hp.
  destruct (cs ++ [tl]) as [|c ys] eqn:Ecs; [destruct cs; discriminate|].
  assert (end_of c ys = tl) as Hend.
  { change (end_of hd (c :: ys) = tl). rewrite <- Ecs. apply end_of_snoc. }
  assert (length ys = length cs) as Hys.
  { apply (f_equal length) in Ecs. rewrite length_app in Ecs. simpl in Ecs. lia. }
  destruct Hp as [Hhd Hp].
  destruct (list_walk_run m key0 n ys hd c n Hp) as (pre & c' & post & Heq & Hall & Hc' & Hrun).
  - rewrite Hend. eapply Lrep_tl_ref; eauto.
  - rewrite Hend. rewrite (Lrep_tl_key _ _ _ _ _ H). exact Hk.
  - lia.
  - exists pre, c', post. repeat split; auto.
    unfold find. destruct n as [|n']; [lia|]. simpl find_loop.
    rewrite (Lrep_head _ _ _ _ _ H).
    rewrite (bind_Ok _ _ _ _ _ (getReference_run _ _ _ _ Hhd)).
    rewrite (bind_Ok _ _ _ _ _ Hrun). reflexivity.
Qed.

(** ** Allocation *)

Lemma nxL_app_old h n x : x < length h -> nxL (h ++ [n]) x = nxL h x.
Proof. intros Hx. unfold nxL. rewrite lookup_app_l by auto. reflexivity. Qed.

Lemma kyL_app_old h n x : x < length h -> kyL (h ++ [n]) x = kyL h x.
Proof. intros Hx. unfold kyL. rewrite lookup_app_l by auto. reflexivity. Qed.

Lemma nxL_app_new h n :
  nxL (h ++ [n]) (length h) = Some (val_ (next n), marked_ (next n)).
Proof. unfold nxL. rewrite list_lookup_middle by auto. reflexivity. Qed.

Lemma kyL_app_new h n : kyL (h ++ [n]) (length h) = key n.
Proof. unfold kyL. rewrite list_lookup_middle by auto. reflexivity. Qed.

(** ** List::add *)

Lemma list_add_loop_run l m hd tl cs (k : Z) (v : T) (n fuel : nat) :
  Lrep l m hd tl cs ->
  (0 < k < UINT64_MAX)%Z ->
  length (heap m) <= n ->
  exists pre c post,
    cs ++ [tl] = pre ++ c :: post /\
    Forall (fun a => (kyL (heap m) a < k)%Z) pre /\
    (k <= kyL (heap m) c)%Z /\
    add_loop n (S fuel) l k v m =
      if (kyL (heap m) c =? k)%Z then Ok (false, m)
      else Ok (true, MkMem (heap_added (heap m) (end_of hd pre) c k v)
                           (LeaveEpoch thread_id :: calls m)).
Proof.
  intros H Hk Hn.
  destruct (list_find_run l m hd tl cs k n H ltac:(lia) Hn)
    as (pre & c & post & Heq & Hall & Hc & Hrun).
  exists pre, c, post. repeat split; auto.
  simpl add_loop. mstep Hrun.
  assert (c ∈ hd :: cs ++ [tl]) as Hcin by (rewrite Heq; set_solver).
  destruct (Lrep_valid _ _ _ _ _ c H Hcin) as [[q b] Hq].
  pose proof Hq as (nc & Hnc & _)%nxL_Some.
  mstep (load_run _ _ _ Hnc). rewrite (kyL_load _ _ _ Hnc).
  destruct (key nc =? k)%Z eqn:Ek; [reflexivity|].
  unfold new_LNode at 1. unfold bind at 1. cbv beta iota.
  set (h1 := heap m ++ [MkNode (MkRef None false) k v]).
  assert (nxL h1 (length (heap m)) = Some (None, false)) as Hnew
    by (subst h1; apply nxL_app_new).
  unfold set_next.
  mstep (store_next_run (MkMem h1 (calls m)) _ _ (Some c) false Hnew).
  cbn [heap calls].
  set (h2 := updL h1 (length (heap m)) (Some c) false).
  pose proof (Lrep_path _ _ _ _ _ H) as Hp. rewrite Heq in Hp.
  apply path_app in Hp as [_ [Hpc _]].
  assert (end_of hd pre ∈ hd :: cs ++ [tl]) as Hpin.
  { rewrite Heq, app_comm_cons. apply elem_of_app. left. apply end_of_elem. }
  destruct (Lrep_valid _ _ _ _ _ _ H Hpin) as [rp Hrp].
  pose proof (nxL_lt _ _ _ Hrp) as Hplt.
  assert (nxL h2 (end_of hd pre) = Some (Some c, false)) as Hp2.
  { subst h2. rewrite nxL_updL_ne by lia. subst h1. rewrite nxL_app_old by lia. exact Hpc. }
  mstep (compareAndSet_run (MkMem h2 (calls m)) _ _ _ (Some (length (heap m))) false Hp2).
  reflexivity.
Qed.

Lemma Lrep_heap l m m' hd tl cs :
  heap m' = heap m -> Lrep l m hd tl cs -> Lrep l m' hd tl cs.
Proof. intros Hh [? ? ? ? ? ? ?]. constructor; rewrite ?Hh; auto. Qed.

Lemma nxL_app_other h n x : x <> length h -> nxL (h ++ [n]) x = nxL h x.
Proof.
  intros Hx. destruct (decide (x < length h)) as [Hlt|Hge].
  - apply nxL_app_old, Hlt.
  - unfold nxL. rewrite !lookup_ge_None_2; auto; [lia|].
    rewrite length_app. simpl. lia.
Qed.

Lemma nxL_added h p c k v x :
  p < length h ->
  nxL (heap_added h p c k v) x =
    if decide (x = p) then Some (Some (length h), false)
    else if decide (x = length h) then Some (Some c, false)
    else nxL h x.
Proof.
  intros Hp. unfold heap_added.
  destruct (decide (x = p)) as [->|Hxp].
  - apply nxL_updL_eq. rewrite length_updL, length_app. simpl. lia.
  - rewrite nxL_updL_ne by auto.
    destruct (decide (x = length h)) as [->|Hxn].
    + apply nxL_updL_eq. rewrite length_app. simpl. lia.
    + rewrite nxL_updL_ne by auto. apply nxL_app_other, Hxn.
Qed.

Lemma kyL_added h p c k v x :
  x < length h -> kyL (heap_added h p c k v) x = kyL h x.
Proof.
  intros Hx. unfold heap_added. rewrite !kyL_updL. apply kyL_app_old, Hx.
Qed.

Lemma kyL_added_new h p c k v : kyL (heap_added h p c k v) (length h) = k.
Proof. unfold heap_added. rewrite !kyL_updL. apply kyL_app_new. Qed.

Lemma Lrep_lt l m hd tl cs x :
  Lrep l m hd tl cs -> x ∈ hd :: cs ++ [tl] -> x < length (heap m).
Proof.
  intros H Hx. destruct (Lrep_valid _ _ _ _ _ x H Hx) as [r Hr].
  eapply nxL_lt; eauto.
Qed.

(** The representation after the new node has been linked. *)
Lemma Lrep_added l m hd tl cs pre c post (k : Z) (v : T) calls' :
  Lrep l m hd tl cs ->
  cs ++ [tl] = pre ++ c :: post ->
  Forall (fun a => (kyL (heap m) a < k)%Z) pre ->
  (k < kyL (heap m) c)%Z ->
  (0 < k)%Z ->
  exists cs',
    cs' ++ [tl] = pre ++ length (heap m) :: c :: post /\
    Lrep l (MkMem (heap_added (heap m) (end_of hd pre) c k v) calls') hd tl cs'.
Proof.
  intros H Heq Hall Hkc Hk.
  set (N := length (heap m)). set (p := end_of hd pre).
  assert (exists cs', cs' ++ [tl] = pre ++ N :: c :: post) as [cs' Hcs'].
  { destruct (snoc_split _ _ _ _ _ Heq) as [(-> & -> & ->)|(post' & -> & ->)].
    - exists (pre ++ [N]). rewrite <- app_assoc. reflexivity.
    - exists (pre ++ N :: c :: post'). rewrite <- app_assoc. reflexivity. }
  exists cs'. split; [exact Hcs'|].
  pose proof (Lrep_NoDup _ _ _ _ _ H) as Hnd. rewrite Heq in Hnd.
  assert (forall x, x ∈ hd :: pre ++ c :: post -> x < N) as Hlt.
  { intros x Hx. eapply Lrep_lt; eauto. rewrite Heq. exact Hx. }
  assert (p ∈ hd :: pre) as Hpin by apply end_of_elem.
  assert (p < N) as HpN.
  { apply Hlt. rewrite app_comm_cons. apply elem_of_app. auto. }
  assert (tl ∈ c :: post) as Htl.
  { pose proof (end_of_snoc hd cs tl) as He. rewrite Heq, end_of_app in He.
    simpl in He. rewrite <- He. apply end_of_elem. }
  assert (tl <> p) as Htlp.
  { intros ->. rewrite app_comm_cons in Hnd. apply NoDup_app in Hnd as (_ & Hd & _).
    apply (Hd p Hpin Htl). }
  constructor; cbn [heap].
  - eapply Lrep_head; eauto.
  - eapply Lrep_tail; eauto.
  - rewrite Hcs'.
    eapply (path_insert (nx := nxL (heap m))); eauto.
    + intros Hin. apply Hlt in Hin. lia.
    + fold p. rewrite nxL_added by auto. rewrite decide_True by auto. reflexivity.
    + rewrite nxL_added by auto. fold N.
      rewrite decide_False by lia. rewrite decide_True by auto. reflexivity.
    + intros x Hxp HxN. rewrite nxL_added by auto.
      rewrite decide_False by auto. rewrite decide_False by auto. reflexivity.
    + rewrite <- Heq. eapply Lrep_path; eauto.
  - rewrite Hcs', app_comm_cons.
    apply sorted_insert.
    + apply (sorted_ext (kyL (heap m))).
      * intros x Hx. apply kyL_added. apply Hlt. exact Hx.
      * rewrite <- app_comm_cons, <- Heq. eapply Lrep_sorted; eauto.
    + rewrite kyL_added_new. constructor.
      * rewrite kyL_added by (apply Hlt; set_solver).
        rewrite (Lrep_hd_key _ _ _ _ _ H). exact Hk.
      * rewrite Forall_forall in *. intros x Hx.
        rewrite kyL_added by (apply Hlt; set_solver). auto.
    + rewrite kyL_added_new. rewrite kyL_added by (apply Hlt; set_solver). exact Hkc.
  - rewrite kyL_added by (apply Hlt; set_solver). eapply Lrep_hd_key; eauto.
  - rewrite kyL_added by (apply Hlt; set_solver). eapply Lrep_tl_key; eauto.
  - rewrite nxL_added by auto.
    rewrite decide_False by auto.
    rewrite decide_False by (assert (tl < N) by (apply Hlt; set_solver); lia).
    eapply Lrep_tl_ref; eauto.
Qed.

(** ** List::remove *)

Lemma Lrep_removed l m hd tl pre c post calls' :
  Lrep l m hd tl (pre ++ c :: post) ->
  exists y,
    nxL (heap m) c = Some (Some y, false) /\
    Lrep l (MkMem (heap_removed (heap m) (end_of hd pre) c y) calls') hd tl (pre ++ post).
Proof.
  intros H. set (p := end_of hd pre).
  pose proof (Lrep_NoDup _ _ _ _ _ H) as Hnd.
  pose proof (Lrep_path _ _ _ _ _ H) as Hp.
  rewrite <- app_assoc, <- app_comm_cons in Hnd, Hp.
  destruct (post ++ [tl]) as [|y ys] eqn:Epost; [destruct post; discriminate|].
  pose proof Hp as Hp'. apply path_app in Hp' as [_ (Hpc & Hcy & _)]. fold p in Hpc.
  exists y. split; [exact Hcy|].
  assert (p ∈ hd :: pre) as Hpin by apply end_of_elem.
  assert (p <> c) as Hpc_ne.
  { intros Hpc'. rewrite app_comm_cons in Hnd. apply NoDup_app in Hnd as (_ & Hd & _).
    apply (Hd p Hpin). rewrite Hpc'. set_solver. }
  pose proof (nxL_lt _ _ _ Hpc) as Hplt. pose proof (nxL_lt _ _ _ Hcy) as Hclt.
  assert (forall x, nxL (heap_removed (heap m) p c y) x =
            if decide (x = p) then Some (Some y, false)
            else if decide (x = c) then Some (Some y, true) else nxL (heap m) x) as Hnx.
  { intros x. unfold heap_removed. destruct (decide (x = p)) as [->|Hxp].
    - apply nxL_updL_eq. rewrite length_updL. exact Hplt.
    - rewrite nxL_updL_ne by auto. destruct (decide (x = c)) as [->|Hxc].
      + apply nxL_updL_eq, Hclt.
      + apply nxL_updL_ne, Hxc. }
  assert (tl ∈ y :: ys) as Htl by (rewrite <- Epost; set_solver).
  assert (tl <> p /\ tl <> c) as [Htlp Htlc].
  { split; intros ->.
    - rewrite app_comm_cons in Hnd. apply NoDup_app in Hnd as (_ & Hd & _).
      apply (Hd p Hpin). set_solver.
    - rewrite app_comm_cons in Hnd. apply NoDup_app in Hnd as (_ & _ & Hd).
      apply NoDup_cons in Hd as [Hd _]. apply Hd, Htl. }
  constructor; cbn [heap].
  - eapply Lrep_head; eauto.
  - eapply Lrep_tail; eauto.
  - rewrite <- app_assoc, Epost.
    eapply (path_delete (nx := nxL (heap m)) hd pre c y ys); eauto.
    + fold p. rewrite Hnx. rewrite decide_True by auto. reflexivity.
    + intros x Hxp Hxc. rewrite Hnx. rewrite decide_False by auto.
      rewrite decide_False by auto. reflexivity.
  - apply (sorted_ext (kyL (heap m))).
    { intros x _. unfold heap_removed. rewrite !kyL_updL. reflexivity. }
    pose proof (Lrep_sorted _ _ _ _ _ H) as Hs.
    rewrite <- app_assoc, <- app_comm_cons in Hs.
    rewrite <- app_assoc. rewrite app_comm_cons in Hs |- *.
    eapply sorted_delete; eauto.
  - unfold heap_removed. rewrite !kyL_updL. eapply Lrep_hd_key; eauto.
  - unfold heap_removed. rewrite !kyL_updL. eapply Lrep_tl_key; eauto.
  - rewrite Hnx. rewrite decide_False by auto. rewrite decide_False by auto.
    eapply Lrep_tl_ref; eauto.
Qed.

(** Where [find] stops tells whether the key is held by a live node. *)
Lemma window_key_mem l m hd tl cs pre c post (k : Z) :
  Lrep l m hd tl cs ->
  cs ++ [tl] = pre ++ c :: post ->
  Forall (fun a => (kyL (heap m) a < k)%Z) pre ->
  (k <= kyL (heap m) c)%Z ->
  (k < UINT64_MAX)%Z ->
  k ∈ Lkeys m cs <-> kyL (heap m) c = k.
Proof.
  intros H Heq Hall Hc Hk.
  pose proof (Lrep_sorted _ _ _ _ _ H) as Hs. rewrite Heq in Hs.
  apply StronglySorted_cons in Hs as [_ Hs].
  apply StronglySorted_app in Hs as (_ & _ & Hs).
  apply StronglySorted_cons in Hs as [Hpost _].
  rewrite Forall_forall in Hall, Hpost. unfold klt in Hpost.
  unfold Lkeys. rewrite list_elem_of_fmap. split.
  - intros (a & -> & Ha).
    assert (a ∈ pre ++ c :: post) as Ha' by (rewrite <- Heq; set_solver).
    apply elem_of_app in Ha' as [Ha'|Ha'].
    + specialize (Hall a Ha'). lia.
    + apply elem_of_cons in Ha' as [->|Ha']; auto.
      specialize (Hpost a Ha'). lia.
  - intros Hkc. exists c. split; auto.
    destruct (snoc_split _ _ _ _ _ Heq) as [(-> & -> & ->)|(post' & -> & ->)].
    + rewrite (Lrep_tl_key _ _ _ _ _ H) in Hkc. lia.
    + set_solver.
Qed.

Theorem list_add_ok l m hd tl cs (k : Z) (v : T) (n : nat) :
  Lrep l m hd tl cs ->
  (0 < k < UINT64_MAX)%Z ->
  length (heap m) <= n ->
  exists b m' cs',
    add n l k v m = Ok (b, m') /\
    Lrep l m' hd tl cs' /\
    (b = true <-> k ∉ Lkeys m cs) /\
    k ∈ Lkeys m' cs' /\
    (b = false -> heap m' = heap m /\ cs' = cs).
Proof.
  intros H Hk Hn.
  set (m1 := MkMem (heap m) (EnterEpoch thread_id :: calls m)).
  assert (Lrep l m1 hd tl cs) as H1 by (apply (Lrep_heap l m m1); [reflexivity|exact H]).
  pose proof (Lrep_length _ _ _ _ _ H) as Hlen.
  destruct n as [|n']; [lia|].
  destruct (list_add_loop_run l m1 hd tl cs k v (S n') n' H1 Hk Hn)
    as (pre & c & post & Heq & Hall & Hc & Hrun).
  pose proof (window_key_mem _ _ _ _ _ _ _ _ k H1 Heq Hall Hc ltac:(lia)) as Hmem.
  unfold add. unfold enterEpoch at 1, modify at 1, bind at 1. fold m1. rewrite Hrun.
  destruct (kyL (heap m1) c =? k)%Z eqn:Ek.
  - apply Z.eqb_eq in Ek. exists false, m1, cs.
    split; [reflexivity|]. split; [exact H1|]. split; [|split].
    + split; [discriminate|]. intros Hnot. exfalso. apply Hnot. apply Hmem. exact Ek.
    + apply Hmem, Ek.
    + intros _. split; reflexivity.
  - apply Z.eqb_neq in Ek.
    destruct (Lrep_added l m1 hd tl cs pre c post k v
                (LeaveEpoch thread_id :: calls m1) H1 Heq Hall ltac:(lia) ltac:(lia))
      as (cs' & Hcs' & H').
    eexists true, _, cs'.
    split; [reflexivity|]. split; [exact H'|]. split; [|split].
    + split; auto. intros _ Hin. apply Ek, Hmem, Hin.
    + unfold Lkeys. apply list_elem_of_fmap. exists (length (heap m1)).
      cbn [heap]. rewrite kyL_added_new. split; auto.
      assert (length (heap m1) ∈ cs' ++ [tl]) as Hin by (rewrite Hcs'; set_solver).
      apply elem_of_app in Hin as [Hin|Hin]; auto.
      apply list_elem_of_singleton in Hin.
      assert (tl < length (heap m1)) by (eapply Lrep_lt; eauto; set_solver). lia.
    + discriminate.
Qed.

Theorem list_remove_ok l m hd tl cs (k : Z) (n : nat) :
  Lrep l m hd tl cs ->
  (0 <= k < UINT64_MAX)%Z ->
  length (heap m) <= n ->
  exists b m' cs',
    remove n l k m = Ok (b, m') /\
    Lrep l m' hd tl cs' /\
    (b = true <-> k ∈ Lkeys m cs) /\
    (k ∉ Lkeys m' cs') /\
    (b = false -> heap m' = heap m /\ cs' = cs).
Proof.
  intros H Hk Hn.
  set (m1 := MkMem (heap m) (EnterEpoch thread_id :: calls m)).
  assert (Lrep l m1 hd tl cs) as H1 by (apply (Lrep_heap l m m1); [reflexivity|exact H]).
  pose proof (Lrep_length _ _ _ _ _ H) as Hlen.
  destruct n as [|n']; [lia|].
  destruct (list_find_run l m1 hd tl cs k (S n') H1 ltac:(lia) Hn)
    as (pre & c & post & Heq & Hall & Hc & Hrun).
  pose proof (window_key_mem _ _ _ _ _ _ _ _ k H1 Heq Hall Hc ltac:(lia)) as Hmem.
  assert (c ∈ hd :: cs ++ [tl]) as Hcin by (rewrite Heq; set_solver).
  destruct (Lrep_valid _ _ _ _ _ c H1 Hcin) as [[q b] Hq].
  pose proof Hq as (nc & Hnc & _)%nxL_Some.
  pose proof (kyL_load _ _ _ Hnc) as Hkc.
  unfold remove. unfold enterEpoch at 1, modify at 1, bind at 1. fold m1.
  destruct (key nc =? k)%Z eqn:Ek.
  - apply Z.eqb_eq in Ek. rewrite <- Hkc in Ek.
    destruct (snoc_split _ _ _ _ _ Heq) as [(-> & -> & ->)|(post' & -> & Hcs)].
    { rewrite (Lrep_tl_key _ _ _ _ _ H1) in Ek. lia. }
    subst cs.
    destruct (Lrep_removed l m1 hd tl pre c post'
               (LeaveEpoch thread_id :: RetireNode (Some c) currentEpoch :: calls m1) H1)
      as (y & Hcy & H').
    set (m2 := MkMem (updL (heap m1) c (Some y) true) (calls m1)).
    assert (remove_mark (S n') (S n') l k m1
            = Ok (Some (Some (end_of hd pre), Some c, Some y), m2)) as Hmark.
    { simpl remove_mark. mstep Hrun. mstep (load_run _ _ _ Hnc).
      rewrite <- Hkc, Ek, Z.eqb_refl. cbn [negb].
      mstep (getReference_run _ _ _ _ Hcy).
      mstep (attemptMark_run _ _ _ Hcy). reflexivity. }
    mstep Hmark. unfold remove_unlink.
    pose proof (Lrep_path _ _ _ _ _ H1) as Hp.
    rewrite <- app_assoc in Hp. apply path_app in Hp as [_ [Hpc _]].
    pose proof (Lrep_NoDup _ _ _ _ _ H1) as Hnd. rewrite <- app_assoc in Hnd.
    assert (end_of hd pre <> c) as Hne.
    { intros Hpc'. rewrite app_comm_cons in Hnd. apply NoDup_app in Hnd as (_ & Hd & _).
      apply (Hd (end_of hd pre) (end_of_elem _ _)). rewrite Hpc'. set_solver. }
    assert (nxL (heap m2) (end_of hd pre) = Some (Some c, false)) as Hp2.
    { subst m2. cbn [heap]. rewrite nxL_updL_ne by auto. exact Hpc. }
    mstep (compareAndSet_run m2 _ _ _ (Some y) false Hp2).
    eexists true, _, (pre ++ post'). split; [reflexivity|].
    split; [exact H'|]. split; [|split].
    + split; auto. intros _. apply Hmem. exact Ek.
    + unfold Lkeys. rewrite list_elem_of_fmap. intros (a & Ha & Hin).
      subst m2. cbn [heap] in Ha. rewrite !kyL_updL in Ha.
      pose proof (Lrep_sorted _ _ _ _ _ H1) as Hs.
      apply StronglySorted_cons in Hs as [_ Hs].
      apply StronglySorted_app_1_l in Hs.
      apply StronglySorted_app in Hs as (Hcross & _ & Hs).
      apply StronglySorted_cons in Hs as [Hpost _].
      rewrite Forall_forall in Hpost. unfold klt in Hcross, Hpost.
      change (heap m1) with (heap m) in *.
      apply elem_of_app in Hin as [Hin|Hin].
      * specialize (Hcross a c Hin ltac:(set_solver)). lia.
      * specialize (Hpost a Hin). lia.
    + discriminate.
  - apply Z.eqb_neq in Ek. rewrite <- Hkc in Ek.
    set (m2 := MkMem (heap m1) (LeaveEpoch thread_id :: calls m1)).
    assert (remove_mark (S n') (S n') l k m1 = Ok (None, m2)) as Hmark.
    { simpl remove_mark. mstep Hrun. mstep (load_run _ _ _ Hnc).
      rewrite (proj2 (Z.eqb_neq _ _)) by (rewrite <- Hkc; exact Ek). reflexivity. }
    mstep Hmark.
    eexists false, _, cs. split; [reflexivity|].
    split; [eapply Lrep_heap; [|exact H1]; reflexivity|].
    split; [|split].
    + split; [discriminate|]. intros Hin. exfalso. apply Ek, Hmem, Hin.
    + intros Hin. apply Ek, Hmem. exact Hin.
    + intros _. split; reflexivity.
Qed.

(** ** List::List *)

Lemma new_List_ok (d : T) (cl : list epoch_call) :
  exists l m,
    new_List d (MkMem [] cl) = Ok (l, m) /\ Lrep l m 0 1 [] /\
    heap m !! 0 = Some (MkNode (MkRef (Some 1) false) 0 d) /\
    heap m !! 1 = Some (MkNode (MkRef None false) UINT64_MAX d).
Proof.
  do 2 eexists. split; [reflexivity|]. split; [|split; reflexivity].
  constructor; cbn; eauto.
  repeat constructor; unfold klt, kyL; cbn; unfold UINT64_MAX; lia.
Qed.

(** ** List::contains and List::get never write *)

Lemma readonly_load (p : ptr) : readonly (load (T := T) p).
Proof.
  intros m n m'. unfold load. destruct p as [a|]; [|discriminate].
  destruct (heap m !! a); [|discriminate]. intros [= _ <-]. reflexivity.
Qed.

Lemma readonly_get_next (p : ptr) : readonly (get_next (T := T) p).
Proof. apply readonly_bind; [apply readonly_load|intros; apply readonly_ret]. Qed.

Lemma readonly_getReference (p : ptr) : readonly (getReference (T := T) p).
Proof. apply readonly_bind; [apply readonly_load|intros; apply readonly_ret]. Qed.

Lemma readonly_getMark (p : ptr) : readonly (getMark (T := T) p).
Proof. apply readonly_bind; [apply readonly_load|intros; apply readonly_ret]. Qed.

Lemma readonly_contains (n : nat) l (k : Z) : readonly (contains (T := T) n l k).
Proof.
  unfold contains. generalize (head l). induction n as [|n IH]; intros curr; simpl.
  - apply readonly_timeout.
  - destruct curr as [a|]; [|apply readonly_ret].
    apply readonly_bind; [apply readonly_getReference|intros succ].
    apply readonly_bind; [apply readonly_getMark|intros marked].
    apply readonly_bind; [apply readonly_load|intros c].
    destruct (key c >=? k)%Z; [apply readonly_ret|apply IH].
Qed.

Lemma readonly_get (n : nat) l (k : Z) : readonly (get (T := T) n l k).
Proof.
  unfold get. apply readonly_bind.
  - generalize (head l) false. induction n as [|n IH]; intros curr marked; simpl.
    + apply readonly_timeout.
    + apply readonly_bind; [apply readonly_load|intros c].
      destruct (key c <? k)%Z; [|apply readonly_ret].
      apply readonly_bind; [apply readonly_get_next|intros [curr' marked']].
      apply IH.
  - intros [curr marked].
    apply readonly_bind; [apply readonly_load|intros c].
    destruct ((key c =? k)%Z && negb marked); apply readonly_ret.
Qed.

(** ** The sentinels seen through contains and get *)

Lemma unmark_Some h a x :
  unmark (nxL h) a = Some (Some x, false) <->
  exists n, h !! a = Some n /\ val_ (next n) = Some x.
Proof.
  unfold unmark, nxL. destruct (h !! a) as [n|]; simpl; split.
  - intros [= <-]. eauto.
  - intros (n' & [= <-] & ->). reflexivity.
  - discriminate.
  - intros (n' & [=] & _).
Qed.

Lemma Lrep_Lshape l m hd tl cs : Lrep l m hd tl cs -> Lshape l m hd tl cs.
Proof.
  intros H. pose proof H as [? ? Hp ? ? ? [q Hq]]. constructor; auto.
  - revert Hp. generalize (cs ++ [tl]) hd. induction l0 as [|x xs IH]; intros a; simpl; auto.
    intros [Ha Hp]. split; auto. unfold unmark. rewrite Ha. reflexivity.
  - destruct cs as [|c cs]; simpl in Hp; destruct Hp as [(n & Hn & _ & Hm)%nxL_Some _];
      unfold markL; rewrite Hn; exact Hm.
  - apply nxL_Some in Hq as (n & Hn & _). eauto.
Qed.

Lemma pred_mark_snoc h (c : addr) (ys : list addr) (t : addr) (mk : bool) :
  pred_mark h c (ys ++ [t]) mk = markL h (end_of c ys).
Proof. revert c mk; induction ys as [|y ys IH]; intros c mk; simpl; auto. Qed.

Lemma list_get_loop_run m (key0 : Z) :
  forall ys c mk fuel,
    path (unmark (nxL (heap m))) c ys ->
    Forall (fun a => (kyL (heap m) a < key0)%Z) (removelast (c :: ys)) ->
    (key0 <= kyL (heap m) (end_of c ys))%Z ->
    is_Some (heap m !! end_of c ys) ->
    length ys < fuel ->
    get_loop fuel key0 (Some c) mk m
    = Ok ((Some (end_of c ys), pred_mark (heap m) c ys mk), m).
Proof.
  induction ys as [|y ys IH]; intros c mk fuel Hp Hall Hk Hv Hf;
    (destruct fuel as [|fuel]; [simpl in Hf; lia|]); simpl get_loop.
  - simpl in *. destruct Hv as [nc Hnc].
    mstep (load_run _ _ _ Hnc). rewrite (kyL_load _ _ _ Hnc) in Hk.
    rewrite (proj2 (Z.ltb_ge _ _)) by lia. reflexivity.
  - destruct Hp as [Hc Hp]. pose proof Hc as (nc & Hnc & Hval)%unmark_Some.
    change (removelast (c :: y :: ys)) with (c :: removelast (y :: ys)) in Hall.
    apply Forall_cons in Hall as [Hkc Hall].
    mstep (load_run _ _ _ Hnc). rewrite (kyL_load _ _ _ Hnc) in Hkc.
    rewrite (proj2 (Z.ltb_lt _ _)) by lia.
    assert (nxL (heap m) c = Some (Some y, marked_ (next nc))) as Hnx.
    { unfold nxL. rewrite Hnc. simpl. rewrite Hval. reflexivity. }
    mstep (get_next_run _ _ _ _ Hnx).
    rewrite (IH y (marked_ (next nc)) fuel Hp Hall Hk Hv ltac:(simpl in Hf; lia)).
    simpl. unfold markL. rewrite Hnc. reflexivity.
Qed.

Theorem list_sentinels_visible l m hd tl cs (n : nat) :
  Lshape l m hd tl cs ->
  length cs + 2 <= n ->
  exists nh nt,
    heap m !! hd = Some nh /\ heap m !! tl = Some nt /\
    contains n l 0 m = Ok (true, m) /\
    get n l 0 m = Ok (Some (data nh), m) /\
    get n l UINT64_MAX m
    = Ok (if markL (heap m) (end_of hd cs) then None else Some (data nt), m).
Proof.
  intros H Hn.
  pose proof (Lshape_path _ _ _ _ _ H) as Hp.
  assert (exists nh, heap m !! hd = Some nh) as [nh Hnh].
  { destruct cs; simpl in Hp; destruct Hp as [(nh & Hnh & _)%unmark_Some _]; eauto. }
  destruct (Lshape_tl_node _ _ _ _ _ H) as [nt Hnt].
  pose proof (Lshape_hd_key _ _ _ _ _ H) as Hk0. rewrite (kyL_load _ _ _ Hnh) in Hk0.
  pose proof (Lshape_tl_key _ _ _ _ _ H) as Hkt. rewrite (kyL_load _ _ _ Hnt) in Hkt.
  pose proof (Lshape_hd_live _ _ _ _ _ H) as Hmk. unfold markL in Hmk. rewrite Hnh in Hmk.
  simpl in Hmk.
  assert (nxL (heap m) hd = Some (val_ (next nh), false)) as Hnx.
  { unfold nxL. rewrite Hnh. simpl. rewrite Hmk. reflexivity. }
  exists nh, nt. split; [exact Hnh|]. split; [exact Hnt|].
  destruct n as [|n']; [lia|]. split; [|split].
  - unfold contains. rewrite (Lshape_head _ _ _ _ _ H). simpl contains_loop.
    mstep (getReference_run _ _ _ _ Hnx). mstep (getMark_run _ _ _ _ Hnx).
    mstep (load_run _ _ _ Hnh). rewrite Hk0. reflexivity.
  - unfold get. rewrite (Lshape_head _ _ _ _ _ H).
    assert (get_loop (S n') 0 (Some hd) false m = Ok ((Some hd, false), m)) as Hloop.
    { simpl get_loop. mstep (load_run _ _ _ Hnh). rewrite Hk0. reflexivity. }
    mstep Hloop. mstep (load_run _ _ _ Hnh). rewrite Hk0. reflexivity.
  - unfold get. rewrite (Lshape_head _ _ _ _ _ H).
    pose proof (Lshape_sorted _ _ _ _ _ H) as Hs.
    rewrite app_comm_cons in Hs. apply StronglySorted_app in Hs as (Hcross & _ & _).
    assert (get_loop (S n') UINT64_MAX (Some hd) false m
            = Ok ((Some tl, markL (heap m) (end_of hd cs)), m)) as Hloop.
    { rewrite (list_get_loop_run m UINT64_MAX (cs ++ [tl]) hd false (S n')); auto.
      + rewrite end_of_snoc, pred_mark_snoc. reflexivity.
      + rewrite app_comm_cons, removelast_last. apply Forall_forall. intros x Hx.
        specialize (Hcross x tl Hx ltac:(set_solver)). unfold klt in Hcross.
        rewrite (Lshape_tl_key _ _ _ _ _ H) in Hcross. exact Hcross.
      + rewrite end_of_snoc, (Lshape_tl_key _ _ _ _ _ H). lia.
      + rewrite end_of_snoc. eauto.
      + rewrite length_app. simpl. lia. }
    mstep Hloop. mstep (load_run _ _ _ Hnt). rewrite Hkt, Z.eqb_refl.
    destruct (markL (heap m) (end_of hd cs)); reflexivity.
Qed.

(** ** List::contains and List::get return

    On every chain from head to tail, with marked inner nodes or without,
    the two searches stop at the tail sentinel at the latest. *)

Lemma nxL_node h a n :
  h !! a = Some n -> nxL h a = Some (val_ (next n), marked_ (next n)).
Proof. unfold nxL. intros ->. reflexivity. Qed.

Lemma list_contains_loop_returns m (key0 : Z) :
  forall ys c fuel,
    path (unmark (nxL (heap m))) c ys ->
    (key0 <= kyL (heap m) (end_of c ys))%Z ->
    is_Some (heap m !! end_of c ys) ->
    length ys < fuel ->
    exists b, contains_loop fuel key0 (Some c) m = Ok (b, m).
Proof.
  induction ys as [|y ys IH]; intros c fuel Hp Hk Hv Hf;
    (destruct fuel as [|fuel]; [simpl in Hf; lia|]); simpl contains_loop.
  - simpl in Hk, Hv. destruct Hv as [nc Hnc].
    mstep (getReference_run _ _ _ _ (nxL_node _ _ _ Hnc)).
    mstep (getMark_run _ _ _ _ (nxL_node _ _ _ Hnc)).
    mstep (load_run _ _ _ Hnc). rewrite (kyL_load _ _ _ Hnc) in Hk.
    rewrite (proj2 (Z.geb_le _ _)) by lia. eauto.
  - destruct Hp as [Hc Hp]. pose proof Hc as (nc & Hnc & Hval)%unmark_Some.
    mstep (getReference_run _ _ _ _ (nxL_node _ _ _ Hnc)).
    mstep (getMark_run _ _ _ _ (nxL_node _ _ _ Hnc)).
    mstep (load_run _ _ _ Hnc).
    destruct (key nc >=? key0)%Z; [eauto|].
    rewrite Hval. apply IH; auto. simpl in Hf. lia.
Qed.

Lemma list_get_loop_returns m (key0 : Z) :
  forall ys c mk fuel,
    path (unmark (nxL (heap m))) c ys ->
    (key0 <= kyL (heap m) (end_of c ys))%Z ->
    is_Some (heap m !! end_of c ys) ->
    length ys < fuel ->
    exists c' mk',
      get_loop fuel key0 (Some c) mk m = Ok ((Some c', mk'), m) /\
      is_Some (heap m !! c').
Proof.
  induction ys as [|y ys IH]; intros c mk fuel Hp Hk Hv Hf;
    (destruct fuel as [|fuel]; [simpl in Hf; lia|]); simpl get_loop.
  - simpl in Hk, Hv. pose proof Hv as [nc Hnc].
    mstep (load_run _ _ _ Hnc). rewrite (kyL_load _ _ _ Hnc) in Hk.
    rewrite (proj2 (Z.ltb_ge _ _)) by lia. eauto.
  - destruct Hp as [Hc Hp]. pose proof Hc as (nc & Hnc & Hval)%unmark_Some.
    mstep (load_run _ _ _ Hnc).
    destruct (key nc <? key0)%Z; [|eauto].
    mstep (get_next_run _ _ _ _ (nxL_node _ _ _ Hnc)).
    rewrite Hval. apply IH; auto. simpl in Hf. lia.
Qed.

Theorem list_reads_return l m hd tl cs (key0 : Z) (n : nat) :
  Lshape l m hd tl cs ->
  (key0 <= UINT64_MAX)%Z ->
  length cs + 2 <= n ->
  (exists b, contains n l key0 m = Ok (b, m)) /\
  (exists v, get n l key0 m = Ok (v, m)).
Proof.
  intros H Hk Hn.
  pose proof (Lshape_path _ _ _ _ _ H) as Hp.
  pose proof (Lshape_tl_key _ _ _ _ _ H) as Hkt.
  pose proof (Lshape_tl_node _ _ _ _ _ H) as Hnt.
  split.
  - unfold contains. rewrite (Lshape_head _ _ _ _ _ H).
    apply (list_contains_loop_returns m key0 (cs ++ [tl]) hd n Hp);
      rewrite ?end_of_snoc, ?length_app; simpl; auto; lia.
  - unfold get. rewrite (Lshape_head _ _ _ _ _ H).
    destruct (list_get_loop_returns m key0 (cs ++ [tl]) hd false n Hp)
      as (c & mk & Hloop & [nc Hnc]);
      rewrite ?end_of_snoc, ?length_app; simpl; auto; try lia.
    mstep Hloop. mstep (load_run _ _ _ Hnc).
    destruct ((key nc =? key0)%Z && negb mk); eauto.
Qed.

End ListSpec.

(** * The skip list: representation and sequential behaviour *)

Lemma below_from (ky : addr -> Z) (k : Z) (cs : list addr) :
  below ky k cs ++ from ky k cs = cs.
Proof.
  induction cs as [|c cs IH]; simpl; auto.
  destruct (ky c <? k)%Z; simpl; congruence.
Qed.

Lemma below_lt (ky : addr -> Z) (k : Z) (cs : list addr) :
  Forall (fun a => (ky a < k)%Z) (below ky k cs).
Proof.
  induction cs as [|c cs IH]; simpl; auto.
  destruct (Z.ltb_spec (ky c) k); auto.
Qed.

Lemma from_first_ge (ky : addr -> Z) (k : Z) (cs : list addr) (c : addr) (post : list addr) :
  from ky k cs = c :: post -> (k <= ky c)%Z.
Proof.
  induction cs as [|x cs IH]; simpl; [discriminate|].
  destruct (Z.ltb_spec (ky x) k); auto. intros [= -> _]. auto.
Qed.

Lemma below_split (ky : addr -> Z) (k : Z) (pre : list addr) (c : addr) (post : list addr) :
  Forall (fun a => (ky a < k)%Z) pre -> (k <= ky c)%Z ->
  below ky k (pre ++ c :: post) = pre /\ from ky k (pre ++ c :: post) = c :: post.
Proof.
  intros Hall Hc. induction Hall as [|x pre Hx Hall IH]; simpl.
  - rewrite (proj2 (Z.ltb_ge _ _)) by lia. auto.
  - rewrite (proj2 (Z.ltb_lt _ _)) by lia. destruct IH as [-> ->]. auto.
Qed.

Lemma below_ext (ky ky' : addr -> Z) (k : Z) (cs : list addr) :
  (forall x, x ∈ cs -> ky' x = ky x) ->
  below ky' k cs = below ky k cs /\ from ky' k cs = from ky k cs.
Proof.
  induction cs as [|c cs IH]; intros Hag; simpl; auto.
  rewrite Hag by set_solver.
  destruct IH as [-> ->]; [intros x Hx; apply Hag; set_solver|]. auto.
Qed.

Lemma below_snoc (ky : addr -> Z) (k : Z) (cs : list addr) (tl d : addr) :
  (k <= ky tl)%Z ->
  below ky k (cs ++ [tl]) = below ky k cs /\
  first_or d (from ky k (cs ++ [tl])) = first_or tl (from ky k cs).
Proof.
  intros Hk. induction cs as [|c cs [IH1 IH2]]; simpl.
  - rewrite (proj2 (Z.ltb_ge _ _)) by lia. auto.
  - destruct (ky c <? k)%Z; simpl; auto. rewrite IH1. auto.
Qed.

Lemma first_or_snoc (tl : addr) (cs : list addr) :
  exists post, cs ++ [tl] = first_or tl cs :: post.
Proof. destruct cs as [|c cs]; simpl; eauto. Qed.

Lemma randomLevel_le (m : nat) (flips : list bool) :
  LockFreeSkipList.randomLevel m flips <= m.
Proof.
  revert flips; induction m as [|m IH]; intros [|[] fs]; simpl; try lia.
  specialize (IH fs). lia.
Qed.

Section SkipSpec.
Import LockFreeSkipList.
Context {T : Type}.
Implicit Types (m : mem T) (sl : SkipList) (h : list (SNodeBase T)).

Lemma nxS_Some h lv a p b :
  nxS h lv a = Some (p, b) <->
  exists n, h !! a = Some n /\ next n !! lv = Some (MkRef p b).
Proof.
  unfold nxS. destruct (h !! a) as [n|]; simpl; split.
  - destruct (next n !! lv) as [[p' b']|] eqn:E; simpl; [|discriminate].
    intros [= <- <-]. eauto.
  - intros (n' & [= <-] & ->). reflexivity.
  - discriminate.
  - intros (n' & [=] & _).
Qed.

Lemma nxS_lt h lv a r : nxS h lv a = Some r -> a < length h.
Proof.
  unfold nxS. destruct (h !! a) as [n|] eqn:E; [|discriminate].
  intros _. eapply lookup_lt_Some; eauto.
Qed.

Lemma nxS_updS h a lv p b r j x :
  nxS h lv a = Some r ->
  nxS (updS h a lv p b) j x =
    if decide (x = a /\ j = lv) then Some (p, b) else nxS h j x.
Proof.
  destruct r as [p0 b0]. intros (n & Hn & Hlv)%nxS_Some.
  pose proof (lookup_lt_Some _ _ _ Hn) as Ha.
  pose proof (lookup_lt_Some _ _ _ Hlv) as Hl.
  unfold updS, nxS. rewrite Hn.
  destruct (decide (x = a)) as [->|Hxa].
  - rewrite list_lookup_insert_eq by auto. cbn [next]. rewrite Hn.
    destruct (decide (j = lv)) as [->|Hj].
    + rewrite decide_True by auto. rewrite list_lookup_insert_eq by auto. reflexivity.
    + rewrite decide_False by tauto. rewrite list_lookup_insert_ne by auto. reflexivity.
  - rewrite decide_False by tauto. rewrite list_lookup_insert_ne by auto. reflexivity.
Qed.

Lemma kyS_updS h a lv p b x : kyS (updS h a lv p b) x = kyS h x.
Proof.
  unfold updS, kyS. destruct (h !! a) as [n|] eqn:E; auto.
  destruct (decide (a = x)) as [->|Hne].
  - rewrite list_lookup_insert_eq by (eapply lookup_lt_Some; eauto).
    rewrite E. reflexivity.
  - rewrite list_lookup_insert_ne by auto. reflexivity.
Qed.

Lemma topS_updS h a lv p b x : topS (updS h a lv p b) x = topS h x.
Proof.
  unfold updS, topS. destruct (h !! a) as [n|] eqn:E; auto.
  destruct (decide (a = x)) as [->|Hne].
  - rewrite list_lookup_insert_eq by (eapply lookup_lt_Some; eauto).
    rewrite E. reflexivity.
  - rewrite list_lookup_insert_ne by auto. reflexivity.
Qed.

Lemma dataS_updS h a lv p b x : dataS (updS h a lv p b) x = dataS h x.
Proof.
  unfold updS, dataS. destruct (h !! a) as [n|] eqn:E; auto.
  destruct (decide (a = x)) as [->|Hne].
  - rewrite list_lookup_insert_eq by (eapply lookup_lt_Some; eauto).
    rewrite E. reflexivity.
  - rewrite list_lookup_insert_ne by auto. reflexivity.
Qed.

Lemma length_updS h a lv p b : length (updS h a lv p b) = length h.
Proof. unfold updS. destruct (h !! a); auto. apply length_insert. Qed.

Lemma frame_refl m : frame m m.
Proof. constructor; auto. Qed.

Lemma frame_trans m1 m2 m3 : frame m1 m2 -> frame m2 m3 -> frame m1 m3.
Proof.
  intros [? ? ? ? ?] [? ? ? ? ?]. constructor; intros; try congruence.
  all: etransitivity; eauto.
Qed.

Lemma frame_updS m a lv p b :
  frame m (MkMem (updS (heap m) a lv p b) (calls m)).
Proof.
  constructor; cbn [heap calls]; intros;
    auto using kyS_updS, topS_updS, dataS_updS, length_updS.
Qed.

(** ** References lead forward *)

Lemma node_lt_trans (ky : addr -> Z) (a b c : addr) :
  node_lt ky a b -> node_lt ky b c -> node_lt ky a c.
Proof. unfold node_lt. lia. Qed.

Lemma node_lt_irrefl (ky : addr -> Z) (a : addr) : ~ node_lt ky a a.
Proof. unfold node_lt. lia. Qed.

Lemma linked_le h (lv j : nat) (b : addr) : linked h lv b -> j <= lv -> linked h j b.
Proof. intros Hb Hj i Hi. apply Hb. lia. Qed.

(** The property carried over to a memory with the same nodes in which no
    reference became null and every new reference leads forward. *)
Lemma SLclosed_update m m' (tl : addr) :
  SLclosed (heap m) tl ->
  frame m m' ->
  (forall lv a c mk, lv <= MAX_LEVEL -> nxS (heap m) lv a = Some (Some c, mk) ->
     exists c' mk', nxS (heap m') lv a = Some (Some c', mk')) ->
  (forall lv a b mk, lv <= MAX_LEVEL -> nxS (heap m') lv a = Some (Some b, mk) ->
     (exists mk0, nxS (heap m) lv a = Some (Some b, mk0)) \/
     (lv <= topS (heap m) b /\ node_lt (kyS (heap m)) a b /\
      (b = tl \/ linked (heap m) lv b \/ linked (heap m') lv b))) ->
  SLclosed (heap m') tl.
Proof.
  intros Hc Hfr Hmono Hnew lv a b mk Hlv Hab.
  assert (forall j x, j <= MAX_LEVEL -> linked (heap m) j x -> linked (heap m') j x) as Hl.
  { intros j x Hj Hx i Hi. destruct (Hx i Hi) as (c & mk' & Hc').
    eapply Hmono; [|exact Hc']. lia. }
  rewrite (frame_top _ _ Hfr). unfold node_lt. rewrite !(frame_key _ _ Hfr).
  fold (node_lt (kyS (heap m)) a b).
  destruct (Hnew lv a b mk Hlv Hab) as [[mk0 Hold]|(Ht & Hlt & Hb)].
  - destruct (Hc lv a b mk0 Hlv Hold) as (Ht & Hlt & Hb).
    split; [exact Ht|]. split; [exact Hlt|]. destruct Hb as [Hb|Hb]; auto.
  - split; [exact Ht|]. split; [exact Hlt|]. destruct Hb as [Hb|[Hb|Hb]]; auto.
Qed.

(** ** The primitives on a valid address *)

Lemma load_runS m a n : heap m !! a = Some n -> load (Some a) m = Ok (n, m).
Proof. unfold load. intros ->. reflexivity. Qed.

Lemma kyS_load h a n : h !! a = Some n -> kyS h a = key n.
Proof. unfold kyS. intros ->. reflexivity. Qed.

Lemma topS_load h a n : h !! a = Some n -> topS h a = topLevel n.
Proof. unfold topS. intros ->. reflexivity. Qed.

Lemma load_next_run m a lv p b :
  nxS (heap m) lv a = Some (p, b) -> load_next (Some a) lv m = Ok (MkRef p b, m).
Proof.
  intros (n & Hn & Hlv)%nxS_Some. unfold load_next.
  mstep (load_runS _ _ _ Hn). unfold index. rewrite Hlv. reflexivity.
Qed.

Lemma get_next_runS m a lv p b :
  nxS (heap m) lv a = Some (p, b) -> get_next (Some a) lv m = Ok ((p, b), m).
Proof. intros H. unfold get_next. mstep (load_next_run _ _ _ _ _ H). reflexivity. Qed.

Lemma getReference_runS m a lv p b :
  nxS (heap m) lv a = Some (p, b) -> getReference (Some a) lv m = Ok (p, m).
Proof. intros H. unfold getReference. mstep (load_next_run _ _ _ _ _ H). reflexivity. Qed.

Lemma store_next_runS m a lv r p b :
  nxS (heap m) lv a = Some r ->
  store_next (Some a) lv (MkRef p b) m
  = Ok (tt, MkMem (updS (heap m) a lv p b) (calls m)).
Proof.
  destruct r as [p0 b0]. intros (n & Hn & Hlv)%nxS_Some. unfold store_next.
  mstep (load_runS _ _ _ Hn). unfold index at 1. rewrite Hlv. mret.
  unfold modify, updS. rewrite Hn. reflexivity.
Qed.

Lemma set_next_runS m a lv r p b :
  nxS (heap m) lv a = Some r ->
  set_next (Some a) lv p b m = Ok (tt, MkMem (updS (heap m) a lv p b) (calls m)).
Proof. apply store_next_runS. Qed.

Lemma compareAndSet_runS m a lv e em p b :
  nxS (heap m) lv a = Some (e, em) ->
  compareAndSet (Some a) lv e p em b m
  = Ok (true, MkMem (updS (heap m) a lv p b) (calls m)).
Proof.
  intros H. unfold compareAndSet. mstep (load_next_run _ _ _ _ _ H).
  cbn [val_ marked_].
  unfold ptr_eqb. rewrite bool_decide_eq_true_2 by reflexivity.
  rewrite eqb_reflx. cbn [negb orb].
  mstep (store_next_runS _ _ _ _ p b H). reflexivity.
Qed.

Lemma attemptMark_runS m a lv e :
  nxS (heap m) lv a = Some (e, false) ->
  attemptMark (Some a) lv e true m
  = Ok (true, MkMem (updS (heap m) a lv e true) (calls m)).
Proof.
  intros H. unfold attemptMark. mstep (load_next_run _ _ _ _ _ H).
  cbn [val_ marked_].
  unfold ptr_eqb. rewrite bool_decide_eq_true_2 by reflexivity.
  cbn [negb eqb].
  mstep (store_next_runS _ _ _ _ e true H). reflexivity.
Qed.

Lemma succ_of_run sl m lv c mk p b :
  lv <= topS (heap m) c ->
  nxS (heap m) lv c = Some (p, b) ->
  succ_of sl lv (Some c) mk m = Ok ((p, b), m).
Proof.
  intros Htop H. pose proof H as (n & Hn & _)%nxS_Some.
  unfold succ_of. mstep (load_runS _ _ _ Hn).
  rewrite (topS_load _ _ _ Hn) in Htop.
  rewrite (proj2 (Nat.leb_le _ _) Htop).
  apply get_next_runS, H.
Qed.

Lemma snip_loop_cleanS (n : nat) sl (lv : nat) (pred curr succ : ptr) :
  snip_loop (T := T) n sl lv pred curr succ false = ret (Clean curr succ).
Proof. destruct n; reflexivity. Qed.

(** ** The representation invariant *)

Lemma SLrep_valid sl m hd tl ch lv x :
  SLrep sl m hd tl ch -> lv <= MAX_LEVEL -> x ∈ hd :: ch lv ++ [tl] ->
  exists p, nxS (heap m) lv x = Some (p, false).
Proof.
  intros H Hlv Hx. destruct (decide (x = tl)) as [->|Hne].
  - eapply SL_tl_ref; eauto.
  - destruct (path_source (nx := nxS (heap m) lv) hd (ch lv ++ [tl]) x) as [y Hy];
      eauto using SL_path.
    rewrite end_of_snoc. exact Hne.
Qed.

Lemma SLrep_lt sl m hd tl ch lv x :
  SLrep sl m hd tl ch -> lv <= MAX_LEVEL -> x ∈ hd :: ch lv ++ [tl] ->
  x < length (heap m).
Proof.
  intros H Hlv Hx. destruct (SLrep_valid _ _ _ _ _ lv x H Hlv Hx) as [p Hp].
  eapply nxS_lt; eauto.
Qed.

Lemma SLrep_length sl m hd tl ch lv :
  SLrep sl m hd tl ch -> lv <= MAX_LEVEL -> length (ch lv) + 2 <= length (heap m).
Proof.
  intros H Hlv.
  assert (length (hd :: ch lv ++ [tl]) <= length (heap m)) as Hlen.
  { apply NoDup_bounded_length; [eapply SL_NoDup; eauto|].
    apply Forall_forall. intros x Hx. eapply SLrep_lt; eauto. }
  simpl in Hlen. rewrite length_app in Hlen. simpl in Hlen. lia.
Qed.

Lemma SLrep_heap sl m m' hd tl ch :
  heap m' = heap m -> SLrep sl m hd tl ch -> SLrep sl m' hd tl ch.
Proof. intros Hh [? ? ? ? ? ? ? ? ? ? ? ? ?]. constructor; rewrite ?Hh; auto. Qed.

(** ** SkipList::find on chains without marked nodes *)

Lemma walk_runS sl m (key0 : Z) (n lv : nat) :
  forall ys p c fuel,
    path (nxS (heap m) lv) c ys ->
    (exists q, nxS (heap m) lv (end_of c ys) = Some (q, false)) ->
    (forall x, x ∈ c :: ys -> lv <= topS (heap m) x) ->
    (key0 <= kyS (heap m) (end_of c ys))%Z ->
    length ys < fuel ->
    walk n fuel sl key0 lv (Some p) (Some c) m
    = Ok (Some (Some (end_of p (below (kyS (heap m)) key0 (c :: ys))),
                Some (first_or c (from (kyS (heap m)) key0 (c :: ys)))), m).
Proof.
  induction ys as [|y ys IH]; intros p c fuel Hp Hend Htop Hk Hf;
    (destruct fuel as [|fuel]; [simpl in Hf; lia|]); simpl walk.
  - simpl in Hend, Hk. destruct Hend as [q Hq].
    pose proof Hq as (nc & Hnc & _)%nxS_Some.
    mstep (succ_of_run sl m lv c false q false ltac:(apply Htop; set_solver) Hq).
    rewrite snip_loop_cleanS. mret.
    mstep (load_runS _ _ _ Hnc). cbn [below from].
    rewrite (kyS_load _ _ _ Hnc) in Hk |- *.
    rewrite (proj2 (Z.ltb_ge _ _)) by lia. reflexivity.
  - simpl in Hp, Hend, Hk, Hf. destruct Hp as [Hc Hp].
    pose proof Hc as (nc & Hnc & _)%nxS_Some.
    mstep (succ_of_run sl m lv c false (Some y) false ltac:(apply Htop; set_solver) Hc).
    rewrite snip_loop_cleanS. mret.
    mstep (load_runS _ _ _ Hnc).
    change (below (kyS (heap m)) key0 (c :: y :: ys))
      with (if (kyS (heap m) c <? key0)%Z
            then c :: below (kyS (heap m)) key0 (y :: ys) else []).
    change (from (kyS (heap m)) key0 (c :: y :: ys))
      with (if (kyS (heap m) c <? key0)%Z
            then from (kyS (heap m)) key0 (y :: ys) else c :: y :: ys).
    rewrite (kyS_load _ _ _ Hnc).
    destruct (key nc <? key0)%Z eqn:Elt; [|reflexivity].
    rewrite (IH c y fuel Hp Hend) by (first [lia | intros; apply Htop; set_solver | auto]).
    cbn [end_of].
    assert (from (kyS (heap m)) key0 (y :: ys) <> []) as Hne.
    { pose proof (below_from (kyS (heap m)) key0 (y :: ys)) as Hbf.
      intros Hnil. rewrite Hnil, app_nil_r in Hbf.
      pose proof (below_lt (kyS (heap m)) key0 (y :: ys)) as Hlt.
      rewrite Hbf in Hlt. rewrite Forall_forall in Hlt.
      specialize (Hlt (end_of y ys) (end_of_elem _ _)). lia. }
    destruct (from (kyS (heap m)) key0 (y :: ys)); [congruence|reflexivity].
Qed.

Lemma pred_at_in m hd tl ch (k : Z) (lv : nat) :
  pred_at (heap m) hd ch k lv ∈ hd :: ch lv ++ [tl].
Proof.
  unfold pred_at.
  pose proof (end_of_elem hd (below (kyS (heap m)) k (ch lv))) as Hin.
  pose proof (below_from (kyS (heap m)) k (ch lv)) as Hbf.
  set (B := below (kyS (heap m)) k (ch lv)) in *.
  rewrite <- Hbf. set_solver.
Qed.

Lemma succ_at_in m hd tl ch (k : Z) (lv : nat) :
  succ_at (heap m) tl ch k lv ∈ hd :: ch lv ++ [tl].
Proof.
  unfold succ_at.
  destruct (first_or_snoc tl (from (kyS (heap m)) k (ch lv))) as [post Hpost].
  pose proof (below_from (kyS (heap m)) k (ch lv)) as Hbf.
  set (c := first_or tl (from (kyS (heap m)) k (ch lv))) in *.
  rewrite <- Hbf, <- app_assoc, Hpost. set_solver.
Qed.

Lemma level_run sl m hd tl ch (key0 : Z) (n lv : nat) :
  SLrep sl m hd tl ch ->
  (key0 <= UINT64_MAX)%Z ->
  length (heap m) <= n ->
  lv <= MAX_LEVEL ->
  exists c,
    getReference (Some hd) lv m = Ok (Some c, m) /\
    walk n n sl key0 lv (Some hd) (Some c) m
    = Ok (Some (Some (pred_at (heap m) hd ch key0 lv),
                Some (succ_at (heap m) tl ch key0 lv)), m).
Proof.
  intros H Hk Hn Hlv.
  pose proof (SLrep_length _ _ _ _ _ lv H Hlv) as Hlen.
  pose proof (SL_path _ _ _ _ _ H lv Hlv) as Hp.
  pose proof (SL_tl_key _ _ _ _ _ H) as Htk.
  destruct (below_snoc (kyS (heap m)) key0 (ch lv) tl
              (first_or tl (ch lv ++ [tl])) ltac:(lia)) as [Hb Hf].
  unfold pred_at, succ_at. rewrite <- Hb, <- Hf.
  destruct (ch lv ++ [tl]) as [|c ys] eqn:Ecs; [destruct (ch lv); discriminate|].
  assert (end_of c ys = tl) as Hend.
  { change (end_of hd (c :: ys) = tl). rewrite <- Ecs. apply end_of_snoc. }
  assert (length ys = length (ch lv)) as Hys.
  { apply (f_equal length) in Ecs. rewrite length_app in Ecs. simpl in Ecs. lia. }
  destruct Hp as [Hhd Hp]. exists c. split.
  - eapply getReference_runS; eauto.
  - cbn [first_or]. apply walk_runS; auto.
    + rewrite Hend. eapply SL_tl_ref; eauto.
    + intros x Hx. rewrite <- Ecs in Hx. apply elem_of_app in Hx as [Hx|Hx].
      * eapply SL_top; eauto.
      * apply list_elem_of_singleton in Hx as ->.
        rewrite (SL_tl_top _ _ _ _ _ H). exact Hlv.
    + rewrite Hend. lia.
    + lia.
Qed.

Lemma find_levels_unfold (n : nat) sl (key0 : Z) (lv : nat) (preds succs : list ptr) :
  find_levels (T := T) n sl key0 lv preds succs =
  (let* curr := getReference (head sl) lv in
   let* r := walk n n sl key0 lv (head sl) curr in
   match r with
   | None => ret (Restart preds succs)
   | Some (pred, curr) =>
       match lv with
       | 0 => ret (Done curr (<[lv := pred]> preds) (<[lv := curr]> succs))
       | S lv' => find_levels n sl key0 lv' (<[lv := pred]> preds) (<[lv := curr]> succs)
       end
   end).
Proof. destruct lv; reflexivity. Qed.

Lemma find_levels_run sl m hd tl ch (key0 : Z) (n : nat) :
  SLrep sl m hd tl ch ->
  (key0 <= UINT64_MAX)%Z ->
  length (heap m) <= n ->
  forall lv preds succs,
    lv <= MAX_LEVEL -> lv < length preds -> lv < length succs ->
    exists preds' succs',
      find_levels n sl key0 lv preds succs m
      = Ok (Done (Some (succ_at (heap m) tl ch key0 0)) preds' succs', m) /\
      windows (heap m) hd tl ch key0 lv preds' succs' /\
      (forall j, lv < j -> preds' !! j = preds !! j /\ succs' !! j = succs !! j).
Proof.
  intros H Hk Hn. induction lv as [|lv IH]; intros preds succs Hlv Hlp Hls.
  - destruct (level_run sl m hd tl ch key0 n 0 H Hk Hn Hlv) as (c & Hc & Hw).
    rewrite find_levels_unfold, (SL_head _ _ _ _ _ H). mstep Hc. mstep Hw.
    do 2 eexists. split; [reflexivity|]. split.
    + intros j Hj. assert (j = 0) as -> by lia.
      rewrite !list_lookup_insert_eq by auto. auto.
    + intros j Hj. rewrite !list_lookup_insert_ne by lia. auto.
  - destruct (level_run sl m hd tl ch key0 n (S lv) H Hk Hn Hlv) as (c & Hc & Hw).
    rewrite find_levels_unfold, (SL_head _ _ _ _ _ H). mstep Hc. mstep Hw.
    destruct (IH (<[S lv := Some (pred_at (heap m) hd ch key0 (S lv))]> preds)
                 (<[S lv := Some (succ_at (heap m) tl ch key0 (S lv))]> succs))
      as (preds' & succs' & Hrun & Hwin & Hrest);
      rewrite ?length_insert; try lia.
    exists preds', succs'. split; [exact Hrun|]. split.
    + intros j Hj. destruct (decide (j = S lv)) as [->|Hne].
      * destruct (Hrest (S lv) ltac:(lia)) as [-> ->].
        rewrite !list_lookup_insert_eq by auto. auto.
      * apply Hwin. lia.
    + intros j Hj. destruct (Hrest j ltac:(lia)) as [-> ->].
      rewrite !list_lookup_insert_ne by lia. auto.
Qed.

Lemma find_run sl m hd tl ch (key0 : Z) (n : nat) (preds succs : list ptr) :
  SLrep sl m hd tl ch ->
  (key0 <= UINT64_MAX)%Z ->
  length (heap m) <= n ->
  length preds = S MAX_LEVEL -> length succs = S MAX_LEVEL ->
  exists preds' succs',
    find n sl key0 preds succs m
    = Ok (((kyS (heap m) (succ_at (heap m) tl ch key0 0) =? key0)%Z, preds', succs'), m) /\
    windows (heap m) hd tl ch key0 MAX_LEVEL preds' succs'.
Proof.
  intros H Hk Hn Hlp Hls.
  pose proof (SLrep_length _ _ _ _ _ 0 H ltac:(unfold MAX_LEVEL; lia)) as Hlen.
  destruct (find_levels_run sl m hd tl ch key0 n H Hk Hn MAX_LEVEL preds succs)
    as (preds' & succs' & Hrun & Hwin & _); try lia.
  exists preds', succs'. split; [|exact Hwin].
  unfold find. destruct n as [|n']; [lia|]. simpl find_loop.
  mstep Hrun.
  pose proof (succ_at_in m hd tl ch key0 0) as Hin.
  destruct (SLrep_valid _ _ _ _ _ 0 _ H ltac:(lia) Hin) as [p Hp].
  pose proof Hp as (nc & Hnc & _)%nxS_Some.
  mstep (load_runS _ _ _ Hnc). rewrite (kyS_load _ _ _ Hnc). reflexivity.
Qed.

(** The representation carried over to a memory with the same nodes:
    only what depends on the references has to be shown again. *)
Lemma SLrep_frame sl m m' hd tl ch ch' :
  frame m m' ->
  SLrep sl m hd tl ch ->
  (forall lv, lv <= MAX_LEVEL -> path (nxS (heap m') lv) hd (ch' lv ++ [tl])) ->
  (forall lv, lv <= MAX_LEVEL -> NoDup (hd :: ch' lv ++ [tl])) ->
  StronglySorted (klt (kyS (heap m))) (hd :: ch' 0 ++ [tl]) ->
  (forall lv, lv <= MAX_LEVEL -> exists p, nxS (heap m') lv tl = Some (p, false)) ->
  (forall lv a, lv <= MAX_LEVEL -> a ∈ ch' lv -> lv <= topS (heap m) a <= MAX_LEVEL) ->
  (forall a lv, a ∈ ch' 0 -> lv <= topS (heap m) a ->
     exists pre post,
       ch' lv = pre ++ a :: post /\
       Forall (fun x => (kyS (heap m) x < kyS (heap m) a)%Z) pre) ->
  (forall a, a ∈ ch' 0 -> is_Some (dataS (heap m) a)) ->
  SLclosed (heap m') tl ->
  SLrep sl m' hd tl ch'.
Proof.
  intros [_ _ Hky Htop Hdata] H Hpath Hnd Hs Htl Htp Htw Hd Hcl.
  constructor; auto.
  - eapply SL_head; eauto.
  - eapply SL_tail; eauto.
  - eapply sorted_ext; [|exact Hs]. auto.
  - rewrite Hky. eapply SL_hd_key; eauto.
  - rewrite Hky. eapply SL_tl_key; eauto.
  - rewrite Htop. eapply SL_tl_top; eauto.
  - intros lv a Hlv Ha. rewrite Htop. auto.
  - intros a lv Ha Hlv. rewrite Htop in Hlv.
    destruct (Htw a lv Ha Hlv) as (pre & post & Heq & Hall).
    exists pre, post. split; auto.
    eapply Forall_impl; [exact Hall|]. intros x Hx. simpl in Hx. rewrite !Hky. exact Hx.
  - intros a Ha. rewrite Hdata. auto.
Qed.

(** ** SkipList::popMin *)

Lemma popMin_empty sl m hd tl ch (n : nat) :
  SLrep sl m hd tl ch -> ch 0 = [] -> 0 < n ->
  popMin n sl m = Ok (None, m).
Proof.
  intros H Hch Hn. destruct n as [|n']; [lia|].
  pose proof (SL_path _ _ _ _ _ H 0 ltac:(lia)) as Hp. rewrite Hch in Hp.
  destruct Hp as [Hhd _].
  unfold popMin. simpl popMin_loop. rewrite (SL_head _ _ _ _ _ H).
  mstep (getReference_runS _ _ _ _ _ Hhd).
  unfold null_or_tail, ptr_eqb. rewrite (SL_tail _ _ _ _ _ H).
  rewrite bool_decide_eq_true_2 by reflexivity. reflexivity.
Qed.

Lemma popMin_first sl m hd tl ch c cs (n : nat) :
  SLrep sl m hd tl ch -> ch 0 = c :: cs -> 0 < n ->
  exists m',
    popMin n sl m = Ok (dataS (heap m) c, m') /\
    calls m' = RetireNode (Some c) currentEpoch :: calls m /\
    SLrep sl m' hd tl (ch_pop ch) /\
    frame m (MkMem (heap m') (calls m)).
Proof.
  intros H Hch Hn. destruct n as [|n']; [lia|].
  pose proof (SL_path _ _ _ _ _ H 0 ltac:(lia)) as Hp.
  pose proof (SL_NoDup _ _ _ _ _ H 0 ltac:(lia)) as Hnd.
  rewrite Hch in Hp, Hnd.
  destruct (cs ++ [tl]) as [|y ys] eqn:Ecs; [destruct cs; discriminate|].
  simpl in Hp. rewrite Ecs in Hp. destruct Hp as (Hhd & Hc & Hys).
  simpl in Hnd. rewrite Ecs in Hnd.
  assert (tl ∈ y :: ys) as Htl by (rewrite <- Ecs; set_solver).
  apply NoDup_cons in Hnd as [Hhd_notin Hnd].
  apply NoDup_cons in Hnd as [Hc_notin Hnd'].
  assert (c <> hd) as Hchd by set_solver.
  assert (tl <> hd) as Htlhd by set_solver.
  assert (tl <> c) as Htlc by set_solver.
  pose proof Hc as (nc & Hnc & _)%nxS_Some.
  set (m1 := MkMem (updS (heap m) c 0 (Some y) true) (calls m)).
  assert (nxS (heap m1) 0 hd = Some (Some c, false)) as Hhd1.
  { subst m1. cbn [heap]. rewrite (nxS_updS _ _ _ _ _ _ _ _ Hc).
    rewrite decide_False by (intros [? _]; congruence). exact Hhd. }
  set (m2 := MkMem (updS (heap m1) hd 0 (Some y) false) (calls m1)).
  assert (heap m2 !! c = heap m1 !! c) as Hc2.
  { subst m2. cbn [heap]. unfold updS at 1.
    destruct (heap m1 !! hd); auto. rewrite list_lookup_insert_ne; auto. }
  assert (frame m m2) as Hfr.
  { eapply frame_trans; [apply (frame_updS m c 0 (Some y) true)|].
    apply (frame_updS m1 hd 0 (Some y) false). }
  assert (forall lv x, nxS (heap m2) lv x =
            if decide (x = hd /\ lv = 0) then Some (Some y, false)
            else if decide (x = c /\ lv = 0) then Some (Some y, true)
            else nxS (heap m) lv x) as Hnx.
  { intros lv x. subst m2. cbn [heap]. rewrite (nxS_updS _ _ _ _ _ _ _ _ Hhd1).
    destruct (decide (x = hd /\ lv = 0)); auto.
    subst m1. cbn [heap]. apply (nxS_updS _ _ _ _ _ _ _ _ Hc). }
  exists (MkMem (heap m2) (RetireNode (Some c) currentEpoch :: calls m2)).
  split; [|split; [reflexivity|split]].
  - unfold popMin. simpl popMin_loop. rewrite (SL_head _ _ _ _ _ H).
    mstep (getReference_runS _ _ _ _ _ Hhd).
    unfold null_or_tail, ptr_eqb. rewrite (SL_tail _ _ _ _ _ H).
    rewrite bool_decide_eq_false_2 by congruence.
    mstep (get_next_runS _ _ _ _ _ Hc).
    mstep (compareAndSet_runS m c 0 (Some y) false (Some y) true Hc). fold m1.
    mstep (compareAndSet_runS m1 hd 0 (Some c) false (Some y) false Hhd1). fold m2.
    assert (exists nc2, heap m2 !! c = Some nc2 /\ data nc2 = data nc) as (nc2 & Hnc2 & Hd2).
    { pose proof (Hnx 0 c) as Hc2'.
      rewrite decide_False in Hc2' by (intros [? _]; congruence).
      rewrite decide_True in Hc2' by auto.
      apply nxS_Some in Hc2' as (nc2 & Hnc2 & _). exists nc2. split; auto.
      pose proof (frame_data _ _ Hfr c) as Hd. unfold dataS in Hd.
      rewrite Hnc, Hnc2 in Hd. exact Hd. }
    mstep (load_runS _ _ _ Hnc2).
    unfold retireSNodeBase, modify, bind, ret. unfold dataS. rewrite Hnc. simpl.
    rewrite Hd2. reflexivity.
  - apply (SLrep_heap sl m2); [reflexivity|].
    apply (SLrep_frame sl m m2 hd tl ch (ch_pop ch)); auto.
    + intros lv Hlv. destruct lv as [|lv]; cbn [ch_pop].
      * rewrite Hch. cbn [List.tl]. rewrite Ecs.
        pose proof (SL_path _ _ _ _ _ H 0 ltac:(lia)) as Hp0.
        pose proof (SL_NoDup _ _ _ _ _ H 0 ltac:(lia)) as Hnd0.
        rewrite Hch in Hp0, Hnd0. simpl in Hp0, Hnd0. rewrite Ecs in Hp0, Hnd0.
        eapply (path_delete (nx := nxS (heap m) 0) hd [] c y ys); eauto.
        -- cbn [end_of]. rewrite Hnx. rewrite decide_True by auto. reflexivity.
        -- cbn [end_of]. intros x Hx1 Hx2. rewrite Hnx.
           rewrite decide_False by tauto. rewrite decide_False by tauto. reflexivity.
      * eapply path_ext_all; [|eapply SL_path; eauto].
        intros x _. rewrite Hnx.
        rewrite decide_False by lia. rewrite decide_False by lia. reflexivity.
    + intros lv Hlv. destruct lv as [|lv]; cbn [ch_pop].
      * rewrite Hch. cbn [List.tl]. rewrite Ecs.
        constructor; [set_solver|exact Hnd'].
      * eapply SL_NoDup; eauto.
    + cbn [ch_pop]. rewrite Hch. cbn [List.tl].
      pose proof (SL_sorted _ _ _ _ _ H) as Hs. rewrite Hch in Hs.
      apply (sorted_delete _ [hd] c (cs ++ [tl])). exact Hs.
    + intros lv Hlv. destruct (SL_tl_ref _ _ _ _ _ H lv Hlv) as [p Hp].
      exists p. rewrite Hnx.
      rewrite decide_False by tauto. rewrite decide_False by tauto. exact Hp.
    + intros lv a Hlv Ha. eapply SL_top; eauto.
      destruct lv; cbn [ch_pop] in Ha; auto. rewrite Hch in *. set_solver.
    + intros a lv Ha Hlv. cbn [ch_pop] in Ha. rewrite Hch in Ha. cbn [List.tl] in Ha.
      destruct (SL_tower _ _ _ _ _ H a lv ltac:(rewrite Hch; set_solver) Hlv)
        as (pre & post & Heq & Hall).
      destruct lv as [|lv]; cbn [ch_pop]; [|eauto].
      rewrite Hch in Heq. destruct pre as [|x pre].
      * exfalso. simpl in Heq. injection Heq as -> ->.
        apply Hc_notin. rewrite <- Ecs. set_solver.
      * simpl in Heq. injection Heq as Hx Hcs. rewrite Hch. cbn [List.tl].
        exists pre, post. split; [exact Hcs|]. apply Forall_cons in Hall. tauto.
    + intros a Ha. eapply SL_data; eauto.
      cbn [ch_pop] in Ha. rewrite Hch in *. set_solver.
    + apply (SLclosed_update m m2); [eapply SL_closed; eauto|exact Hfr| |].
      * intros lv a c0 mk Hlv Ha. rewrite Hnx.
        destruct (decide (a = hd /\ lv = 0)); [eauto|].
        destruct (decide (a = c /\ lv = 0)); eauto.
      * intros lv a b mk Hlv Ha. rewrite Hnx in Ha.
        destruct (SL_closed _ _ _ _ _ H 0 hd c false ltac:(lia) Hhd) as (_ & Hl1 & _).
        destruct (SL_closed _ _ _ _ _ H 0 c y false ltac:(lia) Hc) as (Ht & Hl2 & Hb).
        destruct (decide (a = hd /\ lv = 0)) as [[-> ->]|_].
        -- injection Ha as <- <-. right. split; [exact Ht|].
           split; [eapply node_lt_trans; eauto|]. destruct Hb; auto.
        -- destruct (decide (a = c /\ lv = 0)) as [[-> ->]|_]; [|eauto].
           injection Ha as <- <-. eauto.
  - destruct Hfr as [? ? ? ? ?]. constructor; auto.
Qed.

End SkipSpec.

Lemma below_app_lt (ky : addr -> Z) (k : Z) (xs ys : list addr) :
  Forall (fun a => (ky a < k)%Z) xs ->
  below ky k (xs ++ ys) = xs ++ below ky k ys /\
  from ky k (xs ++ ys) = from ky k ys.
Proof.
  induction 1 as [|x xs Hx Hall [IH1 IH2]]; simpl; auto.
  rewrite (proj2 (Z.ltb_lt _ _)) by lia. rewrite IH1, IH2. auto.
Qed.

Lemma below_app_ge (ky : addr -> Z) (k : Z) (xs : list addr) (a : addr) (ys : list addr) :
  (k <= ky a)%Z ->
  below ky k (xs ++ a :: ys) = below ky k xs /\
  from ky k (xs ++ a :: ys) = from ky k xs ++ a :: ys.
Proof.
  intros Ha. induction xs as [|x xs [IH1 IH2]]; simpl.
  - rewrite (proj2 (Z.ltb_ge _ _)) by lia. auto.
  - destruct (ky x <? k)%Z; simpl; auto. rewrite IH1. auto.
Qed.

Section SkipAdd.
Import LockFreeSkipList.
Context {T : Type}.
Implicit Types (m : mem T) (sl : SkipList) (h : list (SNodeBase T)).

(** ** Allocation *)

Lemma nxS_app_old h nd lv x : x < length h -> nxS (h ++ [nd]) lv x = nxS h lv x.
Proof. intros Hx. unfold nxS. rewrite lookup_app_l by auto. reflexivity. Qed.

Lemma kyS_app_old h nd x : x < length h -> kyS (h ++ [nd]) x = kyS h x.
Proof. intros Hx. unfold kyS. rewrite lookup_app_l by auto. reflexivity. Qed.

Lemma topS_app_old h nd x : x < length h -> topS (h ++ [nd]) x = topS h x.
Proof. intros Hx. unfold topS. rewrite lookup_app_l by auto. reflexivity. Qed.

Lemma dataS_app_old h nd x : x < length h -> dataS (h ++ [nd]) x = dataS h x.
Proof. intros Hx. unfold dataS. rewrite lookup_app_l by auto. reflexivity. Qed.

Lemma SLrep_alloc sl m hd tl ch nd cl :
  SLrep sl m hd tl ch ->
  (forall lv r, next nd !! lv = Some r -> val_ r = None) ->
  SLrep sl (MkMem (heap m ++ [nd]) cl) hd tl ch.
Proof.
  intros H Hnd.
  assert (forall lv x, lv <= MAX_LEVEL -> x ∈ hd :: ch lv ++ [tl] -> x < length (heap m))
    as Hlt by (intros; eapply SLrep_lt; eauto).
  assert (hd < length (heap m)) as Hhd by (apply (Hlt 0); [lia|set_solver]).
  assert (tl < length (heap m)) as Htl by (apply (Hlt 0); [lia|set_solver]).
  constructor; cbn [heap].
  - eapply SL_head; eauto.
  - eapply SL_tail; eauto.
  - intros lv Hlv. eapply path_ext_all; [|eapply SL_path; eauto].
    intros x Hx. apply nxS_app_old. eapply Hlt; eauto.
  - eapply SL_NoDup; eauto.
  - eapply sorted_ext; [|eapply SL_sorted; eauto].
    intros x Hx. apply kyS_app_old. apply (Hlt 0); [lia|auto].
  - rewrite kyS_app_old by auto. eapply SL_hd_key; eauto.
  - rewrite kyS_app_old by auto. eapply SL_tl_key; eauto.
  - rewrite topS_app_old by auto. eapply SL_tl_top; eauto.
  - intros lv Hlv. rewrite nxS_app_old by auto. eapply SL_tl_ref; eauto.
  - intros lv a Hlv Ha. rewrite topS_app_old by (apply (Hlt lv); [auto|set_solver]).
    eapply SL_top; eauto.
  - intros a lv Ha Hlv.
    assert (a < length (heap m)) as Halt by (apply (Hlt 0); [lia|set_solver]).
    rewrite topS_app_old in Hlv by auto.
    pose proof (SL_top _ _ _ _ _ H 0 a ltac:(lia) Ha) as Htop.
    destruct (SL_tower _ _ _ _ _ H a lv Ha Hlv) as (pre & post & Heq & Hall).
    exists pre, post. split; auto.
    rewrite Forall_forall in *. intros x Hx.
    rewrite !kyS_app_old; auto.
    apply (Hlt lv); [lia|]. rewrite Heq. set_solver.
  - intros a Ha. rewrite dataS_app_old by (apply (Hlt 0); [lia|set_solver]).
    eapply SL_data; eauto.
  - intros lv a b mk Hlv Hab.
    assert (a < length (heap m)) as Ha.
    { pose proof (nxS_lt _ _ _ _ Hab) as Hl. rewrite length_app in Hl. simpl in Hl.
      destruct (decide (a = length (heap m))) as [->|]; [|lia].
      exfalso. apply nxS_Some in Hab as (n & Hn & Hr).
      rewrite list_lookup_middle in Hn by auto. injection Hn as <-.
      apply Hnd in Hr. discriminate. }
    rewrite nxS_app_old in Hab by auto.
    destruct (SL_closed _ _ _ _ _ H lv a b mk Hlv Hab) as (Ht & Hl & Hb).
    assert (b < length (heap m)) as Hbl.
    { destruct Hb as [->|Hb]; [exact Htl|].
      destruct (Hb 0 ltac:(lia)) as (c & mk' & Hc). eapply nxS_lt; eauto. }
    rewrite topS_app_old by auto. split; [exact Ht|]. split.
    + unfold node_lt in *. rewrite !kyS_app_old by auto. exact Hl.
    + destruct Hb as [Hb|Hb]; [auto|]. right.
      intros j Hj. rewrite nxS_app_old by auto. auto.
Qed.

Lemma nxS_fresh h k x top lv :
  lv <= MAX_LEVEL ->
  nxS (h ++ [fresh_node k x top]) lv (length h) = Some (None, false).
Proof.
  intros Hlv. unfold nxS. rewrite list_lookup_middle by auto.
  cbn [next fresh_node]. rewrite lookup_replicate_2 by lia. reflexivity.
Qed.

(** ** The linking loops of SkipList::add *)

Lemma init_links_run (N : addr) (succs : list ptr) :
  forall cnt lv m,
    (forall j, lv <= j < lv + cnt -> exists r, nxS (heap m) j N = Some r) ->
    (forall j, lv <= j < lv + cnt -> is_Some (succs !! j)) ->
    exists m',
      init_links cnt lv (Some N) succs m = Ok (tt, m') /\
      frame m m' /\
      forall j x,
        nxS (heap m') j x =
          if decide (x = N /\ lv <= j < lv + cnt)
          then (fun c => (c, false)) <$> succs !! j
          else nxS (heap m) j x.
Proof.
  induction cnt as [|cnt IH]; intros lv m Hcells Hsuccs; simpl init_links.
  - exists m. split; [reflexivity|]. split; [apply frame_refl|].
    intros j x. rewrite decide_False by lia. reflexivity.
  - destruct (Hsuccs lv ltac:(lia)) as [s Hs].
    destruct (Hcells lv ltac:(lia)) as [r Hr].
    unfold index at 1. rewrite Hs. mret.
    mstep (set_next_runS m N lv r s false Hr).
    set (m1 := MkMem (updS (heap m) N lv s false) (calls m)).
    destruct (IH (S lv) m1) as (m' & Hrun & Hfr & Hnx).
    + intros j Hj. destruct (Hcells j ltac:(lia)) as [r' Hr'].
      exists r'. subst m1. cbn [heap]. rewrite (nxS_updS _ _ _ _ _ _ _ _ Hr).
      rewrite decide_False by lia. exact Hr'.
    + intros j Hj. apply Hsuccs. lia.
    + exists m'. split; [exact Hrun|]. split.
      * eapply frame_trans; [apply (frame_updS m N lv s false)|exact Hfr].
      * intros j x. rewrite Hnx. subst m1. cbn [heap].
        rewrite (nxS_updS _ _ _ _ _ _ _ _ Hr).
        destruct (decide (x = N /\ S lv <= j < S lv + cnt)) as [[-> Hj]|Hn1].
        -- rewrite decide_True by (split; [auto|lia]). reflexivity.
        -- destruct (decide (x = N /\ j = lv)) as [[-> ->]|Hn2].
           ++ rewrite decide_True by (split; [auto|lia]). rewrite Hs. reflexivity.
           ++ rewrite decide_False; [reflexivity|].
              intros [-> Hj]. destruct (decide (j = lv)); [tauto|].
              apply Hn1. split; [auto|lia].
Qed.

Lemma link_levels_run sl (k : Z) (n : nat) (N : addr) (preds succs : list ptr) :
  0 < n ->
  forall cnt lv m,
    (forall j, lv <= j < lv + cnt ->
       exists p c, preds !! j = Some (Some p) /\ succs !! j = Some (Some c) /\
                   nxS (heap m) j p = Some (Some c, false)) ->
    exists m',
      link_levels n cnt sl k lv (Some N) preds succs m = Ok (tt, m') /\
      frame m m' /\
      forall j x,
        nxS (heap m') j x =
          if decide (lv <= j < lv + cnt /\ preds !! j = Some (Some x))
          then Some (Some N, false)
          else nxS (heap m) j x.
Proof.
  intros Hn.
  induction cnt as [|cnt IH]; intros lv m Hcells; simpl link_levels.
  - exists m. split; [reflexivity|]. split; [apply frame_refl|].
    intros j x. rewrite decide_False by lia. reflexivity.
  - destruct (Hcells lv ltac:(lia)) as (p & c & Hp & Hc & Hpc).
    set (m1 := MkMem (updS (heap m) p lv (Some N) false) (calls m)).
    assert (link_level n n sl k lv (Some N) preds succs m = Ok ((preds, succs), m1)) as Hl.
    { destruct n as [|n']; [lia|]. simpl link_level.
      unfold index at 1. rewrite Hp. mret. unfold index at 1. rewrite Hc. mret.
      mstep (compareAndSet_runS m p lv (Some c) false (Some N) false Hpc). reflexivity. }
    mstep Hl.
    destruct (IH (S lv) m1) as (m' & Hrun & Hfr & Hnx).
    + intros j Hj. destruct (Hcells j ltac:(lia)) as (p' & c' & Hp' & Hc' & Hpc').
      exists p', c'. split; [auto|]. split; [auto|].
      subst m1. cbn [heap]. rewrite (nxS_updS _ _ _ _ _ _ _ _ Hpc).
      rewrite decide_False by lia. exact Hpc'.
    + exists m'. split; [exact Hrun|]. split.
      * eapply frame_trans; [apply (frame_updS m p lv (Some N) false)|exact Hfr].
      * intros j x. rewrite Hnx. subst m1. cbn [heap].
        rewrite (nxS_updS _ _ _ _ _ _ _ _ Hpc).
        destruct (decide (S lv <= j < S lv + cnt /\ preds !! j = Some (Some x))) as [[Hj Hx]|Hn1].
        -- rewrite decide_True by (split; [lia|auto]). reflexivity.
        -- destruct (decide (x = p /\ j = lv)) as [[-> ->]|Hn2].
           ++ rewrite decide_True by (split; [lia|auto]). reflexivity.
           ++ rewrite decide_False; [reflexivity|].
              intros [Hj Hx]. destruct (decide (j = lv)) as [->|Hne].
              ** apply Hn2. split; [congruence|auto].
              ** apply Hn1. split; [lia|auto].
Qed.

Lemma succ_at_ge sl m hd tl ch (k : Z) (lv : nat) :
  SLrep sl m hd tl ch -> (k <= UINT64_MAX)%Z ->
  (k <= kyS (heap m) (succ_at (heap m) tl ch k lv))%Z.
Proof.
  intros H Hk. unfold succ_at.
  destruct (from (kyS (heap m)) k (ch lv)) as [|c post] eqn:E; cbn [first_or].
  - rewrite (SL_tl_key _ _ _ _ _ H). exact Hk.
  - eapply from_first_ge; eauto.
Qed.

Lemma pred_at_lt sl m hd tl ch (k : Z) (lv : nat) :
  SLrep sl m hd tl ch -> (0 < k)%Z ->
  (kyS (heap m) (pred_at (heap m) hd ch k lv) < k)%Z.
Proof.
  intros H Hk. unfold pred_at.
  pose proof (end_of_elem hd (below (kyS (heap m)) k (ch lv))) as Hin.
  apply elem_of_cons in Hin as [->|Hin].
  - rewrite (SL_hd_key _ _ _ _ _ H). exact Hk.
  - pose proof (below_lt (kyS (heap m)) k (ch lv)) as Hlt.
    rewrite Forall_forall in Hlt. apply Hlt. exact Hin.
Qed.

Lemma pred_succ_link sl m hd tl ch (k : Z) (lv : nat) :
  SLrep sl m hd tl ch -> lv <= MAX_LEVEL ->
  nxS (heap m) lv (pred_at (heap m) hd ch k lv)
  = Some (Some (succ_at (heap m) tl ch k lv), false).
Proof.
  intros H Hlv. unfold pred_at, succ_at.
  destruct (first_or_snoc tl (from (kyS (heap m)) k (ch lv))) as [post Hpost].
  pose proof (SL_path _ _ _ _ _ H lv Hlv) as Hp.
  rewrite <- (below_from (kyS (heap m)) k (ch lv)), <- app_assoc, Hpost in Hp.
  apply path_app in Hp as [_ [Hp _]]. exact Hp.
Qed.

Lemma SLrep_added sl m m' hd tl ch (k : Z) (x : T) (N top : nat) :
  SLrep sl m hd tl ch ->
  frame m m' ->
  length (heap m) = S N ->
  (forall lv y, lv <= MAX_LEVEL -> y ∈ hd :: ch lv ++ [tl] -> y <> N) ->
  kyS (heap m) N = k -> topS (heap m) N = top -> dataS (heap m) N = Some x ->
  top <= MAX_LEVEL ->
  (0 < k < UINT64_MAX)%Z ->
  kyS (heap m) (succ_at (heap m) tl ch k 0) <> k ->
  (forall j y, j <= MAX_LEVEL ->
     nxS (heap m') j y =
       if decide (j <= top /\ y = pred_at (heap m) hd ch k j) then Some (Some N, false)
       else if decide (y = N /\ j <= top)
            then Some (Some (succ_at (heap m) tl ch k j), false)
            else nxS (heap m) j y) ->
  SLrep sl m' hd tl (ch_add (heap m) ch k N top).
Proof.
  intros H Hfr HlenN Hfresh HkN HtN HdN Htop Hk Hnk Hnx.
  set (ky := kyS (heap m)).
  assert (forall lv, exists post,
            ch lv ++ [tl] = below ky k (ch lv) ++ succ_at (heap m) tl ch k lv :: post /\
            (below ky k (ch lv) ++ N :: from ky k (ch lv)) ++ [tl]
            = below ky k (ch lv) ++ N :: succ_at (heap m) tl ch k lv :: post) as Hsplit.
  { intros lv. destruct (first_or_snoc tl (from ky k (ch lv))) as [post Hpost].
    exists post. fold ky. unfold succ_at. fold ky. split.
    - rewrite <- Hpost, app_assoc, below_from. reflexivity.
    - rewrite <- app_assoc, <- app_comm_cons, Hpost. reflexivity. }
  apply (SLrep_frame sl m m' hd tl ch); auto.
  - intros lv Hlv. unfold ch_add. fold ky.
    destruct (Nat.leb_spec lv top) as [Hle|Hgt].
    + destruct (Hsplit lv) as (post & Heq & Heq'). rewrite Heq'.
      pose proof (SL_path _ _ _ _ _ H lv Hlv) as Hp. rewrite Heq in Hp.
      pose proof (SL_NoDup _ _ _ _ _ H lv Hlv) as Hnd. rewrite Heq in Hnd.
      assert (forall y, y ∈ hd :: below ky k (ch lv) ++ succ_at (heap m) tl ch k lv :: post
                        -> y <> N) as Hfr'.
      { intros y Hy. apply (Hfresh lv); auto. rewrite Heq. exact Hy. }
      eapply (path_insert (nx := nxS (heap m) lv)); eauto.
      * intros Hin. apply (Hfr' N Hin). reflexivity.
      * rewrite Hnx by auto. rewrite decide_True; [reflexivity|].
        split; [auto|]. reflexivity.
      * rewrite Hnx by auto. rewrite decide_False.
        -- rewrite decide_True by auto. reflexivity.
        -- intros [_ HN]. symmetry in HN. revert HN. apply Hfr'.
           rewrite app_comm_cons. apply elem_of_app. left. apply end_of_elem.
      * intros y Hy1 Hy2. rewrite Hnx by auto.
        rewrite decide_False by (intros [_ ?]; auto).
        rewrite decide_False by (intros [? _]; auto). reflexivity.
    + eapply path_ext_all; [|eapply SL_path; eauto].
      intros y Hy. rewrite Hnx by auto.
      rewrite decide_False by lia. rewrite decide_False by lia. reflexivity.
  - intros lv Hlv. unfold ch_add. fold ky.
    destruct (Nat.leb_spec lv top) as [Hle|Hgt]; [|eapply SL_NoDup; eauto].
    pose proof (SL_NoDup _ _ _ _ _ H lv Hlv) as Hnd.
    rewrite <- (below_from ky k (ch lv)) in Hnd.
    assert (N ∉ hd :: (below ky k (ch lv) ++ from ky k (ch lv)) ++ [tl]) as HN.
    { intros Hin. rewrite below_from in Hin. apply (Hfresh lv N Hlv Hin). reflexivity. }
    rewrite <- !app_assoc in Hnd, HN. rewrite <- app_assoc, <- app_comm_cons.
    rewrite app_comm_cons in Hnd, HN |- *.
    apply NoDup_app in Hnd as (Hnd1 & Hd & Hnd2).
    apply NoDup_app. split; [auto|]. split.
    * intros y Hy1 Hy2. apply elem_of_cons in Hy2 as [->|Hy2].
      -- apply HN. apply elem_of_app. auto.
      -- eapply Hd; eauto.
    * constructor; auto. intros Hin. apply HN. apply elem_of_app. auto.
  - unfold ch_add. cbn [Nat.leb]. fold ky.
    destruct (Hsplit 0) as (post & Heq & Heq'). rewrite Heq'.
    pose proof (SL_sorted _ _ _ _ _ H) as Hs. rewrite Heq in Hs.
    rewrite app_comm_cons in Hs |- *.
    apply sorted_insert; auto.
    + constructor.
      * fold ky in HkN. rewrite HkN. fold ky. unfold ky at 1.
        rewrite (SL_hd_key _ _ _ _ _ H). lia.
      * fold ky in HkN. rewrite HkN. apply below_lt.
    + pose proof (succ_at_ge sl m hd tl ch k 0 H ltac:(lia)) as Hge.
      fold ky in HkN, Hge, Hnk. rewrite HkN. lia.
  - intros lv Hlv. destruct (SL_tl_ref _ _ _ _ _ H lv Hlv) as [p Hp].
    exists p. rewrite Hnx by auto.
    assert (tl <> N) as HtlN by (apply (Hfresh 0); [lia|set_solver]).
    rewrite decide_False.
    + rewrite decide_False by tauto. exact Hp.
    + intros [Hle Htl].
      pose proof (SL_NoDup _ _ _ _ _ H lv Hlv) as Hnd.
      destruct (Hsplit lv) as (post & Heq & _). rewrite Heq in Hnd.
      rewrite app_comm_cons in Hnd. apply NoDup_app in Hnd as (_ & Hd & _).
      apply (Hd tl).
      * rewrite Htl. apply end_of_elem.
      * assert (tl ∈ ch lv ++ [tl]) as Hin by set_solver.
        rewrite Heq in Hin. apply elem_of_app in Hin as [Hin|Hin]; auto.
        exfalso. pose proof (below_lt ky k (ch lv)) as Hlt.
        rewrite Forall_forall in Hlt. specialize (Hlt tl Hin).
        unfold ky in Hlt. rewrite (SL_tl_key _ _ _ _ _ H) in Hlt. lia.
  - intros lv a Hlv Ha. unfold ch_add in Ha. fold ky in Ha.
    destruct (Nat.leb_spec lv top) as [Hle|Hgt]; [|eapply SL_top; eauto].
    apply elem_of_app in Ha as [Ha|Ha].
    + eapply SL_top; eauto. rewrite <- (below_from ky k (ch lv)). set_solver.
    + apply elem_of_cons in Ha as [->|Ha].
      * rewrite HtN. lia.
      * eapply SL_top; eauto. rewrite <- (below_from ky k (ch lv)). set_solver.
  - intros a lv Ha Hlv. unfold ch_add in Ha |- *. cbn [Nat.leb] in Ha. fold ky in Ha |- *.
    assert (a = N \/ a ∈ ch 0) as [->|Ha0].
    { rewrite <- (below_from ky k (ch 0)). set_solver. }
    + rewrite HtN in Hlv. rewrite (proj2 (Nat.leb_le _ _) Hlv).
      exists (below ky k (ch lv)), (from ky k (ch lv)). split; auto.
      fold ky in HkN. rewrite HkN. apply below_lt.
    + destruct (SL_tower _ _ _ _ _ H a lv Ha0 Hlv) as (pre & post & Heq & Hall).
      destruct (Nat.leb_spec lv top) as [Hle|Hgt]; [|eauto].
      fold ky in Hall.
      assert (ky a <> k) as Hak.
      { intros Hak. apply Hnk. fold ky. unfold succ_at. fold ky.
        pose proof (SL_sorted _ _ _ _ _ H) as Hs.
        apply StronglySorted_cons in Hs as [_ Hs].
        apply StronglySorted_app_1_l in Hs.
        apply list_elem_of_split in Ha0 as (l1 & l2 & Ha0). rewrite Ha0 in Hs |- *.
        apply StronglySorted_app in Hs as (Hcross & _ & _).
        destruct (below_split ky k l1 a l2) as [_ ->]; [| lia |].
        - apply Forall_forall. intros y Hy.
          specialize (Hcross y a Hy ltac:(set_solver)). unfold klt in Hcross.
          fold ky in Hcross. lia.
        - cbn [first_or]. exact Hak. }
      rewrite Heq.
      destruct (Z.lt_ge_cases (ky a) k) as [Hlt|Hge].
      * destruct (below_app_lt ky k (pre ++ [a]) post) as [Hb Hf].
        { apply Forall_app. split.
          - eapply Forall_impl; [exact Hall|]. intros y Hy. simpl in Hy. lia.
          - constructor; auto. }
        rewrite <- !app_assoc in Hb, Hf. cbn [app] in Hb, Hf. rewrite Hb, Hf.
        exists pre, (below ky k post ++ N :: from ky k post).
        split; [|exact Hall]. rewrite <- !app_assoc. reflexivity.
      * destruct (below_app_ge ky k pre a post Hge) as [Hb Hf]. rewrite Hb, Hf.
        exists (below ky k pre ++ N :: from ky k pre), post.
        split; [rewrite <- app_assoc; reflexivity|].
        apply Forall_app. split.
        -- pose proof (below_from ky k pre) as Hbf. rewrite <- Hbf in Hall.
           apply Forall_app in Hall. tauto.
        -- constructor.
           ++ fold ky in HkN. rewrite HkN. lia.
           ++ pose proof (below_from ky k pre) as Hbf. rewrite <- Hbf in Hall.
              apply Forall_app in Hall. tauto.
  - intros a Ha. unfold ch_add in Ha. cbn [Nat.leb] in Ha. fold ky in Ha.
    assert (a = N \/ a ∈ ch 0) as [->|Ha0].
    { rewrite <- (below_from ky k (ch 0)). set_solver. }
    + rewrite HdN. eauto.
    + eapply SL_data; eauto.
  - apply (SLclosed_update m m'); [eapply SL_closed; eauto|exact Hfr| |].
    + intros lv a c mk Hlv Ha. rewrite Hnx by auto.
      destruct (decide (lv <= top /\ a = pred_at (heap m) hd ch k lv)); [eauto|].
      destruct (decide (a = N /\ lv <= top)); eauto.
    + intros lv a b mk Hlv Ha. rewrite Hnx in Ha by auto.
      destruct (decide (lv <= top /\ a = pred_at (heap m) hd ch k lv)) as [[Hle ->]|_].
      * injection Ha as <- <-. right. split; [lia|]. split.
        -- left. rewrite HkN. apply (pred_at_lt sl m hd tl ch); [exact H|lia].
        -- right. right. intros j Hj. rewrite Hnx by lia.
           rewrite decide_False.
           ++ rewrite decide_True by (split; [reflexivity|lia]). eauto.
           ++ intros [_ HN]. symmetry in HN. revert HN.
              apply (Hfresh j); [lia|apply (pred_at_in m)].
      * destruct (decide (a = N /\ lv <= top)) as [[-> Hle]|_]; [|eauto].
        injection Ha as <- <-. right.
        pose proof (pred_succ_link sl m hd tl ch k lv H Hlv) as Hlink.
        destruct (SL_closed _ _ _ _ _ H lv _ _ false Hlv Hlink) as (Ht & _ & Hb).
        split; [exact Ht|]. split; [|destruct Hb; auto].
        pose proof (succ_at_ge sl m hd tl ch k lv H ltac:(lia)) as Hge.
        pose proof (SLrep_lt _ _ _ _ _ lv _ H Hlv (succ_at_in m hd tl ch k lv)) as Hlt.
        pose proof (Hfresh lv _ Hlv (succ_at_in m hd tl ch k lv)) as Hne.
        unfold node_lt. rewrite HkN. lia.
Qed.

(** Whether the key is held by a live node is read off the bottom level. *)
Lemma succ_at_key_mem sl m hd tl ch (k : Z) :
  SLrep sl m hd tl ch -> (k < UINT64_MAX)%Z ->
  k ∈ SLkeys m ch <-> kyS (heap m) (succ_at (heap m) tl ch k 0) = k.
Proof.
  intros H Hk. set (ky := kyS (heap m)).
  pose proof (SL_sorted _ _ _ _ _ H) as Hs.
  apply StronglySorted_cons in Hs as [_ Hs]. apply StronglySorted_app_1_l in Hs.
  pose proof (below_from ky k (ch 0)) as Hbf.
  pose proof (below_lt ky k (ch 0)) as Hlt. rewrite Forall_forall in Hlt.
  unfold SLkeys, succ_at. fold ky. rewrite <- Hbf in Hs |- * at 1.
  rewrite list_elem_of_fmap.
  destruct (from ky k (ch 0)) as [|c post] eqn:E; cbn [first_or].
  - split.
    + intros (a & -> & Ha). rewrite app_nil_r in Ha. specialize (Hlt a Ha). lia.
    + intros Ht. unfold ky in Ht. rewrite (SL_tl_key _ _ _ _ _ H) in Ht. lia.
  - pose proof (from_first_ge ky k (ch 0) c post E) as Hge.
    apply StronglySorted_app in Hs as (_ & _ & Hs).
    apply StronglySorted_cons in Hs as [Hpost _]. rewrite Forall_forall in Hpost.
    split.
    + intros (a & -> & Ha). apply elem_of_app in Ha as [Ha|Ha].
      * specialize (Hlt a Ha). lia.
      * apply elem_of_cons in Ha as [->|Ha]; auto.
        specialize (Hpost a Ha). unfold klt in Hpost. fold ky in Hpost. lia.
    + intros Hc. exists c. split; auto. set_solver.
Qed.

Lemma kyS_app_new h nd : kyS (h ++ [nd]) (length h) = key nd.
Proof. unfold kyS. rewrite list_lookup_middle by auto. reflexivity. Qed.

Lemma topS_app_new h nd : topS (h ++ [nd]) (length h) = topLevel nd.
Proof. unfold topS. rewrite list_lookup_middle by auto. reflexivity. Qed.

Lemma dataS_app_new h nd : dataS (h ++ [nd]) (length h) = data nd.
Proof. unfold dataS. rewrite list_lookup_middle by auto. reflexivity. Qed.

Lemma windows_alloc sl m hd tl ch (k : Z) (lv : nat) nd :
  SLrep sl m hd tl ch -> lv <= MAX_LEVEL ->
  pred_at (heap m ++ [nd]) hd ch k lv = pred_at (heap m) hd ch k lv /\
  succ_at (heap m ++ [nd]) tl ch k lv = succ_at (heap m) tl ch k lv.
Proof.
  intros H Hlv. unfold pred_at, succ_at.
  destruct (below_ext (kyS (heap m)) (kyS (heap m ++ [nd])) k (ch lv)) as [-> ->]; auto.
  intros x Hx. apply kyS_app_old. eapply SLrep_lt; eauto. set_solver.
Qed.

(** The run of [add_loop] when the key is not held by a live node. *)
Lemma add_loop_links sl m hd tl ch (k0 : Z) (x : T) (top n fuel : nat)
    (preds succs : list ptr) :
  let k := to_uint64 k0 in
  let N := length (heap m) in
  SLrep sl m hd tl ch ->
  (0 < k < UINT64_MAX)%Z ->
  top <= MAX_LEVEL ->
  length (heap m) <= n ->
  length preds = S MAX_LEVEL -> length succs = S MAX_LEVEL ->
  kyS (heap m) (succ_at (heap m) tl ch k 0) <> k ->
  exists m',
    add_loop n (S fuel) sl k0 x top None preds succs m = Ok (true, m') /\
    calls m' = LeaveEpoch thread_id :: calls m /\
    SLrep sl m' hd tl (ch_add (heap m ++ [fresh_node k x top]) ch k N top) /\
    kyS (heap m') N = k /\ dataS (heap m') N = Some x.
Proof.
  intros k N H Hk Htop Hn Hlp Hls Hnk.
  pose proof (SLrep_length _ _ _ _ _ 0 H ltac:(lia)) as Hlen.
  destruct (find_run sl m hd tl ch k n preds succs H ltac:(lia) Hn Hlp Hls)
    as (preds' & succs' & Hfind & Hwin).
  simpl add_loop. fold k. mstep Hfind.
  rewrite (proj2 (Z.eqb_neq _ _) Hnk).
  unfold new_SNode at 1. unfold bind at 1. cbv beta iota. fold N.
  change (MkNode (replicate (S MAX_LEVEL) (MkRef None false)) k (Some x) top)
    with (fresh_node k x top).
  set (m1 := MkMem (heap m ++ [fresh_node k x top]) (calls m)).
  assert (SLrep sl m1 hd tl ch) as H1.
  { apply SLrep_alloc; [exact H|]. intros lv r Hr. cbn [next fresh_node] in Hr.
    apply lookup_replicate in Hr as [-> _]. reflexivity. }
  assert (forall lv y, lv <= MAX_LEVEL -> y ∈ hd :: ch lv ++ [tl] -> y <> N) as Hfresh.
  { intros lv y Hlv Hy. pose proof (SLrep_lt _ _ _ _ _ lv y H Hlv Hy). subst N. lia. }
  assert (forall j, j <= MAX_LEVEL ->
            preds' !! j = Some (Some (pred_at (heap m1) hd ch k j)) /\
            succs' !! j = Some (Some (succ_at (heap m1) tl ch k j))) as Hwin1.
  { intros j Hj. subst m1. cbn [heap].
    destruct (windows_alloc sl m hd tl ch k j (fresh_node k x top) H Hj) as [-> ->].
    apply Hwin, Hj. }
  destruct (init_links_run N succs' (S top) 0 m1) as (m2 & Hinit & Hfr2 & Hnx2).
  { intros j Hj. exists (None, false). apply nxS_fresh. lia. }
  { intros j Hj. destruct (Hwin1 j ltac:(lia)) as [_ ->]. eauto. }
  mstep Hinit.
  destruct (Hwin1 0 ltac:(lia)) as [Hp0 Hc0].
  unfold index at 1. rewrite Hp0. mret. unfold index at 1. rewrite Hc0. mret.
  assert (forall j, j <= MAX_LEVEL ->
            nxS (heap m2) j (pred_at (heap m1) hd ch k j)
            = Some (Some (succ_at (heap m1) tl ch k j), false)) as Hlink2.
  { intros j Hj. rewrite Hnx2. rewrite decide_False.
    - apply (pred_succ_link sl); auto.
    - intros [HpN _]. revert HpN. apply (Hfresh j); auto. apply (pred_at_in m1). }
  mstep (compareAndSet_runS m2 _ 0 _ false (Some N) false (Hlink2 0 ltac:(lia))).
  cbn [negb].
  set (m3 := MkMem (updS (heap m2) (pred_at (heap m1) hd ch k 0) 0 (Some N) false) (calls m2)).
  assert (forall j y, nxS (heap m3) j y =
            if decide (y = pred_at (heap m1) hd ch k 0 /\ j = 0)
            then Some (Some N, false) else nxS (heap m2) j y) as Hnx3.
  { intros j y. subst m3. cbn [heap].
    apply (nxS_updS _ _ _ _ _ _ _ _ (Hlink2 0 ltac:(lia))). }
  destruct (link_levels_run sl k n N preds' succs' ltac:(lia) top 1 m3)
    as (m4 & Hlinks & Hfr4 & Hnx4).
  { intros j Hj. destruct (Hwin1 j ltac:(lia)) as [Hpj Hcj].
    do 2 eexists. split; [exact Hpj|]. split; [exact Hcj|].
    rewrite Hnx3. rewrite decide_False by lia. apply Hlink2. lia. }
  mstep Hlinks.
  assert (frame m1 m4) as Hfr.
  { eapply frame_trans; [exact Hfr2|]. eapply frame_trans; [|exact Hfr4].
    apply (frame_updS m2). }
  eexists. split; [reflexivity|]. cbn [calls heap].
  split; [|split; [|split]].
  - rewrite (frame_calls _ _ Hfr). reflexivity.
  - apply (SLrep_heap sl m4); [reflexivity|].
    apply (SLrep_added sl m1 m4 hd tl ch k x N top); auto.
    + subst m1 N. cbn [heap]. rewrite length_app. cbn [length]. lia.
    + subst m1 N. cbn [heap]. apply kyS_app_new.
    + subst m1 N. cbn [heap]. apply topS_app_new.
    + subst m1 N. cbn [heap]. apply dataS_app_new.
    + subst m1. cbn [heap].
      destruct (windows_alloc sl m hd tl ch k 0 (fresh_node k x top) H ltac:(lia)) as [_ ->].
      rewrite kyS_app_old; [exact Hnk|].
      apply (SLrep_lt sl m hd tl ch 0); [exact H|lia|apply (succ_at_in m)].
    + intros j y Hj. rewrite Hnx4, Hnx3, Hnx2.
      destruct (Hwin1 j Hj) as [Hpj Hcj]. rewrite Hpj, Hcj. cbn [fmap option_fmap option_map].
      destruct (decide (j <= top /\ y = pred_at (heap m1) hd ch k j)) as [[Hjt ->]|Hn1].
      * destruct (decide (j = 0)) as [->|Hj0].
        -- rewrite decide_False by lia. rewrite decide_True by auto. reflexivity.
        -- rewrite decide_True; [reflexivity|]. split; [lia|reflexivity].
      * rewrite decide_False.
        2:{ intros [Hj1 [= Hy]]. apply Hn1. split; [lia|auto]. }
        rewrite decide_False.
        2:{ intros [-> ->]. apply Hn1. split; [lia|auto]. }
        destruct (decide (y = N /\ j <= top)) as [[-> Hjt]|Hn2].
        -- rewrite decide_True by (split; [auto|lia]). reflexivity.
        -- rewrite decide_False; [reflexivity|].
           intros [-> Hjt]. apply Hn2. split; [auto|lia].
  - rewrite (frame_key _ _ Hfr). subst m1 N. cbn [heap]. apply kyS_app_new.
  - rewrite (frame_data _ _ Hfr). subst m1 N. cbn [heap]. apply dataS_app_new.
Qed.

Theorem skip_add_ok sl m hd tl ch (key : Z) (x : T) (flips : list bool) (n : nat) :
  let k := to_uint64 (to_int key) in
  SLrep sl m hd tl ch ->
  (0 < k < UINT64_MAX)%Z ->
  length (heap m) <= n ->
  exists b m' ch',
    add n sl key x flips m = Ok (b, m') /\
    SLrep sl m' hd tl ch' /\
    (b = true <-> k ∉ SLkeys m ch) /\
    k ∈ SLkeys m' ch' /\
    calls m' = LeaveEpoch thread_id :: EnterEpoch thread_id :: calls m /\
    (b = false -> heap m' = heap m /\ ch' = ch).
Proof.
  intros k H Hk Hn.
  set (m0 := MkMem (heap m) (EnterEpoch thread_id :: calls m)).
  assert (SLrep sl m0 hd tl ch) as H0 by (apply (SLrep_heap sl m m0); [reflexivity|exact H]).
  pose proof (SLrep_length _ _ _ _ _ 0 H ltac:(lia)) as Hlen.
  pose proof (succ_at_key_mem sl m hd tl ch k H ltac:(lia)) as Hmem.
  destruct n as [|n']; [lia|].
  unfold add. unfold enterEpoch at 1, modify at 1, bind at 1. fold m0. fold k.
  destruct (decide (kyS (heap m) (succ_at (heap m) tl ch k 0) = k)) as [Heq|Hne].
  - destruct (find_run sl m0 hd tl ch k (S n') (replicate (S MAX_LEVEL) None)
                (replicate (S MAX_LEVEL) None) H0 ltac:(lia) Hn)
      as (preds' & succs' & Hfind & Hwin); try apply length_replicate.
    simpl add_loop. fold k. mstep Hfind.
    change (heap m0) with (heap m). rewrite (proj2 (Z.eqb_eq _ _) Heq).
    eexists false, _, ch. split; [reflexivity|].
    split; [apply (SLrep_heap sl m); [reflexivity|exact H]|].
    split; [|split; [|split]].
    + split; [discriminate|]. intros Hnot. exfalso. apply Hnot, Hmem, Heq.
    + apply Hmem, Heq.
    + reflexivity.
    + intros _. split; reflexivity.
  - pose proof (add_loop_links sl m0 hd tl ch (to_int key) x
                (randomLevel MAX_LEVEL flips) (S n') n'
                (replicate (S MAX_LEVEL) None) (replicate (S MAX_LEVEL) None)) as Hl.
    cbv zeta in Hl. fold k in Hl.
    destruct (Hl H0 Hk (randomLevel_le _ _) Hn (length_replicate _ _)
                (length_replicate _ _) Hne)
      as (m' & Hrun & Hcalls & Hrep & HkN & HdN).
    rewrite Hrun. eexists true, m', _. split; [reflexivity|].
    split; [exact Hrep|]. split; [|split; [|split]].
    + split; auto. intros _ Hin. apply Hne, Hmem, Hin.
    + unfold SLkeys. apply list_elem_of_fmap. exists (length (heap m0)).
      split; [symmetry; exact HkN|].
      unfold ch_add. cbn [Nat.leb]. set_solver.
    + exact Hcalls.
    + discriminate.
Qed.

End SkipAdd.

Lemma filter_ne_id (r : addr) (xs : list addr) :
  r ∉ xs -> filter (fun x => x <> r) xs = xs.
Proof.
  induction xs as [|x xs IH]; intros Hr; [reflexivity|].
  rewrite filter_cons. rewrite decide_True by set_solver.
  rewrite IH by set_solver. reflexivity.
Qed.

Lemma filter_ne_split (r : addr) (pre post : list addr) :
  NoDup (pre ++ r :: post) ->
  filter (fun x => x <> r) (pre ++ r :: post) = pre ++ post.
Proof.
  intros Hnd. apply NoDup_app in Hnd as (_ & Hd & Hnd).
  apply NoDup_cons in Hnd as [Hr _].
  rewrite filter_app, filter_cons. rewrite decide_False by tauto.
  rewrite !filter_ne_id; auto.
  intros Hin. apply (Hd r Hin). set_solver.
Qed.

Section SkipRemove.
Import LockFreeSkipList.
Context {T : Type}.
Implicit Types (m : mem T) (sl : SkipList) (h : list (SNodeBase T)).

(** ** The loops of SkipList::remove *)

Lemma mark_level_run m (n : nat) (r lv : nat) (s : ptr) :
  0 < n ->
  nxS (heap m) lv r = Some (s, false) ->
  mark_level n (Some r) lv m = Ok (tt, MkMem (updS (heap m) r lv s true) (calls m)).
Proof.
  intros Hn Hr. destruct n as [|n']; [lia|]. simpl mark_level.
  mstep (get_next_runS _ _ _ _ _ Hr).
  mstep (attemptMark_runS _ _ _ _ Hr). reflexivity.
Qed.

Lemma mark_upper_run (n : nat) (r : addr) :
  0 < n ->
  forall lv m,
    (forall j, 1 <= j <= lv -> exists s, nxS (heap m) j r = Some (s, false)) ->
    exists m',
      mark_upper n (Some r) lv m = Ok (tt, m') /\
      frame m m' /\
      forall j y,
        nxS (heap m') j y =
          if decide (y = r /\ 1 <= j <= lv)
          then with_mark true <$> nxS (heap m) j y
          else nxS (heap m) j y.
Proof.
  intros Hn. induction lv as [|lv IH]; intros m Hcells; simpl mark_upper.
  - exists m. split; [reflexivity|]. split; [apply frame_refl|].
    intros j y. rewrite decide_False by lia. reflexivity.
  - destruct (Hcells (S lv) ltac:(lia)) as [s Hs].
    mstep (mark_level_run m n r (S lv) s Hn Hs).
    set (m1 := MkMem (updS (heap m) r (S lv) s true) (calls m)).
    destruct (IH m1) as (m' & Hrun & Hfr & Hnx).
    + intros j Hj. destruct (Hcells j ltac:(lia)) as [s' Hs'].
      exists s'. subst m1. cbn [heap]. rewrite (nxS_updS _ _ _ _ _ _ _ _ Hs).
      rewrite decide_False by lia. exact Hs'.
    + exists m'. split; [exact Hrun|]. split.
      * eapply frame_trans; [apply (frame_updS m r (S lv) s true)|exact Hfr].
      * intros j y. rewrite Hnx. subst m1. cbn [heap].
        rewrite !(nxS_updS _ _ _ _ _ _ _ _ Hs).
        destruct (decide (y = r /\ 1 <= j <= lv)) as [[-> Hj]|Hn1].
        -- rewrite decide_False by lia. rewrite decide_True by (split; [auto|lia]).
           reflexivity.
        -- destruct (decide (y = r /\ j = S lv)) as [[-> ->]|Hn2].
           ++ rewrite decide_True by (split; [auto|lia]). rewrite Hs. reflexivity.
           ++ rewrite decide_False; [reflexivity|].
              intros [-> Hj]. destruct (decide (j = S lv)); [tauto|].
              apply Hn1. split; [auto|lia].
Qed.

Lemma mark_bottom_run m (n : nat) (r : addr) (s : ptr) :
  0 < n ->
  nxS (heap m) 0 r = Some (s, false) ->
  mark_bottom n (Some r) m = Ok (true, MkMem (updS (heap m) r 0 s true) (calls m)).
Proof.
  intros Hn Hr. destruct n as [|n']; [lia|]. simpl mark_bottom.
  mstep (get_next_runS _ _ _ _ _ Hr).
  mstep (compareAndSet_runS m r 0 s false s true Hr). reflexivity.
Qed.

Lemma unlink_levels_run (r : addr) (preds : list ptr) :
  forall cnt lv m,
    (forall j, lv <= j < lv + cnt ->
       exists p s, preds !! j = Some (Some p) /\
                   nxS (heap m) j r = Some (s, true) /\
                   nxS (heap m) j p = Some (Some r, false)) ->
    exists m',
      unlink_levels cnt lv (Some r) preds m = Ok (true, m') /\
      frame m m' /\
      forall j y,
        nxS (heap m') j y =
          if decide (lv <= j < lv + cnt /\ preds !! j = Some (Some y))
          then with_mark false <$> nxS (heap m) j r
          else nxS (heap m) j y.
Proof.
  induction cnt as [|cnt IH]; intros lv m Hcells; simpl unlink_levels.
  - exists m. split; [reflexivity|]. split; [apply frame_refl|].
    intros j y. rewrite decide_False by lia. reflexivity.
  - destruct (Hcells lv ltac:(lia)) as (p & s & Hp & Hr & Hpr).
    assert (p <> r) as Hne by (intros ->; congruence).
    unfold index at 1. rewrite Hp. mret.
    mstep (get_next_runS _ _ _ _ _ Hr).
    mstep (compareAndSet_runS m p lv (Some r) false s false Hpr). cbn [negb].
    set (m1 := MkMem (updS (heap m) p lv s false) (calls m)).
    destruct (IH (S lv) m1) as (m' & Hrun & Hfr & Hnx).
    + intros j Hj. destruct (Hcells j ltac:(lia)) as (p' & s' & Hp' & Hr' & Hpr').
      exists p', s'. split; [auto|]. subst m1. cbn [heap].
      rewrite !(nxS_updS _ _ _ _ _ _ _ _ Hpr).
      rewrite !decide_False by lia. auto.
    + exists m'. split; [exact Hrun|]. split.
      * eapply frame_trans; [apply (frame_updS m p lv s false)|exact Hfr].
      * intros j y. rewrite Hnx. subst m1. cbn [heap].
        rewrite !(nxS_updS _ _ _ _ _ _ _ _ Hpr).
        rewrite (decide_False (P := r = p /\ j = lv)) by (intros [? _]; congruence).
        destruct (decide (S lv <= j < S lv + cnt /\ preds !! j = Some (Some y))) as [[Hj Hy]|Hn1].
        -- rewrite decide_True by (split; [lia|auto]). reflexivity.
        -- destruct (decide (y = p /\ j = lv)) as [[-> ->]|Hn2].
           ++ rewrite decide_True by (split; [lia|auto]). rewrite Hr. reflexivity.
           ++ rewrite decide_False; [reflexivity|].
              intros [Hj Hy]. destruct (decide (j = lv)) as [->|Hne'].
              ** apply Hn2. split; [congruence|auto].
              ** apply Hn1. split; [lia|auto].
Qed.

(** A live node is where [find] stops at each of its levels. *)
Lemma tower_split sl m hd tl ch (r lv : nat) :
  SLrep sl m hd tl ch -> r ∈ ch 0 -> lv <= topS (heap m) r ->
  exists pre post,
    ch lv = pre ++ r :: post /\
    pred_at (heap m) hd ch (kyS (heap m) r) lv = end_of hd pre /\
    succ_at (heap m) tl ch (kyS (heap m) r) lv = r /\
    ch_del ch r lv = pre ++ post.
Proof.
  intros H Hr Hlv.
  pose proof (SL_top _ _ _ _ _ H 0 r ltac:(lia) Hr) as Htop.
  destruct (SL_tower _ _ _ _ _ H r lv Hr Hlv) as (pre & post & Heq & Hall).
  exists pre, post. split; [exact Heq|].
  destruct (below_split (kyS (heap m)) (kyS (heap m) r) pre r post Hall ltac:(lia))
    as [Hb Hf].
  unfold pred_at, succ_at, ch_del. rewrite Heq, Hb, Hf.
  split; [reflexivity|]. split; [reflexivity|].
  apply filter_ne_split.
  pose proof (SL_NoDup _ _ _ _ _ H lv ltac:(lia)) as Hnd. rewrite Heq in Hnd.
  apply NoDup_cons in Hnd as [_ Hnd]. apply NoDup_app in Hnd. tauto.
Qed.

Lemma SLrep_removed sl m m' hd tl ch (r : addr) :
  SLrep sl m hd tl ch ->
  frame m m' ->
  r ∈ ch 0 ->
  (forall j y, j <= MAX_LEVEL ->
     nxS (heap m') j y =
       if decide (j <= topS (heap m) r /\
                  y = pred_at (heap m) hd ch (kyS (heap m) r) j)
       then with_mark false <$> nxS (heap m) j r
       else if decide (y = r /\ j <= topS (heap m) r)
            then with_mark true <$> nxS (heap m) j r
            else nxS (heap m) j y) ->
  SLrep sl m' hd tl (ch_del ch r).
Proof.
  intros H Hfr Hr Hnx.
  set (k := kyS (heap m) r) in *. set (top := topS (heap m) r) in *.
  assert (r <> hd /\ r <> tl) as [Hrh Hrt].
  { pose proof (SL_NoDup _ _ _ _ _ H 0 ltac:(lia)) as Hnd0.
    apply NoDup_cons in Hnd0 as [Hh Hnd0]. apply NoDup_app in Hnd0 as (_ & Hd & _).
    split; intros Heq; [apply Hh; rewrite <- Heq; set_solver|].
    apply (Hd r Hr). rewrite Heq. set_solver. }
  assert (forall lv, lv <= MAX_LEVEL -> top < lv -> r ∉ hd :: ch lv ++ [tl]) as Hout.
  { intros lv Hlv Hgt Hin.
    assert (r ∈ ch lv) as Hin' by set_solver.
    pose proof (SL_top _ _ _ _ _ H lv r Hlv Hin'). fold top in H0. lia. }
  assert (forall lv, lv <= MAX_LEVEL -> lv <= top ->
            exists pre y ys,
              ch lv ++ [tl] = pre ++ r :: y :: ys /\
              ch_del ch r lv ++ [tl] = pre ++ y :: ys /\
              pred_at (heap m) hd ch k lv = end_of hd pre /\
              nxS (heap m) lv r = Some (Some y, false)) as Hin.
  { intros lv Hlv Hle.
    destruct (tower_split sl m hd tl ch r lv H Hr Hle) as (pre & post & Heq & Hp & _ & Hdel).
    destruct (post ++ [tl]) as [|y ys] eqn:Epost; [destruct post; discriminate|].
    exists pre, y, ys. rewrite Heq, Hdel, <- !app_assoc, <- app_comm_cons, Epost.
    split; [reflexivity|]. split; [reflexivity|]. split; [exact Hp|].
    pose proof (SL_path _ _ _ _ _ H lv Hlv) as Hpath.
    rewrite Heq, <- app_assoc, <- app_comm_cons, Epost in Hpath.
    apply path_app in Hpath as [_ (_ & Hry & _)]. exact Hry. }
  apply (SLrep_frame sl m m' hd tl ch); auto.
  - intros lv Hlv. destruct (le_lt_dec lv top) as [Hle|Hgt].
    + destruct (Hin lv Hlv Hle) as (pre & y & ys & Heq & Heq' & Hp & Hry).
      rewrite Heq'.
      pose proof (SL_path _ _ _ _ _ H lv Hlv) as Hpath. rewrite Heq in Hpath.
      pose proof (SL_NoDup _ _ _ _ _ H lv Hlv) as Hnd. rewrite Heq in Hnd.
      eapply (path_delete (nx := nxS (heap m) lv)); eauto.
      * rewrite Hnx by auto. rewrite decide_True by auto. rewrite Hry. reflexivity.
      * intros z Hz1 Hz2. rewrite Hnx by auto.
        rewrite decide_False by (intros [_ ?]; congruence).
        rewrite decide_False by (intros [? _]; congruence). reflexivity.
    + unfold ch_del. rewrite filter_ne_id by (specialize (Hout lv Hlv Hgt); set_solver).
      eapply path_ext_all; [|eapply SL_path; eauto].
      intros z Hz. rewrite Hnx by auto.
      rewrite decide_False by lia. rewrite decide_False by lia. reflexivity.
  - intros lv Hlv. pose proof (SL_NoDup _ _ _ _ _ H lv Hlv) as Hnd.
    destruct (le_lt_dec lv top) as [Hle|Hgt].
    + destruct (Hin lv Hlv Hle) as (pre & y & ys & Heq & Heq' & _).
      rewrite Heq in Hnd. rewrite Heq'.
      rewrite app_comm_cons in Hnd |- *.
      apply NoDup_app in Hnd as (Hnd1 & Hd & Hnd2).
      apply NoDup_cons in Hnd2 as [_ Hnd2].
      apply NoDup_app. split; [auto|]. split; [|auto].
      intros z Hz1 Hz2. apply (Hd z Hz1). set_solver.
    + unfold ch_del. rewrite filter_ne_id by (specialize (Hout lv Hlv Hgt); set_solver).
      exact Hnd.
  - destruct (Hin 0 ltac:(lia) ltac:(lia)) as (pre & y & ys & Heq & Heq' & _).
    pose proof (SL_sorted _ _ _ _ _ H) as Hs. rewrite Heq in Hs. rewrite Heq'.
    rewrite app_comm_cons in Hs |- *. eapply sorted_delete; eauto.
  - intros lv Hlv. destruct (SL_tl_ref _ _ _ _ _ H lv Hlv) as [p Hp].
    exists p. rewrite Hnx by auto.
    pose proof (SL_NoDup _ _ _ _ _ H lv Hlv) as Hnd.
    rewrite decide_False.
    + rewrite decide_False; [exact Hp|]. intros [Heq _]. congruence.
    + intros [Hle Htl]. destruct (Hin lv Hlv Hle) as (pre & y & ys & Heq & _ & Hp' & _).
      rewrite Heq in Hnd. rewrite app_comm_cons in Hnd.
      apply NoDup_app in Hnd as (_ & Hd & _). apply (Hd tl).
      * rewrite Htl, Hp'. apply end_of_elem.
      * pose proof (end_of_snoc hd (ch lv) tl) as He. rewrite Heq, end_of_app in He.
        cbn [end_of] in He. rewrite <- He.
        apply elem_of_cons. right. apply end_of_elem.
  - intros lv a Hlv Ha. unfold ch_del in Ha. apply list_elem_of_filter in Ha as [_ Ha].
    eapply SL_top; eauto.
  - intros a lv Ha Hlv. unfold ch_del in Ha. apply list_elem_of_filter in Ha as [Har Ha].
    destruct (SL_tower _ _ _ _ _ H a lv Ha Hlv) as (pre & post & Heq & Hall).
    exists (filter (fun x => x <> r) pre), (filter (fun x => x <> r) post).
    unfold ch_del. rewrite Heq, filter_app, filter_cons. rewrite decide_True by auto.
    split; [reflexivity|].
    rewrite Forall_forall in *. intros z Hz. apply list_elem_of_filter in Hz as [_ Hz]. auto.
  - intros a Ha. unfold ch_del in Ha. apply list_elem_of_filter in Ha as [_ Ha].
    eapply SL_data; eauto.
  - assert (forall lv, lv <= MAX_LEVEL -> lv <= top ->
              exists y, nxS (heap m) lv r = Some (Some y, false) /\
                        nxS (heap m) lv (pred_at (heap m) hd ch k lv)
                        = Some (Some r, false)) as Hlinks.
    { intros lv Hlv Hle. destruct (Hin lv Hlv Hle) as (pre & y & ys & _ & _ & _ & Hry).
      exists y. split; [exact Hry|].
      destruct (tower_split sl m hd tl ch r lv H Hr Hle) as (_ & _ & _ & _ & Hs & _).
      pose proof (pred_succ_link sl m hd tl ch k lv H Hlv) as Hlink.
      fold k in Hs. rewrite Hs in Hlink. exact Hlink. }
    apply (SLclosed_update m m'); [eapply SL_closed; eauto|exact Hfr| |].
    + intros lv a c mk Hlv Ha. rewrite Hnx by auto.
      destruct (decide (lv <= top /\ a = pred_at (heap m) hd ch k lv)) as [[Hle _]|_].
      * destruct (Hlinks lv Hlv Hle) as (y & -> & _). cbn. eauto.
      * destruct (decide (a = r /\ lv <= top)) as [[_ Hle]|_]; [|eauto].
        destruct (Hlinks lv Hlv Hle) as (y & -> & _). cbn. eauto.
    + intros lv a b mk Hlv Ha. rewrite Hnx in Ha by auto.
      destruct (decide (lv <= top /\ a = pred_at (heap m) hd ch k lv)) as [[Hle ->]|_].
      * destruct (Hlinks lv Hlv Hle) as (y & Hry & Hpr). rewrite Hry in Ha.
        cbn in Ha. injection Ha as <- <-. right.
        destruct (SL_closed _ _ _ _ _ H lv _ _ false Hlv Hpr) as (_ & Hl1 & _).
        destruct (SL_closed _ _ _ _ _ H lv _ _ false Hlv Hry) as (Ht & Hl2 & Hb).
        split; [exact Ht|]. split; [eapply node_lt_trans; eauto|].
        destruct Hb; auto.
      * destruct (decide (a = r /\ lv <= top)) as [[-> Hle]|_]; [|eauto].
        destruct (Hlinks lv Hlv Hle) as (y & Hry & _). rewrite Hry in Ha.
        cbn in Ha. injection Ha as <- <-. eauto.
Qed.

Lemma succ_at_live sl m hd tl ch (k : Z) :
  SLrep sl m hd tl ch -> (k < UINT64_MAX)%Z ->
  kyS (heap m) (succ_at (heap m) tl ch k 0) = k ->
  succ_at (heap m) tl ch k 0 ∈ ch 0.
Proof.
  intros H Hk. unfold succ_at.
  pose proof (below_from (kyS (heap m)) k (ch 0)) as Hbf.
  destruct (from (kyS (heap m)) k (ch 0)) as [|c post] eqn:E; cbn [first_or].
  - rewrite (SL_tl_key _ _ _ _ _ H). lia.
  - intros _. rewrite <- Hbf. set_solver.
Qed.

Lemma with_mark_twice (b b' : bool) (o : option (ptr * bool)) :
  with_mark b <$> (with_mark b' <$> o) = with_mark b <$> o.
Proof. destruct o as [[p c]|]; reflexivity. Qed.

(** The run of [remove_loop] when the key is held by the live node [r]. *)
Lemma remove_loop_unlinks sl m hd tl ch (k : Z) (n fuel : nat) (preds succs : list ptr) :
  let r := succ_at (heap m) tl ch k 0 in
  SLrep sl m hd tl ch ->
  (0 <= k < UINT64_MAX)%Z ->
  length (heap m) <= n ->
  length preds = S MAX_LEVEL -> length succs = S MAX_LEVEL ->
  kyS (heap m) r = k ->
  exists m',
    remove_loop n (S fuel) sl k preds succs m = Ok (true, m') /\
    calls m' = LeaveEpoch thread_id :: RetireNode (Some r) currentEpoch :: calls m /\
    frame m (MkMem (heap m') (calls m)) /\
    SLrep sl m' hd tl (ch_del ch r).
Proof.
  intros r H Hk Hn Hlp Hls Hkr.
  pose proof (SLrep_length _ _ _ _ _ 0 H ltac:(lia)) as Hlen.
  destruct (find_run sl m hd tl ch k n preds succs H ltac:(lia) Hn Hlp Hls)
    as (preds' & succs' & Hfind & Hwin).
  assert (r ∈ ch 0) as Hr by (apply (succ_at_live sl m hd tl ch k H); [lia|exact Hkr]).
  pose proof (SL_top _ _ _ _ _ H 0 r ltac:(lia) Hr) as Htop.
  set (top := topS (heap m) r) in *.
  assert (forall j, j <= top ->
            exists y,
              nxS (heap m) j r = Some (Some y, false) /\
              pred_at (heap m) hd ch k j <> r /\
              nxS (heap m) j (pred_at (heap m) hd ch k j) = Some (Some r, false)) as Hlv.
  { intros j Hj.
    destruct (tower_split sl m hd tl ch r j H Hr Hj) as (pre & post & Heq & Hp & Hs & _).
    fold r in Hkr. rewrite Hkr in Hp, Hs.
    pose proof (pred_succ_link sl m hd tl ch k j H ltac:(lia)) as Hlink.
    rewrite Hs in Hlink.
    pose proof (SL_path _ _ _ _ _ H j ltac:(lia)) as Hpath.
    pose proof (SL_NoDup _ _ _ _ _ H j ltac:(lia)) as Hnd.
    rewrite Heq, <- app_assoc, <- app_comm_cons in Hpath, Hnd.
    destruct (post ++ [tl]) as [|y ys] eqn:Epost; [destruct post; discriminate|].
    apply path_app in Hpath as [_ (_ & Hry & _)].
    exists y. split; [exact Hry|]. split; [|exact Hlink].
    rewrite Hp. intros Hpr. rewrite app_comm_cons in Hnd.
    apply NoDup_app in Hnd as (_ & Hd & _).
    apply (Hd r); [rewrite <- Hpr; apply end_of_elem|set_solver]. }
  simpl remove_loop. mstep Hfind. fold r. rewrite Hkr, Z.eqb_refl. cbn [negb].
  destruct (Hwin 0 ltac:(lia)) as [_ Hc0]. fold r in Hc0.
  unfold index at 1. rewrite Hc0. mret.
  destruct (Hlv 0 ltac:(lia)) as (y0 & Hr0 & _).
  pose proof Hr0 as (nr & Hnr & _)%nxS_Some.
  mstep (load_runS _ _ _ Hnr). rewrite <- (topS_load _ _ _ Hnr). fold top.
  destruct (mark_upper_run n r ltac:(lia) top m) as (m1 & Hmu & Hfr1 & Hnx1).
  { intros j Hj. destruct (Hlv j ltac:(lia)) as (y & Hy & _). eauto. }
  mstep Hmu.
  assert (nxS (heap m1) 0 r = Some (Some y0, false)) as Hr1.
  { rewrite Hnx1. rewrite decide_False by lia. exact Hr0. }
  mstep (mark_bottom_run m1 n r (Some y0) ltac:(lia) Hr1). cbn [negb].
  set (m2 := MkMem (updS (heap m1) r 0 (Some y0) true) (calls m1)).
  assert (forall j z, nxS (heap m2) j z =
            if decide (z = r /\ j <= top) then with_mark true <$> nxS (heap m) j r
            else nxS (heap m) j z) as Hnx2.
  { intros j z. subst m2. cbn [heap]. rewrite (nxS_updS _ _ _ _ _ _ _ _ Hr1), Hnx1.
    destruct (decide (z = r /\ j = 0)) as [[-> ->]|Hn0].
    - rewrite decide_True by (split; [auto|lia]). rewrite Hr0. reflexivity.
    - destruct (decide (z = r /\ 1 <= j <= top)) as [[-> Hj]|Hn1].
      + rewrite decide_True by (split; [auto|lia]). reflexivity.
      + rewrite decide_False; [reflexivity|].
        intros [-> Hj]. destruct (decide (j = 0)); [tauto|].
        apply Hn1. split; [auto|lia]. }
  destruct (unlink_levels_run r preds' (S top) 0 m2) as (m3 & Hul & Hfr3 & Hnx3).
  { intros j Hj. destruct (Hlv j ltac:(lia)) as (y & Hy & Hpr & Hlink).
    destruct (Hwin j ltac:(lia)) as [Hpj _].
    exists (pred_at (heap m) hd ch k j), (Some y). split; [exact Hpj|].
    rewrite !Hnx2. rewrite decide_True by (split; [auto|lia]).
    rewrite decide_False by (intros [? _]; congruence).
    rewrite Hy. split; [reflexivity|exact Hlink]. }
  mstep Hul. cbn [negb].
  assert (frame m m3) as Hfr.
  { eapply frame_trans; [exact Hfr1|]. eapply frame_trans; [|exact Hfr3].
    apply (frame_updS m1). }
  eexists. split; [reflexivity|]. cbn [calls heap].
  split; [|split].
  - rewrite (frame_calls _ _ Hfr). reflexivity.
  - destruct Hfr as [? ? ? ? ?]. constructor; auto.
  - apply (SLrep_heap sl m3); [reflexivity|].
    apply (SLrep_removed sl m m3 hd tl ch r); auto.
    intros j z Hj. fold top. fold r in Hkr. rewrite Hkr.
    rewrite Hnx3, !Hnx2.
    destruct (Hwin j Hj) as [Hpj _]. rewrite Hpj.
    destruct (decide (j <= top /\ z = pred_at (heap m) hd ch k j)) as [[Hjt ->]|Hn1].
    + rewrite decide_True by (split; [lia|reflexivity]).
      rewrite decide_True by (split; [auto|lia]). apply with_mark_twice.
    + rewrite decide_False; [reflexivity|].
      intros [Hj1 [= Hz]]. apply Hn1. split; [lia|auto].
Qed.

Theorem skip_remove_ok sl m hd tl ch (k : Z) (n : nat) :
  SLrep sl m hd tl ch ->
  (0 <= k < UINT64_MAX)%Z ->
  length (heap m) <= n ->
  exists b m' ch',
    remove n sl k m = Ok (b, m') /\
    SLrep sl m' hd tl ch' /\
    (b = true <-> k ∈ SLkeys m ch) /\
    (k ∉ SLkeys m' ch') /\
    depth (calls m') = depth (calls m) /\
    (b = false -> heap m' = heap m /\ ch' = ch).
Proof.
  intros H Hk Hn.
  set (m0 := MkMem (heap m) (EnterEpoch thread_id :: calls m)).
  assert (SLrep sl m0 hd tl ch) as H0 by (apply (SLrep_heap sl m m0); [reflexivity|exact H]).
  pose proof (SLrep_length _ _ _ _ _ 0 H ltac:(lia)) as Hlen.
  pose proof (succ_at_key_mem sl m hd tl ch k H ltac:(lia)) as Hmem.
  destruct n as [|n']; [lia|].
  unfold remove. unfold enterEpoch at 1, modify at 1, bind at 1. fold m0.
  destruct (decide (kyS (heap m) (succ_at (heap m) tl ch k 0) = k)) as [Heq|Hne].
  - pose proof (remove_loop_unlinks sl m0 hd tl ch k (S n') n'
                  (replicate (S MAX_LEVEL) None) (replicate (S MAX_LEVEL) None)) as Hl.
    cbv zeta in Hl.
    destruct (Hl H0 Hk Hn (length_replicate _ _) (length_replicate _ _) Heq)
      as (m' & Hrun & Hcalls & Hfr & Hrep).
    clear Hl. rewrite Hrun. clear Hrun. eexists true, m', _. split; [reflexivity|].
    split; [exact Hrep|]. split; [|split; [|split]].
    + split; auto. intros _. apply Hmem, Heq.
    + unfold SLkeys, ch_del. rewrite list_elem_of_fmap. intros (a & Ha & Hin).
      apply list_elem_of_filter in Hin as [Har Hin].
      rewrite (frame_key _ _ Hfr) in Ha.
      change (heap m0) with (heap m) in Har, Ha.
      pose proof (succ_at_live sl m hd tl ch k H ltac:(lia) Heq) as Hr.
      pose proof (SL_sorted _ _ _ _ _ H) as Hs.
      apply StronglySorted_cons in Hs as [_ Hs]. apply StronglySorted_app_1_l in Hs.
      apply list_elem_of_split in Hr as (l1 & l2 & Hr). rewrite Hr in Hs, Hin.
      apply StronglySorted_app in Hs as (Hcross & _ & Hs).
      apply StronglySorted_cons in Hs as [Hpost _]. rewrite Forall_forall in Hpost.
      unfold klt in Hcross, Hpost.
      apply elem_of_app in Hin as [Hin|Hin].
      * specialize (Hcross a _ Hin ltac:(apply list_elem_of_here)). lia.
      * apply elem_of_cons in Hin as [->|Hin]; [congruence|].
        specialize (Hpost a Hin). lia.
    + rewrite Hcalls. subst m0. cbn [depth calls]. lia.
    + discriminate.
  - destruct (find_run sl m0 hd tl ch k (S n') (replicate (S MAX_LEVEL) None)
                (replicate (S MAX_LEVEL) None) H0 ltac:(lia) Hn)
      as (preds' & succs' & Hfind & Hwin); try apply length_replicate.
    simpl remove_loop. mstep Hfind.
    change (heap m0) with (heap m). rewrite (proj2 (Z.eqb_neq _ _) Hne). cbn [negb].
    eexists false, _, ch. split; [reflexivity|].
    split; [apply (SLrep_heap sl m); [reflexivity|exact H]|].
    split; [|split; [|split]].
    + split; [discriminate|]. intros Hin. exfalso. apply Hne, Hmem, Hin.
    + intros Hin. apply Hne, Hmem, Hin.
    + subst m0. cbn [depth calls]. lia.
    + intros _. split; reflexivity.
Qed.

End SkipRemove.

Section SkipReads.
Import LockFreeSkipList.
Context {T : Type}.
Implicit Types (m : mem T) (sl : SkipList) (h : list (SNodeBase T)).

(** ** SkipList::SkipList *)

Lemma new_SkipList_ok (cl : list epoch_call) :
  exists sl m,
    new_SkipList (MkMem (T := T) [] cl) = Ok (sl, m) /\
    SLrep sl m 0 1 (fun _ => []) /\ calls m = cl /\ length (heap m) = 2.
Proof.
  do 2 eexists. split; [vm_compute; reflexivity|].
  split; [|split; reflexivity].
  constructor; cbn [heap head tail]; try reflexivity.
  - intros lv Hlv. unfold MAX_LEVEL in Hlv. cbn [app path]. split; [|exact I].
    do 17 (destruct lv as [|lv]; [reflexivity|]). lia.
  - intros lv _. cbn [app]. repeat constructor; set_solver.
  - cbn [app]. repeat constructor; unfold klt, kyS; cbn; unfold UINT64_MAX; lia.
  - intros lv Hlv. unfold MAX_LEVEL in Hlv. exists None.
    do 17 (destruct lv as [|lv]; [reflexivity|]). lia.
  - intros lv a _ Ha. set_solver.
  - intros a lv Ha. set_solver.
  - intros a Ha. set_solver.
  - intros lv a b mk Hlv Hab. unfold MAX_LEVEL in Hlv.
    destruct a as [|[|a]].
    + assert (b = 1 /\ mk = false) as [-> ->].
      { revert Hab. do 17 (destruct lv as [|lv]; [intros [= <- <-]; auto|]). lia. }
      split; [exact Hlv|]. split; [|auto].
      left. unfold kyS; cbn. unfold UINT64_MAX. lia.
    + exfalso. revert Hab. do 17 (destruct lv as [|lv]; [discriminate|]). lia.
    + exfalso. apply nxS_lt in Hab. cbn in Hab. lia.
Qed.

(** ** SkipList::contains and SkipList::get never write *)

Lemma readonly_loadS (p : ptr) : readonly (load (T := T) p).
Proof.
  intros m n m'. unfold load. destruct p as [a|]; [|discriminate].
  destruct (heap m !! a); [|discriminate]. intros [= _ <-]. reflexivity.
Qed.

Lemma readonly_index {A : Type} (a : list A) (i : nat) : readonly (index (T := T) a i).
Proof. unfold index. destruct (a !! i); [apply readonly_ret|apply readonly_fault]. Qed.

Lemma readonly_load_next (p : ptr) (lv : nat) : readonly (load_next (T := T) p lv).
Proof.
  apply readonly_bind; [apply readonly_loadS|intros; apply readonly_index].
Qed.

Lemma readonly_get_nextS (p : ptr) (lv : nat) : readonly (get_next (T := T) p lv).
Proof. apply readonly_bind; [apply readonly_load_next|intros; apply readonly_ret]. Qed.

Lemma readonly_getReferenceS (p : ptr) (lv : nat) : readonly (getReference (T := T) p lv).
Proof. apply readonly_bind; [apply readonly_load_next|intros; apply readonly_ret]. Qed.

Lemma readonly_skip_marked (n lv : nat) (curr succ : ptr) (marked : bool) :
  readonly (skip_marked (T := T) n lv curr succ marked).
Proof.
  revert curr succ marked. induction n as [|n IH]; intros curr succ marked;
    simpl; destruct marked; try apply readonly_ret; try apply readonly_timeout.
  apply readonly_bind; [apply readonly_getReferenceS|intros curr'].
  destruct curr'; [|apply readonly_ret].
  apply readonly_bind; [apply readonly_get_nextS|intros [succ' marked']]. apply IH.
Qed.

Lemma readonly_contains_walk (n fuel : nat) (k : Z) (lv : nat) (pred curr : ptr) :
  readonly (contains_walk (T := T) n fuel k lv pred curr).
Proof.
  revert pred curr. induction fuel as [|fuel IH]; intros pred curr; simpl.
  - apply readonly_timeout.
  - destruct curr; [|apply readonly_ret].
    apply readonly_bind; [apply readonly_get_nextS|intros [succ marked]].
    apply readonly_bind; [apply readonly_skip_marked|intros [curr' succ']].
    destruct curr'; [|apply readonly_ret].
    apply readonly_bind; [apply readonly_loadS|intros c].
    destruct (key c <? k)%Z; [apply IH|apply readonly_ret].
Qed.

Lemma readonly_containsS (n : nat) sl (k : Z) : readonly (contains (T := T) n sl k).
Proof.
  unfold contains. apply readonly_bind.
  - generalize (head sl). induction (MAX_LEVEL - 1) as [|lv IH]; intros pred; simpl.
    + apply readonly_bind; [apply readonly_getReferenceS|intros curr].
      apply readonly_bind; [apply readonly_contains_walk|intros [pred' curr']].
      apply readonly_ret.
    + apply readonly_bind; [apply readonly_getReferenceS|intros curr].
      apply readonly_bind; [apply readonly_contains_walk|intros [pred' curr']].
      apply IH.
  - intros curr. apply readonly_bind; [apply readonly_loadS|intros; apply readonly_ret].
Qed.

Lemma readonly_get_skip (n : nat) sl (lv : nat) (curr succ : ptr) (marked : bool) :
  readonly (get_skip (T := T) n sl lv curr succ marked).
Proof.
  revert curr succ marked. induction n as [|n IH]; intros curr succ marked;
    simpl; destruct marked; try apply readonly_ret; try apply readonly_timeout.
  destruct (null_or_tail sl succ); [apply readonly_ret|].
  apply readonly_bind; [apply readonly_get_nextS|intros [succ' marked']]. apply IH.
Qed.

Lemma readonly_get_walk (n fuel : nat) sl (k : Z) (lv : nat) (pred curr : ptr) :
  readonly (get_walk (T := T) n fuel sl k lv pred curr).
Proof.
  revert pred curr. induction fuel as [|fuel IH]; intros pred curr; simpl.
  - apply readonly_timeout.
  - destruct (null_or_tail sl curr); [apply readonly_ret|].
    apply readonly_bind; [apply readonly_get_nextS|intros [succ marked]].
    apply readonly_bind; [apply readonly_get_skip|intros [curr' succ']].
    destruct (null_or_tail sl curr'); [apply readonly_ret|].
    apply readonly_bind; [apply readonly_loadS|intros c].
    destruct (key c <? k)%Z; [apply IH|apply readonly_ret].
Qed.

Lemma readonly_getS (n : nat) sl (k : Z) : readonly (get (T := T) n sl k).
Proof.
  unfold get. apply readonly_bind.
  - generalize (head sl). induction (MAX_LEVEL - 1) as [|lv IH]; intros pred; simpl.
    + apply readonly_bind; [apply readonly_getReferenceS|intros curr].
      apply readonly_bind; [apply readonly_get_walk|intros [pred' curr']].
      apply readonly_ret.
    + apply readonly_bind; [apply readonly_getReferenceS|intros curr].
      apply readonly_bind; [apply readonly_get_walk|intros [pred' curr']].
      apply IH.
  - intros curr. destruct curr; [|apply readonly_ret].
    apply readonly_bind; [apply readonly_get_nextS|intros [s nodeMarked]].
    apply readonly_bind; [apply readonly_loadS|intros c].
    destruct ((key c =? k)%Z && negb nodeMarked); apply readonly_ret.
Qed.

End SkipReads.

(** ** SkipList::contains and SkipList::get return

    The two searches follow references of any kind, through nodes that are
    no longer linked at the bottom level as well.  Every reference leads to
    a node that comes later in the order [node_lt], so a walk visits each
    node of the heap at most once. *)

Lemma filter_length_le {A : Type} (P Q : A -> Prop) `{!forall x, Decision (P x)}
    `{!forall x, Decision (Q x)} (l : list A) :
  (forall x, P x -> Q x) -> length (filter P l) <= length (filter Q l).
Proof.
  intros HPQ. induction l as [|y l IH]; [reflexivity|].
  rewrite !filter_cons. destruct (decide (P y)) as [Hp|Hp].
  - rewrite decide_True by auto. simpl. lia.
  - destruct (decide (Q y)); simpl; lia.
Qed.

Lemma filter_length_lt {A : Type} (P Q : A -> Prop) `{!forall x, Decision (P x)}
    `{!forall x, Decision (Q x)} (l : list A) (x : A) :
  (forall y, P y -> Q y) -> x ∈ l -> Q x -> ~ P x ->
  length (filter P l) < length (filter Q l).
Proof.
  intros HPQ Hx Hq Hp. induction l as [|y l IH]; [set_solver|].
  rewrite !filter_cons. apply elem_of_cons in Hx as [<-|Hx].
  - rewrite decide_False by auto. rewrite decide_True by auto.
    pose proof (filter_length_le P Q l HPQ). simpl. lia.
  - specialize (IH Hx). destruct (decide (P y)) as [Hpy|Hpy].
    + rewrite decide_True by auto. simpl. lia.
    + destruct (decide (Q y)); simpl; lia.
Qed.

Section SkipWalks.
Import LockFreeSkipList.
Context {T : Type}.
Implicit Types (m : mem T) (sl : SkipList) (h : list (SNodeBase T)).

Lemma rank_lt h (a b : addr) :
  b < length h -> node_lt (kyS h) a b -> rank h b < rank h a.
Proof.
  intros Hb Hab. unfold rank. apply (filter_length_lt _ _ _ b).
  - intros y Hy. eapply node_lt_trans; eauto.
  - apply elem_of_seq. lia.
  - exact Hab.
  - apply node_lt_irrefl.
Qed.

Lemma rank_bound h (a : addr) : a < length h -> rank h a < length h.
Proof.
  intros Ha. unfold rank.
  eapply Nat.lt_le_trans; [apply (length_filter_lt _ _ a)|rewrite length_seq; lia].
  - apply elem_of_seq. lia.
  - apply node_lt_irrefl.
Qed.

Lemma walkable_ref sl m hd tl ch (lv : nat) (c : addr) :
  SLrep sl m hd tl ch -> lv <= MAX_LEVEL -> walkable (heap m) tl lv c ->
  exists s mk, nxS (heap m) lv c = Some (s, mk) /\ (c = tl -> mk = false).
Proof.
  intros H Hlv [->|Hc].
  - destruct (SL_tl_ref _ _ _ _ _ H lv Hlv) as [p Hp]. eauto.
  - destruct (Hc lv ltac:(lia)) as (b & mk & Hb). exists (Some b), mk.
    split; [exact Hb|]. intros ->.
    destruct (SL_tl_ref _ _ _ _ _ H lv Hlv) as [p Hp]. congruence.
Qed.

Lemma walkable_next sl m hd tl ch (lv : nat) (c : addr) (s : ptr) (mk : bool) :
  SLrep sl m hd tl ch -> lv <= MAX_LEVEL ->
  walkable (heap m) tl lv c -> c <> tl ->
  nxS (heap m) lv c = Some (s, mk) ->
  exists b, s = Some b /\ walkable (heap m) tl lv b /\
            rank (heap m) b < rank (heap m) c.
Proof.
  intros H Hlv [->|Hc] Hne Hs; [congruence|].
  destruct (Hc lv ltac:(lia)) as (b & mk' & Hb).
  rewrite Hb in Hs. injection Hs as <- <-. exists b. split; [reflexivity|].
  destruct (SL_closed _ _ _ _ _ H lv c b mk' Hlv Hb) as (_ & Hlt & Hw).
  split; [exact Hw|]. apply rank_lt; [|exact Hlt].
  destruct Hw as [->|Hw].
  - apply (SLrep_lt sl m hd tl ch 0); [exact H|lia|set_solver].
  - destruct (Hw 0 ltac:(lia)) as (d & mk'' & Hd). eapply nxS_lt; eauto.
Qed.

Lemma hd_linked sl m hd tl ch :
  SLrep sl m hd tl ch -> linked (heap m) MAX_LEVEL hd.
Proof.
  intros H j Hj. pose proof (SL_path _ _ _ _ _ H j Hj) as Hp.
  destruct (ch j ++ [tl]) as [|x xs] eqn:E; [destruct (ch j); discriminate|].
  destruct Hp as [Hp _]. eauto.
Qed.

Lemma null_or_tail_Some sl m hd tl ch (c : addr) :
  SLrep sl m hd tl ch -> null_or_tail sl (Some c) = bool_decide (c = tl).
Proof.
  intros H. unfold null_or_tail, ptr_eqb. rewrite (SL_tail _ _ _ _ _ H).
  apply bool_decide_ext. split; [intros [= ->]|intros ->]; reflexivity.
Qed.

(** *** contains *)

Lemma skip_marked_run sl m hd tl ch (lv : nat) :
  SLrep sl m hd tl ch -> lv <= MAX_LEVEL ->
  forall fuel c s mk,
    walkable (heap m) tl lv c ->
    nxS (heap m) lv c = Some (s, mk) ->
    rank (heap m) c < fuel ->
    exists c' s',
      skip_marked fuel lv (Some c) s mk m = Ok ((Some c', s'), m) /\
      walkable (heap m) tl lv c' /\
      nxS (heap m) lv c' = Some (s', false) /\
      rank (heap m) c' <= rank (heap m) c.
Proof.
  intros H Hlv. induction fuel as [|fuel IH]; intros c s mk Hw Hs Hr; [lia|].
  destruct mk.
  - assert (c <> tl) as Hne.
    { intros ->. destruct (SL_tl_ref _ _ _ _ _ H lv Hlv) as [p Hp]. congruence. }
    destruct (walkable_next sl m hd tl ch lv c s true H Hlv Hw Hne Hs)
      as (b & -> & Hwb & Hrb).
    destruct (walkable_ref sl m hd tl ch lv b H Hlv Hwb) as (s' & mk' & Hb & _).
    simpl skip_marked.
    mstep (getReference_runS _ _ _ _ _ Hs). mstep (get_next_runS _ _ _ _ _ Hb).
    destruct (IH b s' mk' Hwb Hb ltac:(lia)) as (c' & s'' & Hrun & Hw' & Hs' & Hr').
    exists c', s''. split; [exact Hrun|]. split; [exact Hw'|]. split; [exact Hs'|]. lia.
  - exists c, s. split; [reflexivity|]. split; [exact Hw|]. split; [exact Hs|]. lia.
Qed.

Lemma contains_walk_run sl m hd tl ch (key0 : Z) (n lv : nat) :
  SLrep sl m hd tl ch -> (key0 <= UINT64_MAX)%Z -> lv <= MAX_LEVEL ->
  length (heap m) <= n ->
  forall fuel p c,
    walkable (heap m) tl lv c ->
    linked (heap m) lv p ->
    rank (heap m) c < fuel ->
    exists p' c',
      contains_walk n fuel key0 lv (Some p) (Some c) m = Ok ((Some p', Some c'), m) /\
      linked (heap m) lv p' /\ is_Some (heap m !! c').
Proof.
  intros H Hk Hlv Hn. induction fuel as [|fuel IH]; intros p c Hw Hp Hr; [lia|].
  destruct (walkable_ref sl m hd tl ch lv c H Hlv Hw) as (s & mk & Hs & _).
  pose proof (rank_bound (heap m) c (nxS_lt _ _ _ _ Hs)) as Hrb.
  destruct (skip_marked_run sl m hd tl ch lv H Hlv n c s mk Hw Hs ltac:(lia))
    as (c' & s' & Hskip & Hw' & Hs' & Hr').
  pose proof Hs' as (nc & Hnc & _)%nxS_Some.
  simpl contains_walk. mstep (get_next_runS _ _ _ _ _ Hs). mstep Hskip.
  mstep (load_runS _ _ _ Hnc).
  destruct (key nc <? key0)%Z eqn:Elt.
  - apply Z.ltb_lt in Elt.
    assert (c' <> tl) as Hne.
    { intros ->. pose proof (SL_tl_key _ _ _ _ _ H) as Ht.
      rewrite (kyS_load _ _ _ Hnc) in Ht. lia. }
    destruct (walkable_next sl m hd tl ch lv c' s' false H Hlv Hw' Hne Hs')
      as (b & -> & Hwb & Hrb').
    apply IH; [exact Hwb| |lia].
    destruct Hw' as [->|Hl]; [congruence|exact Hl].
  - exists p, c'. split; [reflexivity|]. split; [exact Hp|eauto].
Qed.

Lemma contains_levels_unfold (n : nat) (key0 : Z) (lv : nat) (pred : ptr) :
  contains_levels (T := T) n key0 lv pred =
  (let* curr := getReference pred lv in
   let* (pred, curr) := contains_walk n n key0 lv pred curr in
   match lv with
   | 0 => ret curr
   | S lv' => contains_levels n key0 lv' pred
   end).
Proof. destruct lv; reflexivity. Qed.

Lemma contains_levels_run sl m hd tl ch (key0 : Z) (n : nat) :
  SLrep sl m hd tl ch -> (key0 <= UINT64_MAX)%Z -> length (heap m) <= n ->
  forall lv p,
    lv <= MAX_LEVEL -> linked (heap m) lv p ->
    exists c, contains_levels n key0 lv (Some p) m = Ok (Some c, m) /\
              is_Some (heap m !! c).
Proof.
  intros H Hk Hn. induction lv as [|lv IH]; intros p Hlv Hp;
    rewrite contains_levels_unfold;
    destruct (Hp _ (Nat.le_refl _)) as (c0 & mk & Hc0);
    destruct (SL_closed _ _ _ _ _ H _ p c0 mk Hlv Hc0) as (_ & _ & Hw);
    mstep (getReference_runS _ _ _ _ _ Hc0).
  - destruct (contains_walk_run sl m hd tl ch key0 n 0 H Hk Hlv Hn n p c0 Hw Hp)
      as (p' & c' & Hrun & _ & Hc').
    { destruct (walkable_ref sl m hd tl ch 0 c0 H Hlv Hw) as (s & mk' & Hs & _).
      pose proof (rank_bound (heap m) c0 (nxS_lt _ _ _ _ Hs)). lia. }
    mstep Hrun. eauto.
  - destruct (contains_walk_run sl m hd tl ch key0 n (S lv) H Hk Hlv Hn n p c0 Hw Hp)
      as (p' & c' & Hrun & Hp' & Hc').
    { destruct (walkable_ref sl m hd tl ch (S lv) c0 H Hlv Hw) as (s & mk' & Hs & _).
      pose proof (rank_bound (heap m) c0 (nxS_lt _ _ _ _ Hs)). lia. }
    mstep Hrun. apply IH; [lia|]. eapply linked_le; [exact Hp'|lia].
Qed.

Theorem skip_contains_returns sl m hd tl ch (key0 : Z) (n : nat) :
  SLrep sl m hd tl ch -> (key0 <= UINT64_MAX)%Z -> length (heap m) <= n ->
  exists b, contains n sl key0 m = Ok (b, m).
Proof.
  intros H Hk Hn.
  destruct (contains_levels_run sl m hd tl ch key0 n H Hk Hn (MAX_LEVEL - 1) hd)
    as (c & Hrun & [nc Hnc]).
  { unfold MAX_LEVEL. lia. }
  { eapply linked_le; [eapply hd_linked; eauto|lia]. }
  unfold contains. rewrite (SL_head _ _ _ _ _ H). mstep Hrun.
  mstep (load_runS _ _ _ Hnc). eauto.
Qed.

(** *** get *)

Lemma get_skip_unfold (fuel : nat) sl (lv : nat) (curr succ : ptr) :
  get_skip (T := T) (S fuel) sl lv curr succ true =
  (if null_or_tail sl succ then ret (succ, succ)
   else let* (succ', marked) := get_next succ lv in
        get_skip fuel sl lv succ succ' marked).
Proof. reflexivity. Qed.

Lemma get_walk_unfold (n fuel : nat) sl (key0 : Z) (lv : nat) (pred curr : ptr) :
  get_walk (T := T) n (S fuel) sl key0 lv pred curr =
  (if null_or_tail sl curr then ret (pred, curr)
   else
     let* (succ, marked) := get_next curr lv in
     let* (curr, succ) := get_skip n sl lv curr succ marked in
     if null_or_tail sl curr then ret (pred, curr)
     else
       let* c := load curr in
       if (key c <? key0)%Z then get_walk n fuel sl key0 lv curr succ
       else ret (pred, curr)).
Proof. reflexivity. Qed.

Lemma get_skip_run sl m hd tl ch (lv : nat) :
  SLrep sl m hd tl ch -> lv <= MAX_LEVEL ->
  forall fuel c s mk,
    walkable (heap m) tl lv c ->
    nxS (heap m) lv c = Some (s, mk) ->
    rank (heap m) c < fuel ->
    exists c' s',
      get_skip fuel sl lv (Some c) s mk m = Ok ((Some c', s'), m) /\
      walkable (heap m) tl lv c' /\
      (c' <> tl -> nxS (heap m) lv c' = Some (s', false)) /\
      rank (heap m) c' <= rank (heap m) c.
Proof.
  intros H Hlv. induction fuel as [|fuel IH]; intros c s mk Hw Hs Hr; [lia|].
  destruct mk.
  - assert (c <> tl) as Hne.
    { intros ->. destruct (SL_tl_ref _ _ _ _ _ H lv Hlv) as [p Hp]. congruence. }
    destruct (walkable_next sl m hd tl ch lv c s true H Hlv Hw Hne Hs)
      as (b & -> & Hwb & Hrb).
    rewrite get_skip_unfold, (null_or_tail_Some sl m hd tl ch b H).
    destruct (decide (b = tl)) as [->|Hbt].
    + rewrite bool_decide_eq_true_2 by reflexivity.
      exists tl, (Some tl). split; [reflexivity|]. split; [exact Hwb|].
      split; [congruence|lia].
    + rewrite bool_decide_eq_false_2 by exact Hbt.
      destruct (walkable_ref sl m hd tl ch lv b H Hlv Hwb) as (s' & mk' & Hb & _).
      mstep (get_next_runS _ _ _ _ _ Hb).
      destruct (IH b s' mk' Hwb Hb ltac:(lia)) as (c' & s'' & Hrun & Hw' & Hs' & Hr').
      exists c', s''. split; [exact Hrun|]. split; [exact Hw'|]. split; [exact Hs'|]. lia.
  - exists c, s. split; [reflexivity|]. split; [exact Hw|]. split; [auto|lia].
Qed.

Lemma get_walk_run sl m hd tl ch (key0 : Z) (n lv : nat) :
  SLrep sl m hd tl ch -> lv <= MAX_LEVEL -> length (heap m) <= n ->
  forall fuel p c,
    walkable (heap m) tl lv c ->
    linked (heap m) lv p ->
    rank (heap m) c < fuel ->
    exists p' c',
      get_walk n fuel sl key0 lv (Some p) (Some c) m = Ok ((Some p', Some c'), m) /\
      linked (heap m) lv p' /\ walkable (heap m) tl lv c'.
Proof.
  intros H Hlv Hn. induction fuel as [|fuel IH]; intros p c Hw Hp Hr; [lia|].
  rewrite get_walk_unfold, (null_or_tail_Some sl m hd tl ch c H).
  destruct (decide (c = tl)) as [->|Hct].
  { rewrite bool_decide_eq_true_2 by reflexivity. exists p, tl. auto. }
  rewrite bool_decide_eq_false_2 by exact Hct.
  destruct (walkable_ref sl m hd tl ch lv c H Hlv Hw) as (s & mk & Hs & _).
  pose proof (rank_bound (heap m) c (nxS_lt _ _ _ _ Hs)) as Hrb.
  destruct (get_skip_run sl m hd tl ch lv H Hlv n c s mk Hw Hs ltac:(lia))
    as (c' & s' & Hskip & Hw' & Hs' & Hr').
  mstep (get_next_runS _ _ _ _ _ Hs). mstep Hskip.
  rewrite (null_or_tail_Some sl m hd tl ch c' H).
  destruct (decide (c' = tl)) as [->|Hct'].
  { rewrite bool_decide_eq_true_2 by reflexivity. exists p, tl. auto. }
  rewrite bool_decide_eq_false_2 by exact Hct'.
  specialize (Hs' Hct'). pose proof Hs' as (nc & Hnc & _)%nxS_Some.
  mstep (load_runS _ _ _ Hnc).
  destruct (key nc <? key0)%Z.
  - destruct (walkable_next sl m hd tl ch lv c' s' false H Hlv Hw' Hct' Hs')
      as (b & -> & Hwb & Hrb').
    apply IH; [exact Hwb| |lia].
    destruct Hw' as [->|Hl]; [congruence|exact Hl].
  - exists p, c'. auto.
Qed.

Lemma get_levels_unfold (n : nat) sl (key0 : Z) (lv : nat) (pred : ptr) :
  get_levels (T := T) n sl key0 lv pred =
  (let* curr := getReference pred lv in
   let* (pred, curr) := get_walk n n sl key0 lv pred curr in
   match lv with
   | 0 => ret curr
   | S lv' => get_levels n sl key0 lv' pred
   end).
Proof. destruct lv; reflexivity. Qed.

Lemma get_levels_run sl m hd tl ch (key0 : Z) (n : nat) :
  SLrep sl m hd tl ch -> length (heap m) <= n ->
  forall lv p,
    lv <= MAX_LEVEL -> linked (heap m) lv p ->
    exists c, get_levels n sl key0 lv (Some p) m = Ok (Some c, m) /\
              walkable (heap m) tl 0 c.
Proof.
  intros H Hn. induction lv as [|lv IH]; intros p Hlv Hp;
    rewrite get_levels_unfold;
    destruct (Hp _ (Nat.le_refl _)) as (c0 & mk & Hc0);
    destruct (SL_closed _ _ _ _ _ H _ p c0 mk Hlv Hc0) as (_ & _ & Hw);
    mstep (getReference_runS _ _ _ _ _ Hc0).
  - destruct (get_walk_run sl m hd tl ch key0 n 0 H Hlv Hn n p c0 Hw Hp)
      as (p' & c' & Hrun & _ & Hc').
    { destruct (walkable_ref sl m hd tl ch 0 c0 H Hlv Hw) as (s & mk' & Hs & _).
      pose proof (rank_bound (heap m) c0 (nxS_lt _ _ _ _ Hs)). lia. }
    mstep Hrun. eauto.
  - destruct (get_walk_run sl m hd tl ch key0 n (S lv) H Hlv Hn n p c0 Hw Hp)
      as (p' & c' & Hrun & Hp' & Hc').
    { destruct (walkable_ref sl m hd tl ch (S lv) c0 H Hlv Hw) as (s & mk' & Hs & _).
      pose proof (rank_bound (heap m) c0 (nxS_lt _ _ _ _ Hs)). lia. }
    mstep Hrun. apply IH; [lia|]. eapply linked_le; [exact Hp'|lia].
Qed.

Theorem skip_get_returns sl m hd tl ch (key0 : Z) (n : nat) :
  SLrep sl m hd tl ch -> length (heap m) <= n ->
  exists v, get n sl key0 m = Ok (v, m).
Proof.
  intros H Hn.
  destruct (get_levels_run sl m hd tl ch key0 n H Hn (MAX_LEVEL - 1) hd)
    as (c & Hrun & Hw).
  { unfold MAX_LEVEL. lia. }
  { eapply linked_le; [eapply hd_linked; eauto|lia]. }
  destruct (walkable_ref sl m hd tl ch 0 c H ltac:(lia) Hw) as (s & mk & Hs & _).
  pose proof Hs as (nc & Hnc & _)%nxS_Some.
  unfold get. rewrite (SL_head _ _ _ _ _ H). mstep Hrun.
  mstep (get_next_runS _ _ _ _ _ Hs). mstep (load_runS _ _ _ Hnc).
  destruct ((key nc =? key0)%Z && negb mk); eauto.
Qed.

End SkipWalks.

(** * Extract-minimum *)

Section PopMin.
Import LockFreeSkipList.
Context {T : Type}.
Implicit Types (m : mem T) (sl : SkipList).

Lemma drain_run sl hd tl (n : nat) :
  0 < n ->
  forall cs ch m,
    SLrep sl m hd tl ch -> ch 0 = cs ->
    exists vs m' ch',
      drain n (S (length cs)) sl m = Ok (vs, m') /\
      Some <$> vs = dataS (heap m) <$> cs /\
      SLrep sl m' hd tl ch' /\ ch' 0 = [].
Proof.
  intros Hn. induction cs as [|c cs IH]; intros ch m H Hch.
  - exists [], m, ch. split; [|auto].
    simpl drain. mstep (popMin_empty sl m hd tl ch n H Hch Hn). reflexivity.
  - destruct (popMin_first sl m hd tl ch c cs n H Hch Hn) as (m1 & Hpop & _ & H1 & Hfr).
    destruct (SL_data _ _ _ _ _ H c ltac:(rewrite Hch; set_solver)) as [v Hv].
    destruct (IH (ch_pop ch) m1 H1) as (vs & m' & ch' & Hrun & Hvs & H' & Hch').
    { cbn [ch_pop]. rewrite Hch. reflexivity. }
    exists (v :: vs), m', ch'. split; [|split; [|auto]].
    + cbn [length]. simpl drain. rewrite Hv in Hpop. mstep Hpop. mstep Hrun. reflexivity.
    + rewrite !fmap_cons, Hv, Hvs. f_equal.
      apply list_fmap_ext. intros i a _. apply (frame_data _ _ Hfr).
Qed.

(** C4: on a well-formed skip list, [popMin] returns nothing when the
    bottom level holds only the sentinels; otherwise it returns the payload
    of the first live node, whose key is below every other live key, and
    leaves the other live nodes; popping until nothing is returned yields the
    payloads of all live nodes in strictly increasing key order. *)
Theorem C4_popMin_extracts_minimum sl m hd tl ch (n : nat) :
  SLrep sl m hd tl ch ->
  0 < n ->
  (ch 0 = [] -> popMin n sl m = Ok (None, m)) /\
  (forall c cs, ch 0 = c :: cs ->
     exists v m',
       popMin n sl m = Ok (Some v, m') /\
       dataS (heap m) c = Some v /\
       Forall (fun a => (kyS (heap m) c < kyS (heap m) a)%Z) cs /\
       SLrep sl m' hd tl (ch_pop ch) /\ ch_pop ch 0 = cs /\
       (forall a, kyS (heap m') a = kyS (heap m) a /\
                  dataS (heap m') a = dataS (heap m) a)) /\
  (exists vs m' ch',
     drain n (S (length (ch 0))) sl m = Ok (vs, m') /\
     Some <$> vs = dataS (heap m) <$> ch 0 /\
     StronglySorted (klt (kyS (heap m))) (ch 0) /\
     SLrep sl m' hd tl ch' /\ ch' 0 = [] /\
     popMin n sl m' = Ok (None, m')).
Proof.
  intros H Hn. split; [|split].
  - intros Hch. eapply popMin_empty; eauto.
  - intros c cs Hch.
    destruct (popMin_first sl m hd tl ch c cs n H Hch Hn) as (m1 & Hpop & _ & H1 & Hfr).
    destruct (SL_data _ _ _ _ _ H c ltac:(rewrite Hch; set_solver)) as [v Hv].
    exists v, m1. rewrite <- Hv. split; [exact Hpop|]. split; [reflexivity|].
    split; [|split; [exact H1|split]].
    + pose proof (SL_sorted _ _ _ _ _ H) as Hs. rewrite Hch in Hs.
      apply StronglySorted_cons in Hs as [_ Hs].
      apply StronglySorted_app_1_l in Hs.
      apply StronglySorted_cons in Hs as [Hall _]. exact Hall.
    + cbn [ch_pop]. rewrite Hch. reflexivity.
    + intros a. split; [apply (frame_key _ _ Hfr)|apply (frame_data _ _ Hfr)].
  - destruct (drain_run sl hd tl n Hn (ch 0) ch m H eq_refl)
      as (vs & m' & ch' & Hrun & Hvs & H' & Hch').
    exists vs, m', ch'. split; [exact Hrun|]. split; [exact Hvs|].
    split; [|split; [exact H'|split; [exact Hch'|]]].
    + pose proof (SL_sorted _ _ _ _ _ H) as Hs.
      apply StronglySorted_cons in Hs as [_ Hs].
      apply StronglySorted_app_1_l in Hs. exact Hs.
    + eapply popMin_empty; eauto.
Qed.

End PopMin.

(** * Removal *)

(** C5: for every 64-bit key but the key of the tail sentinel, on a
    well-formed list and on a well-formed skip list, [remove] returns true exactly when a
    live node holds the key; when it returns false the heap, hence the live
    keys and every payload, is unchanged. *)
Theorem C5_remove_true_iff_present {T : Type}
    (l : LockFreeList.List) (m : LockFreeList.mem T) (hd tl : addr) (cs : list addr)
    (sl : LockFreeSkipList.SkipList) (ms : LockFreeSkipList.mem T)
    (hds tls : addr) (ch : nat -> list addr) (k : Z) (n : nat) :
  Lrep l m hd tl cs ->
  SLrep sl ms hds tls ch ->
  (0 <= k < UINT64_MAX)%Z ->
  length (LockFreeList.heap m) <= n ->
  length (LockFreeSkipList.heap ms) <= n ->
  (exists b m' cs',
     LockFreeList.remove n l k m = Ok (b, m') /\
     (b = true <-> k ∈ Lkeys m cs) /\
     Lrep l m' hd tl cs' /\
     (b = false -> LockFreeList.heap m' = LockFreeList.heap m /\ cs' = cs)) /\
  (exists b ms' ch',
     LockFreeSkipList.remove n sl k ms = Ok (b, ms') /\
     (b = true <-> k ∈ SLkeys ms ch) /\
     SLrep sl ms' hds tls ch' /\
     (b = false -> LockFreeSkipList.heap ms' = LockFreeSkipList.heap ms /\ ch' = ch)).
Proof.
  intros H Hs Hk Hn Hns. split.
  - destruct (list_remove_ok l m hd tl cs k n H Hk Hn)
      as (b & m' & cs' & Hrun & H' & Hb & _ & Hf).
    exists b, m', cs'. auto.
  - destruct (skip_remove_ok sl ms hds tls ch k n Hs Hk Hns)
      as (b & ms' & ch' & Hrun & H' & Hb & _ & _ & Hf).
    exists b, ms', ch'. auto.
Qed.

(** * Preservation of the structural invariant *)

Section Operations.
Context {T : Type}.

Lemma SLinv_level0 sl (m : LockFreeSkipList.mem T) : SLinv sl m -> SLlevel0 sl m.
Proof.
  intros (hd & tl & ch & H). exists hd, tl, (ch 0).
  split; [eapply SL_head; eauto|]. split; [eapply SL_tail; eauto|].
  split; [eapply SL_path; eauto; unfold LockFreeSkipList.MAX_LEVEL; lia|].
  eapply SL_sorted; eauto.
Qed.

Lemma list_op_preserves (n : nat) l (m : LockFreeList.mem T) (op : list_op) :
  Linv l m -> list_op_dom op -> length (LockFreeList.heap m) <= n ->
  exists a m',
    run_list_op n l op m = Ok (a, m') /\ Linv l m' /\
    (list_op_writes op = false -> m' = m).
Proof.
  intros (hd & tl & cs & H) Hdom Hn.
  pose proof (Lrep_length _ _ _ _ _ H) as Hlen.
  destruct op as [k v|k|k|k]; cbn in Hdom |- *.
  - destruct (list_add_ok l m hd tl cs k v n H Hdom Hn) as (b & m1 & cs' & Hrun & H' & _).
    exists (Flag b), m1. rewrite (bind_Ok _ _ _ _ _ Hrun).
    split; [reflexivity|]. split; [exists hd, tl, cs'; exact H'|discriminate].
  - destruct (list_remove_ok l m hd tl cs k n H ltac:(unfold user_key in Hdom; lia) Hn)
      as (b & m1 & cs' & Hrun & H' & _).
    exists (Flag b), m1. rewrite (bind_Ok _ _ _ _ _ Hrun).
    split; [reflexivity|]. split; [exists hd, tl, cs'; exact H'|discriminate].
  - destruct (list_reads_return l m hd tl cs k n (Lrep_Lshape _ _ _ _ _ H))
      as [[b Hrun] _]; [unfold uint64_key in Hdom; lia|lia|].
    exists (Flag b), m. rewrite (bind_Ok _ _ _ _ _ Hrun).
    split; [reflexivity|]. split; [exists hd, tl, cs; exact H|reflexivity].
  - destruct (list_reads_return l m hd tl cs k n (Lrep_Lshape _ _ _ _ _ H))
      as [_ [v Hrun]]; [unfold uint64_key in Hdom; lia|lia|].
    exists (Payload v), m. rewrite (bind_Ok _ _ _ _ _ Hrun).
    split; [reflexivity|]. split; [exists hd, tl, cs; exact H|reflexivity].
Qed.

Lemma skip_op_preserves (n : nat) sl (m : LockFreeSkipList.mem T) (op : skip_op) :
  SLinv sl m -> skip_op_dom op -> length (LockFreeSkipList.heap m) <= n ->
  exists a m',
    run_skip_op n sl op m = Ok (a, m') /\ SLinv sl m' /\
    (skip_op_writes op = false -> m' = m).
Proof.
  intros (hd & tl & ch & H) Hdom Hn.
  pose proof (SLrep_length _ _ _ _ _ 0 H ltac:(unfold LockFreeSkipList.MAX_LEVEL; lia)) as Hlen.
  destruct op as [k v flips|k|k|k|]; cbn in Hdom |- *.
  - destruct (skip_add_ok sl m hd tl ch k v flips n H Hdom Hn)
      as (b & m1 & ch' & Hrun & H' & _).
    exists (Flag b), m1. rewrite (bind_Ok _ _ _ _ _ Hrun).
    split; [reflexivity|]. split; [exists hd, tl, ch'; exact H'|discriminate].
  - destruct (skip_remove_ok sl m hd tl ch k n H ltac:(unfold user_key in Hdom; lia) Hn)
      as (b & m1 & ch' & Hrun & H' & _).
    exists (Flag b), m1. rewrite (bind_Ok _ _ _ _ _ Hrun).
    split; [reflexivity|]. split; [exists hd, tl, ch'; exact H'|discriminate].
  - destruct (skip_contains_returns sl m hd tl ch k n H) as [b Hrun];
      [unfold uint64_key in Hdom; lia|lia|].
    exists (Flag b), m. rewrite (bind_Ok _ _ _ _ _ Hrun).
    split; [reflexivity|]. split; [exists hd, tl, ch; exact H|reflexivity].
  - destruct (skip_get_returns sl m hd tl ch k n H) as [v Hrun]; [lia|].
    exists (Payload v), m. rewrite (bind_Ok _ _ _ _ _ Hrun).
    split; [reflexivity|]. split; [exists hd, tl, ch; exact H|reflexivity].
  - assert (exists v m1 ch', LockFreeSkipList.popMin n sl m = Ok (v, m1) /\
                             SLrep sl m1 hd tl ch') as (v & m1 & ch' & Hrun & H').
    { destruct (ch 0) as [|c cs] eqn:Hch.
      - exists None, m, ch. split; [|exact H].
        eapply popMin_empty; eauto. lia.
      - destruct (popMin_first sl m hd tl ch c cs n H Hch ltac:(lia)) as (m1 & Hpop & _ & H1 & _).
        eauto. }
    exists (Payload v), m1. rewrite (bind_Ok _ _ _ _ _ Hrun).
    split; [reflexivity|]. split; [exists hd, tl, ch'; exact H'|discriminate].
Qed.

Lemma list_reachable_inv l (m : LockFreeList.mem T) : list_reachable l m -> Linv l m.
Proof.
  induction 1 as [d cl m Hnew|m op n a m' _ IH Hdom Hn Hrun].
  - destruct (new_List_ok d cl) as (l0 & m0 & Heq & H & _).
    rewrite Hnew in Heq. injection Heq as <- <-. exists 0, 1, []. exact H.
  - destruct (list_op_preserves n l m op IH Hdom Hn) as (a' & m1 & Hrun' & H' & _).
    rewrite Hrun in Hrun'. injection Hrun' as _ <-. exact H'.
Qed.

Lemma skip_reachable_inv sl (m : LockFreeSkipList.mem T) : skip_reachable sl m -> SLinv sl m.
Proof.
  induction 1 as [cl m Hnew|m op n a m' _ IH Hdom Hn Hrun].
  - destruct (new_SkipList_ok (T := T) cl) as (sl0 & m0 & Heq & H & _).
    rewrite Hnew in Heq. injection Heq as <- <-. exists 0, 1, (fun _ => []). exact H.
  - destruct (skip_op_preserves n sl m op IH Hdom Hn) as (a' & m1 & Hrun' & H' & _).
    rewrite Hrun in Hrun'. injection Hrun' as _ <-. exact H'.
Qed.

(** Between operations of a single thread the sentinel keys are reported
    by all three calls. *)
Lemma list_reachable_sentinels l (m : LockFreeList.mem T) (n : nat) :
  list_reachable l m -> length (LockFreeList.heap m) <= n ->
  exists d0 d1,
    LockFreeList.contains n l 0 m = Ok (true, m) /\
    LockFreeList.get n l 0 m = Ok (Some d0, m) /\
    LockFreeList.get n l UINT64_MAX m = Ok (Some d1, m).
Proof.
  intros Hr Hn. destruct (list_reachable_inv l m Hr) as (hd & tl & cs & H).
  pose proof (Lrep_length _ _ _ _ _ H) as Hlen.
  destruct (list_sentinels_visible l m hd tl cs n (Lrep_Lshape _ _ _ _ _ H) ltac:(lia))
    as (nh & nt & _ & _ & Hc & Hg0 & Hg).
  exists (LockFreeList.data nh), (LockFreeList.data nt).
  split; [exact Hc|]. split; [exact Hg0|].
  assert (markL (LockFreeList.heap m) (end_of hd cs) = false) as Hmk.
  { pose proof (Lrep_path _ _ _ _ _ H) as Hp. apply path_app in Hp as [_ [Hq _]].
    apply nxL_Some in Hq as (nq & Hnq & _ & Hm). unfold markL. rewrite Hnq. exact Hm. }
  rewrite Hmk in Hg. exact Hg.
Qed.

End Operations.

(** From a well-formed list and a well-formed skip list (the level-0
    invariant, and for the skip list the upper levels the code walks
    through), every operation on a key of its domain returns and leaves a
    state that satisfies the level-0 invariant again; [contains] and [get]
    leave the state as it is.  For [SkipList::add] the domain is stated on
    the key after its conversion through [int]: an argument that the
    conversion takes to 0, such as 2^32, is outside it. *)
Lemma operations_preserve_level0 {T : Type}
    (l : LockFreeList.List) (m : LockFreeList.mem T)
    (sl : LockFreeSkipList.SkipList) (ms : LockFreeSkipList.mem T)
    (lop : list_op) (sop : skip_op) (n : nat) :
  Linv l m ->
  SLinv sl ms ->
  list_op_dom lop ->
  skip_op_dom sop ->
  length (LockFreeList.heap m) <= n ->
  length (LockFreeSkipList.heap ms) <= n ->
  (exists a m',
     run_list_op n l lop m = Ok (a, m') /\ Linv l m' /\
     (list_op_writes lop = false -> m' = m)) /\
  (exists a ms',
     run_skip_op n sl sop ms = Ok (a, ms') /\ SLinv sl ms' /\ SLlevel0 sl ms' /\
     (skip_op_writes sop = false -> ms' = ms)).
Proof.
  intros H Hs Hd Hds Hn Hns. split.
  - apply list_op_preserves; auto.
  - destruct (skip_op_preserves n sl ms sop Hs Hds Hns) as (a & ms' & Hrun & H' & Hro).
    exists a, ms'. split; [exact Hrun|]. split; [exact H'|].
    split; [apply SLinv_level0, H'|exact Hro].
Qed.

(** Evaluation of a conjunction of closed equations, left to right. *)
Ltac eval_conj :=
  repeat match goal with |- _ /\ _ => split; [vm_compute; reflexivity|] end;
  vm_compute; reflexivity.

(** Case analysis on a level bounded by a numeral. *)
Ltac cases_le l :=
  first [ exfalso; lia | destruct l as [|l]; [ | cases_le l ] ].

(** * Concrete states *)

Lemma fresh_list_rep : Lrep (fst fresh_list) (snd fresh_list) 0 1 [].
Proof.
  destruct (new_List_ok 0 []) as (l & m & Heq & H & _).
  vm_compute in Heq. injection Heq as <- <-. exact H.
Qed.

Lemma fresh_skiplist_rep :
  SLrep (fst fresh_skiplist) (snd fresh_skiplist) 0 1 (fun _ => []).
Proof.
  destruct (new_SkipList_ok (T := nat) []) as (sl & m & Heq & H & _).
  vm_compute in Heq. injection Heq as <- <-. exact H.
Qed.

Lemma list_holding_5_9_rep :
  Lrep (fst list_holding_5_9) (snd list_holding_5_9) 0 1 [2; 3].
Proof.
  constructor; cbn; eauto.
  repeat constructor; unfold klt, kyL; cbn; unfold UINT64_MAX; lia.
Qed.


Lemma skiplist_holding_5_9_rep :
  SLrep (fst skiplist_holding_5_9) (snd skiplist_holding_5_9) 0 1 chains_5_9.
Proof.
  constructor.
  - reflexivity.
  - reflexivity.
  - intros lv Hlv. unfold LockFreeSkipList.MAX_LEVEL in Hlv.
    cases_le lv; cbn; auto.
  - intros lv Hlv. unfold LockFreeSkipList.MAX_LEVEL in Hlv.
    cases_le lv; cbn; apply (bool_decide_unpack _); vm_compute; exact I.
  - repeat constructor; unfold klt, kyS; cbn; unfold UINT64_MAX; lia.
  - reflexivity.
  - reflexivity.
  - reflexivity.
  - intros lv Hlv. unfold LockFreeSkipList.MAX_LEVEL in Hlv.
    cases_le lv; eexists; vm_compute; reflexivity.
  - intros lv a Hlv Ha. unfold LockFreeSkipList.MAX_LEVEL in *.
    destruct lv as [|[|lv]]; cbn in Ha.
    + apply elem_of_cons in Ha as [->|Ha]; [cbn; lia|].
      apply list_elem_of_singleton in Ha as ->. cbn. lia.
    + apply list_elem_of_singleton in Ha as ->. cbn. lia.
    + apply elem_of_nil in Ha as [].
  - intros a lv Ha Hlv. cbn in Ha.
    apply elem_of_cons in Ha as [->|Ha].
    + cbn in Hlv. destruct lv as [|[|lv]]; [| |lia].
      * exists [], [3]. split; [reflexivity|constructor].
      * exists [], []. split; [reflexivity|constructor].
    + apply list_elem_of_singleton in Ha as ->. cbn in Hlv.
      destruct lv as [|lv]; [|lia].
      exists [2], []. split; [reflexivity|]. repeat constructor.
  - intros a Ha. cbn in Ha.
    apply elem_of_cons in Ha as [->|Ha]; [cbn; eauto|].
    apply list_elem_of_singleton in Ha as ->. cbn. eauto.
  - intros lv a b mk Hlv Hnx. unfold LockFreeSkipList.MAX_LEVEL in Hlv.
    destruct a as [|[|[|[|a]]]];
      [| | | |unfold nxS in Hnx; cbn in Hnx; discriminate];
      cases_le lv; vm_compute in Hnx; try discriminate;
      injection Hnx as <- <-;
      (split; [cbn; unfold LockFreeSkipList.MAX_LEVEL; lia|]);
      (split; [left; cbn; unfold UINT64_MAX; lia|]);
      first [left; reflexivity
            |right; intros j Hj; cases_le j; do 2 eexists; vm_compute; reflexivity].
Qed.

Lemma chains_5_9_tidy : SLtidy chains_5_9.
Proof.
  intros [|[|lv]] a _ Ha; cbn in *; [exact Ha| |set_solver].
  apply list_elem_of_singleton in Ha as ->. set_solver.
Qed.

Lemma C4_witness :
  SLrep (fst skiplist_holding_5_9) (snd skiplist_holding_5_9) 0 1 chains_5_9 /\ 0 < 8 /\
  (exists m',
     LockFreeSkipList.popMin 8 (fst skiplist_holding_5_9) (snd skiplist_holding_5_9)
     = Ok (Some 7, m') /\
     SLrep (fst skiplist_holding_5_9) m' 0 1 (ch_pop chains_5_9)) /\
  (exists m',
     drain 8 3 (fst skiplist_holding_5_9) (snd skiplist_holding_5_9) = Ok ([7; 8], m')).
Proof.
  split; [exact skiplist_holding_5_9_rep|]. split; [lia|].
  destruct (C4_popMin_extracts_minimum _ _ 0 1 chains_5_9 8 skiplist_holding_5_9_rep
              ltac:(lia)) as (_ & Hfirst & vs & m2 & ch2 & Hdrain & Hvs & _).
  destruct (Hfirst 2 [3] eq_refl) as (v & m1 & Hpop & Hv & _ & H1 & _).
  vm_compute in Hv. injection Hv as <-.
  split; [exists m1; split; [exact Hpop|exact H1]|].
  exists m2. vm_compute in Hvs.
  destruct vs as [|a [|b [|c vs]]]; try discriminate Hvs.
  injection Hvs as -> ->. exact Hdrain.
Defined.

Lemma C5_witness :
  Lrep (fst list_holding_5_9) (snd list_holding_5_9) 0 1 [2; 3] /\
  SLrep (fst skiplist_holding_5_9) (snd skiplist_holding_5_9) 0 1 chains_5_9 /\
  (0 <= 5 < UINT64_MAX)%Z /\
  (exists m' cs',
     LockFreeList.remove 8 (fst list_holding_5_9) 5 (snd list_holding_5_9)
     = Ok (true, m') /\
     Lrep (fst list_holding_5_9) m' 0 1 cs') /\
  (exists ms' ch',
     LockFreeSkipList.remove 8 (fst skiplist_holding_5_9) 5 (snd skiplist_holding_5_9)
     = Ok (true, ms') /\
     SLrep (fst skiplist_holding_5_9) ms' 0 1 ch').
Proof.
  split; [exact list_holding_5_9_rep|]. split; [exact skiplist_holding_5_9_rep|].
  split; [unfold UINT64_MAX; lia|].
  destruct (C5_remove_true_iff_present _ _ 0 1 [2; 3] _ _ 0 1 chains_5_9 5 8
              list_holding_5_9_rep skiplist_holding_5_9_rep
              ltac:(unfold UINT64_MAX; lia) ltac:(cbn; lia) ltac:(cbn; lia))
    as [(b & m' & cs' & Hrun & Hb & H' & _) (bs & ms' & ch' & Hruns & Hbs & Hs' & _)].
  assert (b = true) as -> by (apply Hb; apply list_elem_of_here).
  assert (bs = true) as -> by (apply Hbs; apply list_elem_of_here).
  split; [exists m', cs'|exists ms', ch']; auto.
Defined.


(** * Scenarios evaluated on the model *)

Section ListScenarios.
Import LockFreeList.
Context {T : Type}.

(** C1 (the code departs from the claim): on the ordered list
    head -> 5 (marked) -> tail, where the node holding key 5 has its deletion
    mark set and is still linked, [contains(5)] returns false but [get(5)]
    returns the payload: [List::get] tests the mark it read from the
    predecessor's [next], not the mark of the node it found. *)
Theorem C1_list_get_returns_marked_node (d v : T) :
  exists l m,
    list_with_marked_5 d v (MkMem [] []) = Ok (l, m) /\
    heap m !! 2 = Some (MkNode (MkRef (tail l) true) 5 v) /\
    getReference (head l) m = Ok (Some 2, m) /\
    contains 4 l 5 m = Ok (false, m) /\
    get 4 l 5 m = Ok (Some v, m).
Proof. do 2 eexists. eval_conj. Qed.

(** C6 (the code departs from the claim): [List::add] of a key that is
    already present returns false without calling [leaveEpoch]; the
    protection depth is one more after the call than before it. *)
Theorem C6_list_add_duplicate_skips_leave (d a b : T) :
  exists l m1 m2,
    list_with_5 d a (MkMem [] []) = Ok (l, m1) /\
    add 4 l 5 b m1 = Ok (false, m2) /\
    calls m2 = EnterEpoch thread_id :: calls m1 /\
    depth (calls m2) = (depth (calls m1) + 1)%Z.
Proof. do 3 eexists. eval_conj. Qed.

(** C10 (the code departs from the claim): on the ordered list
    head -> 5 (marked) -> tail, the keys of both sentinels are reported by
    [contains], and [get(0)] returns the payload of the head sentinel, but
    [get(2^64 - 1)] returns [nullptr]: it stops at the tail sentinel, which
    is not marked, with the mark of the node before it in hand. *)
Theorem C10_get_misses_tail_sentinel (d v : T) :
  exists l m,
    list_with_marked_5 d v (MkMem [] []) = Ok (l, m) /\
    tail l = Some 1 /\
    heap m !! 1 = Some (MkNode (MkRef None false) UINT64_MAX d) /\
    contains 4 l 0 m = Ok (true, m) /\
    contains 4 l UINT64_MAX m = Ok (true, m) /\
    get 4 l 0 m = Ok (Some d, m) /\
    get 4 l UINT64_MAX m = Ok (None, m).
Proof. do 2 eexists. eval_conj. Qed.

End ListScenarios.


Section SkipListScenarios.
Import LockFreeSkipList.
Context {T : Type}.

(** C2 (the code departs from the claim): [popMin] on a skip list holding
    key 1 in a node of height 1 returns the payload and retires the node
    while [head->next[1]] still points to it, unmarked. *)
Theorem C2_popMin_retires_linked_node (v : T) :
  exists sl m m' node,
    skiplist_with_tall_1 v empty_mem = Ok (sl, m) /\
    popMin 4 sl m = Ok (Some v, m') /\
    retired (calls m') = [Some 2] /\
    heap m' !! 2 = Some node /\ key node = 1%Z /\ topLevel node = 1 /\
    load_next (head sl) 1 m' = Ok (MkRef (Some 2) false, m') /\
    load_next (head sl) 0 m' = Ok (MkRef (tail sl) false, m').
Proof. do 4 eexists. eval_conj. Qed.

(** C3 (the code departs from the claim): on a new skip list [add(2^32, v)]
    returns true, but the key went through the [int] parameter and the node
    holds key 0; [contains(2^32)] is false and [get(2^32)] is [nullptr]. *)
Theorem C3_add_truncates_key (v : T) (flips : list bool) :
  exists sl m m' node,
    new_SkipList empty_mem = Ok (sl, m) /\
    add 4 sl (2 ^ 32) v flips m = Ok (true, m') /\
    heap m' !! 2 = Some node /\ key node = 0%Z /\ data node = Some v /\
    contains 4 sl (2 ^ 32) m' = Ok (false, m') /\
    get 4 sl (2 ^ 32) m' = Ok (None, m').
Proof.
  unfold add.
  generalize (randomLevel_le MAX_LEVEL flips).
  generalize (randomLevel MAX_LEVEL flips). unfold MAX_LEVEL.
  intros l Hl.
  cases_le l; do 4 eexists; eval_conj.
Qed.

(** A bottom chain that starts with a node whose key is not above that of
    head does not satisfy the level-0 invariant. *)
Lemma level0_needs_order sl (m : mem T) (hd c : addr) :
  head sl = Some hd ->
  nxS (heap m) 0 hd = Some (Some c, false) ->
  (kyS (heap m) c <= kyS (heap m) hd)%Z ->
  ~ SLlevel0 sl m.
Proof.
  intros Hhd Hnx Hle (hd' & tl & cs & Hh & _ & Hp & Hs).
  rewrite Hhd in Hh. injection Hh as <-.
  apply StronglySorted_cons in Hs as [Hall _].
  destruct cs as [|x cs]; cbn in Hp, Hall; destruct Hp as [Hp _];
    rewrite Hnx in Hp; injection Hp as <-;
    apply Forall_cons in Hall as [Hlt _]; unfold klt in Hlt; lia.
Qed.

(** C7 (the code departs from the claim): a new skip list satisfies the
    level-0 invariant and 2^32 is a user key, but [add(2^32, v)], which
    returns true, does not preserve the invariant: the key went through the
    [int] parameter, and the node linked after head holds key 0, the key of
    head, so the bottom chain from head is not in strictly increasing key
    order. *)
Theorem C7_add_breaks_level0_order (v : T) (flips : list bool) :
  user_key (2 ^ 32) /\
  exists sl m m' node,
    new_SkipList empty_mem = Ok (sl, m) /\
    SLlevel0 sl m /\
    add 4 sl (2 ^ 32) v flips m = Ok (true, m') /\
    load_next (head sl) 0 m' = Ok (MkRef (Some 2) false, m') /\
    heap m' !! 2 = Some node /\ key node = 0%Z /\
    kyS (heap m') 0 = 0%Z /\
    ~ SLlevel0 sl m'.
Proof.
  split; [split; reflexivity|].
  destruct (new_SkipList_ok (T := T) []) as (sl & m & Hnew & H & _).
  assert (SLlevel0 sl m) as H0 by (apply SLinv_level0; exists 0, 1, (fun _ => []); exact H).
  vm_compute in Hnew. injection Hnew as <- <-.
  unfold add.
  generalize (randomLevel_le MAX_LEVEL flips).
  generalize (randomLevel MAX_LEVEL flips). unfold MAX_LEVEL.
  intros l Hl.
  cases_le l; eexists _, _, _, _;
    (split; [vm_compute; reflexivity|]); (split; [exact H0|]);
    (split; [vm_compute; reflexivity|]); (split; [vm_compute; reflexivity|]);
    (split; [vm_compute; reflexivity|]); (split; [vm_compute; reflexivity|]);
    (split; [vm_compute; reflexivity|]);
    apply (level0_needs_order _ _ 0 2); vm_compute;
    first [reflexivity|intros E; discriminate E].
Qed.

(** C8 (the code departs from the claim): [add(k, a)] returns true and
    [add(k, b)] returns false, but [get(k)] is [nullptr],
    - with k = 2^32 + 5 on a new skip list: the key went through the [int]
      parameter of [add] and the payload is stored under key 5;
    - with k = 3 on the skip list from which [popMin] took key 1: the new
      node is the first live node, linked after head and unmarked, but [get]
      and [contains] walk through the popped node, which is still linked at
      level 1, and from there miss it. *)
Theorem C8_add_then_get_misses (a b v1 v5 : T) (flips flips' : list bool) :
  (let k := (2 ^ 32 + 5)%Z in
   exists sl m m1 m2,
     new_SkipList empty_mem = Ok (sl, m) /\
     add 4 sl k a flips m = Ok (true, m1) /\
     add 4 sl k b flips' m1 = Ok (false, m2) /\
     get 4 sl k m2 = Ok (None, m2) /\
     get 4 sl 5 m2 = Ok (Some a, m2)) /\
  (exists sl m m1 m2 node,
     skiplist_after_popMin v1 v5 empty_mem = Ok (sl, m) /\
     add 8 sl 3 a flips m = Ok (true, m1) /\
     add 8 sl 3 b flips' m1 = Ok (false, m2) /\
     heap m2 !! 4 = Some node /\ key node = 3%Z /\ data node = Some a /\
     load_next (head sl) 0 m2 = Ok (MkRef (Some 4) false, m2) /\
     load_next (Some 4) 0 m2 = Ok (MkRef (Some 3) false, m2) /\
     get 8 sl 3 m2 = Ok (None, m2) /\
     contains 8 sl 3 m2 = Ok (false, m2)).
Proof.
  unfold add.
  generalize (randomLevel_le MAX_LEVEL flips).
  generalize (randomLevel MAX_LEVEL flips).
  generalize (randomLevel MAX_LEVEL flips'). unfold MAX_LEVEL.
  intros l' l Hl.
  split; [cbv zeta; cases_le l; do 4 eexists; eval_conj|].
  cases_le l; do 5 eexists; eval_conj.
Qed.

(** C9: on a new skip list, whatever heights the three nodes get, inserting
    1, 3, 2 gives contains(2) = true and contains(4) = false, remove(3) is
    true then false, and popMin returns the payload of key 1, then that of
    key 2, then nothing. *)
Theorem C9_single_threaded_smoke (v1 v3 v2 : T) (f1 f3 f2 : list bool) :
  run (smoke v1 v3 v2 f1 f3 f2) empty_mem =
  Some (true, false, true, false, Some v1, Some v2, None).
Proof.
  unfold smoke, add.
  generalize (randomLevel_le MAX_LEVEL f1) (randomLevel_le MAX_LEVEL f2)
             (randomLevel_le MAX_LEVEL f3).
  generalize (randomLevel MAX_LEVEL f1) (randomLevel MAX_LEVEL f2)
             (randomLevel MAX_LEVEL f3).
  unfold MAX_LEVEL.
  intros l1 l2 l3 H1 H2 H3.
  cases_le l1; cases_le l2; cases_le l3; vm_compute; reflexivity.
Qed.

End SkipListScenarios.

(** * Contents of the containers *)

(** ** Sorted association lists *)

Section KeyValueFacts.
Context {T : Type}.
Implicit Types (kvs A B : list (Z * T)).

Lemma kv_insert_split (k : Z) (v : T) A B :
  Forall (fun p => (p.1 < k)%Z) A ->
  Forall (fun p => (k < p.1)%Z) B ->
  kv_insert k v (A ++ B) = A ++ (k, v) :: B.
Proof.
  intros HA HB. induction HA as [|[k' v'] A Hk HA IH]; simpl.
  - destruct B as [|[k' v'] B]; [reflexivity|].
    apply Forall_cons in HB as [Hk _]. simpl in Hk. simpl.
    rewrite (proj2 (Z.ltb_lt _ _)) by lia. reflexivity.
  - simpl in Hk. rewrite (proj2 (Z.ltb_ge _ _)) by lia.
    rewrite (proj2 (Z.eqb_neq _ _)) by lia. rewrite IH. reflexivity.
Qed.

Lemma kv_insert_present (k : Z) (v w : T) A B :
  Forall (fun p => (p.1 < k)%Z) A ->
  kv_insert k v (A ++ (k, w) :: B) = A ++ (k, w) :: B.
Proof.
  intros HA. induction HA as [|[k' v'] A Hk HA IH]; simpl.
  - rewrite Z.ltb_irrefl, Z.eqb_refl. reflexivity.
  - simpl in Hk. rewrite (proj2 (Z.ltb_ge _ _)) by lia.
    rewrite (proj2 (Z.eqb_neq _ _)) by lia. rewrite IH. reflexivity.
Qed.

Lemma kv_lookup_present (k : Z) (w : T) A B :
  Forall (fun p => (p.1 < k)%Z) A ->
  kv_lookup k (A ++ (k, w) :: B) = Some w.
Proof.
  intros HA. induction HA as [|[k' v'] A Hk HA IH]; simpl.
  - rewrite Z.eqb_refl. reflexivity.
  - simpl in Hk. rewrite (proj2 (Z.eqb_neq _ _)) by lia. exact IH.
Qed.

Lemma kv_lookup_absent (k : Z) kvs :
  k ∉ kvs.*1 -> kv_lookup k kvs = None.
Proof.
  induction kvs as [|[k' v'] kvs IH]; simpl; [reflexivity|].
  intros Hk. rewrite (proj2 (Z.eqb_neq _ _)) by set_solver.
  apply IH. set_solver.
Qed.

Lemma kv_lookup_Some (k : Z) (v : T) kvs :
  kv_lookup k kvs = Some v -> (k, v) ∈ kvs.
Proof.
  induction kvs as [|[k' v'] kvs IH]; simpl; [discriminate|].
  destruct (Z.eqb_spec k k') as [->|Hne].
  - intros [= ->]. set_solver.
  - intros Hl. set_solver.
Qed.

Lemma kv_lookup_is_Some (k : Z) kvs :
  is_Some (kv_lookup k kvs) <-> k ∈ kvs.*1.
Proof.
  induction kvs as [|[k' v'] kvs IH]; simpl.
  - split; [intros [? [=]]|set_solver].
  - destruct (Z.eqb_spec k k') as [->|Hne].
    + split; [set_solver|eauto].
    + rewrite IH. set_solver.
Qed.

Lemma kv_remove_absent (k : Z) kvs :
  k ∉ kvs.*1 -> kv_remove k kvs = kvs.
Proof.
  unfold kv_remove. induction kvs as [|[k' v'] kvs IH]; [reflexivity|].
  intros Hk. rewrite filter_cons. simpl.
  rewrite decide_True by set_solver. rewrite IH by set_solver. reflexivity.
Qed.

Lemma kv_remove_split (k : Z) (w : T) A B :
  k ∉ A.*1 -> k ∉ B.*1 ->
  kv_remove k (A ++ (k, w) :: B) = A ++ B.
Proof.
  intros HA HB. unfold kv_remove. rewrite filter_app, filter_cons. simpl.
  rewrite decide_False by tauto.
  fold (kv_remove k A) (kv_remove k B).
  rewrite !kv_remove_absent by auto. reflexivity.
Qed.

Lemma kv_sorted_app A B :
  kv_sorted (A ++ B) ->
  kv_sorted A /\ kv_sorted B /\
  forall p q, p ∈ A -> q ∈ B -> (p.1 < q.1)%Z.
Proof.
  unfold kv_sorted. rewrite fmap_app. intros Hs.
  apply StronglySorted_app in Hs as (Hc & HA & HB).
  split; [exact HA|]. split; [exact HB|].
  intros p q Hp Hq. apply Hc; apply list_elem_of_fmap; eauto.
Qed.

Lemma kv_sorted_cons_inv (p : Z * T) kvs :
  kv_sorted (p :: kvs) ->
  kv_sorted kvs /\ Forall (fun q => (p.1 < q.1)%Z) kvs.
Proof.
  unfold kv_sorted. simpl. intros Hs.
  apply StronglySorted_cons in Hs as [Hall Hs]. split; [exact Hs|].
  rewrite Forall_fmap in Hall. exact Hall.
Qed.

(** The first payload of a key wins. *)
Lemma kv_lookup_insert (k : Z) (v : T) kvs :
  kv_sorted kvs ->
  kv_lookup k (kv_insert k v kvs)
  = match kv_lookup k kvs with Some w => Some w | None => Some v end.
Proof.
  induction kvs as [|[k' v'] kvs IH]; intros Hs; simpl.
  - rewrite Z.eqb_refl. reflexivity.
  - apply kv_sorted_cons_inv in Hs as [Hs Hall].
    destruct (Z.ltb_spec k k') as [Hlt|Hge].
    + simpl. rewrite Z.eqb_refl. rewrite (proj2 (Z.eqb_neq _ _)) by lia.
      rewrite kv_lookup_absent; [reflexivity|].
      intros (q & -> & Hq)%list_elem_of_fmap.
      rewrite Forall_forall in Hall. specialize (Hall q Hq). simpl in Hall. lia.
    + destruct (Z.eqb_spec k k') as [->|Hne]; simpl.
      * rewrite Z.eqb_refl. reflexivity.
      * rewrite (proj2 (Z.eqb_neq _ _)) by lia. apply IH, Hs.
Qed.

Lemma kv_lookup_insert_ne (k j : Z) (v : T) kvs :
  j <> k -> kv_lookup j (kv_insert k v kvs) = kv_lookup j kvs.
Proof.
  intros Hne. induction kvs as [|[k' v'] kvs IH]; simpl.
  - rewrite (proj2 (Z.eqb_neq _ _)) by lia. reflexivity.
  - destruct (k <? k')%Z; simpl.
    + rewrite (proj2 (Z.eqb_neq j k)) by lia. reflexivity.
    + destruct (k =? k')%Z; simpl; [reflexivity|]. rewrite IH. reflexivity.
Qed.

Lemma kv_lookup_remove (k j : Z) kvs :
  kv_lookup j (kv_remove k kvs) = if (j =? k)%Z then None else kv_lookup j kvs.
Proof.
  unfold kv_remove. induction kvs as [|[k' v'] kvs IH]; simpl.
  - destruct (j =? k)%Z; reflexivity.
  - rewrite filter_cons. simpl. destruct (decide (k' <> k)) as [Hne|Heq]; simpl.
    + rewrite IH. destruct (Z.eqb_spec j k') as [->|Hj].
      * rewrite (proj2 (Z.eqb_neq _ _)) by lia. reflexivity.
      * reflexivity.
    + assert (k' = k) as -> by (destruct (decide (k' = k)); tauto).
      rewrite IH. destruct (Z.eqb_spec j k); reflexivity.
Qed.

Lemma kv_insert_keys (k : Z) (v : T) kvs j :
  j ∈ (kv_insert k v kvs).*1 <-> j = k \/ j ∈ kvs.*1.
Proof.
  induction kvs as [|[k' v'] kvs IH]; simpl.
  - set_solver.
  - destruct (Z.ltb_spec k k'); simpl; [set_solver|].
    destruct (Z.eqb_spec k k') as [->|Hne]; simpl; [set_solver|].
    rewrite !elem_of_cons, IH. tauto.
Qed.

Lemma kv_insert_sorted (k : Z) (v : T) kvs :
  kv_sorted kvs -> kv_sorted (kv_insert k v kvs).
Proof.
  induction kvs as [|[k' v'] kvs IH]; intros Hs; simpl.
  - repeat constructor.
  - pose proof Hs as [Hs' Hall]%kv_sorted_cons_inv.
    destruct (Z.ltb_spec k k') as [Hlt|Hge].
    + unfold kv_sorted in *. simpl. constructor; [exact Hs|].
      constructor; [exact Hlt|]. rewrite Forall_fmap.
      eapply Forall_impl; [exact Hall|]. intros q Hq. simpl in *. lia.
    + destruct (Z.eqb_spec k k') as [->|Hne]; [exact Hs|].
      unfold kv_sorted in *. simpl. constructor; [apply IH, Hs'|].
      apply Forall_forall. intros j Hj. apply kv_insert_keys in Hj as [->|Hj]; [lia|].
      apply list_elem_of_fmap in Hj as (q & -> & Hq).
      rewrite Forall_forall in Hall. apply (Hall q Hq).
Qed.

Lemma kv_remove_insert (k : Z) (v : T) kvs :
  k ∉ kvs.*1 -> kv_remove k (kv_insert k v kvs) = kvs.
Proof.
  induction kvs as [|[k' v'] kvs IH]; intros Hk; simpl.
  - unfold kv_remove. rewrite filter_cons. simpl. rewrite decide_False by tauto. reflexivity.
  - assert (k <> k') as Hne by set_solver.
    destruct (k <? k')%Z.
    + unfold kv_remove. rewrite filter_cons. simpl. rewrite decide_False by tauto.
      apply (kv_remove_absent k ((k', v') :: kvs)). exact Hk.
    + rewrite (proj2 (Z.eqb_neq _ _)) by lia.
      unfold kv_remove. rewrite filter_cons. simpl. rewrite decide_True by auto.
      fold (kv_remove k (kv_insert k v kvs)). rewrite IH by set_solver. reflexivity.
Qed.

End KeyValueFacts.

(** ** What the ordered list holds *)

Section ListContentsFacts.
Import LockFreeList.
Context {T : Type}.
Implicit Types (m : mem T) (l : List) (h : list (LNode T)).

Lemma kdL_node h a n : h !! a = Some n -> kdL h a = Some (key n, data n).
Proof. unfold kdL. intros ->. reflexivity. Qed.

Lemma kdL_key h a p : kdL h a = Some p -> kyL h a = p.1.
Proof.
  unfold kdL, kyL. destruct (h !! a) as [n|]; [|discriminate].
  intros [= <-]. reflexivity.
Qed.

Lemma kdL_updL h a x p b : kdL (updL h a p b) x = kdL h x.
Proof.
  unfold updL, kdL. destruct (h !! a) as [n|] eqn:E; [|reflexivity].
  destruct (decide (a = x)) as [->|Hne].
  - rewrite list_lookup_insert_eq by (eapply lookup_lt_Some; eauto).
    rewrite E. reflexivity.
  - rewrite list_lookup_insert_ne by auto. reflexivity.
Qed.

Lemma kdL_app_old h n x : x < length h -> kdL (h ++ [n]) x = kdL h x.
Proof. intros Hx. unfold kdL. rewrite lookup_app_l by auto. reflexivity. Qed.

Lemma kdL_app_new h n : kdL (h ++ [n]) (length h) = Some (key n, data n).
Proof. unfold kdL. rewrite list_lookup_middle by auto. reflexivity. Qed.

Lemma kdL_added_old h p c k v x :
  x < length h -> kdL (heap_added h p c k v) x = kdL h x.
Proof. intros Hx. unfold heap_added. rewrite !kdL_updL. apply kdL_app_old, Hx. Qed.

Lemma kdL_added_new h p c k v : kdL (heap_added h p c k v) (length h) = Some (k, v).
Proof. unfold heap_added. rewrite !kdL_updL. apply kdL_app_new. Qed.

Lemma kdL_removed h p c y x : kdL (heap_removed h p c y) x = kdL h x.
Proof. unfold heap_removed. rewrite !kdL_updL. reflexivity. Qed.

Lemma Lcontents_cons m (c : addr) (cs : list addr) (p : Z * T) :
  kdL (heap m) c = Some p -> Lcontents m (c :: cs) = p :: Lcontents m cs.
Proof. unfold Lcontents. simpl. intros ->. reflexivity. Qed.

Lemma Lcontents_app m (xs ys : list addr) :
  Lcontents m (xs ++ ys) = Lcontents m xs ++ Lcontents m ys.
Proof. apply omap_app. Qed.

Lemma Lcontents_ext m m' (cs : list addr) :
  (forall a, a ∈ cs -> kdL (heap m') a = kdL (heap m) a) ->
  Lcontents m' cs = Lcontents m cs.
Proof.
  intros Hag. unfold Lcontents. apply list_omap_ext, Forall_Forall2_diag.
  apply Forall_forall. exact Hag.
Qed.

Lemma Lcontents_Forall m (cs : list addr) (P : Z -> Prop) :
  Forall (fun a => P (kyL (heap m) a)) cs ->
  Forall (fun p => P p.1) (Lcontents m cs).
Proof.
  intros Hall. apply Forall_forall. intros p Hp.
  apply list_elem_of_omap in Hp as (a & Ha & Hp).
  rewrite Forall_forall in Hall. specialize (Hall a Ha).
  rewrite (kdL_key _ _ _ Hp) in Hall. exact Hall.
Qed.

Lemma kdL_valid l m hd tl cs (a : addr) :
  Lrep l m hd tl cs -> a ∈ hd :: cs ++ [tl] ->
  exists d, kdL (heap m) a = Some (kyL (heap m) a, d).
Proof.
  intros H Ha. destruct (Lrep_valid _ _ _ _ _ a H Ha) as [[q b] Hq].
  apply nxL_Some in Hq as (n & Hn & _).
  exists (data n). rewrite (kdL_node _ _ _ Hn), (kyL_load _ _ _ Hn). reflexivity.
Qed.

Lemma Lcontents_keys l m hd tl cs :
  Lrep l m hd tl cs -> (Lcontents m cs).*1 = Lkeys m cs.
Proof.
  intros H. unfold Lkeys.
  assert (forall a, a ∈ cs -> a ∈ hd :: cs ++ [tl]) as Hin by set_solver.
  revert Hin. generalize cs at 1 3 4. intros xs.
  induction xs as [|x xs IH]; intros Hin; [reflexivity|].
  destruct (kdL_valid l m hd tl cs x H (Hin x ltac:(set_solver))) as [d Hd].
  rewrite (Lcontents_cons m x xs _ Hd), !fmap_cons. cbn [fst].
  rewrite IH; [reflexivity|]. intros a Ha. apply Hin. set_solver.
Qed.

Lemma Lcontents_sorted l m hd tl cs :
  Lrep l m hd tl cs ->
  kv_sorted (Lcontents m cs) /\
  Forall (fun p => (0 < p.1 < UINT64_MAX)%Z) (Lcontents m cs).
Proof.
  intros H. pose proof (Lrep_sorted _ _ _ _ _ H) as Hs.
  apply StronglySorted_cons in Hs as [Hhd Hs].
  apply StronglySorted_app in Hs as (Hcross & Hs & _).
  split.
  - unfold kv_sorted. rewrite (Lcontents_keys l m hd tl cs H). unfold Lkeys.
    clear - Hs. induction Hs as [|a xs Hs IH Hall]; [constructor|].
    rewrite fmap_cons. constructor; [exact IH|]. rewrite Forall_fmap. exact Hall.
  - apply (Lcontents_Forall m cs (fun k => (0 < k < UINT64_MAX)%Z)).
    apply Forall_forall. intros a Ha. rewrite Forall_forall in Hhd.
    specialize (Hhd a ltac:(set_solver)). unfold klt in Hhd.
    rewrite (Lrep_hd_key _ _ _ _ _ H) in Hhd.
    specialize (Hcross a tl Ha ltac:(set_solver)). unfold klt in Hcross.
    rewrite (Lrep_tl_key _ _ _ _ _ H) in Hcross. lia.
Qed.

(** The window of a key in the contents: the chain is cut where [find]
    stops. *)
Lemma Lcontents_window l m hd tl cs pre c post (k : Z) :
  Lrep l m hd tl cs ->
  cs ++ [tl] = pre ++ c :: post ->
  Forall (fun a => (kyL (heap m) a < k)%Z) pre ->
  (k <= kyL (heap m) c)%Z ->
  (k < UINT64_MAX)%Z ->
  exists rest,
    cs = pre ++ rest /\
    Forall (fun p => (p.1 < k)%Z) (Lcontents m pre) /\
    ((kyL (heap m) c = k /\
      exists d post', rest = c :: post' /\ kdL (heap m) c = Some (k, d) /\
                      (k ∉ (Lcontents m pre).*1) /\ k ∉ (Lcontents m post').*1) \/
     (kyL (heap m) c <> k /\
      Forall (fun p => (k < p.1)%Z) (Lcontents m rest) /\
      (rest = [] /\ c = tl /\ post = [] \/
       exists post', rest = c :: post' /\ post = post' ++ [tl]))).
Proof.
  intros H Heq Hall Hc Hk.
  pose proof (Lrep_sorted _ _ _ _ _ H) as Hs. rewrite Heq in Hs.
  apply StronglySorted_cons in Hs as [_ Hs].
  apply StronglySorted_app in Hs as (_ & _ & Hs).
  apply StronglySorted_cons in Hs as [Hpost _]. unfold klt in Hpost.
  pose proof (Lcontents_Forall m pre (fun j => (j < k)%Z) Hall) as Hpre.
  assert (k ∉ (Lcontents m pre).*1) as Hnpre.
  { intros (p & -> & Hp)%list_elem_of_fmap. rewrite Forall_forall in Hpre.
    specialize (Hpre p Hp). simpl in Hpre. lia. }
  destruct (snoc_split _ _ _ _ _ Heq) as [(-> & -> & ->)|(post' & -> & ->)].
  - exists []. rewrite app_nil_r. split; [reflexivity|]. split; [exact Hpre|].
    right. split; [rewrite (Lrep_tl_key _ _ _ _ _ H); lia|].
    split; [constructor|]. left. auto.
  - exists (c :: post'). split; [reflexivity|]. split; [exact Hpre|].
    assert (Forall (fun a => (kyL (heap m) c < kyL (heap m) a)%Z) post') as Hpost'.
    { apply Forall_app in Hpost. tauto. }
    destruct (kdL_valid l m hd tl (pre ++ c :: post') c H ltac:(set_solver)) as [d Hd].
    destruct (decide (kyL (heap m) c = k)) as [Hkc|Hkc].
    + left. split; [exact Hkc|]. exists d, post'. rewrite <- Hkc at 1.
      split; [reflexivity|]. split; [exact Hd|]. split; [exact Hnpre|].
      intros (p & -> & Hp)%list_elem_of_fmap.
      pose proof (Lcontents_Forall m post' (fun j => (kyL (heap m) c < j)%Z) Hpost') as Hp'.
      rewrite Forall_forall in Hp'. specialize (Hp' p Hp). simpl in Hp'. lia.
    + right. split; [exact Hkc|]. split; [|eauto].
      change (c :: post') with ([c] ++ post'). rewrite Lcontents_app.
      apply Forall_app. split.
      * apply (Lcontents_Forall m [c] (fun j => (k < j)%Z)). constructor; [lia|constructor].
      * apply (Lcontents_Forall m post' (fun j => (k < j)%Z)).
        eapply Forall_impl; [exact Hpost'|]. intros a Ha. simpl in Ha. lia.
Qed.

(** *** The runs of add and remove, with the heaps they leave *)

Lemma list_add_run l m hd tl cs (k : Z) (v : T) (n : nat) :
  Lrep l m hd tl cs ->
  (0 < k < UINT64_MAX)%Z ->
  length (heap m) <= n ->
  exists pre c post,
    cs ++ [tl] = pre ++ c :: post /\
    Forall (fun a => (kyL (heap m) a < k)%Z) pre /\
    (k <= kyL (heap m) c)%Z /\
    add n l k v m =
      if (kyL (heap m) c =? k)%Z
      then Ok (false, MkMem (heap m) (EnterEpoch thread_id :: calls m))
      else Ok (true, MkMem (heap_added (heap m) (end_of hd pre) c k v)
                           (LeaveEpoch thread_id :: EnterEpoch thread_id :: calls m)).
Proof.
  intros H Hk Hn.
  set (m1 := MkMem (heap m) (EnterEpoch thread_id :: calls m)).
  assert (Lrep l m1 hd tl cs) as H1 by (apply (Lrep_heap l m m1); [reflexivity|exact H]).
  pose proof (Lrep_length _ _ _ _ _ H) as Hlen.
  destruct n as [|n']; [lia|].
  destruct (list_add_loop_run l m1 hd tl cs k v (S n') n' H1 Hk Hn)
    as (pre & c & post & Heq & Hall & Hc & Hrun).
  exists pre, c, post. split; [exact Heq|]. split; [exact Hall|]. split; [exact Hc|].
  unfold add. unfold enterEpoch at 1, modify at 1, bind at 1. fold m1. rewrite Hrun.
  reflexivity.
Qed.

Lemma list_remove_run l m hd tl cs (k : Z) (n : nat) :
  Lrep l m hd tl cs ->
  (0 <= k < UINT64_MAX)%Z ->
  length (heap m) <= n ->
  exists pre c post,
    cs ++ [tl] = pre ++ c :: post /\
    Forall (fun a => (kyL (heap m) a < k)%Z) pre /\
    (k <= kyL (heap m) c)%Z /\
    ((kyL (heap m) c <> k /\
      remove n l k m
      = Ok (false, MkMem (heap m)
                     (LeaveEpoch thread_id :: EnterEpoch thread_id :: calls m))) \/
     (kyL (heap m) c = k /\
      exists y,
        nxL (heap m) c = Some (Some y, false) /\
        remove n l k m
        = Ok (true, MkMem (heap_removed (heap m) (end_of hd pre) c y)
                      (LeaveEpoch thread_id :: RetireNode (Some c) currentEpoch
                       :: EnterEpoch thread_id :: calls m)))).
Proof.
  intros H Hk Hn.
  set (m1 := MkMem (heap m) (EnterEpoch thread_id :: calls m)).
  assert (Lrep l m1 hd tl cs) as H1 by (apply (Lrep_heap l m m1); [reflexivity|exact H]).
  pose proof (Lrep_length _ _ _ _ _ H) as Hlen.
  destruct n as [|n']; [lia|].
  destruct (list_find_run l m1 hd tl cs k (S n') H1 ltac:(lia) Hn)
    as (pre & c & post & Heq & Hall & Hc & Hrun).
  exists pre, c, post. split; [exact Heq|]. split; [exact Hall|]. split; [exact Hc|].
  assert (c ∈ hd :: cs ++ [tl]) as Hcin by (rewrite Heq; set_solver).
  destruct (Lrep_valid _ _ _ _ _ c H1 Hcin) as [[q b] Hq].
  pose proof Hq as (nc & Hnc & _)%nxL_Some.
  pose proof (kyL_load _ _ _ Hnc) as Hkc.
  change (heap m1) with (heap m) in *.
  destruct (decide (kyL (heap m) c = k)) as [Ek|Ek].
  - right. split; [exact Ek|].
    destruct (snoc_split _ _ _ _ _ Heq) as [(-> & -> & ->)|(post' & -> & Hcs)].
    { rewrite (Lrep_tl_key _ _ _ _ _ H) in Ek. lia. }
    subst cs.
    destruct (Lrep_removed l m1 hd tl pre c post' [] H1) as (y & Hcy & _).
    exists y. split; [exact Hcy|].
    set (m2 := MkMem (updL (heap m1) c (Some y) true) (calls m1)).
    assert (remove_mark (S n') (S n') l k m1
            = Ok (Some (Some (end_of hd pre), Some c, Some y), m2)) as Hmark.
    { simpl remove_mark. mstep Hrun. mstep (load_run m1 _ _ Hnc).
      rewrite <- Hkc, Ek, Z.eqb_refl. cbn [negb].
      mstep (getReference_run m1 _ _ _ Hcy).
      mstep (attemptMark_run m1 _ _ Hcy). reflexivity. }
    unfold remove. unfold enterEpoch at 1, modify at 1, bind at 1. fold m1.
    mstep Hmark. unfold remove_unlink.
    pose proof (Lrep_path _ _ _ _ _ H1) as Hp.
    rewrite <- app_assoc in Hp. apply path_app in Hp as [_ [Hpc _]].
    pose proof (Lrep_NoDup _ _ _ _ _ H1) as Hnd. rewrite <- app_assoc in Hnd.
    assert (end_of hd pre <> c) as Hne.
    { intros Hpc'. rewrite app_comm_cons in Hnd. apply NoDup_app in Hnd as (_ & Hd & _).
      apply (Hd (end_of hd pre) (end_of_elem _ _)). rewrite Hpc'. set_solver. }
    assert (nxL (heap m2) (end_of hd pre) = Some (Some c, false)) as Hp2.
    { subst m2. cbn [heap]. rewrite nxL_updL_ne by auto. exact Hpc. }
    mstep (compareAndSet_run m2 _ _ _ (Some y) false Hp2). reflexivity.
  - left. split; [exact Ek|].
    set (m2 := MkMem (heap m1) (LeaveEpoch thread_id :: calls m1)).
    assert (remove_mark (S n') (S n') l k m1 = Ok (None, m2)) as Hmark.
    { simpl remove_mark. mstep Hrun. mstep (load_run m1 _ _ Hnc).
      rewrite (proj2 (Z.eqb_neq _ _)) by (rewrite <- Hkc; exact Ek). reflexivity. }
    unfold remove. unfold enterEpoch at 1, modify at 1, bind at 1. fold m1.
    mstep Hmark. reflexivity.
Qed.

End ListContentsFacts.

(** ** List::contains and List::get on a list without marked nodes *)

Section ListReads.
Import LockFreeList.
Context {T : Type}.
Implicit Types (m : mem T) (l : List) (h : list (LNode T)).

Lemma list_contains_loop_run m (key0 : Z) :
  forall ys c fuel,
    path (nxL (heap m)) c ys ->
    (exists q, nxL (heap m) (end_of c ys) = Some (q, false)) ->
    (key0 <= kyL (heap m) (end_of c ys))%Z ->
    length ys < fuel ->
    exists pre c' post,
      c :: ys = pre ++ c' :: post /\
      Forall (fun a => (kyL (heap m) a < key0)%Z) pre /\
      (key0 <= kyL (heap m) c')%Z /\
      contains_loop fuel key0 (Some c) m = Ok ((kyL (heap m) c' =? key0)%Z, m).
Proof.
  induction ys as [|y ys IH]; intros c fuel Hp Hend Hk Hf;
    (destruct fuel as [|fuel]; [simpl in Hf; lia|]); simpl contains_loop.
  - simpl in Hend, Hk. destruct Hend as [q Hq].
    pose proof Hq as (nc & Hnc & _)%nxL_Some.
    exists [], c, []. split; [reflexivity|]. split; [constructor|]. split; [exact Hk|].
    mstep (getReference_run _ _ _ _ Hq). mstep (getMark_run _ _ _ _ Hq).
    mstep (load_run _ _ _ Hnc). rewrite (kyL_load _ _ _ Hnc) in Hk |- *.
    rewrite (proj2 (Z.geb_le _ _)) by lia. cbn [negb]. rewrite andb_true_r. reflexivity.
  - destruct Hp as [Hc Hp]. pose proof Hc as (nc & Hnc & _)%nxL_Some.
    mstep (getReference_run _ _ _ _ Hc). mstep (getMark_run _ _ _ _ Hc).
    mstep (load_run _ _ _ Hnc).
    destruct (Z.geb_spec (key nc) key0) as [Hge|Hlt].
    + exists [], c, (y :: ys). split; [reflexivity|]. split; [constructor|].
      rewrite (kyL_load _ _ _ Hnc). split; [lia|].
      cbn [negb]. rewrite andb_true_r. reflexivity.
    + destruct (IH y fuel Hp Hend Hk ltac:(simpl in Hf; lia))
        as (pre & c' & post & Heq & Hall & Hc' & Hrun).
      exists (c :: pre), c', post. rewrite Heq. split; [reflexivity|].
      split; [|split; [exact Hc'|exact Hrun]].
      constructor; [|exact Hall]. rewrite (kyL_load _ _ _ Hnc). lia.
Qed.

Lemma list_get_loop_window m (key0 : Z) :
  forall ys c fuel,
    path (nxL (heap m)) c ys ->
    (exists q, nxL (heap m) (end_of c ys) = Some (q, false)) ->
    (key0 <= kyL (heap m) (end_of c ys))%Z ->
    length ys < fuel ->
    exists pre c' post,
      c :: ys = pre ++ c' :: post /\
      Forall (fun a => (kyL (heap m) a < key0)%Z) pre /\
      (key0 <= kyL (heap m) c')%Z /\
      get_loop fuel key0 (Some c) false m = Ok ((Some c', false), m).
Proof.
  induction ys as [|y ys IH]; intros c fuel Hp Hend Hk Hf;
    (destruct fuel as [|fuel]; [simpl in Hf; lia|]); simpl get_loop.
  - simpl in Hend, Hk. destruct Hend as [q Hq].
    pose proof Hq as (nc & Hnc & _)%nxL_Some.
    exists [], c, []. split; [reflexivity|]. split; [constructor|]. split; [exact Hk|].
    mstep (load_run _ _ _ Hnc). rewrite (kyL_load _ _ _ Hnc) in Hk.
    rewrite (proj2 (Z.ltb_ge _ _)) by lia. reflexivity.
  - destruct Hp as [Hc Hp]. pose proof Hc as (nc & Hnc & _)%nxL_Some.
    mstep (load_run _ _ _ Hnc).
    destruct (Z.ltb_spec (key nc) key0) as [Hlt|Hge].
    + mstep (get_next_run _ _ _ _ Hc).
      destruct (IH y fuel Hp Hend Hk ltac:(simpl in Hf; lia))
        as (pre & c' & post & Heq & Hall & Hc' & Hrun).
      exists (c :: pre), c', post. rewrite Heq. split; [reflexivity|].
      split; [|split; [exact Hc'|exact Hrun]].
      constructor; [|exact Hall]. rewrite (kyL_load _ _ _ Hnc). lia.
    + exists [], c, (y :: ys). split; [reflexivity|]. split; [constructor|].
      rewrite (kyL_load _ _ _ Hnc). split; [lia|reflexivity].
Qed.

(** A window found from head lies after head when the key is not 0. *)
Lemma window_after_head l m hd tl cs pre' c post (k : Z) :
  Lrep l m hd tl cs -> (0 < k)%Z ->
  hd :: cs ++ [tl] = pre' ++ c :: post ->
  (k <= kyL (heap m) c)%Z ->
  exists pre, pre' = hd :: pre /\ cs ++ [tl] = pre ++ c :: post.
Proof.
  intros H Hk Heq Hc. destruct pre' as [|x pre].
  - simpl in Heq. injection Heq as <- _. rewrite (Lrep_hd_key _ _ _ _ _ H) in Hc. lia.
  - simpl in Heq. injection Heq as <- Heq. eauto.
Qed.

Lemma list_contains_run l m hd tl cs (k : Z) (n : nat) :
  Lrep l m hd tl cs ->
  (0 < k < UINT64_MAX)%Z ->
  length cs + 2 <= n ->
  contains n l k m = Ok (bool_decide (k ∈ (Lcontents m cs).*1), m).
Proof.
  intros H Hk Hn. unfold contains. rewrite (Lrep_head _ _ _ _ _ H).
  destruct (list_contains_loop_run m k (cs ++ [tl]) hd n (Lrep_path _ _ _ _ _ H))
    as (pre' & c & post & Heq & Hall & Hc & Hrun).
  { rewrite end_of_snoc. eapply Lrep_tl_ref; eauto. }
  { rewrite end_of_snoc, (Lrep_tl_key _ _ _ _ _ H). lia. }
  { rewrite length_app. simpl. lia. }
  destruct (window_after_head l m hd tl cs pre' c post k H ltac:(lia) Heq Hc)
    as (pre & -> & Heq').
  apply Forall_cons in Hall as [_ Hall].
  pose proof (window_key_mem _ _ _ _ _ _ _ _ k H Heq' Hall Hc ltac:(lia)) as Hmem.
  rewrite Hrun. rewrite (Lcontents_keys l m hd tl cs H).
  destruct (Z.eqb_spec (kyL (heap m) c) k) as [Hkc|Hkc].
  - rewrite bool_decide_eq_true_2 by (apply Hmem, Hkc). reflexivity.
  - rewrite bool_decide_eq_false_2 by (rewrite Hmem; exact Hkc). reflexivity.
Qed.

Lemma list_get_run l m hd tl cs (k : Z) (n : nat) :
  Lrep l m hd tl cs ->
  (0 < k < UINT64_MAX)%Z ->
  length cs + 2 <= n ->
  get n l k m = Ok (kv_lookup k (Lcontents m cs), m).
Proof.
  intros H Hk Hn. unfold get. rewrite (Lrep_head _ _ _ _ _ H).
  destruct (list_get_loop_window m k (cs ++ [tl]) hd n (Lrep_path _ _ _ _ _ H))
    as (pre' & c & post & Heq & Hall & Hc & Hrun).
  { rewrite end_of_snoc. eapply Lrep_tl_ref; eauto. }
  { rewrite end_of_snoc, (Lrep_tl_key _ _ _ _ _ H). lia. }
  { rewrite length_app. simpl. lia. }
  destruct (window_after_head l m hd tl cs pre' c post k H ltac:(lia) Heq Hc)
    as (pre & -> & Heq').
  apply Forall_cons in Hall as [_ Hall].
  mstep Hrun.
  assert (c ∈ hd :: cs ++ [tl]) as Hcin by (rewrite Heq'; set_solver).
  destruct (Lrep_valid _ _ _ _ _ c H Hcin) as [[q b] Hq].
  pose proof Hq as (nc & Hnc & _)%nxL_Some.
  mstep (load_run _ _ _ Hnc). cbn [negb]. rewrite andb_true_r.
  destruct (Lcontents_window l m hd tl cs pre c post k H Heq' Hall Hc ltac:(lia))
    as (rest & -> & Hpre & [(Hkc & d & post' & -> & Hd & _ & _)|(Hkc & Hrest & _)]).
  - rewrite (kyL_load _ _ _ Hnc) in Hkc. rewrite Hkc, Z.eqb_refl.
    rewrite Lcontents_app, (Lcontents_cons m c post' _ Hd).
    rewrite (kv_lookup_present k d _ _ Hpre).
    rewrite (kdL_node _ _ _ Hnc) in Hd. injection Hd as _ ->. reflexivity.
  - rewrite (kyL_load _ _ _ Hnc) in Hkc.
    rewrite (proj2 (Z.eqb_neq _ _)) by exact Hkc.
    rewrite kv_lookup_absent; [reflexivity|].
    rewrite Lcontents_app, fmap_app. intros [Hin|Hin]%elem_of_app.
    + apply list_elem_of_fmap in Hin as (p & -> & Hp).
      rewrite Forall_forall in Hpre. specialize (Hpre p Hp). simpl in Hpre. lia.
    + apply list_elem_of_fmap in Hin as (p & -> & Hp).
      rewrite Forall_forall in Hrest. specialize (Hrest p Hp). simpl in Hrest. lia.
Qed.

(** *** add and remove on the contents *)

Lemma list_add_contents l m hd tl cs (k : Z) (v : T) (n : nat) :
  Lrep l m hd tl cs ->
  (0 < k < UINT64_MAX)%Z ->
  length (heap m) <= n ->
  exists m' cs',
    add n l k v m = Ok (negb (bool_decide (k ∈ (Lcontents m cs).*1)), m') /\
    Lrep l m' hd tl cs' /\
    Lcontents m' cs' = kv_insert k v (Lcontents m cs) /\
    length (heap m') <= S (length (heap m)) /\
    retired (calls m') = retired (calls m) /\
    (k ∉ (Lcontents m cs).*1 ->
     depth (calls m') = depth (calls m) /\
     length (heap m) ∈ cs' /\ kyL (heap m') (length (heap m)) = k).
Proof.
  intros H Hk Hn.
  destruct (list_add_run l m hd tl cs k v n H Hk Hn)
    as (pre & c & post & Heq & Hall & Hc & Hrun).
  pose proof (window_key_mem _ _ _ _ _ _ _ _ k H Heq Hall Hc ltac:(lia)) as Hmem.
  rewrite <- (Lcontents_keys l m hd tl cs H) in Hmem.
  destruct (Lcontents_window l m hd tl cs pre c post k H Heq Hall Hc ltac:(lia))
    as (rest & Hcs & Hpre & [(Hkc & d & post' & -> & Hd & _ & _)|(Hkc & Hrest & Hshape)]).
  - rewrite (proj2 (Z.eqb_eq _ _) Hkc) in Hrun.
    rewrite bool_decide_eq_true_2 by (apply Hmem, Hkc).
    eexists _, cs. split; [exact Hrun|].
    split; [apply (Lrep_heap l m); [reflexivity|exact H]|].
    split; [|split; [cbn; lia|split; [reflexivity|]]].
    + rewrite (Lcontents_ext m _ cs) by reflexivity.
      rewrite Hcs, Lcontents_app, (Lcontents_cons m c post' _ Hd).
      symmetry. apply kv_insert_present, Hpre.
    + intros Hn'. exfalso. apply Hn', Hmem, Hkc.
  - rewrite (proj2 (Z.eqb_neq _ _) Hkc) in Hrun.
    rewrite bool_decide_eq_false_2 by (rewrite Hmem; exact Hkc).
    destruct (Lrep_added l m hd tl cs pre c post k v
                (LeaveEpoch thread_id :: EnterEpoch thread_id :: calls m)
                H Heq Hall ltac:(lia) ltac:(lia)) as (cs' & Hcs' & H').
    assert (cs' = pre ++ length (heap m) :: rest) as ->.
    { destruct Hshape as [(-> & -> & ->)|(post' & -> & ->)].
      - apply (app_inj_tail cs' (pre ++ [length (heap m)]) tl tl).
        rewrite Hcs', <- app_assoc. reflexivity.
      - apply (app_inj_tail _ _ tl tl).
        rewrite Hcs', <- !app_assoc. reflexivity. }
    eexists _, _. split; [exact Hrun|]. split; [exact H'|].
    split; [|split; [|split; [reflexivity|intros _; split; [cbn; lia|split]]]].
    3:{ set_solver. }
    3:{ cbn [heap]. apply kyL_added_new. }
    + assert (forall a, a ∈ cs -> a < length (heap m)) as Hlt.
      { intros a Ha. eapply Lrep_lt; eauto. set_solver. }
      rewrite Hcs in Hlt |- *.
      change (length (heap m) :: rest) with ([length (heap m)] ++ rest).
      rewrite !Lcontents_app.
      rewrite (Lcontents_cons _ (length (heap m)) [] (k, v)) by apply kdL_added_new.
      rewrite (Lcontents_ext m _ pre), (Lcontents_ext m _ rest).
      * symmetry. apply kv_insert_split; auto.
      * intros a Ha. apply kdL_added_old, Hlt. set_solver.
      * intros a Ha. apply kdL_added_old, Hlt. set_solver.
    + cbn [heap]. unfold heap_added. rewrite !length_updL, length_app. simpl. lia.
Qed.

Lemma list_remove_contents l m hd tl cs (k : Z) (n : nat) :
  Lrep l m hd tl cs ->
  (0 <= k < UINT64_MAX)%Z ->
  length (heap m) <= n ->
  exists m' cs',
    remove n l k m = Ok (bool_decide (k ∈ (Lcontents m cs).*1), m') /\
    Lrep l m' hd tl cs' /\
    Lcontents m' cs' = kv_remove k (Lcontents m cs) /\
    length (heap m') = length (heap m) /\
    depth (calls m') = depth (calls m) /\
    (k ∉ (Lcontents m cs).*1 -> retired (calls m') = retired (calls m)) /\
    (k ∈ (Lcontents m cs).*1 ->
     exists r, r ∈ cs /\ (r ∉ cs') /\ kyL (heap m) r = k /\
               retired (calls m') = Some r :: retired (calls m)).
Proof.
  intros H Hk Hn.
  destruct (list_remove_run l m hd tl cs k n H Hk Hn)
    as (pre & c & post & Heq & Hall & Hc & Hrun).
  pose proof (window_key_mem _ _ _ _ _ _ _ _ k H Heq Hall Hc ltac:(lia)) as Hmem.
  rewrite <- (Lcontents_keys l m hd tl cs H) in Hmem.
  destruct (Lcontents_window l m hd tl cs pre c post k H Heq Hall Hc ltac:(lia))
    as (rest & Hcs & Hpre & [(Hkc & d & post' & -> & Hd & Hnpre & Hnpost)|(Hkc & Hrest & _)]);
    destruct Hrun as [(Hkc' & Hrun)|(Hkc' & y & Hcy & Hrun)]; try contradiction.
  - rewrite bool_decide_eq_true_2 by (apply Hmem, Hkc).
    subst cs.
    destruct (Lrep_removed l m hd tl pre c post'
                (LeaveEpoch thread_id :: RetireNode (Some c) currentEpoch
                 :: EnterEpoch thread_id :: calls m) H) as (y' & Hcy' & H').
    rewrite Hcy in Hcy'. injection Hcy' as <-.
    eexists _, (pre ++ post'). split; [exact Hrun|]. split; [exact H'|].
    split; [|split; [|split; [cbn; lia|split]]].
    + rewrite (Lcontents_ext m _ (pre ++ post')) by (intros; apply kdL_removed).
      rewrite !Lcontents_app, (Lcontents_cons m c post' _ Hd).
      symmetry. apply kv_remove_split; auto.
    + cbn [heap]. unfold heap_removed. rewrite !length_updL. reflexivity.
    + intros Hn'. exfalso. apply Hn', Hmem, Hkc.
    + intros _. exists c. split; [set_solver|]. split; [|split; [exact Hkc|reflexivity]].
      pose proof (Lrep_NoDup _ _ _ _ _ H) as Hnd.
      apply NoDup_cons in Hnd as [_ Hnd]. apply NoDup_app in Hnd as [Hnd _].
      apply NoDup_app in Hnd as (_ & Hd1 & Hnd2). apply NoDup_cons in Hnd2 as [Hc2 _].
      intros [Hin|Hin]%elem_of_app; [|contradiction].
      apply (Hd1 c Hin). set_solver.
  - rewrite bool_decide_eq_false_2 by (rewrite Hmem; exact Hkc).
    eexists _, cs. split; [exact Hrun|].
    split; [apply (Lrep_heap l m); [reflexivity|exact H]|].
    split; [|split; [reflexivity|split; [cbn; lia|split; [reflexivity|]]]].
    + rewrite (Lcontents_ext m _ cs) by reflexivity.
      symmetry. apply kv_remove_absent. rewrite Hmem. exact Hkc.
    + intros Hin. exfalso. apply Hkc, Hmem, Hin.
Qed.

End ListReads.

(** * What the skip list never does

    No operation frees a node, changes the key, the payload or the height of
    a node, or touches a reference that carries a deletion mark: every
    compare-and-set of the sources expects an unmarked reference, and the
    plain stores go to the node being inserted. *)

Section SkipStable.
Import LockFreeSkipList.
Context {T : Type}.
Implicit Types (m : mem T) (sl : SkipList) (h : list (SNodeBase T)).

Lemma stableS_refl (L : nat) m : stableS L m m.
Proof. split; [lia|]. intros a n _ Hn. exists n. repeat split; auto. Qed.

Lemma stableS_heap (L : nat) m m' : heap m' = heap m -> stableS L m m'.
Proof.
  intros Hh. split; [rewrite Hh; lia|]. intros a n _ Hn. exists n.
  rewrite Hh. repeat split; auto.
Qed.

Lemma stableS_trans (L : nat) m1 m2 m3 :
  stableS L m1 m2 -> stableS L m2 m3 -> stableS L m1 m3.
Proof.
  intros [Hl1 H1] [Hl2 H2]. split; [lia|]. intros a n Ha Hn.
  destruct (H1 a n Ha Hn) as (n' & Hn' & Hk & Hd & Ht & Hlen & Hfr).
  destruct (H2 a n' Ha Hn') as (n'' & Hn'' & Hk' & Hd' & Ht' & Hlen' & Hfr').
  exists n''. split; [exact Hn''|]. repeat split; try congruence.
  intros lv r Hr Hm. apply Hfr'; auto.
Qed.

Lemma stableS_le (L L' : nat) m m' : L' <= L -> stableS L m m' -> stableS L' m m'.
Proof. intros Hle [Hl H]. split; [exact Hl|]. intros a n Ha. apply H. lia. Qed.

Lemma keepsS_ret {A : Type} (L : nat) (a : A) : keepsS L (ret (S := mem T) a).
Proof. intros m a' m' _ [= _ <-]. apply stableS_refl. Qed.

Lemma keepsS_fault {A : Type} (L : nat) : keepsS L (fault (S := mem T) (A := A)).
Proof. intros m a m' _ [=]. Qed.

Lemma keepsS_timeout {A : Type} (L : nat) : keepsS L (timeout (S := mem T) (A := A)).
Proof. intros m a m' _ [=]. Qed.

Lemma keepsS_bind {A B : Type} (L : nat) (c : M (mem T) A) (k : A -> M (mem T) B) :
  keepsS L c -> (forall a, keepsS L (k a)) -> keepsS L (bind c k).
Proof.
  intros Hc Hk m b m' HL. unfold bind.
  destruct (c m) as [[a m1]| |] eqn:E; try discriminate.
  intros Hrun. pose proof (Hc m a m1 HL E) as H1.
  eapply stableS_trans; [exact H1|]. eapply Hk; [|exact Hrun].
  destruct H1 as [Hl _]. lia.
Qed.

Lemma keepsS_readonly {A : Type} (L : nat) (c : M (mem T) A) :
  readonly c -> keepsS L c.
Proof. intros Hc m a m' _ Hrun. rewrite (Hc m a m' Hrun). apply stableS_refl. Qed.

Lemma keepsS_calls (L : nat) (f : list epoch_call -> list epoch_call) :
  keepsS L (modify (fun m : mem T => MkMem (heap m) (f (calls m)))).
Proof. intros m a m' _ [= _ <-]. apply stableS_heap. reflexivity. Qed.

(** A store moves nothing but one reference. *)
Lemma store_next_stable (L : nat) (p : ptr) (lv : nat) (r : SNMarkableReference) m u m' :
  store_next p lv r m = Ok (u, m') ->
  (forall a n r0, p = Some a -> a < L -> heap m !! a = Some n ->
     next n !! lv = Some r0 -> marked_ r0 = false) ->
  stableS L m m'.
Proof.
  unfold store_next, bind, load. destruct p as [a|]; [|discriminate].
  destruct (heap m !! a) as [n|] eqn:Hn; [|discriminate].
  unfold index. destruct (next n !! lv) as [r0|] eqn:Hr0; [|discriminate].
  unfold ret, modify. intros [= _ <-] Hum. unfold stableS. cbn [heap].
  split; [rewrite length_insert; lia|].
  intros x nx Hx Hnx. destruct (decide (x = a)) as [->|Hne].
  - rewrite list_lookup_insert_eq by (eapply lookup_lt_Some; eauto).
    rewrite Hn in Hnx. injection Hnx as <-.
    eexists. split; [reflexivity|]. cbn. repeat split; auto.
    + apply length_insert.
    + intros j rj Hj Hm. destruct (decide (j = lv)) as [->|Hj'].
      * rewrite Hr0 in Hj. injection Hj as <-.
        rewrite (Hum a n r0 eq_refl Hx Hn Hr0) in Hm. discriminate.
      * rewrite list_lookup_insert_ne by auto. exact Hj.
  - rewrite list_lookup_insert_ne by auto. exists nx. repeat split; auto.
Qed.

Lemma keepsS_compareAndSet (L : nat) (p : ptr) (lv : nat) (e new : ptr) (b : bool) :
  keepsS L (compareAndSet (T := T) p lv e new false b).
Proof.
  intros m ok m' _. unfold compareAndSet, bind at 1.
  destruct (load_next p lv m) as [[r m1]| |] eqn:E; try discriminate.
  pose proof (readonly_load_next p lv m r m1 E) as ->.
  destruct (negb (ptr_eqb (val_ r) e) || negb (eqb (marked_ r) false)) eqn:Ec.
  - intros [= _ <-]. apply stableS_refl.
  - unfold bind. destruct (store_next p lv (MkRef new b) m) as [[u m2]| |] eqn:Es;
      try discriminate.
    intros [= _ <-]. eapply store_next_stable; [exact Es|].
    intros a n r0 -> _ Hn Hr0.
    unfold load_next, bind, load in E. rewrite Hn in E. unfold index in E.
    rewrite Hr0 in E. injection E as <-.
    apply orb_false_iff in Ec as [_ Ec]. destruct (marked_ r0); [discriminate|reflexivity].
Qed.

Lemma keepsS_attemptMark (L : nat) (p : ptr) (lv : nat) (e : ptr) :
  keepsS L (attemptMark (T := T) p lv e true).
Proof.
  intros m ok m' _. unfold attemptMark, bind at 1.
  destruct (load_next p lv m) as [[r m1]| |] eqn:E; try discriminate.
  pose proof (readonly_load_next p lv m r m1 E) as ->.
  destruct (negb (ptr_eqb (val_ r) e)); [intros [= _ <-]; apply stableS_refl|].
  destruct (eqb (marked_ r) true) eqn:Em; [intros [= _ <-]; apply stableS_refl|].
  unfold bind. destruct (store_next p lv (MkRef (val_ r) true) m) as [[u m2]| |] eqn:Es;
    try discriminate.
  intros [= _ <-]. eapply store_next_stable; [exact Es|].
  intros a n r0 -> _ Hn Hr0.
  unfold load_next, bind, load in E. rewrite Hn in E. unfold index in E.
  rewrite Hr0 in E. injection E as <-.
  destruct (marked_ r0); [discriminate|reflexivity].
Qed.

(** A plain store to a node allocated after the first [L] ones. *)
Lemma keepsS_set_next_new (L N : nat) (lv : nat) (p : ptr) (b : bool) :
  L <= N -> keepsS L (set_next (T := T) (Some N) lv p b).
Proof.
  intros HN m u m' _ Hrun. eapply store_next_stable; [exact Hrun|].
  intros a n r0 [= <-] Ha. lia.
Qed.

Lemma keepsS_new_SNode {A : Type} (L : nat) (k : Z) (v : option T) (top : nat)
    (K : ptr -> M (mem T) A) :
  (forall N, L <= N -> keepsS L (K (Some N))) ->
  keepsS L (bind (new_SNode k v top) K).
Proof.
  intros HK m a m' HL. unfold bind, new_SNode. intros Hrun.
  eapply stableS_trans; [|eapply (HK (length (heap m)) HL); [|exact Hrun]].
  - split; [cbn; rewrite length_app; lia|].
    intros x n Hx Hn. exists n. cbn [heap].
    rewrite lookup_app_l by (eapply lookup_lt_Some; eauto). repeat split; auto.
  - cbn. rewrite length_app. lia.
Qed.

Lemma keepsS_index {A : Type} (L : nat) (xs : list A) (i : nat) :
  keepsS L (index (T := T) xs i).
Proof. apply keepsS_readonly, readonly_index. Qed.

(** *** find *)

Lemma readonly_succ_of sl (lv : nat) (curr : ptr) (mk : bool) :
  readonly (succ_of (T := T) sl lv curr mk).
Proof.
  apply readonly_bind; [apply readonly_loadS|intros c].
  destruct (lv <=? topLevel c); [apply readonly_get_nextS|apply readonly_ret].
Qed.

Lemma keepsS_snip_loop (L : nat) sl (lv : nat) :
  forall fuel pred curr succ mk,
    keepsS L (snip_loop (T := T) fuel sl lv pred curr succ mk).
Proof.
  induction fuel as [|fuel IH]; intros pred curr succ mk; simpl snip_loop;
    destruct mk; try apply keepsS_ret; try apply keepsS_timeout.
  apply keepsS_bind; [apply keepsS_compareAndSet|intros ok].
  destruct ok; cbn [negb]; [|apply keepsS_ret].
  apply keepsS_bind; [apply keepsS_readonly, readonly_getReferenceS|intros curr'].
  destruct curr'; [|apply keepsS_ret].
  apply keepsS_bind; [apply keepsS_readonly, readonly_succ_of|intros [s mk']]. apply IH.
Qed.

Lemma keepsS_walk (L : nat) sl (key0 : Z) (n lv : nat) :
  forall fuel pred curr, keepsS L (walk (T := T) n fuel sl key0 lv pred curr).
Proof.
  induction fuel as [|fuel IH]; intros pred curr; simpl walk; [apply keepsS_timeout|].
  apply keepsS_bind; [apply keepsS_readonly, readonly_succ_of|intros [s mk]].
  apply keepsS_bind; [apply keepsS_snip_loop|intros r].
  destruct r as [|curr' succ']; [apply keepsS_ret|].
  apply keepsS_bind; [apply keepsS_readonly, readonly_loadS|intros c].
  destruct (key c <? key0)%Z; [apply IH|apply keepsS_ret].
Qed.

Lemma keepsS_find_levels (L : nat) sl (key0 : Z) (n : nat) :
  forall lv preds succs, keepsS L (find_levels (T := T) n sl key0 lv preds succs).
Proof.
  induction lv as [|lv IH]; intros preds succs; simpl find_levels.
  - apply keepsS_bind; [apply keepsS_readonly, readonly_getReferenceS|intros curr].
    apply keepsS_bind; [apply keepsS_walk|intros r].
    destruct r as [[p c]|]; apply keepsS_ret.
  - apply keepsS_bind; [apply keepsS_readonly, readonly_getReferenceS|intros curr].
    apply keepsS_bind; [apply keepsS_walk|intros r].
    destruct r as [[p c]|]; [apply IH|apply keepsS_ret].
Qed.

Lemma find_loop_unfold (n fuel : nat) sl (key0 : Z) (preds succs : list ptr) :
  find_loop (T := T) n (S fuel) sl key0 preds succs =
  (let* r := find_levels n sl key0 MAX_LEVEL preds succs in
   match r with
   | Restart preds succs => find_loop n fuel sl key0 preds succs
   | Done curr preds succs =>
       let* c := load curr in
       ret ((key c =? key0)%Z, preds, succs)
   end).
Proof. reflexivity. Qed.

Lemma keepsS_find (L : nat) sl (key0 : Z) (n : nat) (preds succs : list ptr) :
  keepsS L (find (T := T) n sl key0 preds succs).
Proof.
  unfold find. generalize n at 2. intros fuel. revert preds succs.
  induction fuel as [|fuel IH]; intros preds succs; [apply keepsS_timeout|].
  rewrite find_loop_unfold.
  apply keepsS_bind; [apply keepsS_find_levels|intros r].
  destruct r as [ps ss|curr ps ss]; [apply IH|].
  apply keepsS_bind; [apply keepsS_readonly, readonly_loadS|intros c]. apply keepsS_ret.
Qed.

(** *** add *)

Lemma keepsS_init_links (L N : nat) (succs : list ptr) :
  L <= N ->
  forall cnt lv, keepsS L (init_links (T := T) cnt lv (Some N) succs).
Proof.
  intros HN. induction cnt as [|cnt IH]; intros lv; simpl init_links; [apply keepsS_ret|].
  apply keepsS_bind; [apply keepsS_index|intros s].
  apply keepsS_bind; [apply keepsS_set_next_new, HN|intros _]. apply IH.
Qed.

Lemma keepsS_link_level (L : nat) sl (key0 : Z) (n lv : nat) (newNode : ptr) :
  forall fuel preds succs,
    keepsS L (link_level (T := T) n fuel sl key0 lv newNode preds succs).
Proof.
  induction fuel as [|fuel IH]; intros preds succs; simpl link_level; [apply keepsS_timeout|].
  apply keepsS_bind; [apply keepsS_index|intros pred].
  apply keepsS_bind; [apply keepsS_index|intros succ].
  apply keepsS_bind; [apply keepsS_compareAndSet|intros ok].
  destruct ok; [apply keepsS_ret|].
  apply keepsS_bind; [apply keepsS_find|intros [[f ps] ss]]. apply IH.
Qed.

Lemma keepsS_link_levels (L : nat) sl (key0 : Z) (n : nat) (newNode : ptr) :
  forall cnt lv preds succs,
    keepsS L (link_levels (T := T) n cnt sl key0 lv newNode preds succs).
Proof.
  induction cnt as [|cnt IH]; intros lv preds succs; simpl link_levels; [apply keepsS_ret|].
  apply keepsS_bind; [apply keepsS_link_level|intros [ps ss]]. apply IH.
Qed.

Lemma keepsS_add_loop (L : nat) sl (key0 : Z) (x : T) (top n : nat) :
  forall fuel newNode preds succs,
    (forall N, newNode = Some N -> L <= N) ->
    keepsS L (add_loop n fuel sl key0 x top newNode preds succs).
Proof.
  induction fuel as [|fuel IH]; intros newNode preds succs HN; simpl add_loop;
    [apply keepsS_timeout|].
  apply keepsS_bind; [apply keepsS_find|intros [[found ps] ss]].
  destruct found.
  { apply keepsS_bind; [apply keepsS_calls|intros _]. apply keepsS_ret. }
  assert (forall N, L <= N ->
            keepsS L (init_links (S top) 0 (Some N) ss ;;
                      let* pred := index ps 0 in
                      let* succ := index ss 0 in
                      let* ok := compareAndSet pred 0 succ (Some N) false false in
                      if negb ok
                      then add_loop n fuel sl key0 x top (Some N) ps ss
                      else link_levels n top sl (to_uint64 key0) 1 (Some N) ps ss ;;
                           leaveEpoch thread_id ;; ret true)) as Hrest.
  { intros N HLN.
    apply keepsS_bind; [apply keepsS_init_links, HLN|intros _].
    apply keepsS_bind; [apply keepsS_index|intros pred].
    apply keepsS_bind; [apply keepsS_index|intros succ].
    apply keepsS_bind; [apply keepsS_compareAndSet|intros ok].
    destruct ok; cbn [negb].
    - apply keepsS_bind; [apply keepsS_link_levels|intros _].
      apply keepsS_bind; [apply keepsS_calls|intros _]. apply keepsS_ret.
    - apply IH. intros N' [= <-]. exact HLN. }
  destruct newNode as [N|].
  - intros m a m' HL Hrun. rewrite bind_ret in Hrun.
    exact (Hrest N (HN N eq_refl) m a m' HL Hrun).
  - apply keepsS_new_SNode. exact Hrest.
Qed.

Lemma keepsS_add (L : nat) sl (key0 : Z) (x : T) (flips : list bool) (n : nat) :
  keepsS L (add n sl key0 x flips).
Proof.
  unfold add. apply keepsS_bind; [apply keepsS_calls|intros _].
  apply keepsS_add_loop. intros N [=].
Qed.

(** *** remove *)

Lemma keepsS_mark_level (L : nat) (node : ptr) (lv : nat) :
  forall fuel, keepsS L (mark_level (T := T) fuel node lv).
Proof.
  induction fuel as [|fuel IH]; simpl mark_level; [apply keepsS_timeout|].
  apply keepsS_bind; [apply keepsS_readonly, readonly_get_nextS|intros [s mk]].
  destruct mk; [apply keepsS_ret|].
  apply keepsS_bind; [apply keepsS_attemptMark|intros ok].
  destruct ok; [apply keepsS_ret|apply IH].
Qed.

Lemma keepsS_mark_upper (L : nat) (node : ptr) (n : nat) :
  forall lv, keepsS L (mark_upper (T := T) n node lv).
Proof.
  induction lv as [|lv IH]; simpl mark_upper; [apply keepsS_ret|].
  apply keepsS_bind; [apply keepsS_mark_level|intros _]. apply IH.
Qed.

Lemma keepsS_mark_bottom (L : nat) (node : ptr) :
  forall fuel, keepsS L (mark_bottom (T := T) fuel node).
Proof.
  induction fuel as [|fuel IH]; simpl mark_bottom; [apply keepsS_timeout|].
  apply keepsS_bind; [apply keepsS_readonly, readonly_get_nextS|intros [s mk]].
  destruct mk; [apply keepsS_ret|].
  apply keepsS_bind; [apply keepsS_compareAndSet|intros ok].
  destruct ok; [apply keepsS_ret|apply IH].
Qed.

Lemma keepsS_unlink_levels (L : nat) (node : ptr) (preds : list ptr) :
  forall cnt lv, keepsS L (unlink_levels (T := T) cnt lv node preds).
Proof.
  induction cnt as [|cnt IH]; intros lv; simpl unlink_levels; [apply keepsS_ret|].
  apply keepsS_bind; [apply keepsS_index|intros pred].
  apply keepsS_bind; [apply keepsS_readonly, readonly_get_nextS|intros [s mk]].
  apply keepsS_bind; [apply keepsS_compareAndSet|intros ok].
  destruct ok; [apply IH|apply keepsS_ret].
Qed.

Lemma remove_loop_unfold (n fuel : nat) sl (key0 : Z) (preds succs : list ptr) :
  remove_loop (T := T) n (S fuel) sl key0 preds succs =
  (let* (found, preds, succs) := find n sl key0 preds succs in
   if negb found then leaveEpoch thread_id ;; ret false
   else
     let* nodeToRemove := index succs 0 in
     let* r := load nodeToRemove in
     mark_upper n nodeToRemove (topLevel r) ;;
     let* mine := mark_bottom n nodeToRemove in
     if negb mine then ret false
     else
       let* unlinked := unlink_levels (S (topLevel r)) 0 nodeToRemove preds in
       if negb unlinked then remove_loop n fuel sl key0 preds succs
       else
         retireSNodeBase nodeToRemove currentEpoch ;;
         leaveEpoch thread_id ;;
         ret true).
Proof. reflexivity. Qed.

Lemma keepsS_remove (L : nat) sl (key0 : Z) (n : nat) :
  keepsS L (remove (T := T) n sl key0).
Proof.
  unfold remove. apply keepsS_bind; [apply keepsS_calls|intros _].
  generalize (replicate (S MAX_LEVEL) (None : ptr)) at 1.
  generalize (replicate (S MAX_LEVEL) (None : ptr)).
  generalize n at 2. intros fuel.
  induction fuel as [|fuel IH]; intros succs preds; [apply keepsS_timeout|].
  rewrite remove_loop_unfold.
  apply keepsS_bind; [apply keepsS_find|intros [[found ps] ss]].
  destruct found; cbn [negb].
  2:{ apply keepsS_bind; [apply keepsS_calls|intros _]. apply keepsS_ret. }
  apply keepsS_bind; [apply keepsS_index|intros node].
  apply keepsS_bind; [apply keepsS_readonly, readonly_loadS|intros r].
  apply keepsS_bind; [apply keepsS_mark_upper|intros _].
  apply keepsS_bind; [apply keepsS_mark_bottom|intros mine].
  destruct mine; cbn [negb]; [|apply keepsS_ret].
  apply keepsS_bind; [apply keepsS_unlink_levels|intros unlinked].
  destruct unlinked; cbn [negb]; [|apply IH].
  apply keepsS_bind; [apply keepsS_calls|intros _].
  apply keepsS_bind; [apply keepsS_calls|intros _]. apply keepsS_ret.
Qed.

(** *** popMin *)

Lemma keepsS_popMin (L : nat) sl (n : nat) : keepsS L (popMin (T := T) n sl).
Proof.
  unfold popMin. induction n as [|fuel IH]; simpl popMin_loop; [apply keepsS_timeout|].
  apply keepsS_bind; [apply keepsS_readonly, readonly_getReferenceS|intros curr].
  destruct (null_or_tail sl curr); [apply keepsS_ret|].
  apply keepsS_bind; [apply keepsS_readonly, readonly_get_nextS|intros [s mk]].
  destruct mk.
  - apply keepsS_bind; [apply keepsS_compareAndSet|intros _]. apply IH.
  - apply keepsS_bind; [apply keepsS_compareAndSet|intros ok].
    destruct ok; [|apply IH].
    apply keepsS_bind; [apply keepsS_compareAndSet|intros _].
    apply keepsS_bind; [apply keepsS_readonly, readonly_loadS|intros c].
    apply keepsS_bind; [apply keepsS_calls|intros _]. apply keepsS_ret.
Qed.

Lemma keepsS_run_skip_op (L : nat) sl (op : skip_op) (n : nat) :
  keepsS L (run_skip_op (T := T) n sl op).
Proof.
  destruct op as [k v flips|k|k|k|]; simpl run_skip_op;
    (apply keepsS_bind; [|intros; apply keepsS_ret]).
  - apply keepsS_add.
  - apply keepsS_remove.
  - apply keepsS_readonly, readonly_containsS.
  - apply keepsS_readonly, readonly_getS.
  - apply keepsS_popMin.
Qed.

End SkipStable.

(** * What the skip list holds *)

Section SkipContentsFacts.
Import LockFreeSkipList.
Context {T : Type}.
Implicit Types (m : mem T) (sl : SkipList) (h : list (SNodeBase T)).

Lemma kdS_key h a p : kdS h a = Some p -> kyS h a = p.1.
Proof.
  unfold kdS, kyS. destruct (h !! a) as [n|]; [|discriminate]. simpl.
  destruct (data n); [|discriminate]. intros [= <-]. reflexivity.
Qed.

Lemma kdS_data h a p : kdS h a = Some p -> dataS h a = Some p.2.
Proof.
  unfold kdS, dataS. destruct (h !! a) as [n|]; [|discriminate]. simpl.
  destruct (data n); [|discriminate]. intros [= <-]. reflexivity.
Qed.

Lemma kdS_intro h a v : dataS h a = Some v -> kdS h a = Some (kyS h a, v).
Proof.
  unfold kdS, dataS, kyS. destruct (h !! a) as [n|]; [|discriminate]. simpl.
  intros ->. reflexivity.
Qed.

Lemma SLpairs_cons m (c : addr) (cs : list addr) (p : Z * T) :
  kdS (heap m) c = Some p -> SLpairs m (c :: cs) = p :: SLpairs m cs.
Proof. unfold SLpairs. simpl. intros ->. reflexivity. Qed.

Lemma SLpairs_app m (xs ys : list addr) :
  SLpairs m (xs ++ ys) = SLpairs m xs ++ SLpairs m ys.
Proof. apply omap_app. Qed.

Lemma SLpairs_ext m m' (cs : list addr) :
  (forall a, a ∈ cs -> kdS (heap m') a = kdS (heap m) a) ->
  SLpairs m' cs = SLpairs m cs.
Proof.
  intros Hag. unfold SLpairs. apply list_omap_ext, Forall_Forall2_diag.
  apply Forall_forall. exact Hag.
Qed.

Lemma SLpairs_Forall m (cs : list addr) (P : Z -> Prop) :
  Forall (fun a => P (kyS (heap m) a)) cs ->
  Forall (fun p => P p.1) (SLpairs m cs).
Proof.
  intros Hall. apply Forall_forall. intros p Hp.
  apply list_elem_of_omap in Hp as (a & Ha & Hp).
  rewrite Forall_forall in Hall. specialize (Hall a Ha).
  rewrite (kdS_key _ _ _ Hp) in Hall. exact Hall.
Qed.

Lemma kdS_live sl m hd tl ch (a : addr) :
  SLrep sl m hd tl ch -> a ∈ ch 0 ->
  exists v, kdS (heap m) a = Some (kyS (heap m) a, v).
Proof.
  intros H Ha. destruct (SL_data _ _ _ _ _ H a Ha) as [v Hv].
  exists v. apply kdS_intro, Hv.
Qed.

Lemma SLpairs_keys sl m hd tl ch (xs : list addr) :
  SLrep sl m hd tl ch -> (forall a, a ∈ xs -> a ∈ ch 0) ->
  (SLpairs m xs).*1 = kyS (heap m) <$> xs.
Proof.
  intros H. induction xs as [|x xs IH]; intros Hin; [reflexivity|].
  destruct (kdS_live sl m hd tl ch x H (Hin x ltac:(set_solver))) as [v Hv].
  rewrite (SLpairs_cons m x xs _ Hv), !fmap_cons. cbn [fst].
  rewrite IH; [reflexivity|]. intros a Ha. apply Hin. set_solver.
Qed.

Lemma SLcontents_keys sl m hd tl ch :
  SLrep sl m hd tl ch -> (SLcontents m ch).*1 = SLkeys m ch.
Proof. intros H. apply (SLpairs_keys sl m hd tl ch); auto. Qed.

Lemma SLrep_bottom_sorted sl m hd tl ch :
  SLrep sl m hd tl ch ->
  StronglySorted (klt (kyS (heap m))) (ch 0) /\
  Forall (fun a => (0 < kyS (heap m) a < UINT64_MAX)%Z) (ch 0).
Proof.
  intros H. pose proof (SL_sorted _ _ _ _ _ H) as Hs.
  apply StronglySorted_cons in Hs as [Hhd Hs].
  apply StronglySorted_app in Hs as (Hcross & Hs & _).
  split; [exact Hs|]. apply Forall_forall. intros a Ha.
  rewrite Forall_forall in Hhd. specialize (Hhd a ltac:(set_solver)).
  specialize (Hcross a tl Ha ltac:(set_solver)). unfold klt in Hhd, Hcross.
  rewrite (SL_hd_key _ _ _ _ _ H) in Hhd. rewrite (SL_tl_key _ _ _ _ _ H) in Hcross. lia.
Qed.

Lemma SLcontents_sorted sl m hd tl ch :
  SLrep sl m hd tl ch ->
  kv_sorted (SLcontents m ch) /\
  Forall (fun p => (0 < p.1 < UINT64_MAX)%Z) (SLcontents m ch).
Proof.
  intros H. destruct (SLrep_bottom_sorted sl m hd tl ch H) as [Hs Hr]. split.
  - unfold kv_sorted. rewrite (SLcontents_keys sl m hd tl ch H). unfold SLkeys.
    clear - Hs. induction Hs as [|a xs Hs IH Hall]; [constructor|].
    rewrite fmap_cons. constructor; [exact IH|]. rewrite Forall_fmap. exact Hall.
  - apply (SLpairs_Forall m (ch 0) (fun k => (0 < k < UINT64_MAX)%Z)), Hr.
Qed.

(** The bottom chain cut at a key. *)
Lemma SLcontents_window sl m hd tl ch (k : Z) :
  SLrep sl m hd tl ch -> (k < UINT64_MAX)%Z ->
  let A := below (kyS (heap m)) k (ch 0) in
  let B := from (kyS (heap m)) k (ch 0) in
  let c := succ_at (heap m) tl ch k 0 in
  SLcontents m ch = SLpairs m A ++ SLpairs m B /\
  Forall (fun p => (p.1 < k)%Z) (SLpairs m A) /\
  ((kyS (heap m) c = k /\
    exists d post, B = c :: post /\ kdS (heap m) c = Some (k, d) /\
                   (k ∉ (SLpairs m A).*1) /\ k ∉ (SLpairs m post).*1) \/
   (kyS (heap m) c <> k /\ Forall (fun p => (k < p.1)%Z) (SLpairs m B))).
Proof.
  intros H Hk A B c.
  pose proof (below_from (kyS (heap m)) k (ch 0)) as Hbf. fold A B in Hbf.
  destruct (SLrep_bottom_sorted sl m hd tl ch H) as [Hs _].
  rewrite <- Hbf in Hs. apply StronglySorted_app in Hs as (_ & _ & HsB).
  pose proof (SLpairs_Forall m A (fun j => (j < k)%Z) (below_lt _ _ _)) as HA.
  assert (k ∉ (SLpairs m A).*1) as HnA.
  { intros (p & -> & Hp)%list_elem_of_fmap. rewrite Forall_forall in HA.
    specialize (HA p Hp). simpl in HA. lia. }
  split; [unfold SLcontents; rewrite <- Hbf at 1; apply SLpairs_app|].
  split; [exact HA|].
  subst c. unfold succ_at. fold B.
  destruct B as [|c post] eqn:EB; cbn [first_or].
  - right. split; [rewrite (SL_tl_key _ _ _ _ _ H); lia|constructor].
  - pose proof (from_first_ge _ _ _ _ _ EB) as Hge.
    apply StronglySorted_cons in HsB as [Hpost _]. unfold klt in Hpost.
    assert (c ∈ ch 0) as Hc by (rewrite <- Hbf; set_solver).
    destruct (kdS_live sl m hd tl ch c H Hc) as [d Hd].
    destruct (decide (kyS (heap m) c = k)) as [Hkc|Hkc].
    + left. split; [exact Hkc|]. exists d, post.
      split; [reflexivity|]. split; [rewrite Hkc in Hd; exact Hd|].
      split; [exact HnA|].
      intros (p & -> & Hp)%list_elem_of_fmap.
      pose proof (SLpairs_Forall m post (fun j => (kyS (heap m) c < j)%Z) Hpost) as Hp'.
      rewrite Forall_forall in Hp'. specialize (Hp' p Hp). simpl in Hp'. lia.
    + right. split; [exact Hkc|].
      apply (SLpairs_Forall m (c :: post) (fun j => (k < j)%Z)).
      constructor; [lia|]. eapply Forall_impl; [exact Hpost|].
      intros a Ha. simpl in Ha. lia.
Qed.

Lemma stableS_kdS (L : nat) m m' (a : addr) :
  stableS L m m' -> a < L -> a < length (heap m) ->
  kdS (heap m') a = kdS (heap m) a /\ kyS (heap m') a = kyS (heap m) a /\
  topS (heap m') a = topS (heap m) a /\ dataS (heap m') a = dataS (heap m) a.
Proof.
  intros [_ Hst] Ha Hlt. destruct (lookup_lt_is_Some_2 _ _ Hlt) as [n Hn].
  destruct (Hst a n Ha Hn) as (n' & Hn' & Hk & Hd & Ht & _).
  unfold kdS, kyS, topS, dataS. rewrite Hn, Hn'. simpl. rewrite Hk, Hd, Ht. auto.
Qed.

End SkipContentsFacts.

(** ** add allocates one node at most *)

Section SkipGrowth.
Import LockFreeSkipList.
Context {T : Type}.
Implicit Types (m : mem T) (sl : SkipList) (h : list (SNodeBase T)).

Lemma growsS_ret {A : Type} (a : A) : growsS 0 (ret (S := mem T) a).
Proof. intros m a' m' [= _ <-]. lia. Qed.

Lemma growsS_timeout {A : Type} (d : nat) : growsS d (timeout (S := mem T) (A := A)).
Proof. intros m a m' [=]. Qed.

Lemma growsS_le {A : Type} (d d' : nat) (c : M (mem T) A) :
  d <= d' -> growsS d c -> growsS d' c.
Proof. intros Hd Hc m a m' Hrun. specialize (Hc m a m' Hrun). lia. Qed.

Lemma growsS_bind {A B : Type} (d1 d2 : nat) (c : M (mem T) A) (k : A -> M (mem T) B) :
  growsS d1 c -> (forall a, growsS d2 (k a)) -> growsS (d1 + d2) (bind c k).
Proof.
  intros Hc Hk m b m'. unfold bind.
  destruct (c m) as [[a m1]| |] eqn:E; try discriminate.
  intros Hrun. specialize (Hc m a m1 E). specialize (Hk a m1 b m' Hrun). lia.
Qed.

Lemma growsS_bind0 {A B : Type} (d : nat) (c : M (mem T) A) (k : A -> M (mem T) B) :
  growsS 0 c -> (forall a, growsS d (k a)) -> growsS d (bind c k).
Proof. intros Hc Hk. apply (growsS_bind 0 d); assumption. Qed.

Lemma growsS_readonly {A : Type} (c : M (mem T) A) : readonly c -> growsS 0 c.
Proof. intros Hc m a m' Hrun. rewrite (Hc m a m' Hrun). lia. Qed.

Lemma growsS_calls (f : list epoch_call -> list epoch_call) :
  growsS 0 (modify (fun m : mem T => MkMem (heap m) (f (calls m)))).
Proof. intros m a m' [= _ <-]. cbn. lia. Qed.

Lemma growsS_store_next (p : ptr) (lv : nat) (r : SNMarkableReference) :
  growsS 0 (store_next (T := T) p lv r).
Proof.
  intros m u m'. unfold store_next, bind, load. destruct p as [a|]; [|discriminate].
  destruct (heap m !! a) as [n|]; [|discriminate].
  unfold index. destruct (next n !! lv); [|discriminate].
  unfold ret, modify. intros [= _ <-]. cbn [heap]. rewrite length_insert. lia.
Qed.

Lemma growsS_compareAndSet (p : ptr) (lv : nat) (e new : ptr) (b b' : bool) :
  growsS 0 (compareAndSet (T := T) p lv e new b b').
Proof.
  unfold compareAndSet.
  apply growsS_bind0; [apply growsS_readonly, readonly_load_next|intros r].
  destruct (_ || _); [apply growsS_ret|].
  apply growsS_bind0; [apply growsS_store_next|intros _]. apply growsS_ret.
Qed.

Lemma growsS_snip_loop sl (lv : nat) :
  forall fuel pred curr succ mk,
    growsS 0 (snip_loop (T := T) fuel sl lv pred curr succ mk).
Proof.
  induction fuel as [|fuel IH]; intros pred curr succ mk; simpl snip_loop;
    destruct mk; try apply growsS_ret; try apply growsS_timeout.
  apply growsS_bind0; [apply growsS_compareAndSet|intros ok].
  destruct ok; cbn [negb]; [|apply growsS_ret].
  apply growsS_bind0; [apply growsS_readonly, readonly_getReferenceS|intros curr'].
  destruct curr'; [|apply growsS_ret].
  apply growsS_bind0; [apply growsS_readonly, readonly_succ_of|intros [s mk']]. apply IH.
Qed.

Lemma growsS_walk sl (key0 : Z) (n lv : nat) :
  forall fuel pred curr, growsS 0 (walk (T := T) n fuel sl key0 lv pred curr).
Proof.
  induction fuel as [|fuel IH]; intros pred curr; simpl walk; [apply growsS_timeout|].
  apply growsS_bind0; [apply growsS_readonly, readonly_succ_of|intros [s mk]].
  apply growsS_bind0; [apply growsS_snip_loop|intros r].
  destruct r as [|curr' succ']; [apply growsS_ret|].
  apply growsS_bind0; [apply growsS_readonly, readonly_loadS|intros c].
  destruct (key c <? key0)%Z; [apply IH|apply growsS_ret].
Qed.

Lemma growsS_find_levels sl (key0 : Z) (n : nat) :
  forall lv preds succs, growsS 0 (find_levels (T := T) n sl key0 lv preds succs).
Proof.
  induction lv as [|lv IH]; intros preds succs; simpl find_levels.
  - apply growsS_bind0; [apply growsS_readonly, readonly_getReferenceS|intros curr].
    apply growsS_bind0; [apply growsS_walk|intros r].
    destruct r as [[p c]|]; apply growsS_ret.
  - apply growsS_bind0; [apply growsS_readonly, readonly_getReferenceS|intros curr].
    apply growsS_bind0; [apply growsS_walk|intros r].
    destruct r as [[p c]|]; [apply IH|apply growsS_ret].
Qed.

Lemma growsS_find sl (key0 : Z) (n : nat) (preds succs : list ptr) :
  growsS 0 (find (T := T) n sl key0 preds succs).
Proof.
  unfold find. generalize n at 2. intros fuel. revert preds succs.
  induction fuel as [|fuel IH]; intros preds succs; [apply growsS_timeout|].
  rewrite find_loop_unfold.
  apply growsS_bind0; [apply growsS_find_levels|intros r].
  destruct r as [ps ss|curr ps ss]; [apply IH|].
  apply growsS_bind0; [apply growsS_readonly, readonly_loadS|intros c]. apply growsS_ret.
Qed.

Lemma growsS_init_links (newNode : ptr) (succs : list ptr) :
  forall cnt lv, growsS 0 (init_links (T := T) cnt lv newNode succs).
Proof.
  induction cnt as [|cnt IH]; intros lv; simpl init_links; [apply growsS_ret|].
  apply growsS_bind0; [apply growsS_readonly, readonly_index|intros s].
  apply growsS_bind0; [apply growsS_store_next|intros _]. apply IH.
Qed.

Lemma growsS_link_level sl (key0 : Z) (n lv : nat) (newNode : ptr) :
  forall fuel preds succs,
    growsS 0 (link_level (T := T) n fuel sl key0 lv newNode preds succs).
Proof.
  induction fuel as [|fuel IH]; intros preds succs; simpl link_level; [apply growsS_timeout|].
  apply growsS_bind0; [apply growsS_readonly, readonly_index|intros pred].
  apply growsS_bind0; [apply growsS_readonly, readonly_index|intros succ].
  apply growsS_bind0; [apply growsS_compareAndSet|intros ok].
  destruct ok; [apply growsS_ret|].
  apply growsS_bind0; [apply growsS_find|intros [[f ps] ss]]. apply IH.
Qed.

Lemma growsS_link_levels sl (key0 : Z) (n : nat) (newNode : ptr) :
  forall cnt lv preds succs,
    growsS 0 (link_levels (T := T) n cnt sl key0 lv newNode preds succs).
Proof.
  induction cnt as [|cnt IH]; intros lv preds succs; simpl link_levels; [apply growsS_ret|].
  apply growsS_bind0; [apply growsS_link_level|intros [ps ss]]. apply IH.
Qed.

Lemma growsS_add_loop sl (key0 : Z) (x : T) (top n : nat) :
  forall fuel (newNode : ptr) preds succs,
    growsS (match newNode with Some _ => 0 | None => 1 end)
      (add_loop n fuel sl key0 x top newNode preds succs).
Proof.
  induction fuel as [|fuel IH]; intros newNode preds succs; simpl add_loop;
    [apply growsS_timeout|].
  apply growsS_bind0; [apply growsS_find|intros [[found ps] ss]].
  destruct found.
  { apply (growsS_le 0); [lia|].
    apply growsS_bind0; [apply growsS_calls|intros _]. apply growsS_ret. }
  assert (forall N : ptr, N <> None ->
            growsS 0 (init_links (S top) 0 N ss ;;
                      let* pred := index ps 0 in
                      let* succ := index ss 0 in
                      let* ok := compareAndSet pred 0 succ N false false in
                      if negb ok
                      then add_loop n fuel sl key0 x top N ps ss
                      else link_levels n top sl (to_uint64 key0) 1 N ps ss ;;
                           leaveEpoch thread_id ;; ret true)) as Hrest.
  { intros N HN.
    apply growsS_bind0; [apply growsS_init_links|intros _].
    apply growsS_bind0; [apply growsS_readonly, readonly_index|intros pred].
    apply growsS_bind0; [apply growsS_readonly, readonly_index|intros succ].
    apply growsS_bind0; [apply growsS_compareAndSet|intros ok].
    destruct ok; cbn [negb].
    - apply growsS_bind0; [apply growsS_link_levels|intros _].
      apply growsS_bind0; [apply growsS_calls|intros _]. apply growsS_ret.
    - specialize (IH N ps ss). destruct N; [exact IH|congruence]. }
  destruct newNode as [N|].
  - intros m a m' Hrun. rewrite bind_ret in Hrun.
    exact (Hrest (Some N) ltac:(discriminate) m a m' Hrun).
  - intros m a m'. unfold bind at 1, new_SNode. intros Hrun.
    apply (Hrest (Some (length (heap m))) ltac:(discriminate)) in Hrun.
    cbn [heap] in Hrun. rewrite length_app in Hrun. simpl in Hrun. lia.
Qed.

Lemma growsS_add sl (key0 : Z) (x : T) (flips : list bool) (n : nat) :
  growsS 1 (add n sl key0 x flips).
Proof.
  unfold add. apply growsS_bind0; [apply growsS_calls|intros _].
  apply (growsS_add_loop sl (to_int key0) x _ n n None).
Qed.

End SkipGrowth.

(** ** add, remove and popMin on the contents *)

Section SkipUpdates.
Import LockFreeSkipList.
Context {T : Type}.
Implicit Types (m : mem T) (sl : SkipList) (h : list (SNodeBase T)).

Lemma kdS_alt h (a : addr) : kdS h a = (v ← dataS h a; Some (kyS h a, v)).
Proof.
  unfold kdS, dataS, kyS. destruct (h !! a) as [n|]; [|reflexivity]. simpl.
  destruct (data n); reflexivity.
Qed.

Lemma frame_kdS m m' (a : addr) : frame m m' -> kdS (heap m') a = kdS (heap m) a.
Proof.
  intros Hfr. rewrite !kdS_alt, (frame_key _ _ Hfr), (frame_data _ _ Hfr). reflexivity.
Qed.

Lemma SLpairs_stable (L : nat) m m' (cs : list addr) :
  stableS L m m' -> (forall a, a ∈ cs -> a < L /\ a < length (heap m)) ->
  SLpairs m' cs = SLpairs m cs.
Proof.
  intros Hst Hlt. apply SLpairs_ext. intros a Ha.
  destruct (Hlt a Ha) as [H1 H2]. apply (stableS_kdS L m m' a Hst H1 H2).
Qed.

Lemma SLtidy_add h ch (k : Z) (N top : nat) :
  SLtidy ch -> SLtidy (ch_add h ch k N top).
Proof.
  intros Ht lv a Hlv Ha. unfold ch_add in *. cbn [Nat.leb].
  assert (a = N \/ a ∈ ch lv) as [->|Ha'].
  { destruct (lv <=? top); [|auto].
    rewrite <- (below_from (kyS h) k (ch lv)). set_solver. }
  - set_solver.
  - specialize (Ht lv a Hlv Ha'). rewrite <- (below_from (kyS h) k (ch 0)) in Ht. set_solver.
Qed.

Lemma SLtidy_del ch (r : addr) : SLtidy ch -> SLtidy (ch_del ch r).
Proof.
  intros Ht lv a Hlv Ha. unfold ch_del in *.
  apply list_elem_of_filter in Ha as [Hne Ha]. apply list_elem_of_filter.
  split; [exact Hne|]. eapply Ht; eauto.
Qed.

Lemma SLtidy_pop sl m hd tl ch (c : addr) (cs : list addr) :
  SLrep sl m hd tl ch -> ch 0 = c :: cs -> topS (heap m) c = 0 ->
  SLtidy ch -> SLtidy (ch_pop ch).
Proof.
  intros H Hch Htop Ht lv a Hlv Ha. destruct lv as [|lv]; [exact Ha|].
  cbn [ch_pop] in Ha |- *. pose proof (Ht (S lv) a Hlv Ha) as Ha0.
  rewrite Hch in Ha0 |- *. cbn [List.tl].
  apply elem_of_cons in Ha0 as [->|Ha0]; [|exact Ha0].
  pose proof (SL_top _ _ _ _ _ H (S lv) c Hlv Ha). lia.
Qed.

Theorem skip_add_contents sl m hd tl ch (key : Z) (x : T) (flips : list bool) (n : nat) :
  let k := to_uint64 (to_int key) in
  SLrep sl m hd tl ch ->
  (0 < k < UINT64_MAX)%Z ->
  length (heap m) <= n ->
  exists m' ch',
    add n sl key x flips m = Ok (negb (bool_decide (k ∈ (SLcontents m ch).*1)), m') /\
    SLrep sl m' hd tl ch' /\
    SLcontents m' ch' = kv_insert k x (SLcontents m ch) /\
    (SLtidy ch -> SLtidy ch') /\
    calls m' = LeaveEpoch thread_id :: EnterEpoch thread_id :: calls m /\
    length (heap m) <= length (heap m') <= S (length (heap m)) /\
    (k ∉ (SLcontents m ch).*1 ->
     forall lv, lv <= MAX_LEVEL ->
       length (heap m) ∈ ch' lv <-> lv <= randomLevel MAX_LEVEL flips).
Proof.
  intros k H Hk Hn.
  set (m0 := MkMem (heap m) (EnterEpoch thread_id :: calls m)).
  assert (SLrep sl m0 hd tl ch) as H0 by (apply (SLrep_heap sl m m0); [reflexivity|exact H]).
  pose proof (SLrep_length _ _ _ _ _ 0 H ltac:(lia)) as Hlen.
  pose proof (succ_at_key_mem sl m hd tl ch k H ltac:(lia)) as Hmem.
  rewrite <- (SLcontents_keys sl m hd tl ch H) in Hmem.
  pose proof (SLcontents_window sl m hd tl ch k H ltac:(lia)) as Hw. cbv zeta in Hw.
  destruct Hw as (Hsplit & HA & Hcase).
  destruct n as [|n']; [lia|].
  assert (add (S n') sl key x flips m
          = add_loop (S n') (S n') sl (to_int key) x (randomLevel MAX_LEVEL flips) None
              (replicate (S MAX_LEVEL) None) (replicate (S MAX_LEVEL) None) m0) as Hadd
    by reflexivity.
  destruct Hcase as [(Hkc & d & post & HB & Hd & _ & _)|(Hkc & HB)].
  - rewrite bool_decide_eq_true_2 by (apply Hmem, Hkc).
    destruct (find_run sl m0 hd tl ch k (S n') (replicate (S MAX_LEVEL) None)
                (replicate (S MAX_LEVEL) None) H0 ltac:(lia) Hn)
      as (preds' & succs' & Hfind & Hwin); try apply length_replicate.
    exists (MkMem (heap m) (LeaveEpoch thread_id :: EnterEpoch thread_id :: calls m)), ch.
    split.
    { rewrite Hadd. simpl add_loop. fold k. mstep Hfind.
      change (heap m0) with (heap m). rewrite (proj2 (Z.eqb_eq _ _) Hkc). reflexivity. }
    split; [apply (SLrep_heap sl m); [reflexivity|exact H]|].
    split; [|split; [auto|split; [reflexivity|split; [cbn; lia|]]]].
    + unfold SLcontents at 1. rewrite (SLpairs_ext m _ (ch 0)) by reflexivity.
      fold (SLcontents m ch). rewrite Hsplit, HB, (SLpairs_cons m _ post _ Hd).
      symmetry. apply kv_insert_present, HA.
    + intros Hn'. exfalso. apply Hn', Hmem, Hkc.
  - rewrite bool_decide_eq_false_2 by (rewrite Hmem; exact Hkc).
    pose proof (add_loop_links sl m0 hd tl ch (to_int key) x
                (randomLevel MAX_LEVEL flips) (S n') n'
                (replicate (S MAX_LEVEL) None) (replicate (S MAX_LEVEL) None)) as Hl.
    cbv zeta in Hl. fold k in Hl.
    destruct (Hl H0 Hk (randomLevel_le _ _) Hn (length_replicate _ _)
                (length_replicate _ _) Hkc)
      as (m' & Hrun & Hcalls & Hrep & HkN & HdN).
    clear Hl. change (heap m0) with (heap m) in *.
    set (N := length (heap m)) in *.
    set (top := randomLevel MAX_LEVEL flips) in *.
    set (ch' := ch_add (heap m ++ [fresh_node k x top]) ch k N top) in *.
    assert (stableS N m m') as Hst.
    { apply (keepsS_add N sl key x flips (S n') m true m'); [subst N; lia|].
      rewrite Hadd. exact Hrun. }
    assert (forall lv a, lv <= MAX_LEVEL -> a ∈ ch lv -> a < N) as Hlt.
    { intros lv a Hlv Ha. apply (SLrep_lt sl m hd tl ch lv); auto. set_solver. }
    assert (forall lv, lv <= MAX_LEVEL ->
              ch' lv = if lv <=? top
                       then below (kyS (heap m)) k (ch lv) ++ N :: from (kyS (heap m)) k (ch lv)
                       else ch lv) as Hch'.
    { intros lv Hlv. subst ch'. unfold ch_add. destruct (lv <=? top); [|reflexivity].
      destruct (below_ext (kyS (heap m)) (kyS (heap m ++ [fresh_node k x top])) k (ch lv))
        as [-> ->]; [|reflexivity].
      intros a Ha. apply kyS_app_old. apply (Hlt lv a Hlv Ha). }
    exists m', ch'. split; [rewrite Hadd; exact Hrun|]. split; [exact Hrep|].
    split; [|split; [apply SLtidy_add|split; [exact Hcalls|split]]].
    + unfold SLcontents at 1. rewrite (Hch' 0 ltac:(lia)). cbn [Nat.leb].
      change (N :: from (kyS (heap m)) k (ch 0))
        with ([N] ++ from (kyS (heap m)) k (ch 0)).
      rewrite !SLpairs_app.
      rewrite (SLpairs_cons m' N [] (k, x)).
      2:{ rewrite kdS_alt, HdN, HkN. reflexivity. }
      assert (forall a, a ∈ ch 0 -> a < N /\ a < length (heap m)) as Hlt0.
      { intros a Ha. pose proof (Hlt 0 a ltac:(lia) Ha). subst N. lia. }
      rewrite (SLpairs_stable N m m' (below _ _ _) Hst),
              (SLpairs_stable N m m' (from _ _ _) Hst).
      * rewrite Hsplit. symmetry. apply kv_insert_split; auto.
      * intros a Ha. apply Hlt0. rewrite <- (below_from (kyS (heap m)) k (ch 0)). set_solver.
      * intros a Ha. apply Hlt0. rewrite <- (below_from (kyS (heap m)) k (ch 0)). set_solver.
    + pose proof (growsS_add sl key x flips (S n') m true m'
                    ltac:(rewrite Hadd; exact Hrun)) as Hg.
      destruct Hst as [Hst _]. fold N in Hg. lia.
    + intros _ lv Hlv. rewrite (Hch' lv Hlv).
      destruct (Nat.leb_spec lv top) as [Hle|Hgt].
      * split; [auto|]. intros _. set_solver.
      * split; [|lia]. intros Hin. pose proof (Hlt lv N Hlv Hin). lia.
Qed.

Theorem skip_remove_contents sl m hd tl ch (k : Z) (n : nat) :
  SLrep sl m hd tl ch ->
  (0 <= k < UINT64_MAX)%Z ->
  length (heap m) <= n ->
  exists m' ch',
    remove n sl k m = Ok (bool_decide (k ∈ (SLcontents m ch).*1), m') /\
    SLrep sl m' hd tl ch' /\
    SLcontents m' ch' = kv_remove k (SLcontents m ch) /\
    (SLtidy ch -> SLtidy ch') /\
    depth (calls m') = depth (calls m) /\
    length (heap m') = length (heap m) /\
    (k ∉ (SLcontents m ch).*1 ->
     heap m' = heap m /\ ch' = ch /\ retired (calls m') = retired (calls m)) /\
    (k ∈ (SLcontents m ch).*1 ->
     exists r, r ∈ ch 0 /\ kyS (heap m) r = k /\
       (forall lv, lv <= MAX_LEVEL -> r ∉ ch' lv) /\
       retired (calls m') = Some r :: retired (calls m)).
Proof.
  intros H Hk Hn.
  set (m0 := MkMem (heap m) (EnterEpoch thread_id :: calls m)).
  assert (SLrep sl m0 hd tl ch) as H0 by (apply (SLrep_heap sl m m0); [reflexivity|exact H]).
  pose proof (SLrep_length _ _ _ _ _ 0 H ltac:(lia)) as Hlen.
  pose proof (succ_at_key_mem sl m hd tl ch k H ltac:(lia)) as Hmem.
  rewrite <- (SLcontents_keys sl m hd tl ch H) in Hmem.
  pose proof (SLcontents_window sl m hd tl ch k H ltac:(lia)) as Hw. cbv zeta in Hw.
  destruct Hw as (Hsplit & HA & Hcase).
  destruct n as [|n']; [lia|].
  assert (remove (S n') sl k m
          = remove_loop (S n') (S n') sl k (replicate (S MAX_LEVEL) None)
              (replicate (S MAX_LEVEL) None) m0) as Hrem by reflexivity.
  destruct Hcase as [(Hkc & d & post & HB & Hd & HnA & Hnpost)|(Hkc & HB)].
  - rewrite bool_decide_eq_true_2 by (apply Hmem, Hkc).
    pose proof (remove_loop_unlinks sl m0 hd tl ch k (S n') n'
                  (replicate (S MAX_LEVEL) None) (replicate (S MAX_LEVEL) None)) as Hl.
    cbv zeta in Hl.
    destruct (Hl H0 Hk Hn (length_replicate _ _) (length_replicate _ _) Hkc)
      as (m' & Hrun & Hcalls & Hfr & Hrep).
    clear Hl. change (heap m0) with (heap m) in *.
    set (r := succ_at (heap m) tl ch k 0) in *.
    assert (r ∈ ch 0) as Hr by (apply (succ_at_live sl m hd tl ch k H); [lia|exact Hkc]).
    assert (frame m (MkMem (heap m') (calls m))) as Hfr'.
    { destruct Hfr. constructor; auto. }
    exists m', (ch_del ch r). split; [rewrite Hrem; exact Hrun|]. split; [exact Hrep|].
    split; [|split; [apply SLtidy_del|split; [|split; [|split]]]].
    + pose proof (SL_NoDup _ _ _ _ _ H 0 ltac:(lia)) as Hnd.
      apply NoDup_cons in Hnd as [_ Hnd]. apply NoDup_app in Hnd as [Hnd _].
      rewrite <- (below_from (kyS (heap m)) k (ch 0)), HB in Hnd.
      unfold SLcontents at 1, ch_del.
      rewrite <- (below_from (kyS (heap m)) k (ch 0)) at 1. rewrite HB.
      rewrite (filter_ne_split r _ post Hnd), SLpairs_app.
      rewrite (SLpairs_ext m m' (below _ _ _))
        by (intros a _; apply (frame_kdS m (MkMem (heap m') (calls m)) a Hfr')).
      rewrite (SLpairs_ext m m' post)
        by (intros a _; apply (frame_kdS m (MkMem (heap m') (calls m)) a Hfr')).
      rewrite Hsplit, HB, (SLpairs_cons m r post _ Hd).
      symmetry. apply kv_remove_split; auto.
    + rewrite Hcalls. cbn [calls m0 depth]. lia.
    + apply (frame_length _ _ Hfr').
    + intros Hn'. exfalso. apply Hn', Hmem, Hkc.
    + intros _. exists r. split; [exact Hr|]. split; [exact Hkc|]. split.
      * intros lv _ Hin. unfold ch_del in Hin.
        apply list_elem_of_filter in Hin as [Hne _]. congruence.
      * rewrite Hcalls. reflexivity.
  - rewrite bool_decide_eq_false_2 by (rewrite Hmem; exact Hkc).
    destruct (find_run sl m0 hd tl ch k (S n') (replicate (S MAX_LEVEL) None)
                (replicate (S MAX_LEVEL) None) H0 ltac:(lia) Hn)
      as (preds' & succs' & Hfind & Hwin); try apply length_replicate.
    exists (MkMem (heap m) (LeaveEpoch thread_id :: EnterEpoch thread_id :: calls m)), ch.
    split.
    { rewrite Hrem, remove_loop_unfold. mstep Hfind.
      change (heap m0) with (heap m). rewrite (proj2 (Z.eqb_neq _ _) Hkc). reflexivity. }
    split; [apply (SLrep_heap sl m); [reflexivity|exact H]|].
    split; [|split; [auto|split; [cbn; lia|split; [reflexivity|split]]]].
    + unfold SLcontents at 1. rewrite (SLpairs_ext m _ (ch 0)) by reflexivity.
      fold (SLcontents m ch). symmetry. apply kv_remove_absent.
      rewrite Hmem. exact Hkc.
    + intros _. auto.
    + intros Hin. exfalso. apply Hkc, Hmem, Hin.
Qed.

Theorem skip_popMin_contents sl m hd tl ch (n : nat) :
  SLrep sl m hd tl ch -> 0 < n ->
  exists m' ch',
    popMin n sl m = Ok (snd <$> List.head (SLcontents m ch), m') /\
    SLrep sl m' hd tl ch' /\
    SLcontents m' ch' = List.tl (SLcontents m ch) /\
    depth (calls m') = depth (calls m) /\
    length (heap m') = length (heap m) /\
    (ch 0 = [] -> m' = m /\ ch' = ch) /\
    (forall c cs, ch 0 = c :: cs ->
       ch' = ch_pop ch /\ calls m' = RetireNode (Some c) currentEpoch :: calls m /\
       (topS (heap m) c = 0 -> SLtidy ch -> SLtidy ch')).
Proof.
  intros H Hn. destruct (ch 0) as [|c cs] eqn:Hch.
  - exists m, ch. rewrite (popMin_empty sl m hd tl ch n H Hch Hn).
    unfold SLcontents, SLpairs. rewrite Hch. cbn.
    split; [reflexivity|]. split; [exact H|]. repeat split; auto; discriminate.
  - destruct (popMin_first sl m hd tl ch c cs n H Hch Hn) as (m' & Hrun & Hcalls & Hrep & Hfr).
    destruct (kdS_live sl m hd tl ch c H ltac:(rewrite Hch; set_solver)) as [v Hv].
    exists m', (ch_pop ch). rewrite Hrun.
    unfold SLcontents. cbn [ch_pop]. rewrite Hch. cbn [List.tl].
    rewrite (SLpairs_cons m c cs _ Hv). cbn [List.head fmap option_fmap option_map snd List.tl].
    split.
    { rewrite kdS_alt in Hv. destruct (dataS (heap m) c); [|discriminate].
      injection Hv as ->. reflexivity. }
    split; [exact Hrep|]. split.
    { apply SLpairs_ext. intros a _.
      apply (frame_kdS m (MkMem (heap m') (calls m)) a Hfr). }
    split; [rewrite Hcalls; reflexivity|].
    split; [apply (frame_length _ _ Hfr)|]. split; [discriminate|].
    intros c' cs' [= <- <-]. split; [reflexivity|]. split; [exact Hcalls|].
    intros Htop Ht. apply (SLtidy_pop sl m hd tl ch c cs H Hch Htop Ht).
Qed.

End SkipUpdates.

(** ** contains and get on states whose upper chains hold live nodes only *)

Section SkipReads.
Import LockFreeSkipList.
Context {T : Type}.
Implicit Types (m : mem T) (sl : SkipList) (h : list (SNodeBase T)).

Lemma skip_marked_clean (n lv : nat) (curr succ : ptr) :
  skip_marked (T := T) n lv curr succ false = ret (curr, succ).
Proof. destruct n; reflexivity. Qed.

Lemma get_skip_clean (n : nat) sl (lv : nat) (curr succ : ptr) :
  get_skip (T := T) n sl lv curr succ false = ret (curr, succ).
Proof. destruct n; reflexivity. Qed.

Lemma below_from_cons (ky : addr -> Z) (k : Z) (c : addr) (ys : list addr) :
  (ky c < k)%Z -> from ky k ys <> [] ->
  first_or c (from ky k (c :: ys)) = first_or c (from ky k ys) /\
  (forall d, first_or d (from ky k ys) = first_or c (from ky k ys)).
Proof.
  intros Hc Hne. simpl. rewrite (proj2 (Z.ltb_lt _ _)) by lia.
  split; [reflexivity|]. intros d. destruct (from ky k ys); [congruence|reflexivity].
Qed.

Lemma from_nonempty (ky : addr -> Z) (k : Z) (y : addr) (ys : list addr) :
  (k <= ky (end_of y ys))%Z -> from ky k (y :: ys) <> [].
Proof.
  intros Hk Hnil.
  pose proof (below_from ky k (y :: ys)) as Hbf. rewrite Hnil, app_nil_r in Hbf.
  pose proof (below_lt ky k (y :: ys)) as Hlt. rewrite Hbf in Hlt.
  rewrite Forall_forall in Hlt. specialize (Hlt (end_of y ys) (end_of_elem _ _)). lia.
Qed.

Lemma contains_walk_clean m (key0 : Z) (n lv : nat) :
  forall ys p c fuel,
    path (nxS (heap m) lv) c ys ->
    (exists q, nxS (heap m) lv (end_of c ys) = Some (q, false)) ->
    (key0 <= kyS (heap m) (end_of c ys))%Z ->
    length ys < fuel ->
    contains_walk n fuel key0 lv (Some p) (Some c) m
    = Ok ((Some (end_of p (below (kyS (heap m)) key0 (c :: ys))),
           Some (first_or c (from (kyS (heap m)) key0 (c :: ys)))), m).
Proof.
  induction ys as [|y ys IH]; intros p c fuel Hp Hend Hk Hf;
    (destruct fuel as [|fuel]; [simpl in Hf; lia|]); simpl contains_walk.
  - simpl in Hend, Hk. destruct Hend as [q Hq].
    pose proof Hq as (nc & Hnc & _)%nxS_Some.
    mstep (get_next_runS _ _ _ _ _ Hq). rewrite skip_marked_clean. mret.
    mstep (load_runS _ _ _ Hnc). cbn [below from].
    rewrite (kyS_load _ _ _ Hnc) in Hk |- *.
    rewrite (proj2 (Z.ltb_ge _ _)) by lia. reflexivity.
  - simpl in Hp, Hend, Hk, Hf. destruct Hp as [Hc Hp].
    pose proof Hc as (nc & Hnc & _)%nxS_Some.
    mstep (get_next_runS _ _ _ _ _ Hc). rewrite skip_marked_clean. mret.
    mstep (load_runS _ _ _ Hnc).
    change (below (kyS (heap m)) key0 (c :: y :: ys))
      with (if (kyS (heap m) c <? key0)%Z
            then c :: below (kyS (heap m)) key0 (y :: ys) else []).
    change (from (kyS (heap m)) key0 (c :: y :: ys))
      with (if (kyS (heap m) c <? key0)%Z
            then from (kyS (heap m)) key0 (y :: ys) else c :: y :: ys).
    rewrite (kyS_load _ _ _ Hnc).
    destruct (key nc <? key0)%Z eqn:Elt; [|reflexivity].
    rewrite (IH c y fuel Hp Hend) by (first [lia | auto]).
    cbn [end_of].
    pose proof (from_nonempty (kyS (heap m)) key0 y ys Hk) as Hne.
    destruct (from (kyS (heap m)) key0 (y :: ys)); [congruence|reflexivity].
Qed.

Lemma get_walk_clean sl m hd tl ch (key0 : Z) (n lv : nat) :
  SLrep sl m hd tl ch -> (key0 <= UINT64_MAX)%Z ->
  forall ys p c fuel,
    path (nxS (heap m) lv) c ys ->
    (exists q, nxS (heap m) lv (end_of c ys) = Some (q, false)) ->
    (key0 <= kyS (heap m) (end_of c ys))%Z ->
    length ys < fuel ->
    get_walk n fuel sl key0 lv (Some p) (Some c) m
    = Ok ((Some (end_of p (below (kyS (heap m)) key0 (c :: ys))),
           Some (first_or c (from (kyS (heap m)) key0 (c :: ys)))), m).
Proof.
  intros H Hmax.
  assert (forall ys c, c = tl ->
            below (kyS (heap m)) key0 (c :: ys) = [] /\
            from (kyS (heap m)) key0 (c :: ys) = c :: ys) as Htl.
  { intros ys c ->. simpl. rewrite (SL_tl_key _ _ _ _ _ H).
    rewrite (proj2 (Z.ltb_ge _ _)) by lia. auto. }
  induction ys as [|y ys IH]; intros p c fuel Hp Hend Hk Hf;
    (destruct fuel as [|fuel]; [simpl in Hf; lia|]);
    rewrite get_walk_unfold, (null_or_tail_Some sl m hd tl ch c H);
    (destruct (decide (c = tl)) as [Hct|Hct];
     [rewrite bool_decide_eq_true_2 by exact Hct
     |rewrite bool_decide_eq_false_2 by exact Hct]).
  - destruct (Htl [] c Hct) as [-> ->]. reflexivity.
  - simpl in Hend, Hk. destruct Hend as [q Hq].
    pose proof Hq as (nc & Hnc & _)%nxS_Some.
    mstep (get_next_runS _ _ _ _ _ Hq). rewrite get_skip_clean. mret.
    rewrite (null_or_tail_Some sl m hd tl ch c H), bool_decide_eq_false_2 by exact Hct.
    mstep (load_runS _ _ _ Hnc). cbn [below from].
    rewrite (kyS_load _ _ _ Hnc) in Hk |- *.
    rewrite (proj2 (Z.ltb_ge _ _)) by lia. reflexivity.
  - destruct (Htl (y :: ys) c Hct) as [-> ->]. reflexivity.
  - simpl in Hp, Hend, Hk, Hf. destruct Hp as [Hc Hp].
    pose proof Hc as (nc & Hnc & _)%nxS_Some.
    mstep (get_next_runS _ _ _ _ _ Hc). rewrite get_skip_clean. mret.
    rewrite (null_or_tail_Some sl m hd tl ch c H), bool_decide_eq_false_2 by exact Hct.
    mstep (load_runS _ _ _ Hnc).
    change (below (kyS (heap m)) key0 (c :: y :: ys))
      with (if (kyS (heap m) c <? key0)%Z
            then c :: below (kyS (heap m)) key0 (y :: ys) else []).
    change (from (kyS (heap m)) key0 (c :: y :: ys))
      with (if (kyS (heap m) c <? key0)%Z
            then from (kyS (heap m)) key0 (y :: ys) else c :: y :: ys).
    rewrite (kyS_load _ _ _ Hnc).
    destruct (key nc <? key0)%Z eqn:Elt; [|reflexivity].
    rewrite (IH c y fuel Hp Hend) by (first [lia | auto]).
    cbn [end_of].
    pose proof (from_nonempty (kyS (heap m)) key0 y ys Hk) as Hne.
    destruct (from (kyS (heap m)) key0 (y :: ys)); [congruence|reflexivity].
Qed.

(** One level, entered at a node [p] of the chain that has only smaller
    keys before it. *)
Lemma level_window sl m hd tl ch (key0 : Z) (lv : nat) (pre rest : list addr) :
  SLrep sl m hd tl ch -> (key0 <= UINT64_MAX)%Z -> lv <= MAX_LEVEL ->
  ch lv = pre ++ rest ->
  Forall (fun a => (kyS (heap m) a < key0)%Z) pre ->
  exists c ys,
    rest ++ [tl] = c :: ys /\
    nxS (heap m) lv (end_of hd pre) = Some (Some c, false) /\
    path (nxS (heap m) lv) c ys /\
    end_of c ys = tl /\
    length ys <= length (ch lv) /\
    end_of (end_of hd pre) (below (kyS (heap m)) key0 (c :: ys))
      = pred_at (heap m) hd ch key0 lv /\
    first_or c (from (kyS (heap m)) key0 (c :: ys)) = succ_at (heap m) tl ch key0 lv.
Proof.
  intros H Hk Hlv Hch Hpre.
  pose proof (SL_path _ _ _ _ _ H lv Hlv) as Hp.
  pose proof (SL_tl_key _ _ _ _ _ H) as Htk.
  rewrite Hch, <- app_assoc in Hp.
  destruct (rest ++ [tl]) as [|c ys] eqn:Ecs; [destruct rest; discriminate|].
  apply path_app in Hp as [Hp1 Hp2]. destruct Hp2 as [Hc Hys].
  exists c, ys. split; [reflexivity|]. split; [exact Hc|]. split; [exact Hys|].
  assert (end_of c ys = tl) as Hend.
  { change (end_of hd (c :: ys) = tl). rewrite <- Ecs. apply end_of_snoc. }
  split; [exact Hend|]. split.
  { apply (f_equal length) in Ecs. rewrite Hch, !length_app in *. simpl in Ecs. lia. }
  destruct (below_snoc (kyS (heap m)) key0 (ch lv) tl c ltac:(lia)) as [Hb Hf].
  unfold pred_at, succ_at. rewrite <- Hb, <- Hf.
  rewrite Hch, <- app_assoc, Ecs.
  destruct (below_app_lt (kyS (heap m)) key0 pre (c :: ys) Hpre) as [-> ->].
  rewrite end_of_app. auto.
Qed.

(** On a tidy state the node at which one level stops is a node of the
    next level down, with only smaller keys before it. *)
Lemma pred_at_descends sl m hd tl ch (key0 : Z) (lv : nat) :
  SLrep sl m hd tl ch -> SLtidy ch -> S lv <= MAX_LEVEL ->
  exists pre rest,
    ch lv = pre ++ rest /\
    Forall (fun a => (kyS (heap m) a < key0)%Z) pre /\
    pred_at (heap m) hd ch key0 (S lv) = end_of hd pre.
Proof.
  intros H Ht Hlv. unfold pred_at.
  pose proof (below_from (kyS (heap m)) key0 (ch (S lv))) as Hbf.
  pose proof (below_lt (kyS (heap m)) key0 (ch (S lv))) as Hlt.
  destruct (below (kyS (heap m)) key0 (ch (S lv))) as [|bs xs IHxs] eqn:E using rev_ind.
  - exists [], (ch lv). auto.
  - clear IHxs. rewrite end_of_snoc.
    apply Forall_app in Hlt as [_ Hb]. apply Forall_inv in Hb.
    assert (bs ∈ ch (S lv)) as Hin by (rewrite <- Hbf; set_solver).
    pose proof (SL_top _ _ _ _ _ H (S lv) bs Hlv Hin) as Htop.
    destruct (SL_tower _ _ _ _ _ H bs lv (Ht _ _ Hlv Hin) ltac:(lia))
      as (pre & post & Heq & Hall).
    exists (pre ++ [bs]), post. rewrite <- app_assoc. split; [exact Heq|].
    split; [|rewrite end_of_snoc; reflexivity].
    apply Forall_app. split; [|constructor; [exact Hb|constructor]].
    eapply Forall_impl; [exact Hall|]. simpl. intros; lia.
Qed.

Lemma contains_levels_tidy sl m hd tl ch (key0 : Z) (n : nat) :
  SLrep sl m hd tl ch -> SLtidy ch -> (key0 <= UINT64_MAX)%Z -> length (heap m) <= n ->
  forall lv pre rest,
    lv <= MAX_LEVEL ->
    ch lv = pre ++ rest ->
    Forall (fun a => (kyS (heap m) a < key0)%Z) pre ->
    contains_levels n key0 lv (Some (end_of hd pre)) m
    = Ok (Some (succ_at (heap m) tl ch key0 0), m).
Proof.
  intros H Ht Hk Hn. induction lv as [|lv IH]; intros pre rest Hlv Hch Hpre;
    rewrite contains_levels_unfold;
    destruct (level_window sl m hd tl ch key0 _ pre rest H Hk Hlv Hch Hpre)
      as (c & ys & _ & Hc & Hys & Hend & Hlen & Hp & Hs);
    pose proof (SLrep_length _ _ _ _ _ _ H Hlv) as HL;
    mstep (getReference_runS _ _ _ _ _ Hc);
    pose proof (contains_walk_clean m key0 n _ ys (end_of hd pre) c n Hys
                  ltac:(rewrite Hend; eapply SL_tl_ref; eauto)
                  ltac:(rewrite Hend, (SL_tl_key _ _ _ _ _ H); lia)
                  ltac:(lia)) as Hwalk;
    rewrite Hp, Hs in Hwalk; mstep Hwalk.
  - reflexivity.
  - destruct (pred_at_descends sl m hd tl ch key0 lv H Ht Hlv) as (pre' & rest' & E & Hall & ->).
    apply (IH pre' rest'); [lia|exact E|exact Hall].
Qed.

Lemma get_levels_tidy sl m hd tl ch (key0 : Z) (n : nat) :
  SLrep sl m hd tl ch -> SLtidy ch -> (key0 <= UINT64_MAX)%Z -> length (heap m) <= n ->
  forall lv pre rest,
    lv <= MAX_LEVEL ->
    ch lv = pre ++ rest ->
    Forall (fun a => (kyS (heap m) a < key0)%Z) pre ->
    get_levels n sl key0 lv (Some (end_of hd pre)) m
    = Ok (Some (succ_at (heap m) tl ch key0 0), m).
Proof.
  intros H Ht Hk Hn. induction lv as [|lv IH]; intros pre rest Hlv Hch Hpre;
    rewrite get_levels_unfold;
    destruct (level_window sl m hd tl ch key0 _ pre rest H Hk Hlv Hch Hpre)
      as (c & ys & _ & Hc & Hys & Hend & Hlen & Hp & Hs);
    pose proof (SLrep_length _ _ _ _ _ _ H Hlv) as HL;
    mstep (getReference_runS _ _ _ _ _ Hc);
    pose proof (get_walk_clean sl m hd tl ch key0 n _ H Hk ys (end_of hd pre) c n Hys
                  ltac:(rewrite Hend; eapply SL_tl_ref; eauto)
                  ltac:(rewrite Hend, (SL_tl_key _ _ _ _ _ H); lia)
                  ltac:(lia)) as Hwalk;
    rewrite Hp, Hs in Hwalk; mstep Hwalk.
  - reflexivity.
  - destruct (pred_at_descends sl m hd tl ch key0 lv H Ht Hlv) as (pre' & rest' & E & Hall & ->).
    apply (IH pre' rest'); [lia|exact E|exact Hall].
Qed.

Theorem skip_contains_run sl m hd tl ch (k : Z) (n : nat) :
  SLrep sl m hd tl ch -> SLtidy ch -> (k < UINT64_MAX)%Z -> length (heap m) <= n ->
  contains n sl k m = Ok (bool_decide (k ∈ (SLcontents m ch).*1), m).
Proof.
  intros H Ht Hk Hn.
  pose proof (succ_at_key_mem sl m hd tl ch k H Hk) as Hmem.
  rewrite <- (SLcontents_keys sl m hd tl ch H) in Hmem.
  unfold contains. rewrite (SL_head _ _ _ _ _ H).
  mstep (contains_levels_tidy sl m hd tl ch k n H Ht ltac:(lia) Hn (MAX_LEVEL - 1)
           [] (ch (MAX_LEVEL - 1)) ltac:(unfold MAX_LEVEL; lia) eq_refl
           (Forall_nil_2 _)).
  pose proof (succ_at_in m hd tl ch k 0) as Hin.
  destruct (lookup_lt_is_Some_2 (heap m) _
              (SLrep_lt sl m hd tl ch 0 _ H ltac:(lia) Hin)) as [nc Hnc].
  mstep (load_runS _ _ _ Hnc). rewrite <- (kyS_load _ _ _ Hnc).
  unfold ret. do 2 f_equal.
  destruct (Z.eqb_spec (kyS (heap m) (succ_at (heap m) tl ch k 0)) k) as [E|E].
  - rewrite bool_decide_eq_true_2; [reflexivity|]. apply Hmem, E.
  - rewrite bool_decide_eq_false_2; [reflexivity|]. rewrite Hmem. exact E.
Qed.

Theorem skip_get_run sl m hd tl ch (k : Z) (n : nat) :
  SLrep sl m hd tl ch -> SLtidy ch -> (k < UINT64_MAX)%Z -> length (heap m) <= n ->
  get n sl k m = Ok (kv_lookup k (SLcontents m ch), m).
Proof.
  intros H Ht Hk Hn.
  pose proof (SLcontents_window sl m hd tl ch k H Hk) as Hw. cbv zeta in Hw.
  destruct Hw as (Hsplit & HA & Hcase).
  unfold get. rewrite (SL_head _ _ _ _ _ H).
  mstep (get_levels_tidy sl m hd tl ch k n H Ht ltac:(lia) Hn (MAX_LEVEL - 1)
           [] (ch (MAX_LEVEL - 1)) ltac:(unfold MAX_LEVEL; lia) eq_refl
           (Forall_nil_2 _)).
  pose proof (succ_at_in m hd tl ch k 0) as Hin.
  destruct (SLrep_valid _ _ _ _ _ 0 _ H ltac:(lia) Hin) as [q Hq].
  pose proof Hq as (nc & Hnc & _)%nxS_Some.
  mstep (get_next_runS _ _ _ _ _ Hq). mstep (load_runS _ _ _ Hnc).
  rewrite <- (kyS_load _ _ _ Hnc), Hsplit.
  destruct Hcase as [(Hkc & d & post & HB & Hd & HnA & Hnpost)|(Hkc & HB)].
  - rewrite Hkc, Z.eqb_refl. cbn [andb negb].
    rewrite HB, (SLpairs_cons m _ post _ Hd), (kv_lookup_present k d _ _ HA).
    rewrite kdS_alt in Hd. unfold dataS in Hd. rewrite Hnc in Hd. simpl in Hd.
    destruct (data nc); [|discriminate]. injection Hd as _ ->. reflexivity.
  - rewrite (proj2 (Z.eqb_neq _ _) Hkc). cbn [andb].
    rewrite kv_lookup_absent; [reflexivity|].
    rewrite fmap_app, elem_of_app. intros [Hin'|Hin'].
    + apply list_elem_of_fmap in Hin' as (p & -> & Hp).
      rewrite Forall_forall in HA. specialize (HA p Hp). simpl in HA. lia.
    + apply list_elem_of_fmap in Hin' as (p & -> & Hp).
      rewrite Forall_forall in HB. specialize (HB p Hp). simpl in HB. lia.
Qed.

End SkipReads.

(** * What the list never does

    No operation frees a node or changes the key or the payload of a node,
    and none touches the reference of a node that carries a deletion mark:
    the compare-and-set of the sources expects an unmarked reference,
    [attemptMark] only sets the mark, and the plain store goes to the node
    being inserted. *)

Section ListStable.
Import LockFreeList.
Context {T : Type}.
Implicit Types (m : mem T) (l : List) (h : list (LNode T)).

Lemma stableL_refl (L : nat) m : stableL L m m.
Proof. split; [lia|]. intros a n _ Hn. exists n. repeat split; auto. Qed.

Lemma stableL_heap (L : nat) m m' : heap m' = heap m -> stableL L m m'.
Proof.
  intros Hh. split; [rewrite Hh; lia|]. intros a n _ Hn. exists n.
  rewrite Hh. repeat split; auto.
Qed.

Lemma stableL_trans (L : nat) m1 m2 m3 :
  stableL L m1 m2 -> stableL L m2 m3 -> stableL L m1 m3.
Proof.
  intros [Hl1 H1] [Hl2 H2]. split; [lia|]. intros a n Ha Hn.
  destruct (H1 a n Ha Hn) as (n' & Hn' & Hk & Hd & Hfr).
  destruct (H2 a n' Ha Hn') as (n'' & Hn'' & Hk' & Hd' & Hfr').
  exists n''. split; [exact Hn''|]. repeat split; try congruence.
  intros Hm. rewrite <- (Hfr Hm). apply Hfr'. rewrite (Hfr Hm). exact Hm.
Qed.

Lemma keepsL_ret {A : Type} (L : nat) (a : A) : keepsL L (ret (S := mem T) a).
Proof. intros m a' m' _ [= _ <-]. apply stableL_refl. Qed.

Lemma keepsL_timeout {A : Type} (L : nat) : keepsL L (timeout (S := mem T) (A := A)).
Proof. intros m a m' _ [=]. Qed.

Lemma keepsL_bind {A B : Type} (L : nat) (c : M (mem T) A) (k : A -> M (mem T) B) :
  keepsL L c -> (forall a, keepsL L (k a)) -> keepsL L (bind c k).
Proof.
  intros Hc Hk m b m' HL. unfold bind.
  destruct (c m) as [[a m1]| |] eqn:E; try discriminate.
  intros Hrun. pose proof (Hc m a m1 HL E) as H1.
  eapply stableL_trans; [exact H1|]. eapply Hk; [|exact Hrun].
  destruct H1 as [Hl _]. lia.
Qed.

Lemma keepsL_readonly {A : Type} (L : nat) (c : M (mem T) A) :
  readonly c -> keepsL L c.
Proof. intros Hc m a m' _ Hrun. rewrite (Hc m a m' Hrun). apply stableL_refl. Qed.

Lemma keepsL_calls (L : nat) (f : list epoch_call -> list epoch_call) :
  keepsL L (modify (fun m : mem T => MkMem (heap m) (f (calls m)))).
Proof. intros m a m' _ [= _ <-]. apply stableL_heap. reflexivity. Qed.

(** A store moves nothing but one reference. *)
Lemma store_next_stableL (L : nat) (p : ptr) (r : LMarkableReference) m u m' :
  store_next p r m = Ok (u, m') ->
  (forall a n, p = Some a -> a < L -> heap m !! a = Some n ->
     marked_ (next n) = false) ->
  stableL L m m'.
Proof.
  unfold store_next, bind, load. destruct p as [a|]; [|discriminate].
  destruct (heap m !! a) as [n|] eqn:Hn; [|discriminate].
  unfold modify. intros [= _ <-] Hum. unfold stableL. cbn [heap].
  split; [rewrite length_insert; lia|].
  intros x nx Hx Hnx. destruct (decide (x = a)) as [->|Hne].
  - rewrite list_lookup_insert_eq by (eapply lookup_lt_Some; eauto).
    rewrite Hn in Hnx. injection Hnx as <-.
    eexists. split; [reflexivity|]. cbn. repeat split; auto.
    intros Hm. rewrite (Hum a n eq_refl Hx Hn) in Hm. discriminate.
  - rewrite list_lookup_insert_ne by auto. exists nx. repeat split; auto.
Qed.

Lemma keepsL_compareAndSet (L : nat) (p e new : ptr) (b : bool) :
  keepsL L (compareAndSet (T := T) p e new false b).
Proof.
  intros m ok m' _. unfold compareAndSet, bind at 1.
  destruct (load p m) as [[n m1]| |] eqn:E; try discriminate.
  pose proof (readonly_load p m n m1 E) as ->.
  destruct (negb (ptr_eqb (val_ (next n)) e) || negb (eqb (marked_ (next n)) false)) eqn:Ec.
  - intros [= _ <-]. apply stableL_refl.
  - unfold bind. destruct (store_next p (MkRef new b) m) as [[u m2]| |] eqn:Es;
      try discriminate.
    intros [= _ <-]. eapply store_next_stableL; [exact Es|].
    intros a n0 -> _ Hn0. unfold load in E. rewrite Hn0 in E. injection E as <-.
    apply orb_false_iff in Ec as [_ Ec]. destruct (marked_ (next n0)); [discriminate|reflexivity].
Qed.

Lemma keepsL_attemptMark (L : nat) (p e : ptr) :
  keepsL L (attemptMark (T := T) p e true).
Proof.
  intros m ok m' _. unfold attemptMark, bind at 1.
  destruct (load p m) as [[n m1]| |] eqn:E; try discriminate.
  pose proof (readonly_load p m n m1 E) as ->.
  destruct (negb (ptr_eqb (val_ (next n)) e)); [intros [= _ <-]; apply stableL_refl|].
  destruct (eqb (marked_ (next n)) true) eqn:Em; [intros [= _ <-]; apply stableL_refl|].
  unfold bind. destruct (store_next p (MkRef (val_ (next n)) true) m) as [[u m2]| |] eqn:Es;
    try discriminate.
  intros [= _ <-]. eapply store_next_stableL; [exact Es|].
  intros a n0 -> _ Hn0. unfold load in E. rewrite Hn0 in E. injection E as <-.
  destruct (marked_ (next n0)); [discriminate|reflexivity].
Qed.

Lemma keepsL_new_LNode {A : Type} (L : nat) (k : Z) (d : T) (K : ptr -> M (mem T) A) :
  (forall N, L <= N -> keepsL L (K (Some N))) ->
  keepsL L (bind (new_LNode k d) K).
Proof.
  intros HK m a m' HL. unfold bind, new_LNode. intros Hrun.
  eapply stableL_trans; [|eapply (HK (length (heap m)) HL); [|exact Hrun]].
  - split; [cbn; rewrite length_app; lia|].
    intros x n Hx Hn. exists n. cbn [heap].
    rewrite lookup_app_l by (eapply lookup_lt_Some; eauto). repeat split; auto.
  - cbn. rewrite length_app. lia.
Qed.

Lemma keepsL_set_next_new (L N : nat) (p : ptr) (b : bool) :
  L <= N -> keepsL L (set_next (T := T) (Some N) p b).
Proof.
  intros HN m u m' _ Hrun. eapply store_next_stableL; [exact Hrun|].
  intros a n [= <-] Ha. lia.
Qed.

Lemma keepsL_snip_loop (L : nat) :
  forall fuel pred curr succ mk, keepsL L (snip_loop (T := T) fuel pred curr succ mk).
Proof.
  induction fuel as [|fuel IH]; intros pred curr succ mk; simpl snip_loop;
    destruct mk; try apply keepsL_ret; try apply keepsL_timeout.
  apply keepsL_bind; [apply keepsL_compareAndSet|intros ok].
  destruct ok; cbn [negb]; [|apply keepsL_ret].
  apply keepsL_bind; [apply keepsL_readonly, readonly_get_next|intros [s mk']]. apply IH.
Qed.

Lemma keepsL_walk (L : nat) (key0 : Z) (n : nat) :
  forall fuel pred curr, keepsL L (walk (T := T) n fuel key0 pred curr).
Proof.
  induction fuel as [|fuel IH]; intros pred curr; simpl walk; [apply keepsL_timeout|].
  apply keepsL_bind; [apply keepsL_readonly, readonly_get_next|intros [s mk]].
  apply keepsL_bind; [apply keepsL_snip_loop|intros r].
  destruct r as [|curr' succ']; [apply keepsL_ret|].
  apply keepsL_bind; [apply keepsL_readonly, readonly_load|intros c].
  destruct (key c >=? key0)%Z; [apply keepsL_ret|apply IH].
Qed.

Lemma keepsL_find (L : nat) (hd : ptr) (key0 : Z) (n : nat) :
  keepsL L (find (T := T) n hd key0).
Proof.
  unfold find. generalize n at 2. intros fuel.
  induction fuel as [|fuel IH]; simpl find_loop; [apply keepsL_timeout|].
  apply keepsL_bind; [apply keepsL_readonly, readonly_getReference|intros curr].
  apply keepsL_bind; [apply keepsL_walk|intros r].
  destruct r as [w|]; [apply keepsL_ret|apply IH].
Qed.

Lemma keepsL_add (L : nat) l (key0 : Z) (item : T) (n : nat) :
  keepsL L (add n l key0 item).
Proof.
  unfold add. apply keepsL_bind; [apply keepsL_calls|intros _].
  generalize n at 2. intros fuel.
  induction fuel as [|fuel IH]; simpl add_loop; [apply keepsL_timeout|].
  apply keepsL_bind; [apply keepsL_find|intros [pred curr]].
  apply keepsL_bind; [apply keepsL_readonly, readonly_load|intros c].
  destruct (key c =? key0)%Z; [apply keepsL_ret|].
  apply keepsL_new_LNode. intros N HN.
  apply keepsL_bind; [apply keepsL_set_next_new, HN|intros _].
  apply keepsL_bind; [apply keepsL_compareAndSet|intros ok].
  destruct ok; [|apply IH].
  apply keepsL_bind; [apply keepsL_calls|intros _]. apply keepsL_ret.
Qed.

Lemma keepsL_remove (L : nat) l (key0 : Z) (n : nat) :
  keepsL L (remove (T := T) n l key0).
Proof.
  unfold remove. apply keepsL_bind; [apply keepsL_calls|intros _].
  apply keepsL_bind.
  - generalize n at 2. intros fuel.
    induction fuel as [|fuel IH]; simpl remove_mark; [apply keepsL_timeout|].
    apply keepsL_bind; [apply keepsL_find|intros [pred curr]].
    apply keepsL_bind; [apply keepsL_readonly, readonly_load|intros c].
    destruct (negb (key c =? key0)%Z).
    { apply keepsL_bind; [apply keepsL_calls|intros _]. apply keepsL_ret. }
    apply keepsL_bind; [apply keepsL_readonly, readonly_getReference|intros succ].
    apply keepsL_bind; [apply keepsL_attemptMark|intros snip].
    destruct snip; cbn [negb]; [apply keepsL_ret|apply IH].
  - intros [[[pred curr] succ]|]; [|apply keepsL_ret].
    unfold remove_unlink.
    apply keepsL_bind; [apply keepsL_compareAndSet|intros _].
    apply keepsL_bind; [apply keepsL_calls|intros _].
    apply keepsL_bind; [apply keepsL_calls|intros _]. apply keepsL_ret.
Qed.

Lemma keepsL_run_list_op (L : nat) l (op : list_op) (n : nat) :
  keepsL L (run_list_op (T := T) n l op).
Proof.
  destruct op as [k v|k|k|k]; simpl run_list_op;
    (apply keepsL_bind; [|intros; apply keepsL_ret]).
  - apply keepsL_add.
  - apply keepsL_remove.
  - apply keepsL_readonly, readonly_contains.
  - apply keepsL_readonly, readonly_get.
Qed.

End ListStable.

(** ** Sequences of operations on the list *)

Section ListSequences.
Import LockFreeList.
Context {T : Type}.
Implicit Types (m : mem T) (l : List) (h : list (LNode T)).

(** One operation on a user key does to the list what [kv_list_op] does to
    its contents. *)
Lemma list_op_refines l m hd tl cs (op : list_op) (n : nat) :
  Lrep l m hd tl cs ->
  list_op_user op ->
  length (heap m) <= n ->
  exists m' cs',
    run_list_op n l op m = Ok ((kv_list_op op (Lcontents m cs)).1, m') /\
    Lrep l m' hd tl cs' /\
    Lcontents m' cs' = (kv_list_op op (Lcontents m cs)).2 /\
    length (heap m') <= S (length (heap m)).
Proof.
  intros H Hop Hn. pose proof (Lrep_length _ _ _ _ _ H) as Hlen.
  destruct op as [k v|k|k|k]; cbn [list_op_user] in Hop; unfold user_key in Hop;
    cbn [run_list_op kv_list_op fst snd].
  - destruct (list_add_contents l m hd tl cs k v n H Hop Hn)
      as (m' & cs' & Hrun & H' & Hc & Hl & _).
    exists m', cs'. mstep Hrun. auto.
  - destruct (list_remove_contents l m hd tl cs k n H ltac:(lia) Hn)
      as (m' & cs' & Hrun & H' & Hc & Hl & _).
    exists m', cs'. mstep Hrun. split; [reflexivity|]. split; [exact H'|].
    split; [exact Hc|lia].
  - exists m, cs. mstep (list_contains_run l m hd tl cs k n H Hop ltac:(lia)). auto.
  - exists m, cs. mstep (list_get_run l m hd tl cs k n H Hop ltac:(lia)). auto.
Qed.

Lemma list_ops_refine l hd tl (ops : list list_op) (n : nat) :
  forall m cs,
    Lrep l m hd tl cs ->
    Forall list_op_user ops ->
    length (heap m) + length ops <= n ->
    exists m' cs',
      run_list_ops n l ops m = Ok ((kv_list_ops ops (Lcontents m cs)).1, m') /\
      Lrep l m' hd tl cs' /\
      Lcontents m' cs' = (kv_list_ops ops (Lcontents m cs)).2.
Proof.
  induction ops as [|op ops IH]; intros m cs H Hops Hn.
  - exists m, cs. auto.
  - apply Forall_cons in Hops as [Hop Hops]. simpl in Hn.
    destruct (list_op_refines l m hd tl cs op n H Hop ltac:(lia))
      as (m1 & cs1 & Hrun & H1 & Hc1 & Hl1).
    destruct (IH m1 cs1 H1 Hops ltac:(lia)) as (m' & cs' & Hrun' & H' & Hc').
    exists m', cs'. cbn [run_list_ops kv_list_ops fst snd].
    mstep Hrun. mstep Hrun'. rewrite Hc1 in Hc' |- *. auto.
Qed.

(** [add] then [get] and [contains]: the payload found is the one stored
    first. *)
Lemma list_add_get l m hd tl cs (k : Z) (v : T) (n : nat) :
  Lrep l m hd tl cs ->
  (0 < k < UINT64_MAX)%Z ->
  length (heap m) < n ->
  exists b m',
    add n l k v m = Ok (b, m') /\
    get n l k m' = Ok (Some (default v (kv_lookup k (Lcontents m cs))), m') /\
    contains n l k m' = Ok (true, m') /\
    (b = true <-> kv_lookup k (Lcontents m cs) = None).
Proof.
  intros H Hk Hn.
  destruct (list_add_contents l m hd tl cs k v n H Hk ltac:(lia))
    as (m' & cs' & Hrun & H' & Hc & Hl & _).
  pose proof (Lrep_length _ _ _ _ _ H') as Hlen.
  destruct (Lcontents_sorted l m hd tl cs H) as [Hs _].
  eexists _, m'. split; [exact Hrun|].
  rewrite (list_get_run l m' hd tl cs' k n H' Hk ltac:(lia)).
  rewrite (list_contains_run l m' hd tl cs' k n H' Hk ltac:(lia)).
  rewrite Hc, (kv_lookup_insert k v _ Hs).
  split; [destruct (kv_lookup k (Lcontents m cs)); reflexivity|]. split.
  - rewrite bool_decide_eq_true_2; [reflexivity|]. apply kv_insert_keys. auto.
  - rewrite negb_true_iff, bool_decide_eq_false, <- kv_lookup_is_Some.
    rewrite <- eq_None_not_Some. reflexivity.
Qed.

Lemma sorted_key_inj (ky : addr -> Z) (xs : list addr) (a b : addr) :
  StronglySorted (klt ky) xs -> a ∈ xs -> b ∈ xs -> ky a = ky b -> a = b.
Proof.
  induction 1 as [|x xs Hs IH Hall]; intros Ha Hb Hk; [set_solver|].
  rewrite Forall_forall in Hall. unfold klt in Hall.
  apply elem_of_cons in Ha as [->|Ha]; apply elem_of_cons in Hb as [->|Hb]; auto.
  - specialize (Hall b Hb). lia.
  - specialize (Hall a Ha). lia.
Qed.

(** [add] of an absent key then [remove] of it: the list holds what it
    held, the node that was added is retired, and the protection depth is
    back where it was. *)
Lemma list_add_remove l m hd tl cs (k : Z) (v : T) (n : nat) :
  Lrep l m hd tl cs ->
  (0 < k < UINT64_MAX)%Z ->
  k ∉ (Lcontents m cs).*1 ->
  length (heap m) < n ->
  exists m1 m2 cs2,
    add n l k v m = Ok (true, m1) /\
    remove n l k m1 = Ok (true, m2) /\
    Lrep l m2 hd tl cs2 /\
    Lcontents m2 cs2 = Lcontents m cs /\
    depth (calls m2) = depth (calls m) /\
    retired (calls m2) = Some (length (heap m)) :: retired (calls m).
Proof.
  intros H Hk Habs Hn.
  destruct (list_add_contents l m hd tl cs k v n H Hk ltac:(lia))
    as (m1 & cs1 & Hrun & H1 & Hc1 & Hl1 & Hret1 & Hnew).
  rewrite bool_decide_eq_false_2 in Hrun by exact Habs. cbn [negb] in Hrun.
  destruct (Hnew Habs) as (Hdep1 & HN & HkN).
  destruct (list_remove_contents l m1 hd tl cs1 k n H1 ltac:(lia) ltac:(lia))
    as (m2 & cs2 & Hrun2 & H2 & Hc2 & Hl2 & Hdep2 & _ & Hret2).
  assert (k ∈ (Lcontents m1 cs1).*1) as Hin by (rewrite Hc1; apply kv_insert_keys; auto).
  rewrite bool_decide_eq_true_2 in Hrun2 by exact Hin.
  exists m1, m2, cs2. split; [exact Hrun|]. split; [exact Hrun2|]. split; [exact H2|].
  split; [rewrite Hc2, Hc1; apply kv_remove_insert, Habs|].
  split; [rewrite Hdep2; exact Hdep1|].
  destruct (Hret2 Hin) as (r & Hr & _ & Hkr & ->). rewrite Hret1. do 2 f_equal.
  pose proof (Lrep_sorted _ _ _ _ _ H1) as Hs.
  apply StronglySorted_cons in Hs as [_ Hs]. apply StronglySorted_app_1_l in Hs.
  apply (sorted_key_inj (kyL (heap m1)) cs1); auto. congruence.
Qed.

End ListSequences.

(** ** The key of the tail sentinel as an argument of the list *)

Section ListTailKey.
Import LockFreeList.
Context {T : Type}.
Implicit Types (m : mem T) (l : List) (h : list (LNode T)).

Lemma bind_Fault {S A B : Type} (c : M S A) (k : A -> M S B) (s : S) :
  c s = Fault -> bind c k s = Fault.
Proof. unfold bind. intros ->. reflexivity. Qed.

(** The window of the largest key is the last node and tail. *)
Lemma list_find_tail l m hd tl cs (n : nat) :
  Lrep l m hd tl cs -> length (heap m) <= n ->
  find n (head l) UINT64_MAX m = Ok ((Some (end_of hd cs), Some tl), m).
Proof.
  intros H Hn.
  destruct (list_find_run l m hd tl cs UINT64_MAX n H ltac:(lia) Hn)
    as (pre & c & post & Heq & Hall & Hc & Hrun).
  pose proof (Lrep_sorted _ _ _ _ _ H) as Hs.
  apply StronglySorted_cons in Hs as [_ Hs]. rewrite Heq in Hs.
  apply StronglySorted_app in Hs as (_ & _ & Hs).
  apply StronglySorted_cons in Hs as [Hpost _].
  assert (post = []) as ->.
  { destruct post as [|x post _] using rev_ind; [reflexivity|exfalso].
    rewrite app_comm_cons, app_assoc in Heq. apply app_inj_tail in Heq as [_ <-].
    rewrite Forall_forall in Hpost. specialize (Hpost tl ltac:(set_solver)).
    unfold klt in Hpost. rewrite (Lrep_tl_key _ _ _ _ _ H) in Hpost. lia. }
  apply (app_inj_tail cs pre tl c) in Heq as [-> ->]. exact Hrun.
Qed.

Lemma list_add_tail_key l m hd tl cs (v : T) (n : nat) :
  Lrep l m hd tl cs -> length (heap m) <= n ->
  add n l UINT64_MAX v m = Ok (false, MkMem (heap m) (EnterEpoch thread_id :: calls m)).
Proof.
  intros H Hn. pose proof (Lrep_length _ _ _ _ _ H) as Hlen.
  set (m0 := MkMem (heap m) (EnterEpoch thread_id :: calls m)).
  assert (Lrep l m0 hd tl cs) as H0 by (apply (Lrep_heap l m); [reflexivity|exact H]).
  destruct n as [|n']; [lia|].
  assert (add (S n') l UINT64_MAX v m = add_loop (S n') (S n') l UINT64_MAX v m0) as ->
    by reflexivity.
  simpl add_loop. mstep (list_find_tail l m0 hd tl cs (S n') H0 Hn).
  destruct (Lrep_tl_ref _ _ _ _ _ H) as [p Hp].
  pose proof Hp as (nt & Hnt & _)%nxL_Some.
  mstep (load_run m0 _ _ Hnt).
  rewrite <- (kyL_load _ _ _ Hnt), (Lrep_tl_key _ _ _ _ _ H), Z.eqb_refl. reflexivity.
Qed.

Lemma list_remove_tail_key l m hd tl cs (n : nat) :
  Lrep l m hd tl cs ->
  nxL (heap m) tl = Some (None, false) ->
  length (heap m) <= n ->
  remove n l UINT64_MAX m
  = Ok (true, MkMem (heap_without_tail (heap m) (end_of hd cs) tl)
                    (LeaveEpoch thread_id :: RetireNode (Some tl) currentEpoch
                     :: EnterEpoch thread_id :: calls m)).
Proof.
  intros H Htl Hn. pose proof (Lrep_length _ _ _ _ _ H) as Hlen.
  set (m0 := MkMem (heap m) (EnterEpoch thread_id :: calls m)).
  assert (Lrep l m0 hd tl cs) as H0 by (apply (Lrep_heap l m); [reflexivity|exact H]).
  destruct n as [|n']; [lia|].
  unfold remove. unfold enterEpoch at 1, modify at 1, bind at 1. fold m0.
  simpl remove_mark. rewrite bind_Ok with (a := Some (Some (end_of hd cs), Some tl, None))
    (s' := MkMem (updL (heap m) tl None true) (calls m0)).
  2:{ mstep (list_find_tail l m0 hd tl cs (S n') H0 Hn).
      pose proof Htl as (nt & Hnt & _)%nxL_Some.
      mstep (load_run m0 _ _ Hnt).
      rewrite <- (kyL_load _ _ _ Hnt), (Lrep_tl_key _ _ _ _ _ H), Z.eqb_refl.
      cbn [negb].
      mstep (getReference_run m0 _ _ _ Htl). mstep (attemptMark_run m0 _ _ Htl).
      reflexivity. }
  cbv beta iota. unfold remove_unlink.
  set (m1 := MkMem (updL (heap m) tl None true) (calls m0)).
  pose proof (Lrep_path _ _ _ _ _ H) as Hp. apply path_app in Hp as [_ Hp].
  destruct Hp as [Hp _].
  pose proof (Lrep_NoDup _ _ _ _ _ H) as Hnd.
  assert (end_of hd cs <> tl) as Hne.
  { pose proof (end_of_elem hd cs) as Hin. intros E. rewrite E in Hin.
    rewrite app_comm_cons in Hnd. apply NoDup_app in Hnd as (_ & Hd & _).
    apply (Hd tl Hin). set_solver. }
  assert (nxL (heap m1) (end_of hd cs) = Some (Some tl, false)) as Hp1.
  { subst m1. cbn [heap]. rewrite nxL_updL_ne by exact Hne. exact Hp. }
  mstep (compareAndSet_run m1 _ _ _ None false Hp1).
  reflexivity.
Qed.

(** A search that runs off the end of a chain. *)
Lemma list_walk_off m (key0 : Z) (n : nat) :
  forall ys p c fuel,
    path (nxL (heap m)) c ys ->
    Forall (fun a => (kyL (heap m) a < key0)%Z) (c :: ys) ->
    nxL (heap m) (end_of c ys) = Some (None, false) ->
    length ys + 1 < fuel ->
    walk n fuel key0 (Some p) (Some c) m = Fault.
Proof.
  induction ys as [|y ys IH]; intros p c fuel Hp Hall Hend Hf;
    (destruct fuel as [|fuel]; [simpl in Hf; lia|]); simpl walk;
    apply Forall_cons in Hall as [Hkc Hall].
  - simpl in Hend. pose proof Hend as (nc & Hnc & _)%nxL_Some.
    mstep (get_next_run _ _ _ _ Hend). rewrite snip_loop_clean. mret.
    mstep (load_run _ _ _ Hnc). rewrite (kyL_load _ _ _ Hnc) in Hkc.
    rewrite Z.geb_leb, (proj2 (Z.leb_gt _ _)) by lia.
    destruct fuel as [|fuel]; [simpl in Hf; lia|]. reflexivity.
  - simpl in Hp, Hend, Hf. destruct Hp as [Hc Hp].
    pose proof Hc as (nc & Hnc & _)%nxL_Some.
    mstep (get_next_run _ _ _ _ Hc). rewrite snip_loop_clean. mret.
    mstep (load_run _ _ _ Hnc). rewrite (kyL_load _ _ _ Hnc) in Hkc.
    rewrite Z.geb_leb, (proj2 (Z.leb_gt _ _)) by lia.
    apply IH; auto. lia.
Qed.

Lemma list_get_off m (key0 : Z) :
  forall ys c mk fuel,
    path (nxL (heap m)) c ys ->
    Forall (fun a => (kyL (heap m) a < key0)%Z) (c :: ys) ->
    nxL (heap m) (end_of c ys) = Some (None, false) ->
    length ys + 1 < fuel ->
    get_loop fuel key0 (Some c) mk m = Fault.
Proof.
  induction ys as [|y ys IH]; intros c mk fuel Hp Hall Hend Hf;
    (destruct fuel as [|fuel]; [simpl in Hf; lia|]); simpl get_loop;
    apply Forall_cons in Hall as [Hkc Hall].
  - simpl in Hend. pose proof Hend as (nc & Hnc & _)%nxL_Some.
    mstep (load_run _ _ _ Hnc). rewrite (kyL_load _ _ _ Hnc) in Hkc.
    rewrite (proj2 (Z.ltb_lt _ _)) by lia.
    mstep (get_next_run _ _ _ _ Hend).
    destruct fuel as [|fuel]; [simpl in Hf; lia|]. reflexivity.
  - simpl in Hp, Hend, Hf. destruct Hp as [Hc Hp].
    pose proof Hc as (nc & Hnc & _)%nxL_Some.
    mstep (load_run _ _ _ Hnc). rewrite (kyL_load _ _ _ Hnc) in Hkc.
    rewrite (proj2 (Z.ltb_lt _ _)) by lia.
    mstep (get_next_run _ _ _ _ Hc). apply IH; auto. lia.
Qed.

Lemma list_contains_off m (key0 : Z) :
  forall ys c fuel,
    path (nxL (heap m)) c ys ->
    Forall (fun a => (kyL (heap m) a < key0)%Z) (c :: ys) ->
    nxL (heap m) (end_of c ys) = Some (None, false) ->
    length ys + 1 < fuel ->
    contains_loop fuel key0 (Some c) m = Ok (false, m).
Proof.
  induction ys as [|y ys IH]; intros c fuel Hp Hall Hend Hf;
    (destruct fuel as [|fuel]; [simpl in Hf; lia|]); simpl contains_loop;
    apply Forall_cons in Hall as [Hkc Hall].
  - simpl in Hend. pose proof Hend as (nc & Hnc & _)%nxL_Some.
    mstep (getReference_run _ _ _ _ Hend). mstep (getMark_run _ _ _ _ Hend).
    mstep (load_run _ _ _ Hnc). rewrite (kyL_load _ _ _ Hnc) in Hkc.
    rewrite Z.geb_leb, (proj2 (Z.leb_gt _ _)) by lia.
    destruct fuel as [|fuel]; [simpl in Hf; lia|]. reflexivity.
  - simpl in Hp, Hend, Hf. destruct Hp as [Hc Hp].
    pose proof Hc as (nc & Hnc & _)%nxL_Some.
    mstep (getReference_run _ _ _ _ Hc). mstep (getMark_run _ _ _ _ Hc).
    mstep (load_run _ _ _ Hnc). rewrite (kyL_load _ _ _ Hnc) in Hkc.
    rewrite Z.geb_leb, (proj2 (Z.leb_gt _ _)) by lia.
    apply IH; auto. lia.
Qed.

(** The chain that [remove(UINT64_MAX)] leaves. *)
Lemma path_without_tail h (tl : addr) :
  forall cs hd,
    path (nxL h) hd cs -> NoDup (hd :: cs) -> tl ∉ hd :: cs ->
    path (nxL (heap_without_tail h (end_of hd cs) tl)) hd cs.
Proof.
  induction cs as [|c cs IH]; intros hd Hcs Hnd Hntl; [exact I|].
  destruct Hcs as [Hhd Hcs]. cbn [end_of]. split.
  - unfold heap_without_tail.
    rewrite nxL_updL_ne, nxL_updL_ne; [exact Hhd|set_solver|].
    apply NoDup_cons in Hnd as [Hhd' _]. intros E. apply Hhd'. rewrite E.
    apply end_of_elem.
  - apply NoDup_cons in Hnd as [_ Hnd]. apply (IH c Hcs Hnd). set_solver.
Qed.

Lemma without_tail_chain l m hd tl cs :
  Lrep l m hd tl cs ->
  let h' := heap_without_tail (heap m) (end_of hd cs) tl in
  path (nxL h') hd cs /\
  nxL h' (end_of hd cs) = Some (None, false) /\
  (forall x, kyL h' x = kyL (heap m) x).
Proof.
  intros H h'. pose proof (Lrep_path _ _ _ _ _ H) as Hp.
  apply path_app in Hp as [Hcs Hlast]. destruct Hlast as [Hlast _].
  pose proof (Lrep_NoDup _ _ _ _ _ H) as Hnd.
  rewrite app_comm_cons in Hnd. apply NoDup_app in Hnd as (Hnd' & Hd & _).
  assert (tl ∉ hd :: cs) as Hntl by (intros Hx; apply (Hd tl Hx); set_solver).
  assert (end_of hd cs < length (heap m)) as Hplt by (eapply nxL_lt; eauto).
  split; [|split].
  - apply path_without_tail; auto.
  - subst h'. unfold heap_without_tail. apply nxL_updL_eq. rewrite length_updL. exact Hplt.
  - intros x. subst h'. unfold heap_without_tail. rewrite !kyL_updL. reflexivity.
Qed.

(** After [remove(UINT64_MAX)] a search for a key above the stored ones
    leaves the chain: [contains] answers false, [get] and [add] follow a
    null pointer. *)
Lemma list_after_tail_removed l m hd tl cs (n : nat) (calls' : list epoch_call)
    (k : Z) (v : T) :
  Lrep l m hd tl cs ->
  (0 < k)%Z ->
  Forall (fun j => (j < k)%Z) (Lcontents m cs).*1 ->
  length (heap m) < n ->
  let m' := MkMem (heap_without_tail (heap m) (end_of hd cs) tl) calls' in
  contains n l k m' = Ok (false, m') /\
  get n l k m' = Fault /\
  add n l k v m' = Fault.
Proof.
  intros H Hk Hall Hn m'.
  destruct (without_tail_chain l m hd tl cs H) as (Hp & Hend & Hky).
  pose proof (Lrep_length _ _ _ _ _ H) as Hlen.
  assert (Forall (fun a => (kyL (heap m') a < k)%Z) (hd :: cs)) as Hall'.
  { constructor.
    - cbn [heap m']. rewrite Hky, (Lrep_hd_key _ _ _ _ _ H). exact Hk.
    - rewrite (Lcontents_keys l m hd tl cs H) in Hall. unfold Lkeys in Hall.
      rewrite Forall_fmap in Hall. eapply Forall_impl; [exact Hall|].
      intros a Ha. cbn [heap m']. rewrite Hky. exact Ha. }
  split; [|split].
  - unfold contains. rewrite (Lrep_head _ _ _ _ _ H).
    apply (list_contains_off m' k cs hd n Hp Hall' Hend). lia.
  - unfold get. rewrite (Lrep_head _ _ _ _ _ H). apply bind_Fault.
    apply (list_get_off m' k cs hd false n Hp Hall' Hend). lia.
  - unfold add. unfold enterEpoch at 1, modify at 1, bind at 1.
    destruct n as [|n']; [lia|]. simpl add_loop. apply bind_Fault.
    unfold find. simpl find_loop. rewrite (Lrep_head _ _ _ _ _ H).
    set (m0 := MkMem (heap m') (EnterEpoch thread_id :: calls m')).
    destruct cs as [|c cs].
    + cbn [end_of] in Hend. mstep (getReference_run m0 _ _ _ Hend).
      apply bind_Fault. reflexivity.
    + destruct Hp as [Hhd Hp]. mstep (getReference_run m0 _ _ _ Hhd).
      apply bind_Fault. apply Forall_cons in Hall' as [_ Hall'].
      apply (list_walk_off m0 k (S n') cs hd c (S n') Hp Hall' Hend).
      simpl in Hlen. lia.
Qed.

End ListTailKey.

(** ** Sequences of operations on the skip list *)

Ltac pow2 :=
  change (2 ^ 31)%Z with 2147483648%Z in *;
  change (2 ^ 32)%Z with 4294967296%Z in *;
  change (2 ^ 64)%Z with 18446744073709551616%Z in *.


Section SkipSequences.
Import LockFreeSkipList.
Context {T : Type}.
Implicit Types (m : mem T) (sl : SkipList) (h : list (SNodeBase T)).

(** The key of a caller that fits the [int] parameter of [add]. *)
Lemma to_uint64_to_int_small (k : Z) :
  (0 <= k < 2 ^ 31)%Z -> to_uint64 (to_int k) = k.
Proof.
  intros Hk. unfold to_uint64, to_int. pow2.
  rewrite (Z.mod_small (k + 2147483648)) by lia.
  rewrite Z.mod_small by lia. lia.
Qed.

(** One operation does to the skip list what [kv_skip_op] does to its
    contents; a search needs a tidy state. *)
Lemma skip_op_refines sl m hd tl ch (op : skip_op) (n : nat) :
  SLrep sl m hd tl ch ->
  skip_op_small op ->
  (skip_op_reads op = true -> SLtidy ch) ->
  length (heap m) <= n ->
  exists m' ch',
    run_skip_op n sl op m = Ok ((kv_skip_op op (SLcontents m ch)).1, m') /\
    SLrep sl m' hd tl ch' /\
    SLcontents m' ch' = (kv_skip_op op (SLcontents m ch)).2 /\
    length (heap m') <= S (length (heap m)) /\
    (skip_op_pops op = false -> SLtidy ch -> SLtidy ch').
Proof.
  intros H Hop Hrd Hn. pose proof (SLrep_length _ _ _ _ _ 0 H ltac:(lia)) as Hlen.
  destruct op as [k v flips|k|k|k|]; cbn [skip_op_small] in Hop; unfold user_key in Hop;
    cbn [run_skip_op kv_skip_op fst snd skip_op_pops].
  - pose proof (to_uint64_to_int_small k ltac:(lia)) as Hconv.
    destruct (skip_add_contents sl m hd tl ch k v flips n H
                ltac:(rewrite Hconv; unfold UINT64_MAX; pow2; lia) Hn)
      as (m' & ch' & Hrun & H' & Hc & Ht & _ & Hl & _).
    rewrite Hconv in Hrun, Hc.
    exists m', ch'. mstep Hrun. split; [reflexivity|]. split; [exact H'|].
    split; [exact Hc|]. split; [lia|auto].
  - destruct (skip_remove_contents sl m hd tl ch k n H ltac:(lia) Hn)
      as (m' & ch' & Hrun & H' & Hc & Ht & _ & Hl & _).
    exists m', ch'. mstep Hrun. split; [reflexivity|]. split; [exact H'|].
    split; [exact Hc|]. split; [lia|auto].
  - exists m, ch.
    mstep (skip_contains_run sl m hd tl ch k n H (Hrd eq_refl) ltac:(lia) Hn).
    split; [reflexivity|]. split; [exact H|]. split; [reflexivity|]. split; [lia|auto].
  - exists m, ch.
    mstep (skip_get_run sl m hd tl ch k n H (Hrd eq_refl) ltac:(lia) Hn).
    split; [reflexivity|]. split; [exact H|]. split; [reflexivity|]. split; [lia|auto].
  - destruct (skip_popMin_contents sl m hd tl ch n H ltac:(lia))
      as (m' & ch' & Hrun & H' & Hc & _ & Hl & _).
    exists m', ch'. mstep Hrun. split; [reflexivity|]. split; [exact H'|].
    split; [exact Hc|]. split; [lia|discriminate].
Qed.

(** Insertions, removals and extractions of the minimum, on every
    well-formed skip list. *)
Lemma skip_ops_refine_writes sl hd tl (ops : list skip_op) (n : nat) :
  forall m ch,
    SLrep sl m hd tl ch ->
    Forall (fun op => skip_op_small op /\ skip_op_reads op = false) ops ->
    length (heap m) + length ops <= n ->
    exists m' ch',
      run_skip_ops n sl ops m = Ok ((kv_skip_ops ops (SLcontents m ch)).1, m') /\
      SLrep sl m' hd tl ch' /\
      SLcontents m' ch' = (kv_skip_ops ops (SLcontents m ch)).2.
Proof.
  induction ops as [|op ops IH]; intros m ch H Hops Hn.
  - exists m, ch. auto.
  - apply Forall_cons in Hops as [[Hop Hrd] Hops]. simpl in Hn.
    destruct (skip_op_refines sl m hd tl ch op n H Hop ltac:(congruence) ltac:(lia))
      as (m1 & ch1 & Hrun & H1 & Hc1 & Hl1 & _).
    destruct (IH m1 ch1 H1 Hops ltac:(lia)) as (m' & ch' & Hrun' & H' & Hc').
    exists m', ch'. cbn [run_skip_ops kv_skip_ops fst snd].
    mstep Hrun. mstep Hrun'. rewrite Hc1 in Hc' |- *. auto.
Qed.

(** Every operation but the extraction of the minimum, from a tidy state. *)
Lemma skip_ops_refine_tidy sl hd tl (ops : list skip_op) (n : nat) :
  forall m ch,
    SLrep sl m hd tl ch ->
    SLtidy ch ->
    Forall (fun op => skip_op_small op /\ skip_op_pops op = false) ops ->
    length (heap m) + length ops <= n ->
    exists m' ch',
      run_skip_ops n sl ops m = Ok ((kv_skip_ops ops (SLcontents m ch)).1, m') /\
      SLrep sl m' hd tl ch' /\
      SLtidy ch' /\
      SLcontents m' ch' = (kv_skip_ops ops (SLcontents m ch)).2.
Proof.
  induction ops as [|op ops IH]; intros m ch H Ht Hops Hn.
  - exists m, ch. auto.
  - apply Forall_cons in Hops as [[Hop Hpop] Hops]. simpl in Hn.
    destruct (skip_op_refines sl m hd tl ch op n H Hop ltac:(auto) ltac:(lia))
      as (m1 & ch1 & Hrun & H1 & Hc1 & Hl1 & Ht1).
    destruct (IH m1 ch1 H1 (Ht1 Hpop Ht) Hops ltac:(lia))
      as (m' & ch' & Hrun' & H' & Ht' & Hc').
    exists m', ch'. cbn [run_skip_ops kv_skip_ops fst snd].
    mstep Hrun. mstep Hrun'. rewrite Hc1 in Hc' |- *. auto.
Qed.

Lemma to_uint64_to_int_fixed (k : Z) :
  (0 <= k < 2 ^ 64)%Z ->
  (to_uint64 (to_int k) = k <-> k < 2 ^ 31 \/ 2 ^ 64 - 2 ^ 31 <= k)%Z.
Proof.
  intros Hk. split.
  - intros E. unfold to_uint64, to_int in E. pow2.
    pose proof (Z.mod_pos_bound (k + 2147483648) 4294967296 ltac:(lia)) as Hb.
    set (r := ((k + 2147483648) mod 4294967296)%Z) in *.
    destruct (Z.lt_ge_cases r 2147483648) as [Hr|Hr].
    + assert ((r - 2147483648) mod 18446744073709551616
              = r - 2147483648 + 18446744073709551616)%Z as E'.
      { symmetry. apply (Z.mod_unique _ _ (-1)); lia. }
      rewrite E' in E. lia.
    + rewrite Z.mod_small in E by lia. lia.
  - intros [Hlt|Hge]; [apply to_uint64_to_int_small; lia|].
    unfold to_uint64, to_int. pow2.
    assert ((k + 2147483648) mod 4294967296 = k + 2147483648 - 18446744073709551616)%Z
      as ->.
    { symmetry. apply (Z.mod_unique _ _ 4294967296); lia. }
    symmetry. apply (Z.mod_unique _ _ (-1)); lia.
Qed.

(** [add] then [get] and [contains], on a tidy state: the payload found is
    the one stored first. *)
Lemma skip_add_get sl m hd tl ch (key : Z) (x : T) (flips : list bool) (n : nat) :
  SLrep sl m hd tl ch ->
  SLtidy ch ->
  (0 < key < 2 ^ 31)%Z ->
  length (heap m) < n ->
  exists b m',
    add n sl key x flips m = Ok (b, m') /\
    get n sl key m' = Ok (Some (default x (kv_lookup key (SLcontents m ch))), m') /\
    contains n sl key m' = Ok (true, m') /\
    (b = true <-> kv_lookup key (SLcontents m ch) = None).
Proof.
  intros H Ht Hk Hn.
  pose proof (to_uint64_to_int_small key ltac:(lia)) as Hconv.
  assert (key < UINT64_MAX)%Z as Hmax by (unfold UINT64_MAX; pow2; lia).
  destruct (skip_add_contents sl m hd tl ch key x flips n H
              ltac:(rewrite Hconv; lia) ltac:(lia))
    as (m' & ch' & Hrun & H' & Hc & Ht' & _ & Hl & _).
  rewrite Hconv in Hrun, Hc.
  destruct (SLcontents_sorted sl m hd tl ch H) as [Hs _].
  eexists _, m'. split; [exact Hrun|].
  rewrite (skip_get_run sl m' hd tl ch' key n H' (Ht' Ht) Hmax ltac:(lia)).
  rewrite (skip_contains_run sl m' hd tl ch' key n H' (Ht' Ht) Hmax ltac:(lia)).
  rewrite Hc, (kv_lookup_insert key x _ Hs).
  split; [destruct (kv_lookup key (SLcontents m ch)); reflexivity|]. split.
  - rewrite bool_decide_eq_true_2; [reflexivity|]. apply kv_insert_keys. auto.
  - rewrite negb_true_iff, bool_decide_eq_false, <- kv_lookup_is_Some.
    rewrite <- eq_None_not_Some. reflexivity.
Qed.

(** ** The key of the tail sentinel as an argument of the skip list *)

Lemma from_all_below (ky : addr -> Z) (k : Z) (cs : list addr) :
  Forall (fun a => (ky a < k)%Z) cs -> from ky k cs = [].
Proof.
  intros Hall. destruct (below_app_lt ky k cs [] Hall) as [_ Hf].
  rewrite app_nil_r in Hf. exact Hf.
Qed.

Lemma succ_at_tail sl m hd tl ch :
  SLrep sl m hd tl ch -> succ_at (heap m) tl ch UINT64_MAX 0 = tl.
Proof.
  intros H. unfold succ_at. rewrite from_all_below; [reflexivity|].
  destruct (SLrep_bottom_sorted sl m hd tl ch H) as [_ Hr].
  eapply Forall_impl; [exact Hr|]. simpl. intros; lia.
Qed.

Lemma skip_contains_tail_key sl m hd tl ch (n : nat) :
  SLrep sl m hd tl ch -> SLtidy ch -> length (heap m) <= n ->
  contains n sl UINT64_MAX m = Ok (true, m).
Proof.
  intros H Ht Hn. unfold contains. rewrite (SL_head _ _ _ _ _ H).
  mstep (contains_levels_tidy sl m hd tl ch UINT64_MAX n H Ht ltac:(lia) Hn (MAX_LEVEL - 1)
           [] (ch (MAX_LEVEL - 1)) ltac:(unfold MAX_LEVEL; lia) eq_refl
           (Forall_nil_2 _)).
  rewrite (succ_at_tail sl m hd tl ch H).
  destruct (SL_tl_ref _ _ _ _ _ H 0 ltac:(lia)) as [q Hq].
  pose proof Hq as (nt & Hnt & _)%nxS_Some.
  mstep (load_runS _ _ _ Hnt).
  rewrite <- (kyS_load _ _ _ Hnt), (SL_tl_key _ _ _ _ _ H), Z.eqb_refl. reflexivity.
Qed.

(** An argument of [add] that becomes the key of tail is taken for a
    duplicate. *)
Lemma skip_add_tail_key sl m hd tl ch (key : Z) (x : T) (flips : list bool) (n : nat) :
  SLrep sl m hd tl ch ->
  to_uint64 (to_int key) = UINT64_MAX ->
  length (heap m) <= n ->
  add n sl key x flips m
  = Ok (false, MkMem (heap m) (LeaveEpoch thread_id :: EnterEpoch thread_id :: calls m)).
Proof.
  intros H Hkey Hn. pose proof (SLrep_length _ _ _ _ _ 0 H ltac:(lia)) as Hlen.
  set (m0 := MkMem (heap m) (EnterEpoch thread_id :: calls m)).
  assert (SLrep sl m0 hd tl ch) as H0 by (apply (SLrep_heap sl m m0); [reflexivity|exact H]).
  destruct n as [|n']; [lia|].
  assert (add (S n') sl key x flips m
          = add_loop (S n') (S n') sl (to_int key) x (randomLevel MAX_LEVEL flips) None
              (replicate (S MAX_LEVEL) None) (replicate (S MAX_LEVEL) None) m0) as ->
    by reflexivity.
  destruct (find_run sl m0 hd tl ch UINT64_MAX (S n') (replicate (S MAX_LEVEL) None)
              (replicate (S MAX_LEVEL) None) H0 ltac:(lia) Hn)
    as (preds' & succs' & Hfind & _); try apply length_replicate.
  simpl add_loop. rewrite Hkey. mstep Hfind.
  change (heap m0) with (heap m).
  rewrite (succ_at_tail sl m hd tl ch H), (SL_tl_key _ _ _ _ _ H), Z.eqb_refl.
  reflexivity.
Qed.

(** ** SkipList::advancePred on a chain without marked nodes *)

Lemma path_source_in (nx : addr -> option (ptr * bool)) (a : addr) (xs : list addr)
    (x : addr) :
  path nx a xs -> x ∈ a :: xs -> x <> end_of a xs ->
  exists y, y ∈ xs /\ nx x = Some (Some y, false).
Proof.
  revert a; induction xs as [|y xs IH]; intros a Hp Hx Hne; simpl in *.
  - set_solver.
  - destruct Hp as [Ha Hp]. apply elem_of_cons in Hx as [->|Hx].
    + exists y. split; [set_solver|exact Ha].
    + destruct (IH y Hp Hx Hne) as (z & Hz & Hnz). exists z. split; [set_solver|exact Hnz].
Qed.

Lemma advancePred_run sl m hd tl ch (lv : nat) (p : addr) (n : nat) :
  SLrep sl m hd tl ch -> lv <= MAX_LEVEL -> p ∈ hd :: ch lv -> 0 < n ->
  advancePred n (Some p) lv m = Ok (Some p, m).
Proof.
  intros H Hlv Hp Hn. destruct n as [|n']; [lia|].
  destruct (path_source_in (nxS (heap m) lv) hd (ch lv ++ [tl]) p) as (c & Hcin & Hc).
  - apply (SL_path _ _ _ _ _ H lv Hlv).
  - set_solver.
  - rewrite end_of_snoc. intros ->.
    pose proof (SL_NoDup _ _ _ _ _ H lv Hlv) as Hnd.
    rewrite app_comm_cons in Hnd. apply NoDup_app in Hnd as (_ & Hd & _).
    apply (Hd tl Hp). set_solver.
  - unfold advancePred. mstep (getReference_runS _ _ _ _ _ Hc).
    destruct (SLrep_valid _ _ _ _ _ lv c H Hlv ltac:(set_solver)) as [s Hs].
    simpl advancePred_loop. mstep (get_next_runS _ _ _ _ _ Hs).
    destruct s; reflexivity.
Qed.

End SkipSequences.

(** ** The loops of main.cpp *)

Section MainLoops.
Import LockFreeSkipList.
Implicit Types (sl : SkipList).

(** The drain loop prints the payloads held, in key order, and leaves the
    skip list empty. *)
Lemma drain_contents {T : Type} (sl : SkipList) hd tl (n : nat) :
  0 < n ->
  forall cs ch (m : mem T),
    SLrep sl m hd tl ch -> ch 0 = cs ->
    exists m' ch',
      drain n (S (length cs)) sl m = Ok ((SLcontents m ch).*2, m') /\
      SLrep sl m' hd tl ch' /\ SLcontents m' ch' = [] /\
      length (heap m') = length (heap m).
Proof.
  intros Hn. induction cs as [|c cs IH]; intros ch m H Hch;
    destruct (skip_popMin_contents sl m hd tl ch n H Hn)
      as (m1 & ch1 & Hpop & H1 & Hc1 & _ & Hl1 & _ & Hstep).
  - assert (SLcontents m ch = []) as HC by (unfold SLcontents, SLpairs; rewrite Hch; reflexivity).
    rewrite HC in Hpop, Hc1 |- *. exists m1, ch1. simpl drain. mstep Hpop. auto.
  - destruct (kdS_live sl m hd tl ch c H ltac:(rewrite Hch; set_solver)) as [v Hv].
    assert (SLcontents m ch = (kyS (heap m) c, v) :: SLpairs m cs) as HC.
    { unfold SLcontents. rewrite Hch. apply SLpairs_cons, Hv. }
    rewrite HC in Hpop, Hc1 |- *. cbn [List.head List.tl fmap option_fmap option_map snd] in Hpop, Hc1.
    destruct (Hstep c cs Hch) as (-> & _).
    destruct (IH (ch_pop ch) m1 H1) as (m' & ch' & Hrun & H' & Hc' & Hl').
    { cbn [ch_pop]. rewrite Hch. reflexivity. }
    exists m', ch'. cbn [length]. simpl drain. mstep Hpop. mstep Hrun.
    rewrite Hc1. split; [reflexivity|]. split; [exact H'|]. split; [exact Hc'|]. lia.
Qed.

Lemma worker2_loop_run sl hd tl (rnd : Z -> list bool) (n : nat) :
  forall cnt (i : Z) (m : mem Z) ch,
    SLrep sl m hd tl ch ->
    (0 < i)%Z -> (i + Z.of_nat cnt <= 2 ^ 31)%Z ->
    Forall (fun p => (p.1 < i)%Z) (SLcontents m ch) ->
    length (heap m) + cnt <= n ->
    exists m' ch',
      worker2_loop n cnt sl i rnd m = Ok (tt, m') /\
      SLrep sl m' hd tl ch' /\
      SLcontents m' ch'
      = SLcontents m ch ++ ((fun j => (j, j * 10)%Z) <$> seqZ i (Z.of_nat cnt)) /\
      length (heap m') <= length (heap m) + cnt /\
      (SLtidy ch -> SLtidy ch').
Proof.
  induction cnt as [|cnt IH]; intros i m ch H Hi Hend Hall Hn.
  - exists m, ch. simpl. rewrite app_nil_r. split; [reflexivity|]. auto with lia.
  - pose proof (to_uint64_to_int_small i ltac:(lia)) as Hconv.
    destruct (skip_add_contents sl m hd tl ch i (i * 10)%Z (rnd i) n H
                ltac:(rewrite Hconv; unfold UINT64_MAX; pow2; lia) ltac:(lia))
      as (m1 & ch1 & Hrun & H1 & Hc1 & Ht1 & _ & Hl1 & _).
    rewrite Hconv in Hc1.
    assert (SLcontents m1 ch1 = SLcontents m ch ++ [(i, (i * 10)%Z)]) as Hc1'.
    { rewrite Hc1. rewrite <- (app_nil_r (SLcontents m ch)) at 1.
      apply kv_insert_split; [exact Hall|constructor]. }
    destruct (IH (i + 1)%Z m1 ch1 H1 ltac:(lia) ltac:(lia)) as (m' & ch' & Hrun' & H' & Hc' & Hl' & Ht').
    { rewrite Hc1'. apply Forall_app. split.
      - eapply Forall_impl; [exact Hall|]. simpl. intros; lia.
      - constructor; [simpl; lia|constructor]. }
    { lia. }
    exists m', ch'. simpl worker2_loop. mstep Hrun. split; [exact Hrun'|].
    split; [exact H'|]. split; [|split; [lia|auto]].
    rewrite Hc', Hc1', <- app_assoc. f_equal.
    rewrite Nat2Z.inj_succ, (seqZ_cons i) by lia. rewrite Z.pred_succ.
    rewrite fmap_cons. reflexivity.
Qed.

Lemma worker_step_run sl (m : mem Z) hd tl ch (i : Z) (flips : list bool) (f : failures) (n : nat) :
  SLrep sl m hd tl ch -> SLtidy ch ->
  (0 < i < 2 ^ 31)%Z ->
  i ∉ (SLcontents m ch).*1 ->
  length (heap m) < n ->
  exists m' ch',
    worker_step n sl i flips f m = Ok (f, m') /\
    SLrep sl m' hd tl ch' /\ SLtidy ch' /\
    SLcontents m' ch' = SLcontents m ch /\
    length (heap m') <= S (length (heap m)).
Proof.
  intros H Ht Hi Habs Hn.
  pose proof (to_uint64_to_int_small i ltac:(lia)) as Hconv.
  assert (0 < i < UINT64_MAX)%Z as Hk by (unfold UINT64_MAX; pow2; lia).
  destruct (skip_add_contents sl m hd tl ch i i flips n H
              ltac:(rewrite Hconv; exact Hk) ltac:(lia))
    as (m1 & ch1 & Hrun & H1 & Hc1 & Ht1 & _ & Hl1 & _).
  rewrite Hconv in Hrun, Hc1.
  rewrite bool_decide_eq_false_2 in Hrun by exact Habs. cbn [negb] in Hrun.
  destruct (SLcontents_sorted sl m hd tl ch H) as [Hs _].
  assert (i ∈ (SLcontents m1 ch1).*1) as Hin by (rewrite Hc1; apply kv_insert_keys; auto).
  pose proof (skip_get_run sl m1 hd tl ch1 i n H1 (Ht1 Ht) ltac:(lia) ltac:(lia)) as Hget.
  rewrite Hc1, (kv_lookup_insert i i _ Hs) in Hget.
  rewrite (kv_lookup_absent i _ Habs) in Hget.
  pose proof (skip_contains_run sl m1 hd tl ch1 i n H1 (Ht1 Ht) ltac:(lia) ltac:(lia)) as Hcon.
  rewrite bool_decide_eq_true_2 in Hcon by exact Hin.
  destruct (skip_remove_contents sl m1 hd tl ch1 i n H1 ltac:(lia) ltac:(lia))
    as (m2 & ch2 & Hrem & H2 & Hc2 & Ht2 & _ & Hl2 & _).
  rewrite bool_decide_eq_true_2 in Hrem by exact Hin.
  exists m2, ch2. unfold worker_step.
  mstep Hrun. mstep Hget. rewrite Z.eqb_refl. mstep Hcon. mstep Hrem.
  split; [reflexivity|]. split; [exact H2|]. split; [auto|].
  split; [rewrite Hc2, Hc1; apply kv_remove_insert, Habs|lia].
Qed.

Lemma worker_loop_run sl hd tl (rnd : Z -> list bool) (f : failures) (n : nat) :
  forall cnt (i : Z) (m : mem Z) ch,
    SLrep sl m hd tl ch -> SLtidy ch ->
    (0 < i)%Z -> (i + Z.of_nat cnt <= 2 ^ 31)%Z ->
    (forall j, (i <= j < i + Z.of_nat cnt)%Z -> j ∉ (SLcontents m ch).*1) ->
    length (heap m) + cnt <= n ->
    exists m' ch',
      worker_loop n cnt sl i rnd f m = Ok (f, m') /\
      SLrep sl m' hd tl ch' /\ SLtidy ch' /\
      SLcontents m' ch' = SLcontents m ch.
Proof.
  induction cnt as [|cnt IH]; intros i m ch H Ht Hi Hend Habs Hn.
  - exists m, ch. auto.
  - destruct (worker_step_run sl m hd tl ch i (rnd i) f n H Ht ltac:(lia)
                (Habs i ltac:(lia)) ltac:(lia))
      as (m1 & ch1 & Hrun & H1 & Ht1 & Hc1 & Hl1).
    destruct (IH (i + 1)%Z m1 ch1 H1 Ht1 ltac:(lia) ltac:(lia))
      as (m' & ch' & Hrun' & H' & Ht' & Hc').
    { intros j Hj. rewrite Hc1. apply Habs. lia. }
    { lia. }
    exists m', ch'. simpl worker_loop. mstep Hrun. rewrite Hc', Hc1. auto.
Qed.

End MainLoops.

(** ** Helping: a search completes the removal of a marked node *)

Section ListHelping.
Import LockFreeList.
Context {T : Type}.
Implicit Types (m : mem T) (l : List) (h : list (LNode T)).

Lemma bind_eq {S A B : Type} (c1 c2 : M S A) (k : A -> M S B) (s1 s2 : S) :
  c1 s1 = c2 s2 -> bind c1 k s1 = bind c2 k s2.
Proof. unfold bind. intros ->. reflexivity. Qed.

(** A search walks over unmarked nodes that hold smaller keys. *)
Lemma list_walk_prefix m (key0 : Z) (n : nat) :
  forall ys p0 c0 q fuel,
    path (nxL (heap m)) c0 ys ->
    Forall (fun a => (kyL (heap m) a < key0)%Z) (c0 :: ys) ->
    nxL (heap m) (end_of c0 ys) = Some (q, false) ->
    walk n (S (length ys) + fuel) key0 (Some p0) (Some c0) m
    = walk n fuel key0 (Some (end_of c0 ys)) q m.
Proof.
  induction ys as [|y ys IH]; intros p0 c0 q fuel Hp Hall Hend;
    apply Forall_cons in Hall as [Hkc Hall]; cbn [length Nat.add]; simpl walk.
  - simpl in Hend. pose proof Hend as (nc & Hnc & _)%nxL_Some.
    mstep (get_next_run _ _ _ _ Hend). rewrite snip_loop_clean. mret.
    mstep (load_run _ _ _ Hnc). rewrite (kyL_load _ _ _ Hnc) in Hkc.
    rewrite Z.geb_leb, (proj2 (Z.leb_gt _ _)) by lia. reflexivity.
  - destruct Hp as [Hc Hp]. pose proof Hc as (nc & Hnc & _)%nxL_Some.
    mstep (get_next_run _ _ _ _ Hc). rewrite snip_loop_clean. mret.
    mstep (load_run _ _ _ Hnc). rewrite (kyL_load _ _ _ Hnc) in Hkc.
    rewrite Z.geb_leb, (proj2 (Z.leb_gt _ _)) by lia.
    apply (IH c0 y q fuel Hp Hall Hend).
Qed.

Lemma list_walk_unfold (n fuel : nat) (key0 : Z) (pred curr : ptr) :
  walk (T := T) n (S fuel) key0 pred curr =
  (let* (succ, marked) := get_next curr in
   let* r := snip_loop n pred curr succ marked in
   match r with
   | Retry => ret None
   | Clean curr succ =>
       let* c := load curr in
       if (key c >=? key0)%Z then ret (Some (pred, curr))
       else walk n fuel key0 curr succ
   end).
Proof. reflexivity. Qed.

Lemma list_find_loop_unfold (n fuel : nat) (hd : ptr) (key0 : Z) :
  find_loop (T := T) n (S fuel) hd key0 =
  (let* curr := getReference hd in
   let* r := walk n n key0 hd curr in
   match r with
   | Some w => ret w
   | None => find_loop n fuel hd key0
   end).
Proof. reflexivity. Qed.

Lemma list_snip_loop_unfold (fuel : nat) (pred curr succ : ptr) :
  snip_loop (T := T) (S fuel) pred curr succ true =
  (let* snip := compareAndSet pred curr succ false false in
   if negb snip then ret Retry
   else
     let* (succ', marked) := get_next succ in
     snip_loop fuel pred succ succ' marked).
Proof. reflexivity. Qed.

(** Standing before a marked node, a search unlinks it and goes on from
    its successor. *)
Lemma list_walk_snip m (key0 : Z) (n fuel : nat) (p c y : addr) (s : ptr) :
  nxL (heap m) c = Some (Some y, true) ->
  nxL (heap m) p = Some (Some c, false) ->
  nxL (updL (heap m) p (Some y) false) y = Some (s, false) ->
  walk (S n) (S fuel) key0 (Some p) (Some c) m
  = walk (S n) (S fuel) key0 (Some p) (Some y)
      (MkMem (updL (heap m) p (Some y) false) (calls m)).
Proof.
  intros Hc Hp Hy.
  set (m2 := MkMem (updL (heap m) p (Some y) false) (calls m)).
  assert (snip_loop (S n) (Some p) (Some c) (Some y) true m
          = Ok (Clean (Some y) s, m2)) as Hsnip.
  { rewrite list_snip_loop_unfold.
    mstep (compareAndSet_run m _ _ _ (Some y) false Hp). cbn [negb].
    fold m2. mstep (get_next_run m2 _ _ _ Hy). rewrite snip_loop_clean. reflexivity. }
  rewrite !list_walk_unfold. mstep (get_next_run _ _ _ _ Hc). mstep Hsnip.
  mstep (get_next_run m2 _ _ _ Hy). rewrite snip_loop_clean. mret. reflexivity.
Qed.

Lemma sorted_last_max (ky : addr -> Z) (xs : list addr) (a : addr) :
  StronglySorted (klt ky) (a :: xs) ->
  forall x, x ∈ a :: xs -> (ky x <= ky (end_of a xs))%Z.
Proof.
  revert a. induction xs as [|y ys IH]; intros a Hs x Hx.
  - apply list_elem_of_singleton in Hx as ->. simpl. lia.
  - apply StronglySorted_cons in Hs as [Hall Hs]. cbn [end_of].
    apply elem_of_cons in Hx as [->|Hx]; [|apply (IH y Hs x Hx)].
    rewrite Forall_forall in Hall.
    pose proof (Hall y ltac:(set_solver)) as Hay. unfold klt in Hay.
    pose proof (IH y Hs y ltac:(set_solver)). lia.
Qed.

(** The states before and after the unlinking of a marked node. *)
Lemma list_find_helps l m hd tl pre c post (y : addr) (k : Z) (n : nat)
    (cl : list epoch_call) :
  Lrep l m hd tl (pre ++ c :: post) ->
  nxL (heap m) c = Some (Some y, false) ->
  (kyL (heap m) (end_of hd pre) < k)%Z ->
  length (heap m) <= n ->
  find n (head l) k (MkMem (updL (heap m) c (Some y) true) cl)
  = find n (head l) k (MkMem (heap_removed (heap m) (end_of hd pre) c y) cl).
Proof.
  intros H Hcy Hk Hn.
  set (p := end_of hd pre) in *.
  set (m1 := MkMem (updL (heap m) c (Some y) true) cl).
  set (m2 := MkMem (heap_removed (heap m) p c y) cl).
  pose proof (Lrep_length _ _ _ _ _ H) as Hlen.
  pose proof (Lrep_NoDup _ _ _ _ _ H) as Hnd.
  pose proof (Lrep_path _ _ _ _ _ H) as Hp.
  pose proof (Lrep_sorted _ _ _ _ _ H) as Hs.
  rewrite <- app_assoc, <- app_comm_cons in Hnd, Hp, Hs.
  pose proof Hp as Hp'. apply path_app in Hp' as [Hpre [Hpc _]]. fold p in Hpc.
  assert (NoDup (hd :: pre) /\ c ∉ hd :: pre) as [Hndpre Hcpre].
  { rewrite app_comm_cons in Hnd. apply NoDup_app in Hnd as (Hnd1 & Hd & _).
    split; [exact Hnd1|]. intros Hin. apply (Hd c Hin). set_solver. }
  assert (p ∈ hd :: pre) as Hpin by apply end_of_elem.
  assert (p <> c) as Hpc_ne by (intros ->; contradiction).
  assert (c < length (heap m)) as Hclt by (eapply nxL_lt; eauto).
  assert (p < length (heap m)) as Hplt by (eapply nxL_lt; eauto).
  assert (y <> c /\ y <> p) as [Hyc Hyp].
  { assert (NoDup ((hd :: pre) ++ c :: post ++ [tl])) as Hnd' by exact Hnd.
    destruct (post ++ [tl]) as [|y' ys] eqn:Epost; [destruct post; discriminate|].
    apply path_app in Hp as [_ (_ & Hcy' & _)]. rewrite Hcy in Hcy'. injection Hcy' as <-.
    apply NoDup_app in Hnd' as (_ & Hd & Hnd2).
    apply NoDup_cons in Hnd2 as [Hc2 _]. split.
    - intros ->. apply Hc2. set_solver.
    - intros ->. apply (Hd p Hpin). set_solver. }
  assert (forall x, kyL (heap m1) x = kyL (heap m) x) as Hky1
    by (intros x; apply kyL_updL).
  assert (forall x, kyL (heap m2) x = kyL (heap m) x) as Hky2.
  { intros x. subst m2. cbn [heap]. unfold heap_removed. rewrite !kyL_updL. reflexivity. }
  assert (nxL (heap m1) c = Some (Some y, true)) as Hc1
    by (apply nxL_updL_eq; exact Hclt).
  assert (nxL (heap m1) p = Some (Some c, false)) as Hp1.
  { subst m1. cbn [heap]. rewrite nxL_updL_ne by exact Hpc_ne. exact Hpc. }
  assert (exists s, nxL (heap m2) y = Some (s, false)) as [s Hy2].
  { destruct (Lrep_valid _ _ _ _ _ y H) as [[s b] Hy].
    - destruct (post ++ [tl]) as [|y' ys] eqn:Epost; [destruct post; discriminate|].
      apply path_app in Hp as [_ (_ & Hcy' & _)]. rewrite Hcy in Hcy'. injection Hcy' as <-.
      rewrite <- app_assoc, <- app_comm_cons, Epost. set_solver.
    - assert (b = false) as ->.
      { destruct (decide (y = tl)) as [->|Hnt].
        - destruct (Lrep_tl_ref _ _ _ _ _ H) as [q Hq]. congruence.
        - destruct (path_source (nx := nxL (heap m)) hd ((pre ++ c :: post) ++ [tl]) y)
            as [z Hz]; [apply (Lrep_path _ _ _ _ _ H)| |rewrite end_of_snoc; exact Hnt|congruence].
          destruct (post ++ [tl]) as [|y' ys] eqn:Epost; [destruct post; discriminate|].
          apply path_app in Hp as [_ (_ & Hcy' & _)]. rewrite Hcy in Hcy'.
          injection Hcy' as <-. rewrite <- app_assoc, <- app_comm_cons, Epost. set_solver. }
      exists s. subst m2. cbn [heap]. unfold heap_removed.
      rewrite !nxL_updL_ne by auto. exact Hy. }
  assert (nxL (heap m2) p = Some (Some y, false)) as Hp2.
  { subst m2. cbn [heap]. unfold heap_removed. apply nxL_updL_eq.
    rewrite length_updL. exact Hplt. }
  assert (Forall (fun a => (kyL (heap m) a < k)%Z) (hd :: pre)) as Hall.
  { apply Forall_forall. intros x Hx.
    assert (StronglySorted (klt (kyL (heap m))) (hd :: pre)) as Hs'.
    { rewrite app_comm_cons in Hs. apply StronglySorted_app in Hs. tauto. }
    pose proof (sorted_last_max _ _ _ Hs' x Hx). fold p in H0. lia. }
  destruct n as [|n']; [lia|].
  unfold find. rewrite !list_find_loop_unfold, (Lrep_head _ _ _ _ _ H).
  destruct pre as [|x pre'].
  - (* the marked node follows head *)
    cbn [end_of] in p. subst p.
    mstep (getReference_run m1 _ _ _ Hp1). mstep (getReference_run m2 _ _ _ Hp2).
    apply bind_eq. exact (list_walk_snip m1 k n' n' hd c y s Hc1 Hp1 Hy2).
  - destruct Hpre as [Hhd Hpre].
    assert (hd <> c /\ hd <> p) as [Hhc Hhp].
    { split; [set_solver|]. apply NoDup_cons in Hndpre as [Hh _].
      intros E. apply Hh. rewrite E. unfold p. cbn [end_of]. apply end_of_elem. }
    assert (nxL (heap m1) hd = Some (Some x, false)) as Hhd1.
    { subst m1. cbn [heap]. rewrite nxL_updL_ne by auto. exact Hhd. }
    assert (nxL (heap m2) hd = Some (Some x, false)) as Hhd2.
    { subst m2. cbn [heap]. unfold heap_removed. rewrite !nxL_updL_ne by auto. exact Hhd. }
    mstep (getReference_run m1 _ _ _ Hhd1). mstep (getReference_run m2 _ _ _ Hhd2).
    apply bind_eq.
    apply NoDup_cons in Hndpre as [_ Hndx].
    apply Forall_cons in Hall as [_ Hall].
    assert (path (nxL (heap m1)) x pre') as Hpre1.
    { apply (path_ext (nx := nxL (heap m)) x pre' Hndx); [|exact Hpre].
      intros z Hz _. subst m1. cbn [heap]. apply nxL_updL_ne. set_solver. }
    assert (path (nxL (heap m2)) x pre') as Hpre2.
    { apply (path_ext (nx := nxL (heap m)) x pre' Hndx); [|exact Hpre].
      intros z Hz Hzp. subst m2. cbn [heap]. unfold heap_removed.
      rewrite !nxL_updL_ne; [reflexivity|set_solver|exact Hzp]. }
    assert (length pre' + 3 <= S n') as Hfuel.
    { rewrite length_app in Hlen. simpl in Hlen. lia. }
    assert (exists fuel, S n' = S (length pre') + S fuel) as [fuel Efuel]
      by (exists (n' - length pre' - 1); lia).
    rewrite Efuel at 2 4.
    rewrite (list_walk_prefix m1 k (S n') pre' hd x (Some c) (S fuel) Hpre1);
      [|eapply Forall_impl; [exact Hall|]; intros a Ha; simpl; rewrite Hky1; exact Ha
       |exact Hp1].
    rewrite (list_walk_prefix m2 k (S n') pre' hd x (Some y) (S fuel) Hpre2);
      [|eapply Forall_impl; [exact Hall|]; intros a Ha; simpl; rewrite Hky2; exact Ha
       |exact Hp2].
    cbn [end_of] in p. fold p.
    exact (list_walk_snip m1 k n' fuel p c y s Hc1 Hp1 Hy2).
Qed.

Lemma bind_eq_modify {S B : Type} (f : S -> S) (k : unit -> M S B) (s1 s2 : S) :
  k tt (f s1) = k tt (f s2) -> bind (modify f) k s1 = bind (modify f) k s2.
Proof. intros E. exact E. Qed.

(** [add] and [remove] start with that search. *)
Lemma list_writers_help l m hd tl pre c post (y : addr) (k : Z) (v : T) (n : nat)
    (cl : list epoch_call) :
  Lrep l m hd tl (pre ++ c :: post) ->
  nxL (heap m) c = Some (Some y, false) ->
  (kyL (heap m) (end_of hd pre) < k)%Z ->
  length (heap m) <= n ->
  add n l k v (MkMem (updL (heap m) c (Some y) true) cl)
  = add n l k v (MkMem (heap_removed (heap m) (end_of hd pre) c y) cl) /\
  remove n l k (MkMem (updL (heap m) c (Some y) true) cl)
  = remove n l k (MkMem (heap_removed (heap m) (end_of hd pre) c y) cl).
Proof.
  intros H Hcy Hk Hn.
  pose proof (list_find_helps l m hd tl pre c post y k n (EnterEpoch thread_id :: cl)
                H Hcy Hk Hn) as Hfind.
  pose proof (Lrep_length _ _ _ _ _ H) as Hlen.
  destruct n as [|n']; [lia|]. split.
  - unfold add, enterEpoch. apply bind_eq_modify.
    simpl add_loop. apply bind_eq. exact Hfind.
  - unfold remove, enterEpoch. apply bind_eq_modify.
    apply bind_eq. simpl remove_mark. apply bind_eq. exact Hfind.
Qed.

(** The remover that is stopped right after its [attemptMark]. *)
Lemma list_remove_mark_run l m hd tl pre c post (n : nat) :
  Lrep l m hd tl (pre ++ c :: post) ->
  length (heap m) <= n ->
  exists y,
    nxL (heap m) c = Some (Some y, false) /\
    remove_mark n n l (kyL (heap m) c) m
    = Ok (Some (Some (end_of hd pre), Some c, Some y),
          MkMem (updL (heap m) c (Some y) true) (calls m)).
Proof.
  intros H Hn. pose proof (Lrep_length _ _ _ _ _ H) as Hlen.
  destruct (Lrep_removed l m hd tl pre c post [] H) as (y & Hcy & _).
  exists y. split; [exact Hcy|].
  pose proof (Lrep_sorted _ _ _ _ _ H) as Hs.
  apply StronglySorted_cons in Hs as [Hhd Hs].
  rewrite <- app_assoc, <- app_comm_cons in Hs.
  pose proof Hs as Hs'. apply StronglySorted_app in Hs' as (Hcross & _ & Hs2).
  apply StronglySorted_cons in Hs2 as [Hcpost _].
  assert (kyL (heap m) c < UINT64_MAX)%Z as Hcmax.
  { rewrite Forall_forall in Hcpost. specialize (Hcpost tl ltac:(set_solver)).
    unfold klt in Hcpost. rewrite (Lrep_tl_key _ _ _ _ _ H) in Hcpost. exact Hcpost. }
  destruct (list_find_run l m hd tl (pre ++ c :: post) (kyL (heap m) c) n H ltac:(lia) Hn)
    as (pre0 & c0 & post0 & Heq & Hall & Hc0 & Hrun).
  assert (Forall (fun a => (kyL (heap m) a < kyL (heap m) c)%Z) pre) as Hpre.
  { apply Forall_forall. intros x Hx. apply (Hcross x c Hx). set_solver. }
  rewrite <- app_assoc, <- app_comm_cons in Heq.
  destruct (below_split (kyL (heap m)) (kyL (heap m) c) pre c (post ++ [tl]) Hpre
              ltac:(lia)) as [Hb Hf].
  destruct (below_split (kyL (heap m)) (kyL (heap m) c) pre0 c0 post0 Hall Hc0) as [Hb0 Hf0].
  rewrite Heq, Hb0 in Hb. rewrite Heq, Hf0 in Hf. subst pre0. injection Hf as -> _.
  pose proof Hcy as (nc & Hnc & _)%nxL_Some.
  destruct n as [|n']; [lia|]. simpl remove_mark. mstep Hrun.
  mstep (load_run m _ _ Hnc). rewrite <- (kyL_load _ _ _ Hnc), Z.eqb_refl. cbn [negb].
  mstep (getReference_run m _ _ _ Hcy). mstep (attemptMark_run m _ _ Hcy). reflexivity.
Qed.

End ListHelping.

(** ** List::contains on a chain with marked nodes *)

Section ListMarkedReads.
Import LockFreeList.
Context {T : Type}.
Implicit Types (m : mem T) (l : List) (h : list (LNode T)).

Lemma list_contains_loop_shape m (key0 : Z) :
  forall ys c fuel,
    path (unmark (nxL (heap m))) c ys ->
    (key0 <= kyL (heap m) (end_of c ys))%Z ->
    is_Some (heap m !! end_of c ys) ->
    length ys < fuel ->
    exists pre c' post,
      c :: ys = pre ++ c' :: post /\
      Forall (fun a => (kyL (heap m) a < key0)%Z) pre /\
      (key0 <= kyL (heap m) c')%Z /\
      contains_loop fuel key0 (Some c) m
      = Ok ((kyL (heap m) c' =? key0)%Z && negb (markL (heap m) c'), m).
Proof.
  induction ys as [|y ys IH]; intros c fuel Hp Hk Hv Hf;
    (destruct fuel as [|fuel]; [simpl in Hf; lia|]); simpl contains_loop.
  - simpl in Hk, Hv. destruct Hv as [nc Hnc].
    mstep (getReference_run _ _ _ _ (nxL_node _ _ _ Hnc)).
    mstep (getMark_run _ _ _ _ (nxL_node _ _ _ Hnc)).
    mstep (load_run _ _ _ Hnc).
    exists [], c, []. split; [reflexivity|]. split; [constructor|]. split; [exact Hk|].
    unfold markL. rewrite (kyL_load _ _ _ Hnc) in Hk |- *. rewrite Hnc. simpl.
    rewrite (proj2 (Z.geb_le _ _)) by lia. reflexivity.
  - destruct Hp as [Hc Hp]. pose proof Hc as (nc & Hnc & Hval)%unmark_Some.
    mstep (getReference_run _ _ _ _ (nxL_node _ _ _ Hnc)).
    mstep (getMark_run _ _ _ _ (nxL_node _ _ _ Hnc)).
    mstep (load_run _ _ _ Hnc).
    destruct (Z.geb_spec (key nc) key0) as [Hge|Hlt].
    + exists [], c, (y :: ys). split; [reflexivity|]. split; [constructor|].
      unfold markL. rewrite (kyL_load _ _ _ Hnc), Hnc. simpl. split; [lia|reflexivity].
    + rewrite Hval.
      destruct (IH y fuel Hp Hk Hv ltac:(simpl in Hf; lia))
        as (pre & c' & post & Heq & Hall & Hc' & Hrun).
      exists (c :: pre), c', post. rewrite Heq. split; [reflexivity|].
      split; [|split; [exact Hc'|exact Hrun]].
      constructor; [|exact Hall]. rewrite (kyL_load _ _ _ Hnc). lia.
Qed.

Lemma list_contains_shape l m hd tl cs (k : Z) (n : nat) :
  Lshape l m hd tl cs ->
  (0 < k < UINT64_MAX)%Z ->
  length cs + 2 <= n ->
  contains n l k m
  = Ok (bool_decide
          (k ∈ kyL (heap m) <$> filter (fun a => markL (heap m) a = false) cs), m).
Proof.
  intros H Hk Hn. unfold contains. rewrite (Lshape_head _ _ _ _ _ H).
  destruct (list_contains_loop_shape m k (cs ++ [tl]) hd n (Lshape_path _ _ _ _ _ H))
    as (pre' & c & post & Heq & Hall & Hc & Hrun).
  { rewrite end_of_snoc, (Lshape_tl_key _ _ _ _ _ H). lia. }
  { rewrite end_of_snoc. apply (Lshape_tl_node _ _ _ _ _ H). }
  { rewrite length_app. simpl. lia. }
  rewrite Hrun. do 2 f_equal.
  destruct pre' as [|x pre].
  { simpl in Heq. injection Heq as <- _. rewrite (Lshape_hd_key _ _ _ _ _ H) in Hc. lia. }
  simpl in Heq. injection Heq as <- Heq. apply Forall_cons in Hall as [_ Hall].
  pose proof (Lshape_sorted _ _ _ _ _ H) as Hs.
  apply StronglySorted_cons in Hs as [_ Hs]. rewrite Heq in Hs.
  apply StronglySorted_app in Hs as (_ & _ & Hs).
  apply StronglySorted_cons in Hs as [Hpost _].
  rewrite Forall_forall in Hall, Hpost. unfold klt in Hpost.
  assert (forall a, a ∈ cs -> a ∈ pre \/ a = c \/ a ∈ post) as Hsplit.
  { intros a Ha. assert (a ∈ cs ++ [tl]) as Ha' by set_solver.
    rewrite Heq in Ha'. set_solver. }
  destruct (Z.eqb_spec (kyL (heap m) c) k) as [E|E]; cbn [andb].
  - destruct (markL (heap m) c) eqn:Emk; cbn [negb].
    + rewrite bool_decide_eq_false_2; [reflexivity|].
      intros (a & Hka & Ha)%list_elem_of_fmap.
      apply list_elem_of_filter in Ha as [Hma Ha].
      destruct (Hsplit a Ha) as [Hin|[->|Hin]].
      * specialize (Hall a Hin). lia.
      * congruence.
      * specialize (Hpost a Hin). lia.
    + rewrite bool_decide_eq_true_2; [reflexivity|].
      apply list_elem_of_fmap. exists c. split; [auto|].
      apply list_elem_of_filter. split; [exact Emk|].
      destruct (snoc_split _ _ _ _ _ Heq) as [(_ & -> & _)|(post' & _ & ->)].
      * rewrite (Lshape_tl_key _ _ _ _ _ H) in E. lia.
      * set_solver.
  - rewrite bool_decide_eq_false_2; [reflexivity|].
    intros (a & Hka & Ha)%list_elem_of_fmap.
    apply list_elem_of_filter in Ha as [Hma Ha].
    destruct (Hsplit a Ha) as [Hin|[->|Hin]].
    + specialize (Hall a Hin). lia.
    + congruence.
    + specialize (Hpost a Hin). lia.
Qed.

End ListMarkedReads.

(** * Further properties of List.h *)

Section ListProperties.
Import LockFreeList.
Context {T : Type}.
Implicit Types (m : mem T) (l : List) (h : list (LNode T)).

(** X1: the constructor of the list allocates the two sentinels, calls
    nothing of the epoch manager that the log records, and leaves a
    well-formed list that holds no key: every user key is reported absent by
    [contains] and [get], and [remove] of it answers false. *)
Theorem X1_new_list_is_empty (d : T) (cl : list epoch_call) :
  exists l m,
    new_List d (MkMem [] cl) = Ok (l, m) /\
    Lrep l m 0 1 [] /\ Lcontents m [] = [] /\
    length (heap m) = 2 /\ calls m = cl /\
    forall k, (0 < k < UINT64_MAX)%Z ->
      contains 2 l k m = Ok (false, m) /\
      get 2 l k m = Ok (None, m) /\
      exists m', remove 2 l k m = Ok (false, m') /\ heap m' = heap m.
Proof.
  destruct (new_List_ok d cl) as (l & m & Hnew & H & Hhd & Htl).
  exists l, m. split; [exact Hnew|]. split; [exact H|]. split; [reflexivity|].
  assert (length (heap m) = 2 /\ calls m = cl) as [Hlen Hcalls].
  { vm_compute in Hnew. injection Hnew as <- <-. split; reflexivity. }
  split; [exact Hlen|]. split; [exact Hcalls|]. intros k Hk.
  rewrite (list_contains_run l m 0 1 [] k 2 H Hk ltac:(simpl; lia)).
  rewrite (list_get_run l m 0 1 [] k 2 H Hk ltac:(simpl; lia)).
  split; [reflexivity|]. split; [reflexivity|].
  destruct (list_remove_ok l m 0 1 [] k 2 H ltac:(lia) ltac:(lia))
    as (b & m' & cs' & Hrun & _ & Hb & _ & Hf).
  destruct b.
  - exfalso. destruct Hb as [Hb _]. specialize (Hb eq_refl). set_solver.
  - exists m'. split; [exact Hrun|]. apply Hf. reflexivity.
Qed.

(** X2: on a well-formed list, [Window::find] of a key above 0 returns the
    two adjacent nodes between which the key belongs, the first with a
    smaller key and the second with a key at least as large, and writes
    nothing. *)
Theorem X2_list_find_window l m hd tl cs (key0 : Z) (n : nat) :
  Lrep l m hd tl cs ->
  (0 < key0 <= UINT64_MAX)%Z ->
  length (heap m) <= n ->
  exists pred curr,
    find n (head l) key0 m = Ok ((Some pred, Some curr), m) /\
    pred ∈ hd :: cs /\ curr ∈ cs ++ [tl] /\
    nxL (heap m) pred = Some (Some curr, false) /\
    (kyL (heap m) pred < key0 <= kyL (heap m) curr)%Z.
Proof.
  intros H Hk Hn.
  destruct (list_find_run l m hd tl cs key0 n H ltac:(lia) Hn)
    as (pre & c & post & Heq & Hall & Hc & Hrun).
  exists (end_of hd pre), c. split; [exact Hrun|].
  pose proof (Lrep_path _ _ _ _ _ H) as Hp. rewrite Heq in Hp.
  apply path_app in Hp as [_ [Hp _]].
  assert (forall x, x ∈ pre -> x ∈ cs) as Hpre.
  { intros x Hx. destruct post as [|y post _] using rev_ind.
    - apply app_inj_tail in Heq as [-> _]. exact Hx.
    - rewrite app_comm_cons, app_assoc in Heq. apply app_inj_tail in Heq as [-> _].
      set_solver. }
  split; [|split; [rewrite Heq; set_solver|split; [exact Hp|split; [|exact Hc]]]].
  - pose proof (end_of_elem hd pre) as Hin.
    apply elem_of_cons in Hin as [->|Hin]; [set_solver|].
    apply elem_of_cons. right. apply Hpre, Hin.
  - pose proof (end_of_elem hd pre) as Hin.
    apply elem_of_cons in Hin as [->|Hin].
    + rewrite (Lrep_hd_key _ _ _ _ _ H). lia.
    + rewrite Forall_forall in Hall. apply Hall, Hin.
Qed.

(** X3: on a well-formed list, [add] of a user key answers true exactly
    when the key is absent and leaves the contents with the key inserted in
    key order; the payload of a key that is present is kept.  It allocates
    one node at most, retires nothing, and the list stays well formed. *)
Theorem X3_list_add_refines_insert l m hd tl cs (k : Z) (v : T) (n : nat) :
  Lrep l m hd tl cs ->
  (0 < k < UINT64_MAX)%Z ->
  length (heap m) <= n ->
  exists m' cs',
    add n l k v m = Ok (negb (bool_decide (k ∈ (Lcontents m cs).*1)), m') /\
    Lrep l m' hd tl cs' /\
    Lcontents m' cs' = kv_insert k v (Lcontents m cs) /\
    length (heap m') <= S (length (heap m)) /\
    retired (calls m') = retired (calls m).
Proof.
  intros H Hk Hn.
  destruct (list_add_contents l m hd tl cs k v n H Hk Hn)
    as (m' & cs' & Hrun & H' & Hc & Hl & Hr & _).
  exists m', cs'. auto.
Qed.

(** X4: on a well-formed list, [remove] of a key below that of tail answers
    true exactly when the key is present and leaves the contents without
    it.  No node is allocated, the protection depth is the one before the
    call, and the node that held the key, which is no longer in the chain,
    is the one node retired. *)
Theorem X4_list_remove_refines_delete l m hd tl cs (k : Z) (n : nat) :
  Lrep l m hd tl cs ->
  (0 <= k < UINT64_MAX)%Z ->
  length (heap m) <= n ->
  exists m' cs',
    remove n l k m = Ok (bool_decide (k ∈ (Lcontents m cs).*1), m') /\
    Lrep l m' hd tl cs' /\
    Lcontents m' cs' = kv_remove k (Lcontents m cs) /\
    length (heap m') = length (heap m) /\
    depth (calls m') = depth (calls m) /\
    (k ∉ (Lcontents m cs).*1 -> retired (calls m') = retired (calls m)) /\
    (k ∈ (Lcontents m cs).*1 ->
     exists r, r ∈ cs /\ (r ∉ cs') /\ kyL (heap m) r = k /\
               retired (calls m') = Some r :: retired (calls m)).
Proof. intros H Hk Hn. apply (list_remove_contents l m hd tl cs); assumption. Qed.

(** X5: on a well-formed list, [contains] of a user key tells whether the
    key is among the contents, and writes nothing. *)
Theorem X5_list_contains_is_membership l m hd tl cs (k : Z) (n : nat) :
  Lrep l m hd tl cs ->
  (0 < k < UINT64_MAX)%Z ->
  length cs + 2 <= n ->
  contains n l k m = Ok (bool_decide (k ∈ (Lcontents m cs).*1), m).
Proof. intros H Hk Hn. apply (list_contains_run l m hd tl cs); assumption. Qed.

(** X6: on a well-formed list, [get] of a user key returns the payload
    stored under the key, or nothing when the key is absent, and writes
    nothing. *)
Theorem X6_list_get_is_lookup l m hd tl cs (k : Z) (n : nat) :
  Lrep l m hd tl cs ->
  (0 < k < UINT64_MAX)%Z ->
  length cs + 2 <= n ->
  get n l k m = Ok (kv_lookup k (Lcontents m cs), m).
Proof. intros H Hk Hn. apply (list_get_run l m hd tl cs); assumption. Qed.

(** X7: on a well-formed list, after [add(k, v)] of a user key, [contains(k)]
    is true and [get(k)] returns the payload stored first under [k]: [v]
    when [add] answered true, the payload already there when it answered
    false. *)
Theorem X7_list_add_then_get l m hd tl cs (k : Z) (v : T) (n : nat) :
  Lrep l m hd tl cs ->
  (0 < k < UINT64_MAX)%Z ->
  length (heap m) < n ->
  exists b m',
    add n l k v m = Ok (b, m') /\
    get n l k m' = Ok (Some (default v (kv_lookup k (Lcontents m cs))), m') /\
    contains n l k m' = Ok (true, m') /\
    (b = true <-> kv_lookup k (Lcontents m cs) = None).
Proof. intros H Hk Hn. apply (list_add_get l m hd tl cs); assumption. Qed.

(** X8: on a well-formed list, [add] of an absent user key followed by
    [remove] of it leaves the contents and the protection depth as they
    were; both answer true, and the node retired is the node that [add]
    allocated. *)
Theorem X8_list_add_then_remove l m hd tl cs (k : Z) (v : T) (n : nat) :
  Lrep l m hd tl cs ->
  (0 < k < UINT64_MAX)%Z ->
  k ∉ (Lcontents m cs).*1 ->
  length (heap m) < n ->
  exists m1 m2 cs2,
    add n l k v m = Ok (true, m1) /\
    remove n l k m1 = Ok (true, m2) /\
    Lrep l m2 hd tl cs2 /\
    Lcontents m2 cs2 = Lcontents m cs /\
    depth (calls m2) = depth (calls m) /\
    retired (calls m2) = Some (length (heap m)) :: retired (calls m).
Proof. intros H Hk Habs Hn. apply (list_add_remove l m hd tl cs); assumption. Qed.

(** X9: a sequence of [add], [remove], [contains] and [get] on user keys,
    run by one thread on a well-formed list, answers as the same sequence
    does on the sorted association list of the contents, and leaves the
    contents that sequence leaves. *)
Theorem X9_list_ops_refine_map l m hd tl cs (ops : list list_op) (n : nat) :
  Lrep l m hd tl cs ->
  Forall list_op_user ops ->
  length (heap m) + length ops <= n ->
  exists m' cs',
    run_list_ops n l ops m = Ok ((kv_list_ops ops (Lcontents m cs)).1, m') /\
    Lrep l m' hd tl cs' /\
    Lcontents m' cs' = (kv_list_ops ops (Lcontents m cs)).2 /\
    kv_sorted (Lcontents m' cs').
Proof.
  intros H Hops Hn.
  destruct (list_ops_refine l hd tl ops n m cs H Hops Hn) as (m' & cs' & Hrun & H' & Hc).
  exists m', cs'. split; [exact Hrun|]. split; [exact H'|]. split; [exact Hc|].
  apply (Lcontents_sorted l m' hd tl cs' H').
Qed.

(** X10: whatever the state, an operation of the list that returns has
    freed no node, has changed neither the key nor the payload of a node,
    and has left alone every reference that carried a deletion mark. *)
Theorem X10_list_never_rewrites_nodes l m (op : list_op) (n : nat) (a : answer) m' :
  run_list_op n l op m = Ok (a, m') ->
  length (heap m) <= length (heap m') /\
  forall x nd, heap m !! x = Some nd ->
    exists nd', heap m' !! x = Some nd' /\
      key nd' = key nd /\ data nd' = data nd /\
      (marked_ (next nd) = true -> next nd' = next nd).
Proof.
  intros Hrun.
  destruct (keepsL_run_list_op (length (heap m)) l op n m a m' ltac:(lia) Hrun) as [Hl Hst].
  split; [exact Hl|]. intros x nd Hx. apply (Hst x nd); [|exact Hx].
  eapply lookup_lt_Some; eauto.
Qed.

(** X11: on every chain from head to tail, with marked inner nodes or
    without, the keys of the sentinels are visible through the reads:
    [contains(0)] is true, [get(0)] returns the payload of head, and
    [get(UINT64_MAX)] returns the payload of tail unless the node before
    tail is marked. *)
Theorem X11_list_sentinel_keys_read l m hd tl cs (n : nat) :
  Lshape l m hd tl cs ->
  length cs + 2 <= n ->
  exists nh nt,
    heap m !! hd = Some nh /\ heap m !! tl = Some nt /\
    contains n l 0 m = Ok (true, m) /\
    get n l 0 m = Ok (Some (data nh), m) /\
    get n l UINT64_MAX m
    = Ok (if markL (heap m) (end_of hd cs) then None else Some (data nt), m).
Proof. intros H Hn. apply list_sentinels_visible; assumption. Qed.

(** X12: the key of tail as an argument of the writers.  On a well-formed
    list [add(UINT64_MAX, v)] takes tail for a duplicate: it answers false,
    changes no node and returns without [leaveEpoch].  [remove(UINT64_MAX)]
    answers true: it marks tail, unlinks it from the last node and retires
    it; after that [contains] of a key above the stored ones is false, and
    [get] and [add] of such a key follow a null pointer. *)
Theorem X12_list_tail_key_writes l m hd tl cs (v : T) (n : nat) :
  Lrep l m hd tl cs ->
  nxL (heap m) tl = Some (None, false) ->
  length (heap m) < n ->
  add n l UINT64_MAX v m = Ok (false, MkMem (heap m) (EnterEpoch thread_id :: calls m)) /\
  exists m',
    remove n l UINT64_MAX m = Ok (true, m') /\
    retired (calls m') = Some tl :: retired (calls m) /\
    nxL (heap m') tl = Some (None, true) /\
    nxL (heap m') (end_of hd cs) = Some (None, false) /\
    forall k w, (0 < k)%Z -> Forall (fun j => (j < k)%Z) (Lcontents m cs).*1 ->
      contains n l k m' = Ok (false, m') /\
      get n l k m' = Fault /\
      add n l k w m' = Fault.
Proof.
  intros H Htl Hn. split; [apply (list_add_tail_key l m hd tl cs v n H); lia|].
  eexists. split; [apply (list_remove_tail_key l m hd tl cs n H Htl); lia|].
  split; [reflexivity|]. cbn [heap].
  destruct (without_tail_chain l m hd tl cs H) as (_ & Hend & _).
  split; [|split; [exact Hend|]].
  - unfold heap_without_tail. rewrite nxL_updL_ne.
    + apply nxL_updL_eq. eapply nxL_lt; eauto.
    + pose proof (Lrep_NoDup _ _ _ _ _ H) as Hnd.
      rewrite app_comm_cons in Hnd. apply NoDup_app in Hnd as (_ & Hd & _).
      intros E. apply (Hd tl); [rewrite E; apply end_of_elem|set_solver].
  - intros k w Hk Hall.
    apply (list_after_tail_removed l m hd tl cs n _ k w H Hk Hall Hn).
Qed.

End ListProperties.

(** * Further properties of Skiplist.h *)

Section SkipListProperties.
Import LockFreeSkipList.
Context {T : Type}.
Implicit Types (m : mem T) (sl : SkipList) (h : list (SNodeBase T)).

(** X13: the constructor of the skip list allocates the two sentinels and
    leaves a well-formed, tidy skip list that holds no key: [popMin]
    returns nothing, every key below that of tail is reported absent by
    [contains] and [get], and [remove] of it answers false. *)
Theorem X13_new_skiplist_is_empty (cl : list epoch_call) :
  exists sl m,
    new_SkipList (MkMem (T := T) [] cl) = Ok (sl, m) /\
    SLrep sl m 0 1 (fun _ => []) /\ SLtidy (fun _ : nat => @nil addr) /\
    SLcontents m (fun _ => []) = [] /\
    length (heap m) = 2 /\ calls m = cl /\
    popMin 2 sl m = Ok (None, m) /\
    forall k, (0 <= k < UINT64_MAX)%Z ->
      contains 2 sl k m = Ok (false, m) /\
      get 2 sl k m = Ok (None, m) /\
      exists m', remove 2 sl k m = Ok (false, m') /\ heap m' = heap m.
Proof.
  destruct (new_SkipList_ok (T := T) cl) as (sl & m & Hnew & H & Hcalls & Hlen).
  assert (SLtidy (fun _ : nat => @nil addr)) as Ht by (intros lv a _ Ha; exact Ha).
  exists sl, m. split; [exact Hnew|]. split; [exact H|]. split; [exact Ht|].
  split; [reflexivity|]. split; [exact Hlen|]. split; [exact Hcalls|].
  split; [apply (popMin_empty sl m 0 1 (fun _ => []) 2 H); [reflexivity|lia]|].
  intros k Hk.
  rewrite (skip_contains_run sl m 0 1 _ k 2 H Ht ltac:(lia) ltac:(lia)).
  rewrite (skip_get_run sl m 0 1 _ k 2 H Ht ltac:(lia) ltac:(lia)).
  split; [reflexivity|]. split; [reflexivity|].
  destruct (skip_remove_contents sl m 0 1 _ k 2 H Hk ltac:(lia))
    as (m' & ch' & Hrun & _ & _ & _ & _ & _ & Habs & _).
  exists m'. split; [exact Hrun|]. apply Habs.
  unfold SLcontents, SLpairs. simpl. apply not_elem_of_nil.
Qed.

(** X14: on a well-formed skip list, [find] of a key above 0 answers
    whether a live node holds the key, fills [preds] and [succs] at every
    level with two adjacent nodes of that level, the first with a smaller
    key and the second with a key at least as large, and writes nothing. *)
Theorem X14_skip_find_windows sl m hd tl ch (key0 : Z) (n : nat) (preds succs : list ptr) :
  SLrep sl m hd tl ch ->
  (0 < key0 < UINT64_MAX)%Z ->
  length (heap m) <= n ->
  length preds = S MAX_LEVEL -> length succs = S MAX_LEVEL ->
  exists preds' succs',
    find n sl key0 preds succs m
    = Ok ((bool_decide (key0 ∈ (SLcontents m ch).*1), preds', succs'), m) /\
    forall lv, lv <= MAX_LEVEL ->
      exists p s,
        preds' !! lv = Some (Some p) /\ succs' !! lv = Some (Some s) /\
        p ∈ hd :: ch lv /\ s ∈ ch lv ++ [tl] /\
        nxS (heap m) lv p = Some (Some s, false) /\
        (kyS (heap m) p < key0 <= kyS (heap m) s)%Z.
Proof.
  intros H Hk Hn Hlp Hls.
  destruct (find_run sl m hd tl ch key0 n preds succs H ltac:(lia) Hn Hlp Hls)
    as (preds' & succs' & Hfind & Hwin).
  pose proof (succ_at_key_mem sl m hd tl ch key0 H ltac:(lia)) as Hmem.
  rewrite <- (SLcontents_keys sl m hd tl ch H) in Hmem.
  exists preds', succs'. split.
  - rewrite Hfind. do 3 f_equal.
    destruct (Z.eqb_spec (kyS (heap m) (succ_at (heap m) tl ch key0 0)) key0) as [E|E].
    + rewrite bool_decide_eq_true_2; [reflexivity|]. apply Hmem, E.
    + rewrite bool_decide_eq_false_2; [reflexivity|]. rewrite Hmem. exact E.
  - intros lv Hlv. destruct (Hwin lv Hlv) as [Hp Hs].
    exists (pred_at (heap m) hd ch key0 lv), (succ_at (heap m) tl ch key0 lv).
    split; [exact Hp|]. split; [exact Hs|].
    pose proof (below_from (kyS (heap m)) key0 (ch lv)) as Hbf.
    split; [|split; [|split; [apply (pred_succ_link sl m hd tl ch key0 lv H Hlv)|split]]].
    + pose proof (pred_at_in m hd tl ch key0 lv) as Hin.
      pose proof (pred_at_lt sl m hd tl ch key0 lv H ltac:(lia)) as Hlt.
      rewrite app_comm_cons in Hin. apply elem_of_app in Hin as [Hin|Hin]; [exact Hin|].
      apply list_elem_of_singleton in Hin. rewrite Hin, (SL_tl_key _ _ _ _ _ H) in Hlt. lia.
    + pose proof (succ_at_in m hd tl ch key0 lv) as Hin.
      pose proof (succ_at_ge sl m hd tl ch key0 lv H ltac:(lia)) as Hge.
      apply elem_of_cons in Hin as [Hin|Hin]; [|exact Hin].
      rewrite Hin, (SL_hd_key _ _ _ _ _ H) in Hge. lia.
    + apply (pred_at_lt sl m hd tl ch key0 lv H). lia.
    + apply (succ_at_ge sl m hd tl ch key0 lv H). lia.
Qed.

(** X15: on a well-formed skip list, [add(key, x)] works with the key that
    went through its [int] parameter; when that is a user key it answers
    true exactly when the key is absent and leaves the contents with the key
    inserted in key order, keeping the payload of a key that is present.  A
    new node is linked at the levels up to [randomLevel()] and at no other;
    [enterEpoch] and [leaveEpoch] are called once each, one node at most is
    allocated, and a tidy skip list stays tidy. *)
Theorem X15_skip_add_refines_insert sl m hd tl ch (key : Z) (x : T) (flips : list bool)
    (n : nat) :
  SLrep sl m hd tl ch ->
  (0 < to_uint64 (to_int key) < UINT64_MAX)%Z ->
  length (heap m) <= n ->
  exists m' ch',
    add n sl key x flips m
    = Ok (negb (bool_decide (to_uint64 (to_int key) ∈ (SLcontents m ch).*1)), m') /\
    SLrep sl m' hd tl ch' /\
    SLcontents m' ch' = kv_insert (to_uint64 (to_int key)) x (SLcontents m ch) /\
    (SLtidy ch -> SLtidy ch') /\
    calls m' = LeaveEpoch thread_id :: EnterEpoch thread_id :: calls m /\
    length (heap m) <= length (heap m') <= S (length (heap m)) /\
    (to_uint64 (to_int key) ∉ (SLcontents m ch).*1 ->
     forall lv, lv <= MAX_LEVEL ->
       length (heap m) ∈ ch' lv <-> lv <= randomLevel MAX_LEVEL flips).
Proof. intros H Hk Hn. apply (skip_add_contents sl m hd tl ch); assumption. Qed.

(** X16: on a well-formed skip list, [remove] of a key below that of tail
    answers true exactly when the key is present and leaves the contents
    without it.  The node that held the key is in no chain afterwards and is
    the one node retired; no node is allocated, the protection depth is the
    one before the call, and a tidy skip list stays tidy. *)
Theorem X16_skip_remove_refines_delete sl m hd tl ch (k : Z) (n : nat) :
  SLrep sl m hd tl ch ->
  (0 <= k < UINT64_MAX)%Z ->
  length (heap m) <= n ->
  exists m' ch',
    remove n sl k m = Ok (bool_decide (k ∈ (SLcontents m ch).*1), m') /\
    SLrep sl m' hd tl ch' /\
    SLcontents m' ch' = kv_remove k (SLcontents m ch) /\
    (SLtidy ch -> SLtidy ch') /\
    depth (calls m') = depth (calls m) /\
    length (heap m') = length (heap m) /\
    (k ∉ (SLcontents m ch).*1 ->
     heap m' = heap m /\ ch' = ch /\ retired (calls m') = retired (calls m)) /\
    (k ∈ (SLcontents m ch).*1 ->
     exists r, r ∈ ch 0 /\ kyS (heap m) r = k /\
       (forall lv, lv <= MAX_LEVEL -> r ∉ ch' lv) /\
       retired (calls m') = Some r :: retired (calls m)).
Proof. intros H Hk Hn. apply (skip_remove_contents sl m hd tl ch); assumption. Qed.

(** X17: on a well-formed skip list whose upper levels hold live nodes
    only, [contains] of a key below that of tail tells whether the key is
    among the contents, and writes nothing. *)
Theorem X17_skip_contains_is_membership sl m hd tl ch (k : Z) (n : nat) :
  SLrep sl m hd tl ch -> SLtidy ch ->
  (k < UINT64_MAX)%Z ->
  length (heap m) <= n ->
  contains n sl k m = Ok (bool_decide (k ∈ (SLcontents m ch).*1), m).
Proof. intros H Ht Hk Hn. apply (skip_contains_run sl m hd tl ch); assumption. Qed.

(** X18: on a well-formed skip list whose upper levels hold live nodes
    only, [get] of a key below that of tail returns the payload stored under
    the key, or nothing when the key is absent, and writes nothing. *)
Theorem X18_skip_get_is_lookup sl m hd tl ch (k : Z) (n : nat) :
  SLrep sl m hd tl ch -> SLtidy ch ->
  (k < UINT64_MAX)%Z ->
  length (heap m) <= n ->
  get n sl k m = Ok (kv_lookup k (SLcontents m ch), m).
Proof. intros H Ht Hk Hn. apply (skip_get_run sl m hd tl ch); assumption. Qed.

(** X19: on a well-formed skip list, [popMin] returns the payload of the
    first binding of the contents and leaves the others, or returns nothing
    and changes nothing when there is none.  It calls neither [enterEpoch]
    nor [leaveEpoch], allocates no node, and retires the node it took and
    no other node; the upper levels stay free of removed nodes when that
    node had height 0. *)
Theorem X19_skip_popMin_takes_first_binding sl m hd tl ch (n : nat) :
  SLrep sl m hd tl ch -> 0 < n ->
  exists m' ch',
    popMin n sl m = Ok (snd <$> List.head (SLcontents m ch), m') /\
    SLrep sl m' hd tl ch' /\
    SLcontents m' ch' = List.tl (SLcontents m ch) /\
    depth (calls m') = depth (calls m) /\
    length (heap m') = length (heap m) /\
    (ch 0 = [] -> m' = m /\ ch' = ch) /\
    (forall c cs, ch 0 = c :: cs ->
       ch' = ch_pop ch /\ calls m' = RetireNode (Some c) currentEpoch :: calls m /\
       (topS (heap m) c = 0 -> SLtidy ch -> SLtidy ch')).
Proof. intros H Hn. apply (skip_popMin_contents sl m hd tl ch); assumption. Qed.

(** X20: on a well-formed skip list whose upper levels hold live nodes
    only, after [add(key, x)] of a key between 0 and 2^31, [contains(key)]
    is true and [get(key)] returns the payload stored first under [key]:
    [x] when [add] answered true, the payload already there when it
    answered false. *)
Theorem X20_skip_add_then_get sl m hd tl ch (key : Z) (x : T) (flips : list bool)
    (n : nat) :
  SLrep sl m hd tl ch ->
  SLtidy ch ->
  (0 < key < 2 ^ 31)%Z ->
  length (heap m) < n ->
  exists b m',
    add n sl key x flips m = Ok (b, m') /\
    get n sl key m' = Ok (Some (default x (kv_lookup key (SLcontents m ch))), m') /\
    contains n sl key m' = Ok (true, m') /\
    (b = true <-> kv_lookup key (SLcontents m ch) = None).
Proof. intros H Ht Hk Hn. apply (skip_add_get sl m hd tl ch); assumption. Qed.

(** X21: a sequence of operations run by one thread on a well-formed skip
    list, with [add] on keys above 0 and below 2^31 and [remove],
    [contains] and [get] on user keys, answers as the same sequence does on
    the sorted association list of the contents, where [add(k, v)] inserts
    under [k], and leaves the contents that sequence leaves, in two cases:
    the sequence holds no [contains] and no [get]; or the upper levels hold
    live nodes only and the sequence holds no [popMin], and then the upper
    levels hold live nodes only afterwards. *)
Theorem X21_skip_ops_refine_map sl m hd tl ch (ops : list skip_op) (n : nat) :
  SLrep sl m hd tl ch ->
  Forall skip_op_small ops ->
  length (heap m) + length ops <= n ->
  (Forall (fun op => skip_op_reads op = false) ops ->
   exists m' ch',
     run_skip_ops n sl ops m = Ok ((kv_skip_ops ops (SLcontents m ch)).1, m') /\
     SLrep sl m' hd tl ch' /\
     SLcontents m' ch' = (kv_skip_ops ops (SLcontents m ch)).2) /\
  (SLtidy ch -> Forall (fun op => skip_op_pops op = false) ops ->
   exists m' ch',
     run_skip_ops n sl ops m = Ok ((kv_skip_ops ops (SLcontents m ch)).1, m') /\
     SLrep sl m' hd tl ch' /\ SLtidy ch' /\
     SLcontents m' ch' = (kv_skip_ops ops (SLcontents m ch)).2).
Proof.
  intros H Hops Hn.
  assert (forall P : skip_op -> Prop, Forall P ops ->
            Forall (fun op => skip_op_small op /\ P op) ops) as Hboth.
  { intros P HP. rewrite Forall_forall in *. auto. }
  split.
  - intros Hrd. apply (skip_ops_refine_writes sl hd tl ops n m ch H (Hboth _ Hrd) Hn).
  - intros Ht Hpop.
    apply (skip_ops_refine_tidy sl hd tl ops n m ch H Ht (Hboth _ Hpop) Hn).
Qed.

(** X22: whatever the state, an operation of the skip list that returns
    has freed no node, has changed neither the key, the payload nor the
    height of a node, and has left alone every reference that carried a
    deletion mark. *)
Theorem X22_skip_never_rewrites_nodes sl m (op : skip_op) (n : nat) (a : answer) m' :
  run_skip_op n sl op m = Ok (a, m') ->
  length (heap m) <= length (heap m') /\
  forall x nd, heap m !! x = Some nd ->
    exists nd', heap m' !! x = Some nd' /\
      key nd' = key nd /\ data nd' = data nd /\ topLevel nd' = topLevel nd /\
      length (next nd') = length (next nd) /\
      forall lv r, next nd !! lv = Some r -> marked_ r = true -> next nd' !! lv = Some r.
Proof.
  intros Hrun.
  destruct (keepsS_run_skip_op (length (heap m)) sl op n m a m' ltac:(lia) Hrun) as [Hl Hst].
  split; [exact Hl|]. intros x nd Hx. apply (Hst x nd); [|exact Hx].
  eapply lookup_lt_Some; eauto.
Qed.

(** X23: [randomLevel] returns the number of random tests that succeeded
    before the first one that failed, cut at [maxIndex]: the result is at
    most [maxIndex], the tests before it succeeded, and when it is below
    [maxIndex] the next test did not. *)
Theorem X23_randomLevel_counts_heads (maxIndex : nat) (flips : list bool) :
  randomLevel maxIndex flips <= maxIndex /\
  (forall i, i < randomLevel maxIndex flips -> flips !! i = Some true) /\
  (randomLevel maxIndex flips < maxIndex ->
   flips !! randomLevel maxIndex flips <> Some true).
Proof.
  revert flips. induction maxIndex as [|mx IH]; intros flips.
  - simpl. split; [lia|]. split; [intros; lia|lia].
  - destruct flips as [|[] fs]; simpl.
    + split; [lia|]. split; [intros; lia|]. intros _ [=].
    + destruct (IH fs) as (Hle & Hpre & Hnext). split; [lia|]. split.
      * intros [|i] Hi; [reflexivity|]. simpl. apply Hpre. lia.
      * intros Hlt. apply Hnext. lia.
    + split; [lia|]. split; [intros; lia|]. intros _ [=].
Qed.

(** X24: which argument [SkipList::add(int key, T x)] stores under its
    own key.  On a well-formed skip list, for a [uint64_t] argument [k]
    that is absent and that the conversion through [int] turns into a user
    key, [add] returns and leaves a well-formed skip list that holds the
    converted key; it holds [k] itself exactly when [k] is below 2^31 or at
    least 2^64 - 2^31. *)
Theorem X24_add_keeps_key_iff_int_range sl m hd tl ch (k : Z) (x : T)
    (flips : list bool) (n : nat) :
  SLrep sl m hd tl ch ->
  (0 <= k < 2 ^ 64)%Z ->
  (0 < to_uint64 (to_int k) < UINT64_MAX)%Z ->
  k ∉ (SLcontents m ch).*1 ->
  length (heap m) <= n ->
  exists b m' ch',
    add n sl k x flips m = Ok (b, m') /\
    SLrep sl m' hd tl ch' /\
    (to_uint64 (to_int k) ∈ (SLcontents m' ch').*1) /\
    (k ∈ (SLcontents m' ch').*1 <-> (k < 2 ^ 31 \/ 2 ^ 64 - 2 ^ 31 <= k)%Z).
Proof.
  intros H Hk Hconv Habs Hn.
  destruct (skip_add_contents sl m hd tl ch k x flips n H Hconv Hn)
    as (m' & ch' & Hrun & H' & Hc & _).
  pose proof (kv_insert_keys (to_uint64 (to_int k)) x (SLcontents m ch)) as Hkeys.
  rewrite <- Hc in Hkeys.
  eexists _, m', ch'. split; [exact Hrun|]. split; [exact H'|].
  split; [apply Hkeys; left; reflexivity|].
  rewrite <- (to_uint64_to_int_fixed k Hk). split.
  - intros Hin. apply Hkeys in Hin as [E|Hin]; [symmetry; exact E|contradiction].
  - intros E. apply Hkeys. left. symmetry. exact E.
Qed.

(** X25: the key of tail as an argument of the skip list.  On a
    well-formed skip list whose upper levels hold live nodes only,
    [contains(UINT64_MAX)] is true; and [add] of an argument that becomes
    the key of tail, as -1 does, takes tail for a duplicate: it answers
    false and changes no node. *)
Theorem X25_skip_tail_key sl m hd tl ch (key : Z) (x : T) (flips : list bool) (n : nat) :
  SLrep sl m hd tl ch ->
  to_uint64 (to_int key) = UINT64_MAX ->
  length (heap m) <= n ->
  add n sl key x flips m
  = Ok (false, MkMem (heap m) (LeaveEpoch thread_id :: EnterEpoch thread_id :: calls m)) /\
  (SLtidy ch -> contains n sl UINT64_MAX m = Ok (true, m)).
Proof.
  intros H Hkey Hn. split.
  - apply (skip_add_tail_key sl m hd tl ch); assumption.
  - intros Ht. apply (skip_contains_tail_key sl m hd tl ch); assumption.
Qed.

(** X26: on a well-formed skip list, [advancePred] called on head or on a
    node of the chain of a level returns that node and writes nothing: the
    node after it carries no mark at that level. *)
Theorem X26_advancePred_identity sl m hd tl ch (lv : nat) (p : addr) (n : nat) :
  SLrep sl m hd tl ch -> lv <= MAX_LEVEL -> p ∈ hd :: ch lv -> 0 < n ->
  advancePred n (Some p) lv m = Ok (Some p, m).
Proof. intros H Hlv Hp Hn. apply (advancePred_run sl m hd tl ch); assumption. Qed.

End SkipListProperties.

(** * main.cpp *)

Section MainProperties.
Import LockFreeSkipList.

(** X27: [worker2(threadId, start, end)] run by one thread on a well-formed
    priority queue whose keys are all below [start], with [0 < start <= end]
    and [end * 10] in the range of [int], followed by the loop of [main]
    that pops until nothing is returned: the loop prints the payloads that
    were held, in key order, and then [start * 10], ..., [(end - 1) * 10],
    and leaves the queue empty. *)
Theorem X27_worker2_then_drain (pq : SkipList) (m : mem Z) hd tl ch
    (start end_ : Z) (rnd : Z -> list bool) (n : nat) :
  SLrep pq m hd tl ch ->
  (0 < start <= end_)%Z -> (end_ * 10 <= 2 ^ 31)%Z ->
  Forall (fun p => (p.1 < start)%Z) (SLcontents m ch) ->
  length (heap m) + Z.to_nat (end_ - start) <= n ->
  exists m' ch',
    (worker2 n pq start end_ rnd ;;
     drain n (S (length (ch 0) + Z.to_nat (end_ - start))) pq) m
    = Ok ((SLcontents m ch).*2 ++ ((fun i => i * 10)%Z <$> seqZ start (end_ - start)), m') /\
    SLrep pq m' hd tl ch' /\ SLcontents m' ch' = [].
Proof.
  intros H Hse Hend Hall Hn.
  pose proof (SLrep_length _ _ _ _ _ 0 H ltac:(lia)) as Hlen.
  destruct (worker2_loop_run pq hd tl rnd n (Z.to_nat (end_ - start)) start m ch H
              ltac:(lia) ltac:(pow2; lia) Hall Hn)
    as (m1 & ch1 & Hrun & H1 & Hc1 & Hl1 & _).
  rewrite Z2Nat.id in Hc1 by lia.
  assert (length (ch1 0) = length (ch 0) + Z.to_nat (end_ - start)) as Hlen1.
  { pose proof (f_equal length (SLcontents_keys pq m1 hd tl ch1 H1)) as E1.
    pose proof (f_equal length (SLcontents_keys pq m hd tl ch H)) as E0.
    unfold SLkeys in E0, E1. rewrite !length_fmap in E0, E1.
    rewrite <- E1, <- E0, Hc1, length_app, length_fmap, length_seqZ. lia. }
  destruct (drain_contents pq hd tl n ltac:(lia) (ch1 0) ch1 m1 H1 eq_refl)
    as (m' & ch' & Hdrain & H' & Hc' & _).
  exists m', ch'. split; [|auto].
  unfold worker2. mstep Hrun. rewrite <- Hlen1, Hdrain, Hc1.
  rewrite fmap_app, <- list_fmap_compose. reflexivity.
Qed.

(** X28: [worker(t)] run by one thread, for [t >= 1] with keys in the range
    of [int], on a well-formed skip list whose upper levels hold live nodes
    only and which holds none of the keys of the thread: no [add], [get],
    [contains] or [remove] of the loop fails, so the four failure counters
    are left as they were, and the skip list holds what it held. *)
Theorem X28_worker_no_failures (lst : SkipList) (m : mem Z) hd tl ch
    (t : Z) (rnd : Z -> list bool) (f : failures) (n : nat) :
  SLrep lst m hd tl ch -> SLtidy ch ->
  (1 <= t)%Z -> ((t + 1) * OPS_PER_THREAD <= 2 ^ 31)%Z ->
  (forall j, (t * OPS_PER_THREAD <= j < (t + 1) * OPS_PER_THREAD)%Z ->
     j ∉ (SLcontents m ch).*1) ->
  length (heap m) + Z.to_nat OPS_PER_THREAD <= n ->
  exists m' ch',
    worker n lst t rnd f m = Ok (f, m') /\
    SLrep lst m' hd tl ch' /\ SLtidy ch' /\
    SLcontents m' ch' = SLcontents m ch.
Proof.
  intros H Ht Ht1 Hmax Habs Hn. unfold worker.
  assert (((t + 1) * OPS_PER_THREAD - t * OPS_PER_THREAD)%Z = OPS_PER_THREAD) as ->
    by lia.
  apply (worker_loop_run lst hd tl rnd f n (Z.to_nat OPS_PER_THREAD)
           (t * OPS_PER_THREAD)%Z m ch H Ht); unfold OPS_PER_THREAD in *;
    rewrite ?Z2Nat.id by lia; try lia.
  intros j Hj. apply Habs. lia.
Qed.

End MainProperties.

(** * The list while a removal is under way *)

Section ListHelpingProperties.
Import LockFreeList.
Context {T : Type}.
Implicit Types (m : mem T) (l : List) (h : list (LNode T)).

(** X29: helping.  A remover that is stopped on a well-formed list right
    after its [attemptMark] leaves the node [c] it marked linked after the
    node before it.  [find], [add] and [remove] of a key above the key of
    that node then unlink [c], and run as they do on the list from which
    [c] is already unlinked; that list is well formed and holds the
    bindings of the other nodes. *)
Theorem X29_list_search_completes_removal l m hd tl pre c post (k : Z) (v : T)
    (n : nat) :
  Lrep l m hd tl (pre ++ c :: post) ->
  (kyL (heap m) (end_of hd pre) < k <= UINT64_MAX)%Z ->
  length (heap m) <= n ->
  exists y m1 m2,
    remove_mark n n l (kyL (heap m) c) m
    = Ok (Some (Some (end_of hd pre), Some c, Some y), m1) /\
    nxL (heap m1) c = Some (Some y, true) /\
    nxL (heap m1) (end_of hd pre) = Some (Some c, false) /\
    m2 = MkMem (heap_removed (heap m) (end_of hd pre) c y) (calls m1) /\
    Lrep l m2 hd tl (pre ++ post) /\
    Lcontents m2 (pre ++ post) = Lcontents m pre ++ Lcontents m post /\
    (exists w, find n (head l) k m1 = Ok (w, m2)) /\
    add n l k v m1 = add n l k v m2 /\
    remove n l k m1 = remove n l k m2.
Proof.
  intros H Hk Hn.
  destruct (list_remove_mark_run l m hd tl pre c post n H Hn) as (y & Hcy & Hmark).
  destruct (Lrep_removed l m hd tl pre c post (calls m) H) as (y' & Hcy' & H2).
  rewrite Hcy in Hcy'. injection Hcy' as <-.
  exists y, (MkMem (updL (heap m) c (Some y) true) (calls m)),
    (MkMem (heap_removed (heap m) (end_of hd pre) c y) (calls m)).
  split; [exact Hmark|]. cbn [heap calls].
  pose proof (Lrep_path _ _ _ _ _ H) as Hp.
  rewrite <- app_assoc in Hp. apply path_app in Hp as [_ [Hpc _]].
  pose proof (Lrep_NoDup _ _ _ _ _ H) as Hnd. rewrite <- app_assoc in Hnd.
  assert (end_of hd pre <> c) as Hne.
  { intros E. rewrite app_comm_cons in Hnd. apply NoDup_app in Hnd as (_ & Hd & _).
    apply (Hd (end_of hd pre) (end_of_elem _ _)). rewrite E. set_solver. }
  split; [apply nxL_updL_eq; eapply nxL_lt; eauto|].
  split; [rewrite nxL_updL_ne by exact Hne; exact Hpc|].
  split; [reflexivity|]. split; [exact H2|]. split.
  { rewrite <- Lcontents_app. apply Lcontents_ext. intros a _. apply kdL_removed. }
  pose proof (list_find_helps l m hd tl pre c post y k n (calls m) H Hcy ltac:(lia) Hn)
    as Hfind.
  destruct (list_writers_help l m hd tl pre c post y k v n (calls m) H Hcy ltac:(lia) Hn)
    as [Hadd Hrem].
  split; [|split; [exact Hadd|exact Hrem]].
  assert (length (heap (MkMem (heap_removed (heap m) (end_of hd pre) c y) (calls m))) <= n)
    as Hn2.
  { cbn [heap]. unfold heap_removed. rewrite !length_updL. exact Hn. }
  destruct (list_find_run l _ hd tl (pre ++ post) k n H2 ltac:(lia) Hn2)
    as (pre' & c' & post' & _ & _ & _ & Hrun).
  eexists. rewrite Hfind. exact Hrun.
Qed.

(** X30: on every chain from head to tail, with marked inner nodes or
    without, [contains] of a user key is true exactly when an unmarked node
    of the chain holds the key, and writes nothing: a node that carries the
    deletion mark counts as absent although it is still linked. *)
Theorem X30_list_contains_skips_marked l m hd tl cs (k : Z) (n : nat) :
  Lshape l m hd tl cs ->
  (0 < k < UINT64_MAX)%Z ->
  length cs + 2 <= n ->
  contains n l k m
  = Ok (bool_decide
          (k ∈ kyL (heap m) <$> filter (fun a => markL (heap m) a = false) cs), m).
Proof. intros H Hk Hn. apply (list_contains_shape l m hd tl cs); assumption. Qed.

End ListHelpingProperties.

(** * The further properties on the new containers *)

Lemma fresh_pq_rep :
  SLrep (fst fresh_pq) (snd fresh_pq) 0 1 (fun _ => []).
Proof.
  destruct (new_SkipList_ok (T := Z) []) as (sl & m & Heq & H & _).
  vm_compute in Heq. injection Heq as <- <-. exact H.
Qed.

Lemma no_chain_tidy : SLtidy (fun _ : nat => @nil addr).
Proof. intros lv a _ Ha. exact Ha. Qed.

Lemma X2_witness :
  Lrep (fst list_holding_5_9) (snd list_holding_5_9) 0 1 [2; 3] /\
  (0 < 7 <= UINT64_MAX)%Z /\
  length (LockFreeList.heap (snd list_holding_5_9)) <= 8 /\
  LockFreeList.find 8 (LockFreeList.head (fst list_holding_5_9)) 7 (snd list_holding_5_9)
  = Ok ((Some 2, Some 3), snd list_holding_5_9) /\
  (kyL (LockFreeList.heap (snd list_holding_5_9)) 2 < 7
   <= kyL (LockFreeList.heap (snd list_holding_5_9)) 3)%Z.
Proof.
  split; [exact list_holding_5_9_rep|]. split; [unfold UINT64_MAX; lia|]. split; [cbn; lia|].
  destruct (X2_list_find_window _ _ 0 1 [2; 3] 7 8 list_holding_5_9_rep
              ltac:(unfold UINT64_MAX; lia) ltac:(cbn; lia))
    as (p & c & Hrun & _ & _ & _ & Hkeys).
  assert (Some p = Some 2 /\ Some c = Some 3) as [Ep Ec].
  { vm_compute in Hrun. injection Hrun as <- <-. split; reflexivity. }
  injection Ep as ->. injection Ec as ->. split; [exact Hrun|exact Hkeys].
Defined.

Lemma X3_witness :
  Lrep (fst fresh_list) (snd fresh_list) 0 1 [] /\
  (0 < 5 < UINT64_MAX)%Z /\
  length (LockFreeList.heap (snd fresh_list)) <= 2 /\
  exists m' cs',
    LockFreeList.add 2 (fst fresh_list) 5 7 (snd fresh_list) = Ok (true, m') /\
    Lcontents m' cs' = [(5%Z, 7)].
Proof.
  split; [exact fresh_list_rep|]. split; [unfold UINT64_MAX; lia|]. split; [cbn; lia|].
  destruct (X3_list_add_refines_insert _ _ 0 1 [] 5 7 2 fresh_list_rep
              ltac:(unfold UINT64_MAX; lia) ltac:(cbn; lia))
    as (m' & cs' & Hrun & _ & Hc & _).
  exists m', cs'. split; [exact Hrun|exact Hc].
Defined.

Lemma X4_witness :
  Lrep (fst list_holding_5_9) (snd list_holding_5_9) 0 1 [2; 3] /\
  (0 <= 5 < UINT64_MAX)%Z /\
  length (LockFreeList.heap (snd list_holding_5_9)) <= 8 /\
  exists m' cs',
    LockFreeList.remove 8 (fst list_holding_5_9) 5 (snd list_holding_5_9) = Ok (true, m') /\
    Lcontents m' cs' = [(9%Z, 8)] /\
    retired (LockFreeList.calls m')
    = Some 2 :: retired (LockFreeList.calls (snd list_holding_5_9)).
Proof.
  split; [exact list_holding_5_9_rep|]. split; [unfold UINT64_MAX; lia|]. split; [cbn; lia|].
  destruct (X4_list_remove_refines_delete _ _ 0 1 [2; 3] 5 8 list_holding_5_9_rep
              ltac:(unfold UINT64_MAX; lia) ltac:(cbn; lia))
    as (m' & cs' & Hrun & _ & Hc & _ & _ & _ & Hin).
  destruct (Hin ltac:(apply list_elem_of_here)) as (r & Hr & _ & Hkey & Hret).
  assert (r = 2) as ->.
  { apply elem_of_cons in Hr as [->|Hr]; [reflexivity|].
    apply list_elem_of_singleton in Hr as ->. vm_compute in Hkey. discriminate Hkey. }
  exists m', cs'. split; [exact Hrun|]. split; [exact Hc|exact Hret].
Defined.

Lemma X5_witness :
  Lrep (fst list_holding_5_9) (snd list_holding_5_9) 0 1 [2; 3] /\
  (0 < 9 < UINT64_MAX)%Z /\
  length [2; 3] + 2 <= 8 /\
  LockFreeList.contains 8 (fst list_holding_5_9) 9 (snd list_holding_5_9)
  = Ok (true, snd list_holding_5_9) /\
  LockFreeList.contains 8 (fst list_holding_5_9) 7 (snd list_holding_5_9)
  = Ok (false, snd list_holding_5_9).
Proof.
  split; [exact list_holding_5_9_rep|]. split; [unfold UINT64_MAX; lia|].
  split; [simpl; lia|]. split.
  - apply (X5_list_contains_is_membership _ _ 0 1 [2; 3] 9 8 list_holding_5_9_rep);
      [unfold UINT64_MAX; lia|simpl; lia].
  - apply (X5_list_contains_is_membership _ _ 0 1 [2; 3] 7 8 list_holding_5_9_rep);
      [unfold UINT64_MAX; lia|simpl; lia].
Defined.

Lemma X6_witness :
  Lrep (fst list_holding_5_9) (snd list_holding_5_9) 0 1 [2; 3] /\
  (0 < 9 < UINT64_MAX)%Z /\
  length [2; 3] + 2 <= 8 /\
  LockFreeList.get 8 (fst list_holding_5_9) 9 (snd list_holding_5_9)
  = Ok (Some 8, snd list_holding_5_9) /\
  LockFreeList.get 8 (fst list_holding_5_9) 7 (snd list_holding_5_9)
  = Ok (None, snd list_holding_5_9).
Proof.
  split; [exact list_holding_5_9_rep|]. split; [unfold UINT64_MAX; lia|].
  split; [simpl; lia|]. split.
  - apply (X6_list_get_is_lookup _ _ 0 1 [2; 3] 9 8 list_holding_5_9_rep);
      [unfold UINT64_MAX; lia|simpl; lia].
  - apply (X6_list_get_is_lookup _ _ 0 1 [2; 3] 7 8 list_holding_5_9_rep);
      [unfold UINT64_MAX; lia|simpl; lia].
Defined.

Lemma X7_witness :
  Lrep (fst fresh_list) (snd fresh_list) 0 1 [] /\
  (0 < 5 < UINT64_MAX)%Z /\
  length (LockFreeList.heap (snd fresh_list)) < 3 /\
  exists b m',
    LockFreeList.add 3 (fst fresh_list) 5 7 (snd fresh_list) = Ok (b, m') /\
    LockFreeList.get 3 (fst fresh_list) 5 m' = Ok (Some 7, m').
Proof.
  split; [exact fresh_list_rep|]. split; [unfold UINT64_MAX; lia|]. split; [cbn; lia|].
  destruct (X7_list_add_then_get _ _ 0 1 [] 5 7 3 fresh_list_rep
              ltac:(unfold UINT64_MAX; lia) ltac:(cbn; lia))
    as (b & m' & Hadd & Hget & _).
  exists b, m'. split; [exact Hadd|exact Hget].
Defined.

Lemma X8_witness :
  Lrep (fst fresh_list) (snd fresh_list) 0 1 [] /\
  (0 < 5 < UINT64_MAX)%Z /\
  (5%Z ∉ (Lcontents (snd fresh_list) []).*1) /\
  length (LockFreeList.heap (snd fresh_list)) < 3 /\
  exists m1 m2,
    LockFreeList.add 3 (fst fresh_list) 5 7 (snd fresh_list) = Ok (true, m1) /\
    LockFreeList.remove 3 (fst fresh_list) 5 m1 = Ok (true, m2) /\
    retired (LockFreeList.calls m2) = [Some 2].
Proof.
  assert (5%Z ∉ (Lcontents (snd fresh_list) []).*1) as Habs
    by (simpl; apply not_elem_of_nil).
  split; [exact fresh_list_rep|]. split; [unfold UINT64_MAX; lia|].
  split; [exact Habs|]. split; [cbn; lia|].
  destruct (X8_list_add_then_remove _ _ 0 1 [] 5 7 3 fresh_list_rep
              ltac:(unfold UINT64_MAX; lia) Habs ltac:(cbn; lia))
    as (m1 & m2 & cs2 & Hadd & Hrem & _ & _ & _ & Hret).
  exists m1, m2. split; [exact Hadd|]. split; [exact Hrem|exact Hret].
Defined.

Lemma X9_witness :
  Lrep (fst fresh_list) (snd fresh_list) 0 1 [] /\
  Forall list_op_user [LAdd 5 7; LGet 5; LRemove 5; LContains 5] /\
  length (LockFreeList.heap (snd fresh_list))
  + length [LAdd 5 7; LGet 5; LRemove 5; LContains 5] <= 6 /\
  exists m',
    run_list_ops 6 (fst fresh_list) [LAdd 5 7; LGet 5; LRemove 5; LContains 5]
      (snd fresh_list)
    = Ok ([Flag true; Payload (Some 7); Flag true; Flag false], m').
Proof.
  assert (Forall list_op_user [LAdd 5 7; LGet 5; LRemove 5; LContains 5]) as Hops
    by (repeat constructor; unfold UINT64_MAX; lia).
  split; [exact fresh_list_rep|]. split; [exact Hops|]. split; [cbn; lia|].
  destruct (X9_list_ops_refine_map _ _ 0 1 [] _ 6 fresh_list_rep Hops ltac:(cbn; lia))
    as (m' & cs' & Hrun & _).
  exists m'. exact Hrun.
Defined.

Lemma X10_witness :
  exists a m',
    run_list_op 2 (fst fresh_list) (LAdd 5 7) (snd fresh_list) = Ok (a, m') /\
    length (LockFreeList.heap (snd fresh_list)) <= length (LockFreeList.heap m').
Proof.
  eexists _, _. split; [vm_compute; reflexivity|].
  refine (proj1 (X10_list_never_rewrites_nodes (fst fresh_list) (snd fresh_list)
                   (LAdd 5 7) 2 _ _ _)).
  vm_compute. reflexivity.
Defined.

Lemma X11_witness :
  Lshape (fst fresh_list) (snd fresh_list) 0 1 [] /\
  length (@nil addr) + 2 <= 2 /\
  LockFreeList.contains 2 (fst fresh_list) 0 (snd fresh_list)
  = Ok (true, snd fresh_list).
Proof.
  split; [exact (Lrep_Lshape _ _ _ _ _ fresh_list_rep)|]. split; [simpl; lia|].
  destruct (X11_list_sentinel_keys_read _ _ 0 1 [] 2 (Lrep_Lshape _ _ _ _ _ fresh_list_rep)
              ltac:(simpl; lia))
    as (nh & nt & _ & _ & Hc & _).
  exact Hc.
Defined.

Lemma X12_witness :
  Lrep (fst fresh_list) (snd fresh_list) 0 1 [] /\
  nxL (LockFreeList.heap (snd fresh_list)) 1 = Some (None, false) /\
  length (LockFreeList.heap (snd fresh_list)) < 3 /\
  exists m',
    LockFreeList.remove 3 (fst fresh_list) UINT64_MAX (snd fresh_list) = Ok (true, m') /\
    LockFreeList.add 3 (fst fresh_list) 5 7 m' = Fault.
Proof.
  split; [exact fresh_list_rep|]. split; [reflexivity|]. split; [cbn; lia|].
  destruct (X12_list_tail_key_writes _ _ 0 1 [] 7 3 fresh_list_rep eq_refl ltac:(cbn; lia))
    as (_ & m' & Hrem & _ & _ & _ & Hafter).
  exists m'. split; [exact Hrem|].
  apply (Hafter 5%Z 7); [lia|constructor].
Defined.

Lemma X14_witness :
  SLrep (fst skiplist_holding_5_9) (snd skiplist_holding_5_9) 0 1 chains_5_9 /\
  (0 < 9 < UINT64_MAX)%Z /\
  length (LockFreeSkipList.heap (snd skiplist_holding_5_9)) <= 8 /\
  length (replicate (S LockFreeSkipList.MAX_LEVEL) (@None addr))
  = S LockFreeSkipList.MAX_LEVEL /\
  exists preds' succs',
    LockFreeSkipList.find 8 (fst skiplist_holding_5_9) 9
      (replicate (S LockFreeSkipList.MAX_LEVEL) None)
      (replicate (S LockFreeSkipList.MAX_LEVEL) None) (snd skiplist_holding_5_9)
    = Ok ((true, preds', succs'), snd skiplist_holding_5_9) /\
    preds' !! 0 = Some (Some 2) /\ succs' !! 0 = Some (Some 3) /\
    preds' !! 1 = Some (Some 2) /\ succs' !! 1 = Some (Some 1) /\
    preds' !! 2 = Some (Some 0) /\ succs' !! 2 = Some (Some 1).
Proof.
  split; [exact skiplist_holding_5_9_rep|]. split; [unfold UINT64_MAX; lia|].
  split; [cbn; lia|]. split; [reflexivity|].
  destruct (X14_skip_find_windows _ _ 0 1 chains_5_9 9 8
              (replicate (S LockFreeSkipList.MAX_LEVEL) None)
              (replicate (S LockFreeSkipList.MAX_LEVEL) None)
              skiplist_holding_5_9_rep ltac:(unfold UINT64_MAX; lia) ltac:(cbn; lia)
              eq_refl eq_refl)
    as (preds' & succs' & Hrun & _).
  exists preds', succs'. split; [exact Hrun|].
  vm_compute in Hrun. injection Hrun as <- <-. repeat split; reflexivity.
Defined.

Lemma X15_witness :
  SLrep (fst fresh_skiplist) (snd fresh_skiplist) 0 1 (fun _ => []) /\
  (0 < LockFreeSkipList.to_uint64 (LockFreeSkipList.to_int 5) < UINT64_MAX)%Z /\
  length (LockFreeSkipList.heap (snd fresh_skiplist)) <= 2 /\
  exists m' ch',
    LockFreeSkipList.add 2 (fst fresh_skiplist) 5 7 [true] (snd fresh_skiplist)
    = Ok (true, m') /\
    SLcontents m' ch' = [(5%Z, 7)].
Proof.
  assert (0 < LockFreeSkipList.to_uint64 (LockFreeSkipList.to_int 5) < UINT64_MAX)%Z as Hk
    by (vm_compute; split; reflexivity).
  split; [exact fresh_skiplist_rep|]. split; [exact Hk|]. split; [cbn; lia|].
  destruct (X15_skip_add_refines_insert _ _ 0 1 (fun _ => []) 5 7 [true] 2
              fresh_skiplist_rep Hk ltac:(cbn; lia))
    as (m' & ch' & Hrun & _ & Hc & _).
  exists m', ch'. split; [exact Hrun|exact Hc].
Defined.

Lemma X16_witness :
  SLrep (fst skiplist_holding_5_9) (snd skiplist_holding_5_9) 0 1 chains_5_9 /\
  (0 <= 5 < UINT64_MAX)%Z /\
  length (LockFreeSkipList.heap (snd skiplist_holding_5_9)) <= 8 /\
  exists m' ch',
    LockFreeSkipList.remove 8 (fst skiplist_holding_5_9) 5 (snd skiplist_holding_5_9)
    = Ok (true, m') /\
    SLcontents m' ch' = [(9%Z, 8)] /\
    (forall lv, lv <= LockFreeSkipList.MAX_LEVEL -> 2 ∉ ch' lv) /\
    retired (LockFreeSkipList.calls m')
    = Some 2 :: retired (LockFreeSkipList.calls (snd skiplist_holding_5_9)).
Proof.
  split; [exact skiplist_holding_5_9_rep|]. split; [unfold UINT64_MAX; lia|].
  split; [cbn; lia|].
  destruct (X16_skip_remove_refines_delete _ _ 0 1 chains_5_9 5 8
              skiplist_holding_5_9_rep ltac:(unfold UINT64_MAX; lia) ltac:(cbn; lia))
    as (m' & ch' & Hrun & _ & Hc & _ & _ & _ & _ & Hin).
  destruct (Hin ltac:(apply list_elem_of_here)) as (r & Hr & Hkey & Hout & Hret).
  assert (r = 2) as ->.
  { cbn in Hr. apply elem_of_cons in Hr as [->|Hr]; [reflexivity|].
    apply list_elem_of_singleton in Hr as ->. vm_compute in Hkey. discriminate Hkey. }
  exists m', ch'. split; [exact Hrun|]. split; [exact Hc|]. split; [exact Hout|exact Hret].
Defined.

Lemma X17_witness :
  SLrep (fst skiplist_holding_5_9) (snd skiplist_holding_5_9) 0 1 chains_5_9 /\
  SLtidy chains_5_9 /\ (9 < UINT64_MAX)%Z /\
  length (LockFreeSkipList.heap (snd skiplist_holding_5_9)) <= 8 /\
  LockFreeSkipList.contains 8 (fst skiplist_holding_5_9) 9 (snd skiplist_holding_5_9)
  = Ok (true, snd skiplist_holding_5_9) /\
  LockFreeSkipList.contains 8 (fst skiplist_holding_5_9) 7 (snd skiplist_holding_5_9)
  = Ok (false, snd skiplist_holding_5_9).
Proof.
  split; [exact skiplist_holding_5_9_rep|]. split; [exact chains_5_9_tidy|].
  split; [unfold UINT64_MAX; lia|]. split; [cbn; lia|]. split.
  - apply (X17_skip_contains_is_membership _ _ 0 1 chains_5_9 9 8
             skiplist_holding_5_9_rep chains_5_9_tidy);
      [unfold UINT64_MAX; lia|cbn; lia].
  - apply (X17_skip_contains_is_membership _ _ 0 1 chains_5_9 7 8
             skiplist_holding_5_9_rep chains_5_9_tidy);
      [unfold UINT64_MAX; lia|cbn; lia].
Defined.

Lemma X18_witness :
  SLrep (fst skiplist_holding_5_9) (snd skiplist_holding_5_9) 0 1 chains_5_9 /\
  SLtidy chains_5_9 /\ (9 < UINT64_MAX)%Z /\
  length (LockFreeSkipList.heap (snd skiplist_holding_5_9)) <= 8 /\
  LockFreeSkipList.get 8 (fst skiplist_holding_5_9) 9 (snd skiplist_holding_5_9)
  = Ok (Some 8, snd skiplist_holding_5_9) /\
  LockFreeSkipList.get 8 (fst skiplist_holding_5_9) 7 (snd skiplist_holding_5_9)
  = Ok (None, snd skiplist_holding_5_9).
Proof.
  split; [exact skiplist_holding_5_9_rep|]. split; [exact chains_5_9_tidy|].
  split; [unfold UINT64_MAX; lia|]. split; [cbn; lia|]. split.
  - apply (X18_skip_get_is_lookup _ _ 0 1 chains_5_9 9 8
             skiplist_holding_5_9_rep chains_5_9_tidy);
      [unfold UINT64_MAX; lia|cbn; lia].
  - apply (X18_skip_get_is_lookup _ _ 0 1 chains_5_9 7 8
             skiplist_holding_5_9_rep chains_5_9_tidy);
      [unfold UINT64_MAX; lia|cbn; lia].
Defined.

Lemma X19_witness :
  SLrep (fst skiplist_holding_5_9) (snd skiplist_holding_5_9) 0 1 chains_5_9 /\ 0 < 8 /\
  exists m' ch',
    LockFreeSkipList.popMin 8 (fst skiplist_holding_5_9) (snd skiplist_holding_5_9)
    = Ok (Some 7, m') /\
    SLcontents m' ch' = [(9%Z, 8)] /\
    LockFreeSkipList.calls m'
    = RetireNode (Some 2) currentEpoch :: LockFreeSkipList.calls (snd skiplist_holding_5_9).
Proof.
  split; [exact skiplist_holding_5_9_rep|]. split; [lia|].
  destruct (X19_skip_popMin_takes_first_binding _ _ 0 1 chains_5_9 8
              skiplist_holding_5_9_rep ltac:(lia))
    as (m' & ch' & Hrun & _ & Hc & _ & _ & _ & Hne).
  destruct (Hne 2 [3] eq_refl) as (_ & Hcalls & _).
  exists m', ch'. split; [exact Hrun|]. split; [exact Hc|exact Hcalls].
Defined.

Lemma X20_witness :
  SLrep (fst fresh_skiplist) (snd fresh_skiplist) 0 1 (fun _ => []) /\
  SLtidy (fun _ : nat => @nil addr) /\
  (0 < 5 < 2 ^ 31)%Z /\
  length (LockFreeSkipList.heap (snd fresh_skiplist)) < 3 /\
  exists b m',
    LockFreeSkipList.add 3 (fst fresh_skiplist) 5 7 [true] (snd fresh_skiplist)
    = Ok (b, m') /\
    LockFreeSkipList.get 3 (fst fresh_skiplist) 5 m' = Ok (Some 7, m').
Proof.
  assert (0 < 5 < 2 ^ 31)%Z as Hk by (vm_compute; split; reflexivity).
  split; [exact fresh_skiplist_rep|]. split; [exact no_chain_tidy|].
  split; [exact Hk|]. split; [cbn; lia|].
  destruct (X20_skip_add_then_get _ _ 0 1 (fun _ => []) 5 7 [true] 3
              fresh_skiplist_rep no_chain_tidy Hk ltac:(cbn; lia))
    as (b & m' & Hadd & Hget & _).
  exists b, m'. split; [exact Hadd|exact Hget].
Defined.

Lemma X21_witness :
  SLrep (fst fresh_skiplist) (snd fresh_skiplist) 0 1 (fun _ => []) /\
  Forall skip_op_small [SAdd 5 7 [true]; SAdd 3 9 []; SPopMin; SRemove 5] /\
  length (LockFreeSkipList.heap (snd fresh_skiplist))
  + length [SAdd 5 7 [true]; SAdd 3 9 []; SPopMin; SRemove 5] <= 6 /\
  exists m',
    run_skip_ops 6 (fst fresh_skiplist) [SAdd 5 7 [true]; SAdd 3 9 []; SPopMin; SRemove 5]
      (snd fresh_skiplist)
    = Ok ([Flag true; Flag true; Payload (Some 9); Flag true], m').
Proof.
  assert (Forall skip_op_small [SAdd 5 7 [true]; SAdd 3 9 []; SPopMin; SRemove 5]) as Hops
    by (repeat constructor; vm_compute; reflexivity).
  split; [exact fresh_skiplist_rep|]. split; [exact Hops|]. split; [cbn; lia|].
  destruct (X21_skip_ops_refine_map _ _ 0 1 (fun _ => []) _ 6 fresh_skiplist_rep Hops
              ltac:(cbn; lia)) as [Hw _].
  destruct (Hw ltac:(repeat constructor)) as (m' & ch' & Hrun & _).
  exists m'. exact Hrun.
Defined.

Lemma X22_witness :
  exists a m',
    run_skip_op 2 (fst fresh_skiplist) (SAdd 5 7 [true]) (snd fresh_skiplist)
    = Ok (a, m') /\
    length (LockFreeSkipList.heap (snd fresh_skiplist))
    <= length (LockFreeSkipList.heap m').
Proof.
  eexists _, _. split; [vm_compute; reflexivity|].
  refine (proj1 (X22_skip_never_rewrites_nodes (fst fresh_skiplist) (snd fresh_skiplist)
                   (SAdd 5 7 [true]) 2 _ _ _)).
  vm_compute. reflexivity.
Defined.

Lemma X24_witness :
  SLrep (fst fresh_skiplist) (snd fresh_skiplist) 0 1 (fun _ => []) /\
  (0 <= 2 ^ 32 + 5 < 2 ^ 64)%Z /\
  (0 < LockFreeSkipList.to_uint64 (LockFreeSkipList.to_int (2 ^ 32 + 5)) < UINT64_MAX)%Z /\
  ((2 ^ 32 + 5)%Z ∉ (SLcontents (snd fresh_skiplist) (fun _ => [])).*1) /\
  length (LockFreeSkipList.heap (snd fresh_skiplist)) <= 2 /\
  exists b m' ch',
    LockFreeSkipList.add 2 (fst fresh_skiplist) (2 ^ 32 + 5) 7 [true] (snd fresh_skiplist)
    = Ok (b, m') /\
    (5%Z ∈ (SLcontents m' ch').*1) /\
    ((2 ^ 32 + 5)%Z ∉ (SLcontents m' ch').*1).
Proof.
  assert (0 <= 2 ^ 32 + 5 < 2 ^ 64)%Z as Hk by (split; [lia|reflexivity]).
  assert (0 < LockFreeSkipList.to_uint64 (LockFreeSkipList.to_int (2 ^ 32 + 5))
          < UINT64_MAX)%Z as Hconv by (split; reflexivity).
  assert ((2 ^ 32 + 5)%Z ∉ (SLcontents (snd fresh_skiplist) (fun _ => [])).*1) as Habs
    by (simpl; apply not_elem_of_nil).
  split; [exact fresh_skiplist_rep|]. split; [exact Hk|]. split; [exact Hconv|].
  split; [exact Habs|]. split; [cbn; lia|].
  destruct (X24_add_keeps_key_iff_int_range _ _ 0 1 (fun _ => []) (2 ^ 32 + 5) 7 [true] 2
              fresh_skiplist_rep Hk Hconv Habs ltac:(cbn; lia))
    as (b & m' & ch' & Hrun & _ & Hin & Hiff).
  exists b, m', ch'. split; [exact Hrun|]. split; [exact Hin|].
  intros Hk5. apply Hiff in Hk5 as [Hlt|Hge]; [discriminate Hlt|].
  apply Hge. reflexivity.
Defined.

Lemma X25_witness :
  SLrep (fst fresh_skiplist) (snd fresh_skiplist) 0 1 (fun _ => []) /\
  LockFreeSkipList.to_uint64 (LockFreeSkipList.to_int (-1)) = UINT64_MAX /\
  length (LockFreeSkipList.heap (snd fresh_skiplist)) <= 2 /\
  exists m',
    LockFreeSkipList.add 2 (fst fresh_skiplist) (-1) 7 [true] (snd fresh_skiplist)
    = Ok (false, m').
Proof.
  split; [exact fresh_skiplist_rep|]. split; [reflexivity|]. split; [cbn; lia|].
  destruct (X25_skip_tail_key _ _ 0 1 (fun _ => []) (-1) 7 [true] 2
              fresh_skiplist_rep eq_refl ltac:(cbn; lia)) as [Hadd _].
  eexists. exact Hadd.
Defined.

Lemma X26_witness :
  SLrep (fst skiplist_holding_5_9) (snd skiplist_holding_5_9) 0 1 chains_5_9 /\
  0 <= LockFreeSkipList.MAX_LEVEL /\ 2 ∈ 0 :: chains_5_9 0 /\ 0 < 8 /\
  advancePred 8 (Some 2) 0 (snd skiplist_holding_5_9)
  = Ok (Some 2, snd skiplist_holding_5_9).
Proof.
  assert (2 ∈ 0 :: chains_5_9 0) as Hin
    by (apply elem_of_cons; right; apply list_elem_of_here).
  split; [exact skiplist_holding_5_9_rep|]. split; [lia|]. split; [exact Hin|]. split; [lia|].
  apply (X26_advancePred_identity _ _ 0 1 chains_5_9 0 2 8 skiplist_holding_5_9_rep);
    [lia|exact Hin|lia].
Defined.

Lemma X27_witness :
  SLrep (fst fresh_pq) (snd fresh_pq) 0 1 (fun _ => []) /\
  (0 < 1 <= 3)%Z /\ (3 * 10 <= 2 ^ 31)%Z /\
  Forall (fun p : Z * Z => (p.1 < 1)%Z) (SLcontents (snd fresh_pq) (fun _ => [])) /\
  length (LockFreeSkipList.heap (snd fresh_pq)) + Z.to_nat (3 - 1) <= 4 /\
  exists m',
    (worker2 4 (fst fresh_pq) 1 3 (fun _ => [true]) ;;
     drain 4 3 (fst fresh_pq)) (snd fresh_pq)
    = Ok ([10; 20]%Z, m').
Proof.
  assert (3 * 10 <= 2 ^ 31)%Z as Hend by (vm_compute; discriminate).
  assert (Forall (fun p : Z * Z => (p.1 < 1)%Z) (SLcontents (snd fresh_pq) (fun _ => [])))
    as Hall by constructor.
  split; [exact fresh_pq_rep|]. split; [lia|]. split; [exact Hend|].
  split; [exact Hall|]. split; [cbn; lia|].
  destruct (X27_worker2_then_drain (fst fresh_pq) (snd fresh_pq) 0 1 (fun _ => []) 1 3
              (fun _ => [true]) 4 fresh_pq_rep ltac:(lia) Hend Hall ltac:(cbn; lia))
    as (m' & ch' & Hrun & _).
  exists m'. exact Hrun.
Defined.

Lemma X28_witness :
  SLrep (fst fresh_pq) (snd fresh_pq) 0 1 (fun _ => []) /\
  SLtidy (fun _ : nat => @nil addr) /\
  (1 <= 1)%Z /\ ((1 + 1) * OPS_PER_THREAD <= 2 ^ 31)%Z /\
  (forall j, (1 * OPS_PER_THREAD <= j < (1 + 1) * OPS_PER_THREAD)%Z ->
     j ∉ (SLcontents (snd fresh_pq) (fun _ => [])).*1) /\
  length (LockFreeSkipList.heap (snd fresh_pq)) + Z.to_nat OPS_PER_THREAD <= 2002 /\
  exists m',
    worker 2002 (fst fresh_pq) 1 (fun _ => [true]) (MkFailures 0 0 0 0) (snd fresh_pq)
    = Ok (MkFailures 0 0 0 0, m').
Proof.
  assert ((1 + 1) * OPS_PER_THREAD <= 2 ^ 31)%Z as Hmax by (vm_compute; discriminate).
  assert (length (LockFreeSkipList.heap (snd fresh_pq)) + Z.to_nat OPS_PER_THREAD <= 2002)
    as Hn by (apply Nat.leb_le; vm_compute; reflexivity).
  assert (forall j, (1 * OPS_PER_THREAD <= j < (1 + 1) * OPS_PER_THREAD)%Z ->
            j ∉ (SLcontents (snd fresh_pq) (fun _ => [])).*1) as Habs
    by (intros j _; simpl; apply not_elem_of_nil).
  split; [exact fresh_pq_rep|]. split; [exact no_chain_tidy|]. split; [lia|].
  split; [exact Hmax|]. split; [exact Habs|]. split; [exact Hn|].
  destruct (X28_worker_no_failures (fst fresh_pq) (snd fresh_pq) 0 1 (fun _ => []) 1
              (fun _ => [true]) (MkFailures 0 0 0 0) 2002 fresh_pq_rep no_chain_tidy
              ltac:(lia) Hmax Habs Hn)
    as (m' & ch' & Hrun & _).
  exists m'. exact Hrun.
Defined.

Lemma list_holding_5_rep :
  Lrep (fst list_holding_5) (snd list_holding_5) 0 1 [2].
Proof.
  constructor; cbn; eauto.
  repeat constructor; unfold klt, kyL; cbn; unfold UINT64_MAX; lia.
Qed.

Lemma X29_witness :
  Lrep (fst list_holding_5) (snd list_holding_5) 0 1 ([] ++ 2 :: []) /\
  (kyL (LockFreeList.heap (snd list_holding_5)) (end_of 0 []) < 9 <= UINT64_MAX)%Z /\
  length (LockFreeList.heap (snd list_holding_5)) <= 4 /\
  exists y m1 m2,
    LockFreeList.remove_mark 4 4 (fst list_holding_5) 5 (snd list_holding_5)
    = Ok (Some (Some 0, Some 2, Some y), m1) /\
    LockFreeList.add 4 (fst list_holding_5) 9 1 m1
    = LockFreeList.add 4 (fst list_holding_5) 9 1 m2.
Proof.
  assert (kyL (LockFreeList.heap (snd list_holding_5)) (end_of 0 []) < 9 <= UINT64_MAX)%Z
    as Hk by (cbn; unfold UINT64_MAX; lia).
  split; [exact list_holding_5_rep|]. split; [exact Hk|]. split; [cbn; lia|].
  destruct (X29_list_search_completes_removal _ _ 0 1 [] 2 [] 9 1 4
              list_holding_5_rep Hk ltac:(cbn; lia))
    as (y & m1 & m2 & Hmark & _ & _ & _ & _ & _ & _ & Hadd & _).
  exists y, m1, m2. split; [exact Hmark|exact Hadd].
Defined.

Lemma X30_witness :
  Lshape (fst list_holding_5) (snd list_holding_5) 0 1 [2] /\
  (0 < 5 < UINT64_MAX)%Z /\
  length [2] + 2 <= 3 /\
  LockFreeList.contains 3 (fst list_holding_5) 5 (snd list_holding_5)
  = Ok (true, snd list_holding_5).
Proof.
  split; [exact (Lrep_Lshape _ _ _ _ _ list_holding_5_rep)|].
  split; [unfold UINT64_MAX; lia|]. split; [simpl; lia|].
  apply (X30_list_contains_skips_marked _ _ 0 1 [2] 5 3
           (Lrep_Lshape _ _ _ _ _ list_holding_5_rep));
    [unfold UINT64_MAX; lia|simpl; lia].
Defined.
